(** * FastTOML: a shallow embedding of the TOML parser

    The development follows [src/toml_parser.cpp] and
    [include/fasttoml/toml_parser.hpp] function by function.

    - Bytes are [ascii]; a pointer into the input is its offset, a [Z].
      The C++ [char] is signed on the usual targets: every comparison
      the parser makes ([c >= 'a' && c <= 'f'], [c == '_'], ...) has the
      same truth value on the unsigned code of the byte, which is what
      [code] gives.  [std::isdigit] and [std::isalnum] are taken in the
      C locale.
    - A dereference outside the buffer is undefined behaviour in C++; the
      embedding makes it an explicit [Fault] outcome, so that memory
      safety can be stated.
    - [std::shared_ptr<Table>] and [std::shared_ptr<Array>] are locations
      of a store kept in the parser state: tables and arrays are mutated
      in place and may be reached through several pointers.
    - Signed arithmetic that leaves the range of its type is undefined
      behaviour as well; compiled for a two's complement machine it
      wraps around, and so does the embedding where an [int] or an
      [int64_t] can leave its range ([wrap_int], [wrap_int64]).
    - Loops run on a recursion budget; exhausting it is the explicit
      outcome [OutOfFuel].  The same budget bounds the depth of the
      calls by which [parse_value] reaches itself; the size of the C++
      call stack is not modelled. *)

From Stdlib Require Import ZArith List String Ascii Bool Lia.
From stdpp Require Import base gmap strings list.
Import ListNotations.
Open Scope Z_scope.

(** ** Characters *)

Definition code (c : ascii) : Z := Z.of_N (N_of_ascii c).

Definition NUL : ascii := "000"%char.
Definition BS : ascii := "008"%char.
Definition TAB : ascii := "009"%char.
Definition LF : ascii := "010"%char.
Definition FF : ascii := "012"%char.
Definition CR : ascii := "013"%char.
Definition DQUOTE : ascii := "034"%char.
Definition SQUOTE : ascii := "039"%char.
Definition BACKSLASH : ascii := "092"%char.

(** [std::isdigit], [std::isalnum] (C locale). *)
Definition isdigit (c : ascii) : bool := (48 <=? code c) && (code c <=? 57).
Definition isupper (c : ascii) : bool := (65 <=? code c) && (code c <=? 90).
Definition islower (c : ascii) : bool := (97 <=? code c) && (code c <=? 122).
Definition isalnum (c : ascii) : bool := isdigit c || isupper c || islower c.
(** [std::isspace] (C locale), used by the model of [std::stoll]. *)
Definition isspace (c : ascii) : bool :=
  (code c =? 32) || ((9 <=? code c) && (code c <=? 13)).

(** ** Memory: the bytes of the input buffer *)

Definition load (mem : list ascii) (p : Z) : option ascii :=
  if (0 <=? p) && (p <? Z.of_nat (length mem)) then mem !! Z.to_nat p else None.

(** [std::string(first, last)] for two pointers into the buffer. *)
Definition substr (mem : list ascii) (first last : Z) : string :=
  string_of_list_ascii (take (Z.to_nat (last - first)) (drop (Z.to_nat first) mem)).

(** ** SIMD-optimized utility functions *)

Module simd_utils.

Definition is_whitespace (c : ascii) : bool :=
  (c =? " ")%char || (c =? TAB)%char || (c =? CR)%char || (c =? LF)%char.

Definition is_whitespace_no_nl (c : ascii) : bool :=
  (c =? " ")%char || (c =? TAB)%char || (c =? CR)%char.

(** The scalar loop [while (ptr < end && P(ptr[0])) ++ptr; return ptr;].
    The recursion is on the loop variant [left = end - ptr], the number of
    bytes before [end]: the test [ptr < end] is [left <> 0]. *)
Fixpoint scalar_loop (P : ascii -> bool) (mem : list ascii) (left : nat) (ptr : Z)
  : option Z :=
  match left with
  | O => Some ptr
  | S left' =>
      match load mem ptr with
      | None => None
      | Some c => if P c then scalar_loop P mem left' (ptr + 1) else Some ptr
      end
  end.

(** Fallback scalar implementations (the [#else] branch). *)
Definition skip_whitespace (mem : list ascii) (ptr end_ : Z) : option Z :=
  scalar_loop is_whitespace mem (Z.to_nat (end_ - ptr)) ptr.

Definition skip_whitespace_no_nl (mem : list ascii) (ptr end_ : Z) : option Z :=
  scalar_loop is_whitespace_no_nl mem (Z.to_nat (end_ - ptr)) ptr.

Definition find_char_simd (mem : list ascii) (ptr end_ : Z) (c : ascii) : option Z :=
  scalar_loop (fun x => negb (x =? c)%char) mem (Z.to_nat (end_ - ptr)) ptr.

(** *** The AVX2 branch

    A [__m256i] is the list of its 32 byte lanes, lane 0 first. *)

Abbreviation m256i := (list Z).

Definition _mm256_set1_epi8 (c : ascii) : m256i := replicate 32 (code c).

(** [_mm256_loadu_si256]: reads the 32 bytes at [ptr .. ptr + 31]. *)
Fixpoint load_lanes (mem : list ascii) (n : nat) (ptr : Z) : option m256i :=
  match n with
  | O => Some []
  | S n' =>
      match load mem ptr, load_lanes mem n' (ptr + 1) with
      | Some c, Some v => Some (code c :: v)
      | _, _ => None
      end
  end.

Definition _mm256_loadu_si256 (mem : list ascii) (ptr : Z) : option m256i :=
  load_lanes mem 32 ptr.

Definition _mm256_cmpeq_epi8 (a b : m256i) : m256i :=
  zip_with (fun x y => if x =? y then 255 else 0) a b.

Definition _mm256_or_si256 (a b : m256i) : m256i := zip_with Z.lor a b.

(** [static_cast<unsigned int>(_mm256_movemask_epi8(v))]: bit [i] of the
    result is the top bit of lane [i]. *)
Fixpoint _mm256_movemask_epi8 (v : m256i) : Z :=
  match v with
  | [] => 0
  | b :: v' => Z.lor (Z.b2z (Z.testbit b 7)) (Z.shiftl (_mm256_movemask_epi8 v') 1)
  end.

(** [~mask] on [unsigned int]. *)
Definition not32 (mask : Z) : Z := Z.lxor mask 0xFFFFFFFF.

(** [ctz(unsigned int)]: count of trailing zero bits ([__builtin_ctz];
    the argument is never 0 where the source calls it). *)
Fixpoint ctz_from (n : nat) (x : Z) : Z :=
  match n with
  | O => 0
  | S n' => if Z.testbit x 0 then 0 else 1 + ctz_from n' (Z.shiftr x 1)
  end.

Definition ctz (x : Z) : Z := ctz_from 32 x.

Definition whitespace_mask (chunk : m256i) : Z :=
  let eq_space := _mm256_cmpeq_epi8 chunk (_mm256_set1_epi8 " ") in
  let eq_tab := _mm256_cmpeq_epi8 chunk (_mm256_set1_epi8 TAB) in
  let eq_cr := _mm256_cmpeq_epi8 chunk (_mm256_set1_epi8 CR) in
  let eq_nl := _mm256_cmpeq_epi8 chunk (_mm256_set1_epi8 LF) in
  let combined :=
    _mm256_or_si256 (_mm256_or_si256 eq_space eq_tab) (_mm256_or_si256 eq_cr eq_nl) in
  _mm256_movemask_epi8 combined.

Definition whitespace_no_nl_mask (chunk : m256i) : Z :=
  let eq_space := _mm256_cmpeq_epi8 chunk (_mm256_set1_epi8 " ") in
  let eq_tab := _mm256_cmpeq_epi8 chunk (_mm256_set1_epi8 TAB) in
  let eq_cr := _mm256_cmpeq_epi8 chunk (_mm256_set1_epi8 CR) in
  let combined := _mm256_or_si256 (_mm256_or_si256 eq_space eq_tab) eq_cr in
  _mm256_movemask_epi8 combined.

Definition find_mask (c : ascii) (chunk : m256i) : Z :=
  let target := _mm256_set1_epi8 c in
  let eq := _mm256_cmpeq_epi8 chunk target in
  _mm256_movemask_epi8 eq.

(** The loop [while (end - ptr >= 32) { ... ptr += 32; }] followed by the
    scalar tail.  The recursion is on [chunks = (end - ptr) / 32], the
    number of whole 32-byte chunks before [end]: the test
    [end - ptr >= 32] is [chunks <> 0]. *)
Fixpoint skip_chunks (mask_of : m256i -> Z) (P : ascii -> bool) (mem : list ascii)
    (chunks : nat) (ptr end_ : Z) : option Z :=
  match chunks with
  | O => scalar_loop P mem (Z.to_nat (end_ - ptr)) ptr
  | S chunks' =>
      match _mm256_loadu_si256 mem ptr with
      | None => None
      | Some chunk =>
          let mask := mask_of chunk in
          if negb (mask =? 0xFFFFFFFF)
          then Some (ptr + ctz (not32 mask))
          else skip_chunks mask_of P mem chunks' (ptr + 32) end_
      end
  end.

Fixpoint find_chunks (c : ascii) (mem : list ascii)
    (chunks : nat) (ptr end_ : Z) : option Z :=
  match chunks with
  | O => scalar_loop (fun x => negb (x =? c)%char) mem (Z.to_nat (end_ - ptr)) ptr
  | S chunks' =>
      match _mm256_loadu_si256 mem ptr with
      | None => None
      | Some chunk =>
          let mask := find_mask c chunk in
          if negb (mask =? 0)
          then Some (ptr + ctz mask)
          else find_chunks c mem chunks' (ptr + 32) end_
      end
  end.

Definition skip_whitespace_avx2 (mem : list ascii) (ptr end_ : Z) : option Z :=
  if end_ - ptr <? 32
  then scalar_loop is_whitespace mem (Z.to_nat (end_ - ptr)) ptr
  else skip_chunks whitespace_mask is_whitespace mem
         (Z.to_nat ((end_ - ptr) / 32)) ptr end_.

Definition skip_whitespace_no_nl_avx2 (mem : list ascii) (ptr end_ : Z) : option Z :=
  if end_ - ptr <? 32
  then scalar_loop is_whitespace_no_nl mem (Z.to_nat (end_ - ptr)) ptr
  else skip_chunks whitespace_no_nl_mask is_whitespace_no_nl mem
         (Z.to_nat ((end_ - ptr) / 32)) ptr end_.

Definition find_char_simd_avx2 (mem : list ascii) (ptr end_ : Z) (c : ascii)
  : option Z :=
  if end_ - ptr <? 32
  then scalar_loop (fun x => negb (x =? c)%char) mem (Z.to_nat (end_ - ptr)) ptr
  else find_chunks c mem (Z.to_nat ((end_ - ptr) / 32)) ptr end_.

End simd_utils.

(** ** Floating point

    [Float] is [double].  Its values and the conversion [std::stod] are
    not computed here: they are parameters of the development.  [stod s]
    is [None] when [std::stod] throws ([std::invalid_argument] or
    [std::out_of_range]). *)

Class FloatOps := {
  Float : Type;
  stod : string -> option Float;
  float_zero : Float;
  float_infinity : Float;
  float_quiet_NaN : Float;
  float_neg : Float -> Float;
}.

(** ** [std::stoll]

    Modelled from the C++ standard library ([strtoll]): leading white
    space, an optional sign, for base 16 an optional [0x] before a hex
    digit, then the longest run of digits of the base.  [None] stands for
    the exception: [std::invalid_argument] when there is no digit,
    [std::out_of_range] when the value does not fit [long long]. *)

Definition digit_value (c : ascii) : option Z :=
  if isdigit c then Some (code c - 48)
  else if islower c then Some (code c - 97 + 10)
  else if isupper c then Some (code c - 65 + 10)
  else None.

Definition digit_in_base (base : Z) (c : ascii) : option Z :=
  match digit_value c with
  | Some d => if d <? base then Some d else None
  | None => None
  end.

Fixpoint stoll_digits (base : Z) (s : list ascii) (acc : Z) (seen : bool)
  : option Z :=
  match s with
  | [] => if seen then Some acc else None
  | c :: s' =>
      match digit_in_base base c with
      | Some d => stoll_digits base s' (acc * base + d) true
      | None => if seen then Some acc else None
      end
  end.

Definition INT64_MAX : Z := 9223372036854775807.
Definition INT64_MIN : Z := -9223372036854775808.
Definition INT_MAX : Z := 2147483647.
Definition INT_MIN : Z := -2147483648.

(** The result of an [int64_t] and of an [int] operation: the
    mathematical result in two's complement, wrapped around where it
    leaves the range of the type. *)
Definition wrap_int64 (x : Z) : Z := (x - INT64_MIN) mod 2 ^ 64 + INT64_MIN.
Definition wrap_int (x : Z) : Z := (x - INT_MIN) mod 2 ^ 32 + INT_MIN.

Definition stoll_prefix (base : Z) (s : list ascii) : list ascii :=
  match s with
  | c0 :: x :: h :: _ =>
      if (base =? 16) && (c0 =? "0")%char && ((x =? "x")%char || (x =? "X")%char)
         && bool_decide (is_Some (digit_in_base 16 h))
      then drop 2 s else s
  | _ => s
  end.

Fixpoint skip_spaces (s : list ascii) : list ascii :=
  match s with
  | c :: s' => if isspace c then skip_spaces s' else s
  | [] => []
  end.

Definition stoll (str : string) (base : Z) : option Z :=
  let s := skip_spaces (list_ascii_of_string str) in
  let '(neg, s) :=
    match s with
    | c :: s' =>
        if (c =? "-")%char then (true, s')
        else if (c =? "+")%char then (false, s') else (false, s)
    | [] => (false, s)
    end in
  match stoll_digits base (stoll_prefix base s) 0 false with
  | None => None
  | Some v =>
      let v := if neg : bool then - v else v in
      if (INT64_MIN <=? v) && (v <=? INT64_MAX) then Some v else None
  end.

(** ** The data model ([toml_parser.hpp]) *)

(** A [std::shared_ptr] is the location of the object it points to. *)
Definition loc := nat.

Section Parser.
Context `{FloatOps}.

(** [DateTime] is [std::chrono::system_clock::time_point]: kept as the
    whole seconds since the epoch and the fraction of a second, which the
    source adds as a [double]. *)
Record DateTime := mkDateTime { dt_seconds : Z; dt_subsecond : Float }.

Record DateTimeOffset := mkDateTimeOffset { utc : DateTime; offset_minutes : Z }.

(** [TomlValue], the variant; [Integer] is [int64_t]. *)
Inductive TomlValue :=
| VInteger (v : Z)
| VFloat (v : Float)
| VBoolean (v : bool)
| VString (v : string)
| VDateTime (v : DateTime)
| VDateTimeOffset (v : DateTimeOffset)
| VTablePtr (p : loc)
| VArrayPtr (p : loc).

(** [class TomlParser], with the store its shared pointers point into.
    [input_] is the buffer behind [current_] and [end_].  [reported_] is
    a ghost field, absent from the source: it lists every message passed
    to [set_error], oldest first. *)
Record Parser := mkParser {
  input_ : list ascii;
  error_message_ : string;
  current_ : Z;
  end_ : Z;
  root_table_ : loc;
  current_table_ : option loc;
  array_of_tables_paths_ : gset (list string);
  tables_ : gmap loc (gmap string TomlValue);
  arrays_ : gmap loc (list TomlValue);
  next_ : loc;
  reported_ : list string;
}.

Definition with_error (m : string) (s : Parser) : Parser :=
  mkParser (input_ s) m (current_ s) (end_ s) (root_table_ s) (current_table_ s)
    (array_of_tables_paths_ s) (tables_ s) (arrays_ s) (next_ s) (reported_ s).

Definition with_reported (l : list string) (s : Parser) : Parser :=
  mkParser (input_ s) (error_message_ s) (current_ s) (end_ s) (root_table_ s)
    (current_table_ s) (array_of_tables_paths_ s) (tables_ s) (arrays_ s) (next_ s) l.

Definition with_current (p : Z) (s : Parser) : Parser :=
  mkParser (input_ s) (error_message_ s) p (end_ s) (root_table_ s) (current_table_ s)
    (array_of_tables_paths_ s) (tables_ s) (arrays_ s) (next_ s) (reported_ s).

Definition with_buffer (mem : list ascii) (p e : Z) (s : Parser) : Parser :=
  mkParser mem (error_message_ s) p e (root_table_ s) (current_table_ s)
    (array_of_tables_paths_ s) (tables_ s) (arrays_ s) (next_ s) (reported_ s).

Definition with_root (r : loc) (s : Parser) : Parser :=
  mkParser (input_ s) (error_message_ s) (current_ s) (end_ s) r (current_table_ s)
    (array_of_tables_paths_ s) (tables_ s) (arrays_ s) (next_ s) (reported_ s).

Definition with_current_table (t : option loc) (s : Parser) : Parser :=
  mkParser (input_ s) (error_message_ s) (current_ s) (end_ s) (root_table_ s) t
    (array_of_tables_paths_ s) (tables_ s) (arrays_ s) (next_ s) (reported_ s).

Definition with_paths (ps : gset (list string)) (s : Parser) : Parser :=
  mkParser (input_ s) (error_message_ s) (current_ s) (end_ s) (root_table_ s)
    (current_table_ s) ps (tables_ s) (arrays_ s) (next_ s) (reported_ s).

Definition with_tables (ts : gmap loc (gmap string TomlValue)) (s : Parser) : Parser :=
  mkParser (input_ s) (error_message_ s) (current_ s) (end_ s) (root_table_ s)
    (current_table_ s) (array_of_tables_paths_ s) ts (arrays_ s) (next_ s) (reported_ s).

Definition with_arrays (ars : gmap loc (list TomlValue)) (s : Parser) : Parser :=
  mkParser (input_ s) (error_message_ s) (current_ s) (end_ s) (root_table_ s)
    (current_table_ s) (array_of_tables_paths_ s) (tables_ s) ars (next_ s) (reported_ s).

Definition with_next (n : loc) (s : Parser) : Parser :=
  mkParser (input_ s) (error_message_ s) (current_ s) (end_ s) (root_table_ s)
    (current_table_ s) (array_of_tables_paths_ s) (tables_ s) (arrays_ s) n (reported_ s).

(** ** The monad of parser methods

    A method takes the parser object and either returns, throws a C++
    exception, faults on a read outside the buffer, or exhausts the
    recursion budget of the model. *)

Inductive Outcome (A : Type) : Type :=
| Ok (a : A) (s : Parser)
| Throw (what : string) (s : Parser)
| Fault
| OutOfFuel.

Arguments Ok {A} a s.
Arguments Throw {A} what s.
Arguments Fault {A}.
Arguments OutOfFuel {A}.

Definition M (A : Type) : Type := Parser -> Outcome A.

Definition ret {A} (a : A) : M A := fun s => Ok a s.

Definition bind {A B} (m : M A) (k : A -> M B) : M B :=
  fun s =>
    match m s with
    | Ok a s' => k a s'
    | Throw w s' => Throw w s'
    | Fault => Fault
    | OutOfFuel => OutOfFuel
    end.

Definition gets {A} (f : Parser -> A) : M A := fun s => Ok (f s) s.
Definition modify (f : Parser -> Parser) : M unit := fun s => Ok tt (f s).
Definition throw {A} (what : string) : M A := fun s => Throw what s.
Definition out_of_fuel {A} : M A := fun _ => OutOfFuel.

(** Reading the byte at a pointer. *)
Definition deref (p : Z) : M ascii :=
  fun s => match load (input_ s) p with Some c => Ok c s | None => Fault end.

End Parser.

Arguments mkDateTime {_} _ _.
Arguments mkDateTimeOffset {_} _ _.
Arguments VInteger {_} v.
Arguments VFloat {_} v.
Arguments VBoolean {_} v.
Arguments VString {_} v.
Arguments VDateTime {_} v.
Arguments VDateTimeOffset {_} v.
Arguments VTablePtr {_} p.
Arguments VArrayPtr {_} p.
Arguments mkParser {_} _ _ _ _ _ _ _ _ _ _ _.
Arguments Ok {_ A} a s.
Arguments Throw {_ A} what s.
Arguments Fault {_ A}.
Arguments OutOfFuel {_ A}.

Declare Scope parser_scope.
Delimit Scope parser_scope with parser.
Notation "x <- m ;; k" := (bind m (fun x => k))
  (at level 100, m at next level, right associativity) : parser_scope.
Notation "m ;; k" := (bind m (fun _ => k))
  (at level 100, right associativity) : parser_scope.
Notation "a &&& b" := (bind a (fun x : bool => if x then b else ret false))
  (at level 40, left associativity) : parser_scope.
Notation "a ||| b" := (bind a (fun x : bool => if x then ret true else b))
  (at level 50, left associativity) : parser_scope.
Open Scope parser_scope.

Section Methods.
Context `{FloatOps}.

(** Loops.  [while fuel cond body] is [while (cond) body;];
    [iter fuel body l] runs [body] on the loop's local variables until it
    leaves the loop with a result. *)
Fixpoint while (fuel : nat) (cond : M bool) (body : M unit) : M unit :=
  match fuel with
  | O => out_of_fuel
  | S fuel' =>
      c <- cond ;;
      if c then body ;; while fuel' cond body else ret tt
  end.

Fixpoint iter {L R : Type} (fuel : nat) (body : L -> M (L + R)) (l : L) : M R :=
  match fuel with
  | O => out_of_fuel
  | S fuel' =>
      x <- body l ;;
      match x with
      | inl l' => iter fuel' body l'
      | inr r => ret r
      end
  end.

(** *** Utility methods *)

Definition eof : M bool := gets (fun s => end_ s <=? current_ s).

Definition peek : M ascii :=
  e <- eof ;;
  if e then ret NUL else p <- gets current_ ;; deref p.

Definition advance : M ascii :=
  e <- eof ;;
  if e then ret NUL
  else p <- gets current_ ;; c <- deref p ;; modify (with_current (p + 1)) ;; ret c.

Definition has_error : M bool :=
  gets (fun s => negb (String.eqb (error_message_ s) "")).

Definition set_error (message : string) : M unit :=
  modify (fun s =>
    let s := with_reported (reported_ s ++ [message]) s in
    if String.eqb (error_message_ s) "" then with_error message s else s).

Definition skip_whitespace : M unit :=
  fun s =>
    match simd_utils.skip_whitespace (input_ s) (current_ s) (end_ s) with
    | Some p => Ok tt (with_current p s)
    | None => Fault
    end.

Definition skip_whitespace_no_nl : M unit :=
  fun s =>
    match simd_utils.skip_whitespace_no_nl (input_ s) (current_ s) (end_ s) with
    | Some p => Ok tt (with_current p s)
    | None => Fault
    end.

Definition peek_is (c : ascii) : M bool := x <- peek ;; ret (x =? c)%char.
Definition peek_is_not (c : ascii) : M bool := x <- peek ;; ret (negb (x =? c)%char).
Definition not_eof : M bool := e <- eof ;; ret (negb e).

Definition skip_comment (fuel : nat) : M unit :=
  h <- peek_is "#" ;;
  if h then while fuel (not_eof &&& peek_is_not LF) (advance ;; ret tt)
  else ret tt.

Definition char_string (c : ascii) : string := String c EmptyString.

Definition expect_char (c : ascii) : M unit :=
  bad <- (eof ||| peek_is_not c) ;;
  if bad then
    e <- eof ;;
    found <- (if e then ret "EOF"%string else x <- peek ;; ret (char_string x)) ;;
    set_error ("Expected '" +:+ char_string c +:+ "' but found '" +:+ found +:+ "'")
  else advance ;; ret tt.

Definition peek_char (c : ascii) : M bool := not_eof &&& peek_is c.

End Methods.

Section Strings.
Context `{FloatOps}.

(** [current_[k]] and the pointer tests of the source. *)
Definition cur_at (k : Z) : M ascii := p <- gets current_ ;; deref (p + k).
Definition cur_at_is (k : Z) (c : ascii) : M bool := x <- cur_at k ;; ret (x =? c)%char.
Definition skip_bytes (k : Z) : M unit :=
  modify (fun s => with_current (current_ s + k) s).

(** [current_ + 2 < end_ && current_[1] == q && current_[2] == q] *)
Definition triple_quote (q : ascii) : M bool :=
  gets (fun s => current_ s + 2 <? end_ s) &&& cur_at_is 1 q &&& cur_at_is 2 q.

(** [static_cast<char>(x)] for a non-negative [x]. *)
Definition to_char (x : Z) : ascii := ascii_of_N (Z.to_N (x mod 256)).

Definition push_back (out : string) (c : ascii) : string := out +:+ char_string c.

(** Append UTF-8 encoding of codepoint to string. Returns false if
    codepoint invalid.  [cp] is a [uint32_t]. *)
Definition append_utf8 (out : string) (cp : Z) : bool * string :=
  if (0x10FFFF <? cp) || ((0xD800 <=? cp) && (cp <=? 0xDFFF)) then (false, out)
  else if cp <=? 0x7F then
    (true, push_back out (to_char cp))
  else if cp <=? 0x7FF then
    let out := push_back out (to_char (Z.lor 0xC0 (Z.shiftr cp 6))) in
    let out := push_back out (to_char (Z.lor 0x80 (Z.land cp 0x3F))) in
    (true, out)
  else if cp <=? 0xFFFF then
    let out := push_back out (to_char (Z.lor 0xE0 (Z.shiftr cp 12))) in
    let out := push_back out (to_char (Z.lor 0x80 (Z.land (Z.shiftr cp 6) 0x3F))) in
    let out := push_back out (to_char (Z.lor 0x80 (Z.land cp 0x3F))) in
    (true, out)
  else
    let out := push_back out (to_char (Z.lor 0xF0 (Z.shiftr cp 18))) in
    let out := push_back out (to_char (Z.lor 0x80 (Z.land (Z.shiftr cp 12) 0x3F))) in
    let out := push_back out (to_char (Z.lor 0x80 (Z.land (Z.shiftr cp 6) 0x3F))) in
    let out := push_back out (to_char (Z.lor 0x80 (Z.land cp 0x3F))) in
    (true, out).

Definition hex_digit (c : ascii) : Z :=
  if (code "0" <=? code c) && (code c <=? code "9") then code c - code "0"
  else if (code "A" <=? code c) && (code c <=? code "F") then code c - code "A" + 10
  else if (code "a" <=? code c) && (code c <=? code "f") then code c - code "a" + 10
  else -1.

(** The bytes EF BF BD: U+FFFD REPLACEMENT CHARACTER. *)
Definition replacement_character : string :=
  String "239" (String "191" (String "189" EmptyString)).

(** One round of the [for] loop of [parse_unicode_escape], on its
    variables [cp] (a [uint32_t]) and [i]: [inr None] is the [return] inside
    the loop, [inr (Some _)] the end of the loop. *)
Definition unicode_escape_round (num_hex_digits : Z)
  : Z * Z -> M (Z * Z + option (Z * Z)) :=
  fun '(cp, i) =>
    go <- (ret (i <? num_hex_digits) &&& not_eof) ;;
    if go then
      c <- peek ;;
      let d := hex_digit c in
      if d <? 0 then
        set_error "Invalid hex digit in Unicode escape" ;;
        ret (inr None)
      else
        advance ;;
        ret (inl (Z.lor ((Z.shiftl cp 4) mod 2 ^ 32) d, i + 1))
    else ret (inr (Some (cp, i))).

(** [parse_unicode_escape].  The loop is counted by [i]; it takes at most
    [num_hex_digits] rounds, so the budget below never runs out. *)
Definition parse_unicode_escape (num_hex_digits : Z) : M string :=
  r <- iter (S (Z.to_nat num_hex_digits)) (unicode_escape_round num_hex_digits) (0, 0) ;;
  match r with
  | None => ret replacement_character
  | Some (cp, i) =>
      if negb (i =? num_hex_digits) then
        set_error "Unicode escape truncated" ;;
        ret replacement_character
      else if (0x10FFFF <? cp) || ((0xD800 <=? cp) && (cp <=? 0xDFFF)) then
        set_error "Invalid Unicode codepoint in escape" ;;
        ret replacement_character
      else ret (snd (append_utf8 "" cp))
  end.

Definition invalid_escape_message (c : ascii) : string :=
  "Invalid escape sequence in string: \" +:+ char_string c +:+
  " (allowed: \b \t \n \f \r \" +:+ char_string DQUOTE +:+ " \\ \uXXXX \UXXXXXXXX)".

Definition parse_escape_sequence : M string :=
  e <- eof ;;
  if e then
    set_error "Unexpected end of string in escape sequence" ;;
    ret ""%string
  else
    c <- advance ;;
    if (c =? "b")%char then ret (char_string BS)
    else if (c =? "t")%char then ret (char_string TAB)
    else if (c =? "n")%char then ret (char_string LF)
    else if (c =? "f")%char then ret (char_string FF)
    else if (c =? "r")%char then ret (char_string CR)
    else if (c =? DQUOTE)%char then ret (char_string DQUOTE)
    else if (c =? BACKSLASH)%char then ret (char_string BACKSLASH)
    else if (c =? "u")%char then parse_unicode_escape 4
    else if (c =? "U")%char then parse_unicode_escape 8
    else
      set_error (invalid_escape_message c) ;;
      ret ""%string.

(** One round of the loop of [parse_basic_string]. *)
Definition basic_string_round (result : string) : M (string + string) :=
  go <- (not_eof &&& peek_is_not DQUOTE) ;;
  if go then
    b <- peek_is BACKSLASH ;;
    if b then
      advance ;;
      e <- parse_escape_sequence ;;
      ret (inl (result +:+ e))
    else
      c <- advance ;;
      ret (inl (push_back result c))
  else ret (inr result).

Definition parse_basic_string (fuel : nat) : M string :=
  expect_char DQUOTE ;;
  result <- iter fuel basic_string_round ""%string ;;
  expect_char DQUOTE ;;
  ret result.

Definition parse_literal_string (fuel : nat) : M string :=
  expect_char SQUOTE ;;
  result <- iter fuel
    (fun result : string =>
       go <- (not_eof &&& peek_is_not SQUOTE) ;;
       if go then c <- advance ;; ret (inl (push_back result c))
       else ret (inr result))
    ""%string ;;
  expect_char SQUOTE ;;
  ret result.

(** [std::string(n, c)], for the loops [for (i = 0; i < n; i++) result += c]. *)
Definition fill (n : Z) (c : ascii) : string :=
  string_of_list_ascii (replicate (Z.to_nat n) c).

(** [int n = 0; while (!eof() && peek() == q) { advance(); n++; }]
    ([n] is an [int]; it cannot overflow on an input shorter than 2^31
    bytes). *)
Definition count_quotes_round (q : ascii) (n : Z) : M (Z + Z) :=
  go <- (not_eof &&& peek_is q) ;;
  if go then advance ;; ret (inl (n + 1)) else ret (inr n).

Definition count_quotes (fuel : nat) (q : ascii) : M Z :=
  iter fuel (count_quotes_round q) 0.

(** One round of the loop [while (!eof())] of
    [parse_multiline_basic_string]; at [eof] the loop ends and the method
    goes to its last two statements. *)
Definition multiline_basic_round (fuel : nat) (result : string) : M (string + string) :=
  e <- eof ;;
  if e then
    set_error "Unclosed multiline basic string" ;;
    ret (inr result)
  else
    q <- peek_is DQUOTE ;;
    if q then
      n <- count_quotes fuel DQUOTE ;;
      if 3 <=? n then
        let result := result +:+ fill (n - 3) DQUOTE in
        (* Close only if exactly 3 quotes, or next char is newline/eof *)
        close <- (ret (n =? 3) ||| eof ||| peek_is LF ||| peek_is CR) ;;
        if close then ret (inr result) else ret (inl result)
      else ret (inl (result +:+ fill n DQUOTE))
    else
      b <- peek_is BACKSLASH ;;
      if b then
        advance ;;
        x <- parse_escape_sequence ;;
        ret (inl (result +:+ x))
      else
        c <- advance ;;
        ret (inl (push_back result c)).

(** Opening quotes already consumed. Trim first newline if present. *)
Definition parse_multiline_basic_string (fuel : nat) : M string :=
  nl <- (not_eof &&& peek_is LF) ;;
  (if nl then advance ;; ret tt else ret tt) ;;
  iter fuel (multiline_basic_round fuel) ""%string.

Definition parse_multiline_literal_string (fuel : nat) : M string :=
  nl <- (not_eof &&& peek_is LF) ;;
  (if nl then advance ;; ret tt else ret tt) ;;
  iter fuel
    (fun result : string =>
       e <- eof ;;
       if e then
         set_error "Unclosed multiline literal string" ;;
         ret (inr result)
       else
         q <- peek_is SQUOTE ;;
         if q then
           n <- count_quotes fuel SQUOTE ;;
           if 3 <=? n then
             let result := result +:+ fill (n - 3) SQUOTE in
             close <- (ret (n =? 3) ||| eof ||| peek_is LF ||| peek_is CR) ;;
             if close then ret (inr result) else ret (inl result)
           else ret (inl (result +:+ fill n SQUOTE))
         else
           c <- advance ;;
           ret (inl (push_back result c)))
    ""%string.

(** The four string forms, as [parse_key] and [parse_value] select them. *)
Definition parse_quoted (fuel : nat) (q : ascii) : M string :=
  if (q =? DQUOTE)%char then
    t <- triple_quote DQUOTE ;;
    if t then skip_bytes 3 ;; parse_multiline_basic_string fuel
    else parse_basic_string fuel
  else
    t <- triple_quote SQUOTE ;;
    if t then skip_bytes 3 ;; parse_multiline_literal_string fuel
    else parse_literal_string fuel.

Definition is_bare_key_char (c : ascii) : bool :=
  isalnum c || (c =? "_")%char || (c =? "-")%char.

Definition parse_key (fuel : nat) : M string :=
  skip_whitespace_no_nl ;;
  c <- peek ;;
  if (c =? DQUOTE)%char then parse_quoted fuel DQUOTE
  else if (c =? SQUOTE)%char then parse_quoted fuel SQUOTE
  else
    (* Bare key *)
    key <- iter fuel
      (fun key : string =>
         go <- (not_eof &&& (x <- peek ;; ret (is_bare_key_char x))) ;;
         if go then c <- advance ;; ret (inl (push_back key c))
         else ret (inr key))
      ""%string ;;
    (if String.eqb key "" then
       set_error "Expected key" ;;
       e <- eof ;;
       if e then ret tt else advance ;; ret tt
     else ret tt) ;;
    ret key.

Definition parse_dotted_key (fuel : nat) : M (list string) :=
  k <- parse_key fuel ;;
  skip_whitespace_no_nl ;;
  iter fuel
    (fun path : list string =>
       go <- (not_eof &&& peek_is ".") ;;
       if go then
         advance ;;
         skip_whitespace_no_nl ;;
         k <- parse_key fuel ;;
         skip_whitespace_no_nl ;;
         ret (inl (path ++ [k]))
       else ret (inr path))
    [k].

End Strings.

Section Structure.
Context `{FloatOps}.

(** *** The store: [std::make_shared], [Table] and [Array] methods *)

Definition table_at (s : Parser) (t : loc) : gmap string TomlValue :=
  default ∅ (tables_ s !! t).

Definition array_at (s : Parser) (a : loc) : list TomlValue :=
  default [] (arrays_ s !! a).

Definition make_shared_Table : M loc :=
  fun s =>
    let l := next_ s in
    Ok l (with_next (S l) (with_tables (<[l := ∅]> (tables_ s)) s)).

Definition make_shared_Array : M loc :=
  fun s =>
    let l := next_ s in
    Ok l (with_next (S l) (with_arrays (<[l := []]> (arrays_ s)) s)).

(** [t->has(key)] *)
Definition Table_has (t : loc) (key : string) : M bool :=
  gets (fun s => bool_decide (is_Some (table_at s t !! key))).

(** [t->set(key, value)] *)
Definition Table_set (t : loc) (key : string) (value : TomlValue) : M unit :=
  modify (fun s => with_tables (<[t := <[key := value]> (table_at s t)]> (tables_ s)) s).

(** [t->values[key]]: [operator[]] of [std::unordered_map] inserts a
    value-initialised [TomlValue], the [Integer] 0, when the key is absent. *)
Definition Table_values (t : loc) (key : string) : M TomlValue :=
  h <- Table_has t key ;;
  if h then gets (fun s => default (VInteger 0) (table_at s t !! key))
  else Table_set t key (VInteger 0) ;; ret (VInteger 0).

(** [arr->append(value)] *)
Definition Array_append (a : loc) (value : TomlValue) : M unit :=
  modify (fun s => with_arrays (<[a := array_at s a ++ [value]]> (arrays_ s)) s).

(** [arr->elements] *)
Definition Array_elements (a : loc) : M (list TomlValue) :=
  gets (fun s => array_at s a).

Definition is_TablePtr (v : TomlValue) : bool :=
  match v with VTablePtr _ => true | _ => false end.

Definition in_array_of_tables_paths (path : list string) : M bool :=
  gets (fun s => bool_decide (path ∈ array_of_tables_paths_ s)).

(** *** Path helpers *)

(** The loop of [get_or_create_table_at_path]: [keys] are
    [path[i], path[i+1], ...]. *)
Fixpoint table_at_path_loop (path keys : list string) (i : nat) (t : loc)
  : M (option loc) :=
  match keys with
  | [] => ret (Some t)
  | key :: keys' =>
      h <- Table_has t key ;;
      if h then
        v <- Table_values t key ;;
        match v with
        | VTablePtr t' => table_at_path_loop path keys' (S i) t'
        | VArrayPtr arr =>
            let path_so_far := take (S i) path in
            known <- in_array_of_tables_paths path_so_far ;;
            if negb known then
              set_error "Cannot extend static array with table header" ;;
              ret None
            else
              elements <- Array_elements arr ;;
              match last elements with
              | None => set_error "Array of tables is empty" ;; ret None
              | Some (VTablePtr t') => table_at_path_loop path keys' (S i) t'
              | Some _ =>
                  set_error ("Key '" +:+ key +:+ "' already defined as non-table") ;;
                  ret None
              end
        | _ =>
            set_error ("Key '" +:+ key +:+ "' already defined as non-table") ;;
            ret None
        end
      else
        new_table <- make_shared_Table ;;
        Table_set t key (VTablePtr new_table) ;;
        table_at_path_loop path keys' (S i) new_table
  end.

Definition get_or_create_table_at_path (path : list string) : M (option loc) :=
  t <- gets root_table_ ;;
  table_at_path_loop path path 0 t.

(** The first loop of [get_or_create_array_append_table], over
    [i + 1 < path.size()]: [keys] are [path[i], ...] without the last key. *)
Fixpoint array_prefix_loop (path keys : list string) (i : nat) (t : loc)
  : M (option loc) :=
  match keys with
  | [] => ret (Some t)
  | key :: keys' =>
      h <- Table_has t key ;;
      if h then
        v <- Table_values t key ;;
        match v with
        | VTablePtr t' => array_prefix_loop path keys' (S i) t'
        | VArrayPtr arr =>
            let path_so_far := take (S i) path in
            known <- in_array_of_tables_paths path_so_far ;;
            if negb known then
              set_error ("Key '" +:+ key +:+ "' already defined as non-table") ;;
              ret None
            else
              elements <- Array_elements arr ;;
              match last elements with
              | None => set_error "Array of tables is empty" ;; ret None
              | Some (VTablePtr t') => array_prefix_loop path keys' (S i) t'
              | Some _ =>
                  set_error
                    ("Key '" +:+ key +:+ "' already defined as non-array-of-tables") ;;
                  ret None
              end
        | _ =>
            set_error ("Key '" +:+ key +:+ "' already defined as non-table") ;;
            ret None
        end
      else
        new_table <- make_shared_Table ;;
        Table_set t key (VTablePtr new_table) ;;
        array_prefix_loop path keys' (S i) new_table
  end.

Definition get_or_create_array_append_table (path : list string) : M (option loc) :=
  match last path with
  | None =>
      set_error "Empty array of tables path" ;;
      ret None
  | Some last_key =>
      root <- gets root_table_ ;;
      r <- array_prefix_loop path (removelast path) 0 root ;;
      match r with
      | None => ret None
      | Some t =>
          h <- Table_has t last_key ;;
          if negb h then
            modify (fun s => with_paths ({[ path ]} ∪ array_of_tables_paths_ s) s) ;;
            arr <- make_shared_Array ;;
            new_table <- make_shared_Table ;;
            Array_append arr (VTablePtr new_table) ;;
            Table_set t last_key (VArrayPtr arr) ;;
            ret (Some new_table)
          else
            v <- Table_values t last_key ;;
            match v with
            | VArrayPtr arr =>
                (* only allowed if key was created by a previous [[key]] *)
                known <- in_array_of_tables_paths path ;;
                if negb known then
                  set_error
                    ("Key '" +:+ last_key +:+ "' already defined as non-array-of-tables") ;;
                  ret None
                else
                  elements <- Array_elements arr ;;
                  if negb (forallb is_TablePtr elements) then
                    set_error
                      ("Key '" +:+ last_key +:+ "' already defined as non-array-of-tables") ;;
                    ret None
                  else
                    new_table <- make_shared_Table ;;
                    Array_append arr (VTablePtr new_table) ;;
                    ret (Some new_table)
            | _ =>
                set_error ("Key '" +:+ last_key +:+ "' already defined as non-array") ;;
                ret None
            end
      end
  end.

(** The loop of [set_value_at_path], over [i + 1 < path.size()]; [None]
    is its early [return]. *)
Fixpoint set_value_loop (keys : list string) (t : loc) : M (option loc) :=
  match keys with
  | [] => ret (Some t)
  | key :: keys' =>
      h <- Table_has t key ;;
      if h then
        v <- Table_values t key ;;
        match v with
        | VTablePtr t' => set_value_loop keys' t'
        | _ =>
            set_error ("Key '" +:+ key +:+ "' already defined as non-table") ;;
            ret None
        end
      else
        new_table <- make_shared_Table ;;
        Table_set t key (VTablePtr new_table) ;;
        set_value_loop keys' new_table
  end.

Definition set_value_at_path (table : loc) (path : list string) (value : TomlValue)
  : M unit :=
  match last path with
  | None => ret tt
  | Some back =>
      r <- set_value_loop (removelast path) table ;;
      match r with
      | None => ret tt
      | Some t => Table_set t back value
      end
  end.

End Structure.

Section Values.
Context `{FloatOps}.

(** *** Dates and times *)

(** [parse_int(ptr, end, min_digits, max_digits, out)]: the pointer is
    passed by reference, so the result carries its new value; the number
    is [None] when the function returns [false].  The loop takes at most
    [max_digits] rounds.  [v] is an [int64_t]: a run of digits whose
    value leaves its range wraps around.  The counter [n] stays below
    [max_digits], an [int], so [++n] stays in range. *)
Definition parse_int_round (end' : Z) (min_digits max_digits : Z)
  : Z * Z * Z -> M (Z * Z * Z + Z * option Z) :=
  fun '(ptr, v, n) =>
    go <- (ret (ptr <? end') &&& ret (n <? max_digits)
           &&& (c <- deref ptr ;; ret (isdigit c))) ;;
    if go then
      c <- deref ptr ;;
      ret (inl (ptr + 1, wrap_int64 (v * 10 + (code c - code "0")), n + 1))
    else if n <? min_digits then ret (inr (ptr, None))
    else ret (inr (ptr, Some v)).

Definition parse_int (ptr end' : Z) (min_digits max_digits : Z) : M (Z * option Z) :=
  bad <- (ret (end' <=? ptr) ||| (c <- deref ptr ;; ret (negb (isdigit c)))) ;;
  if bad then ret (ptr, None)
  else
    iter (S (Z.to_nat max_digits)) (parse_int_round end' min_digits max_digits)
      (ptr, 0, 0).

(** True if character can follow a date/time value (TOML value terminator). *)
Definition is_value_terminator (c : ascii) : bool :=
  (c =? " ")%char || (c =? TAB)%char || (c =? LF)%char || (c =? CR)%char
  || (c =? ",")%char || (c =? "]")%char || (c =? "}")%char || (c =? "#")%char.

Definition days_in_month : list Z := [31; 28; 31; 30; 31; 30; 31; 31; 30; 31; 30; 31].

(** [y % 4 == 0 && (y % 100 != 0 || y % 400 == 0)] *)
Definition leap_year (y : Z) : bool :=
  (Z.rem y 4 =? 0) && (negb (Z.rem y 100 =? 0) || (Z.rem y 400 =? 0)).

(** Max day in month (1-12); leap year for February. *)
Definition max_day_in_month (year month : Z) : Z :=
  let maxd := nth (Z.to_nat (month - 1)) days_in_month 0 in
  if (month =? 2) && leap_year year then 29 else maxd.

(** Days from 1970-01-01 to (y, m, d).  [days] is an [int]: every
    [days += ...] wraps around where the sum leaves its range. *)
Definition days_from_1970 (y m d : Z) : Z :=
  let days :=
    fold_left (fun days yy => wrap_int (days + (if leap_year yy then 366 else 365)))
      (map (fun k => 1970 + Z.of_nat k) (seq 0 (Z.to_nat (y - 1970)))) 0 in
  let days :=
    fold_left (fun days x => wrap_int (days + x))
      (take (Z.to_nat (m - 1)) days_in_month) days in
  let days := if (2 <? m) && leap_year y then wrap_int (days + 1) else days in
  wrap_int (days + (d - 1)).

(** [tm_to_time_t_utc] on the fields the caller fills in. *)
Definition tm_to_time_t_utc (year month day hour minute second : Z) : Z :=
  days_from_1970 year month day * 86400 + hour * 3600 + minute * 60 + second.

(** [ptr < end && !is_value_terminator(ptr[0])] *)
Definition garbage_at (p : Z) : M bool :=
  gets (fun s => p <? end_ s) &&& (c <- deref p ;; ret (negb (is_value_terminator c))).

Definition digit_at (p : Z) : M bool := c <- deref p ;; ret (isdigit c).
Definition byte_at_is (p : Z) (x : ascii) : M bool := c <- deref p ;; ret (c =? x)%char.

(** [HH:MM:SS] at [q], given [end_ - q >= 8]. *)
Definition time_shape_at (q : Z) : M bool :=
  digit_at q &&& digit_at (q + 1) &&& byte_at_is (q + 2) ":"
  &&& digit_at (q + 3) &&& digit_at (q + 4) &&& byte_at_is (q + 5) ":"
  &&& digit_at (q + 6) &&& digit_at (q + 7).

Definition date_shape_at (q : Z) : M bool :=
  digit_at q &&& digit_at (q + 1) &&& digit_at (q + 2) &&& digit_at (q + 3)
  &&& byte_at_is (q + 4) "-" &&& digit_at (q + 5) &&& digit_at (q + 6)
  &&& byte_at_is (q + 7) "-" &&& digit_at (q + 8) &&& digit_at (q + 9).

(** [current_ = start; return std::nullopt;], after [set_error] when a
    message is given. *)
Definition not_a_datetime (start : Z) (message : option string)
  : M (option TomlValue) :=
  match message with Some m => set_error m | None => ret tt end ;;
  modify (with_current start) ;;
  ret None.

(** [current_ = p; return TomlValue(v);] *)
Definition datetime_value (p : Z) (v : TomlValue) : M (option TomlValue) :=
  modify (with_current p) ;;
  ret (Some v).

Definition lexeme (first last : Z) : M string :=
  gets (fun s => substr (input_ s) first last).

(** [if (raw.size() >= 19 && raw[10] == ' ') raw[10] = 'T';] *)
Definition normalize_T (raw : string) : string :=
  let l := list_ascii_of_string raw in
  if (19 <=? Z.of_nat (length l)) && bool_decide (l !! 10%nat = Some " "%char)
  then string_of_list_ascii (<[10%nat := "T"%char]> l) else raw.

(** The [while (p < end_ && std::isdigit(p[0])) ++p;] of the fractions. *)
Definition skip_digits (p : Z) : M Z :=
  fun s =>
    match simd_utils.scalar_loop isdigit (input_ s) (Z.to_nat (end_ s - p)) p with
    | Some q => Ok q s
    | None => Fault
    end.

(** The time of day and the offset of a date-time, from [if (end_ - p >= 8)]
    to the end of that block. *)
Definition datetime_time_part (start p year month day : Z) : M (option TomlValue) :=
  e <- gets end_ ;;
  r <- parse_int p e 2 2 ;; let '(p, hour) := r in
  match hour with
  | None => not_a_datetime start (Some "Invalid datetime: hour must be 00-23"%string)
  | Some hour =>
  if 23 <? hour
  then not_a_datetime start (Some "Invalid datetime: hour must be 00-23"%string) else
  bad <- (ret (e <=? p) ||| (b <- byte_at_is p ":" ;; ret (negb b))) ;;
  if bad then not_a_datetime start None else
  let p := p + 1 in
  r <- parse_int p e 2 2 ;; let '(p, minute) := r in
  match minute with
  | None => not_a_datetime start (Some "Invalid datetime: minute must be 00-59"%string)
  | Some minute =>
  if 59 <? minute
  then not_a_datetime start (Some "Invalid datetime: minute must be 00-59"%string) else
  bad <- (ret (e <=? p) ||| (b <- byte_at_is p ":" ;; ret (negb b))) ;;
  if bad then not_a_datetime start None else
  let p := p + 1 in
  r <- parse_int p e 2 2 ;; let '(p, second) := r in
  match second with
  | None => not_a_datetime start (Some "Invalid datetime: second must be 00-60"%string)
  | Some second =>
  if 60 <? second
  then not_a_datetime start (Some "Invalid datetime: second must be 00-60"%string) else
  dot <- (ret (p <? e) &&& byte_at_is p ".") ;;
  frac <- (if dot then
             let frac_start := p + 1 in
             p <- skip_digits frac_start ;;
             if p =? frac_start then ret (p, None)
             else
               frac <- lexeme frac_start p ;;
               match stod ("0." +:+ frac) with
               | Some subsecond => ret (p, Some subsecond)
               | None => throw "stod"
               end
           else ret (p, Some float_zero)) ;;
  match frac with
  | (_, None) =>
      not_a_datetime start
        (Some "Invalid datetime: fractional seconds must have at least one digit"%string)
  | (p, Some subsecond) =>
  zulu <- (ret (p <? e) &&& (byte_at_is p "Z" ||| byte_at_is p "z")) ;;
  signed <- (if zulu then ret false
             else ret (p + 1 <? e) &&& (byte_at_is p "+" ||| byte_at_is p "-")) ;;
  off <- (if zulu then ret (Some (p + 1, 0, true))
          else if signed then
            sign <- deref p ;;
            let p := p + 1 in
            r <- parse_int p e 2 2 ;; let '(p, oh) := r in
            match oh with
            | None => ret None
            | Some oh =>
                ok <- (ret (oh <=? 23) &&& ret (p <? e) &&& byte_at_is p ":") ;;
                if ok then
                  r <- parse_int (p + 1) e 2 2 ;; let '(p, om) := r in
                  match om with
                  | None => ret None
                  | Some om =>
                      if om <=? 59
                      then ret (Some (p, (oh * 60 + om) * (if (sign =? "-")%char then -1 else 1),
                                      true))
                      else ret None
                  end
                else ret None
            end
          else ret (Some (p, 0, false))) ;;
  match off with
  | None =>
      not_a_datetime start
        (Some ("Invalid datetime: offset must be Z or " +:+
               String "194" (String "177" "HH:MM")))
  | Some (p, offset_minutes, has_offset) =>
  let t := tm_to_time_t_utc year month day hour minute second in
  if t <? 0 then not_a_datetime start None else
  if has_offset : bool then
    if (year <? 1970) || (2037 <? year) then
      raw <- lexeme start p ;;
      datetime_value p (VString (normalize_T raw))
    else
      datetime_value p
        (VDateTimeOffset
           (mkDateTimeOffset (mkDateTime (t - 60 * offset_minutes) subsecond)
              offset_minutes))
  else
    (* Local datetime (no offset): preserve as string; reject trailing garbage *)
    g <- garbage_at p ;;
    if g then
      not_a_datetime start (Some "Invalid datetime: unexpected character after time"%string)
    else
      raw <- lexeme start p ;;
      datetime_value p (VString raw)
  end end end end end.


(** The part of a date-time after the separator [T], [t] or space. *)
Definition datetime_after_date (start p year month day : Z) : M (option TomlValue) :=
  e <- gets end_ ;;
  if 8 <=? e - p then datetime_time_part start p year month day
  else
    g <- garbage_at p ;;
    if g then
      not_a_datetime start (Some "Invalid date: unexpected character after date"%string)
    else
      raw <- lexeme start p ;;
      datetime_value p (VString raw).

Definition try_parse_datetime : M (option TomlValue) :=
  start <- gets current_ ;;
  e <- gets end_ ;;
  (* Date: YYYY-MM-DD or datetime: YYYY-MM-DDTHH:MM:SS or with offset *)
  is_date <- (ret (10 <=? e - start) &&& date_shape_at start) ;;
  if is_date then
    let p := start in
    r <- parse_int p e 4 4 ;; let '(p, year) := r in
    match year with
    | None => not_a_datetime start None
    | Some year =>
    bad <- (ret (e <=? p) ||| (b <- byte_at_is p "-" ;; ret (negb b))) ;;
    if bad then not_a_datetime start None else
    let p := p + 1 in
    r <- parse_int p e 2 2 ;; let '(p, month) := r in
    match month with
    | None => not_a_datetime start (Some "Invalid date: month must be 01-12"%string)
    | Some month =>
    if (month <? 1) || (12 <? month)
    then not_a_datetime start (Some "Invalid date: month must be 01-12"%string) else
    bad <- (ret (e <=? p) ||| (b <- byte_at_is p "-" ;; ret (negb b))) ;;
    if bad then not_a_datetime start None else
    let p := p + 1 in
    r <- parse_int p e 2 2 ;; let '(p, day) := r in
    match day with
    | None => not_a_datetime start (Some "Invalid date: day must be 01-31"%string)
    | Some day =>
    if (day <? 1) || (31 <? day)
    then not_a_datetime start (Some "Invalid date: day must be 01-31"%string) else
    if max_day_in_month year month <? day
    then not_a_datetime start (Some "Invalid date: day out of range for month"%string) else
    if p =? e then
      raw <- lexeme start p ;;
      datetime_value p (VString raw)
    else
      c <- deref p ;;
      if (c =? " ")%char then
        (* Date only if not followed by HH:MM:SS *)
        if e - p <? 9 then
          raw <- lexeme start p ;;
          datetime_value p (VString raw)
        else
          let q := p + 1 in
          shape <- (ret (8 <=? e - q) &&& time_shape_at q) ;;
          if negb shape then
            raw <- lexeme start p ;;
            datetime_value p (VString raw)
          else datetime_after_date start (p + 1) year month day
      else if (c =? "T")%char || (c =? "t")%char then
        datetime_after_date start (p + 1) year month day
      else
        (* Date only: must not have trailing garbage *)
        g <- garbage_at p ;;
        if g then
          not_a_datetime start (Some "Invalid date: unexpected character after date"%string)
        else
          raw <- lexeme start (start + 10) ;;
          datetime_value p (VString raw)
    end end end
  else
    (* Time only: HH:MM:SS or HH:MM:SS.frac *)
    is_time <- (ret (8 <=? e - start) &&& time_shape_at start) ;;
    if is_time then
      let p := start in
      r <- parse_int p e 2 2 ;; let '(p, h) := r in
      match h with
      | None => not_a_datetime start (Some "Invalid time: hour must be 00-23"%string)
      | Some h =>
      if 23 <? h
      then not_a_datetime start (Some "Invalid time: hour must be 00-23"%string) else
      bad <- (ret (e <=? p) ||| (b <- byte_at_is p ":" ;; ret (negb b))) ;;
      if bad then not_a_datetime start None else
      let p := p + 1 in
      r <- parse_int p e 2 2 ;; let '(p, m) := r in
      match m with
      | None => not_a_datetime start (Some "Invalid time: minute must be 00-59"%string)
      | Some m =>
      if 59 <? m
      then not_a_datetime start (Some "Invalid time: minute must be 00-59"%string) else
      bad <- (ret (e <=? p) ||| (b <- byte_at_is p ":" ;; ret (negb b))) ;;
      if bad then not_a_datetime start None else
      let p := p + 1 in
      r <- parse_int p e 2 2 ;; let '(p, s) := r in
      match s with
      | None => not_a_datetime start (Some "Invalid time: second must be 00-60"%string)
      | Some s =>
      if 60 <? s
      then not_a_datetime start (Some "Invalid time: second must be 00-60"%string) else
      dot <- (ret (p <? e) &&& byte_at_is p ".") ;;
      p <- (if dot then skip_digits (p + 1) else ret p) ;;
      g <- garbage_at p ;;
      if g then
        not_a_datetime start (Some "Invalid time: unexpected character after time"%string)
      else
        raw <- lexeme start p ;;
        datetime_value p (VString raw)
      end end end
    else ret None.

(** *** Values *)

(** [static_cast<size_t>(d)] of a pointer difference. *)
Definition to_size_t (d : Z) : Z := d mod 2 ^ 64.

(** [end_ - current_ >= 3 && current_[0] == a && current_[1] == b &&
    current_[2] == c && (current_ + 3 >= end_ ||
    !(std::isalnum(current_[3]) || current_[3] == '_'))] *)
Definition keyword_at (a b c : ascii) : M bool :=
  gets (fun s => 3 <=? end_ s - current_ s)
  &&& cur_at_is 0 a &&& cur_at_is 1 b &&& cur_at_is 2 c
  &&& (gets (fun s => end_ s <=? current_ s + 3)
       ||| (x <- cur_at 3 ;; ret (negb (isalnum x || (x =? "_")%char)))).

Definition cur_digit (k : Z) : M bool := x <- cur_at k ;; ret (isdigit x).

Definition is_hex (ch : ascii) : bool :=
  isdigit ch || ((code "a" <=? code ch) && (code ch <=? code "f"))
  || ((code "A" <=? code ch) && (code ch <=? code "F")).
Definition is_oct (ch : ascii) : bool := (code "0" <=? code ch) && (code ch <=? code "7").
Definition is_bin (ch : ascii) : bool := (ch =? "0")%char || (ch =? "1")%char.

Definition is_prefixed_digit (base : Z) (ch : ascii) : bool :=
  (ch =? "_")%char || ((base =? 16) && is_hex ch) || ((base =? 8) && is_oct ch)
  || ((base =? 2) && is_bin ch).

Definition is_number_char (ch : ascii) : bool :=
  isdigit ch || (ch =? ".")%char || (ch =? "e")%char || (ch =? "E")%char
  || (ch =? "+")%char || (ch =? "-")%char || (ch =? "_")%char.

(** [for (char ch : num_str) if (ch != '_') num_clean += ch;] *)
Definition remove_underscores (num_str : string) : string :=
  string_of_list_ascii
    (List.filter (fun ch => negb (ch =? "_")%char) (list_ascii_of_string num_str)).

(** [num_str.back() == '.'] on a non-empty string. *)
Definition back_is_dot (num_str : string) : bool :=
  match last (list_ascii_of_string num_str) with
  | Some c => (c =? ".")%char
  | None => false
  end.

(** One round of the digit loop of a prefixed integer. *)
Definition prefixed_digits_round (base : Z) (num_clean : string) : M (string + string) :=
  go <- (not_eof &&& (x <- peek ;; ret (is_prefixed_digit base x))) ;;
  if go then
    u <- peek_is "_" ;;
    if negb u then c <- advance ;; ret (inl (push_back num_clean c))
    else advance ;; ret (inl num_clean)
  else ret (inr num_clean).

(** Integer literals: 0x hex, 0o octal, 0b binary.  [None] when the
    bytes at the cursor are not such a prefix. *)
Definition parse_prefixed_integer (fuel : nat) (start : Z) : M (option TomlValue) :=
  pre <- (gets (fun s => current_ s <? end_ s) &&& cur_at_is 0 "0"
          &&& gets (fun s => current_ s + 2 <=? end_ s)) ;;
  base <- (if pre then
             n <- cur_at 1 ;;
             ret (if (n =? "x")%char || (n =? "X")%char then 16
                  else if (n =? "o")%char || (n =? "O")%char then 8
                  else if (n =? "b")%char || (n =? "B")%char then 2
                  else 0)
           else ret 0) ;;
  if base =? 0 then ret None
  else
    skip_bytes 2 ;;
    num_clean <- iter fuel (prefixed_digits_round base) ""%string ;;
    if String.eqb num_clean "" then
      set_error "Invalid integer literal" ;;
      ret (Some (VInteger 0))
    else
      match stoll num_clean base with
      | Some v =>
          neg <- (gets (fun s => start <? end_ s) &&& byte_at_is start "-") ;;
          ret (Some (VInteger (if neg then - v else v)))
      | None =>
          cur <- gets current_ ;;
          raw <- lexeme start cur ;;
          set_error ("Invalid integer: " +:+ raw) ;;
          ret (Some (VInteger 0))
      end.

(** The number branch of [parse_value], from [const char* start = current_]. *)
Definition parse_number (fuel : nat) (c : ascii) : M TomlValue :=
  start <- gets current_ ;;
  special <-
    (if (c =? "+")%char || (c =? "-")%char then
       advance ;;
       inf <- (not_eof &&& peek_is "i" &&& keyword_at "i" "n" "f") ;;
       if inf then
         skip_bytes 3 ;;
         neg <- byte_at_is start "-" ;;
         ret (Some (VFloat (if neg then float_neg float_infinity else float_infinity)))
       else
         nan <- (not_eof &&& peek_is "n" &&& keyword_at "n" "a" "n") ;;
         if nan then
           skip_bytes 3 ;;
           neg <- byte_at_is start "-" ;;
           ret (Some (VFloat (if neg then float_neg float_quiet_NaN else float_quiet_NaN)))
         else ret None
     else ret None) ;;
  match special with
  | Some v => ret v
  | None =>
  prefixed <- parse_prefixed_integer fuel start ;;
  match prefixed with
  | Some v => ret v
  | None =>
  (* Leading dot (e.g. .1) or leading zero in decimal (e.g. 09) invalid *)
  leading_dot <- (gets (fun s => current_ s =? start) &&& peek_is ".") ;;
  if leading_dot then
    set_error "Leading dot not allowed in number" ;;
    ret (VFloat float_zero)
  else
  leading_zero <- (gets (fun s => current_ s =? start) &&& peek_is "0"
                   &&& gets (fun s => current_ s + 1 <? end_ s) &&& cur_digit 1) ;;
  if leading_zero then
    set_error "Leading zero not allowed in decimal integer" ;;
    ret (VInteger 0)
  else
  flags <- iter fuel
    (fun '(has_dot, has_exp) =>
       go <- (not_eof &&& (x <- peek ;; ret (is_number_char x))) ;;
       if go then
         x <- peek ;;
         if (x =? ".")%char && has_dot then
           set_error "Double dot not allowed in float" ;;
           ret (inr None)
         else
           let has_dot := has_dot || (x =? ".")%char in
           let has_exp := has_exp || (x =? "e")%char || (x =? "E")%char in
           advance ;;
           ret (inl (has_dot, has_exp))
       else ret (inr (Some (has_dot, has_exp))))
    (false, false) ;;
  match flags with
  | None => ret (VFloat float_zero)
  | Some (has_dot, has_exp) =>
      cur <- gets current_ ;;
      num_str <- lexeme start cur ;;
      if has_dot && negb has_exp && negb (String.eqb num_str "") && back_is_dot num_str
      then
        set_error "Trailing dot not allowed in float" ;;
        ret (VFloat float_zero)
      else
        let num_clean := remove_underscores num_str in
        if has_dot || has_exp then
          match stod num_clean with
          | Some v => ret (VFloat v)
          | None =>
              set_error ("Invalid float: " +:+ num_str) ;;
              ret (VFloat float_zero)
          end
        else
          match stoll num_clean 10 with
          | Some v => ret (VInteger v)
          | None =>
              set_error ("Invalid integer: " +:+ num_str) ;;
              ret (VInteger 0)
          end
  end end end.

(** [auto dt = try_parse_datetime(); if (dt) return *dt;
    if (has_error()) return Integer(0);] *)
Definition datetime_attempt : M (option TomlValue) :=
  dt <- try_parse_datetime ;;
  match dt with
  | Some v => ret (Some v)
  | None =>
      e <- has_error ;;
      if e then ret (Some (VInteger 0)) else ret None
  end.

(** Date/time or number: try datetime first if pattern matches. *)
Definition parse_datetime_or_number (fuel : nat) (c : ascii) : M TomlValue :=
  date_like <- (ret (isdigit c)
                &&& gets (fun s => 10 <=? to_size_t (end_ s - current_ s))
                &&& cur_digit 0 &&& cur_digit 1 &&& cur_digit 2 &&& cur_digit 3
                &&& cur_at_is 4 "-") ;;
  r <- (if date_like then datetime_attempt else ret None) ;;
  match r with
  | Some v => ret v
  | None =>
      time_like <- (ret (isdigit c)
                    &&& gets (fun s => 8 <=? to_size_t (end_ s - current_ s))
                    &&& cur_digit 0 &&& cur_digit 1 &&& cur_at_is 2 ":") ;;
      r <- (if time_like then datetime_attempt else ret None) ;;
      match r with
      | Some v => ret v
      | None => parse_number fuel c
      end
  end.

Definition parse_boolean : M bool :=
  t <- peek_is "t" ;;
  if t then
    expect_char "t" ;; expect_char "r" ;; expect_char "u" ;; expect_char "e" ;;
    ret true
  else
    expect_char "f" ;; expect_char "a" ;; expect_char "l" ;; expect_char "s" ;;
    expect_char "e" ;;
    ret false.

(** [parse_array], [parse_inline_table] and [parse_value] call each
    other: the first two take the value parser they call as [value]. *)
Definition parse_array_with (fuel : nat) (value : M TomlValue) : M loc :=
  expect_char "[" ;;
  skip_whitespace ;;
  skip_comment fuel ;;
  array <- make_shared_Array ;;
  closed <- peek_is "]" ;;
  if closed then advance ;; ret array
  else
    iter fuel
      (fun _ : unit =>
         e <- eof ;;
         if e then ret (inr tt)
         else
           (* for (;;): skip white space and comments before the element *)
           at_end <- iter fuel
             (fun _ : unit =>
                skip_whitespace ;;
                c <- peek ;;
                if (c =? "]")%char then ret (inr true)
                else if (c =? "#")%char then skip_comment fuel ;; ret (inl tt)
                else ret (inr false))
             tt ;;
           if at_end : bool then ret (inr tt)
           else
             v <- value ;;
             Array_append array v ;;
             skip_whitespace ;;
             skip_comment fuel ;;
             skip_whitespace ;;
             c <- peek ;;
             if (c =? ",")%char then
               advance ;;
               skip_whitespace ;;
               skip_comment fuel ;;
               ret (inl tt)
             else if negb (c =? "]")%char then
               set_error "Expected ',' or ']' in array" ;;
               ret (inr tt)
             else ret (inl tt))
      tt ;;
    expect_char "]" ;;
    ret array.

Definition parse_inline_table_with (fuel : nat) (value : M TomlValue) : M loc :=
  expect_char "{" ;;
  skip_whitespace_no_nl ;;
  table <- make_shared_Table ;;
  closed <- peek_is "}" ;;
  if closed then advance ;; ret table
  else
    iter fuel
      (fun _ : unit =>
         e <- eof ;;
         if e then ret (inr tt)
         else
           path <- parse_dotted_key fuel ;;
           match path with
           | [] => ret (inr tt)
           | _ =>
               skip_whitespace_no_nl ;;
               expect_char "=" ;;
               skip_whitespace_no_nl ;;
               v <- value ;;
               set_value_at_path table path v ;;
               skip_whitespace_no_nl ;;
               closing <- peek_is "}" ;;
               if closing then ret (inr tt)
               else
                 expect_char "," ;;
                 skip_whitespace_no_nl ;;
                 ret (inl tt)
           end)
      tt ;;
    expect_char "}" ;;
    ret table.

Definition parse_value_with (fuel : nat) (value : M TomlValue) : M TomlValue :=
  skip_whitespace_no_nl ;;
  c <- peek ;;
  if (c =? DQUOTE)%char then s <- parse_quoted fuel DQUOTE ;; ret (VString s)
  else if (c =? SQUOTE)%char then s <- parse_quoted fuel SQUOTE ;; ret (VString s)
  else if (c =? "[")%char then
    a <- parse_array_with fuel value ;; ret (VArrayPtr a)
  else if (c =? "{")%char then
    t <- parse_inline_table_with fuel value ;; ret (VTablePtr t)
  else if isdigit c || (c =? "+")%char || (c =? "-")%char || (c =? ".")%char then
    parse_datetime_or_number fuel c
  else if (c =? "t")%char || (c =? "f")%char then
    b <- parse_boolean ;; ret (VBoolean b)
  else
    inf <- (ret (c =? "i")%char &&& keyword_at "i" "n" "f") ;;
    if inf then skip_bytes 3 ;; ret (VFloat float_infinity)
    else
      nan <- (ret (c =? "n")%char &&& keyword_at "n" "a" "n") ;;
      if nan then skip_bytes 3 ;; ret (VFloat float_quiet_NaN)
      else
        set_error ("Unexpected character in value: " +:+ char_string c) ;;
        ret (VInteger 0).

(** [parse_value] calls itself through [parse_array] and
    [parse_inline_table], once for each level of nesting.  The budget
    [fuel] bounds the rounds of the loops and the depth of these calls
    alike; how many nested calls the C++ stack holds is not part of this
    model, so a statement about [parse_value] speaks of the runs that
    come back, and none says that a nested value of any depth does. *)
Fixpoint parse_value (fuel : nat) : M TomlValue :=
  match fuel with
  | O => out_of_fuel
  | S fuel' => parse_value_with fuel' (parse_value fuel')
  end.

Definition parse_array (fuel : nat) : M loc := parse_array_with fuel (parse_value fuel).

Definition parse_inline_table (fuel : nat) : M loc :=
  parse_inline_table_with fuel (parse_value fuel).

(** *** The document *)

Definition parse_key_value_pair (fuel : nat) (table : loc) : M unit :=
  path <- parse_dotted_key fuel ;;
  match path with
  | [] => ret tt
  | _ =>
      skip_whitespace_no_nl ;;
      expect_char "=" ;;
      skip_whitespace_no_nl ;;
      value <- parse_value fuel ;;
      skip_whitespace_no_nl ;;
      skip_comment fuel ;;
      set_value_at_path table path value
  end.

(** A null [shared_ptr] is never dereferenced by the source; doing so is
    a fault. *)
Definition fault {A} : M A := fun _ => Fault.

Definition parse_document (fuel : nat) : M unit :=
  skip_whitespace ;;
  iter fuel
    (fun _ : unit =>
       e <- eof ;;
       if e then ret (inr tt)
       else
         skip_whitespace ;;
         e <- eof ;;
         if e then ret (inr tt)
         else
           c <- peek ;;
           if (c =? "#")%char then skip_comment fuel ;; ret (inl tt)
           else if (c =? "[")%char then
             advance ;;
             skip_whitespace ;;
             is_array_of_tables <- peek_is "[" ;;
             (if is_array_of_tables then advance ;; skip_whitespace else ret tt) ;;
             path <- parse_dotted_key fuel ;;
             match path with
             | [] => set_error "Empty table header" ;; ret (inr tt)
             | _ =>
                 skip_whitespace ;;
                 (if is_array_of_tables then expect_char "]" ;; expect_char "]"
                  else expect_char "]") ;;
                 skip_whitespace ;;
                 skip_comment fuel ;;
                 t <- (if is_array_of_tables
                       then get_or_create_array_append_table path
                       else get_or_create_table_at_path path) ;;
                 modify (with_current_table t) ;;
                 match t with
                 | None => ret (inr tt)
                 | Some _ => ret (inl tt)
                 end
             end
           else
             (* Parse key-value pair (supports dotted keys: a.b.c = value) *)
             t <- gets current_table_ ;;
             match t with
             | None => fault
             | Some table =>
                 parse_key_value_pair fuel table ;;
                 skip_whitespace ;;
                 more <- (not_eof &&& peek_is_not "#" &&& peek_is_not "[") ;;
                 (if more then skip_whitespace else ret tt) ;;
                 ret (inl tt)
             end)
    tt.

(** TOML 1.0: control chars U+0000-U+001F (except tab, LF, CR in CRLF) and
    U+007F are not permitted. *)
Definition is_forbidden_control (c : ascii) : bool :=
  let u := code c in
  if (u =? 0x09) || (u =? 0x0A) then false
  else if u =? 0x0D then false
  else if (u <=? 0x1F) || (u =? 0x7F) then true
  else false.

(** The scan at the head of [parse]: [true] when it reaches its
    [set_error]; the list is [input[i], input[i+1], ...]. *)
Fixpoint control_scan (input : list ascii) : bool :=
  match input with
  | [] => false
  | c :: rest =>
      if code c =? 0x0D then
        (* CR only permitted as part of CRLF *)
        match rest with
        | [] => true
        | c' :: _ => if negb (c' =? LF)%char then true else control_scan rest
        end
      else if is_forbidden_control c then true
      else control_scan rest
  end.

Definition control_message : string :=
  "Control characters (U+0000-U+001F except tab/LF/CR in CRLF) and U+007F are not permitted".

(** [try { parse_document(); } catch (const std::exception& e)
    { set_error(e.what()); return nullptr; }] *)
Definition try_parse_document (fuel : nat) : M bool :=
  fun s =>
    match parse_document fuel s with
    | Ok _ s' => Ok true s'
    | Throw what s' => (set_error what ;; ret false) s'
    | Fault => Fault
    | OutOfFuel => OutOfFuel
    end.

(** [parse]: the result is [None] for [nullptr]. *)
Definition parse (fuel : nat) (input : string) : M (option loc) :=
  modify (fun s => with_reported [] (with_error "" s)) ;;
  modify (with_paths ∅) ;;
  if control_scan (list_ascii_of_string input) then
    set_error control_message ;;
    ret None
  else
    let mem := list_ascii_of_string input in
    modify (with_buffer mem 0 (Z.of_nat (length mem))) ;;
    root <- make_shared_Table ;;
    modify (with_root root) ;;
    modify (with_current_table (Some root)) ;;
    completed <- try_parse_document fuel ;;
    if negb completed then ret None
    else
      e <- has_error ;;
      if e then ret None
      else r <- gets root_table_ ;; ret (Some r).

(** [get_error()] *)
Definition get_error (s : Parser) : string := error_message_ s.

(** The parser object after its constructor [TomlParser()]. *)
Definition TomlParser : Parser :=
  mkParser [] "" 0 0 0%nat (Some 0%nat) ∅ {[ 0%nat := ∅ ]} ∅ 1%nat [].

End Values.

(** ** An instance of [FloatOps] for running the parser

    A float is kept as the text handed to [std::stod], and every
    conversion succeeds.  It serves to evaluate the parser on documents
    that hold no float; the theorems are proved for every instance. *)

Definition text_floats : FloatOps :=
  {| Float := string;
     stod := Some;
     float_zero := "0.0";
     float_infinity := "inf";
     float_quiet_NaN := "nan";
     float_neg := fun x => "-" +:+ x |}.

(** ** Notions used by the statements *)

(** What [set_error] does to [error_message_], and a run of such calls. *)
Definition record (e message : string) : string :=
  if String.eqb e "" then message else e.

Definition record_all (messages : list string) (e : string) : string :=
  fold_left record messages e.

(** The first message of a list that is an error text (not empty), or
    the empty string. *)
Definition first_error (messages : list string) : string :=
  hd ""%string (List.filter (fun m => negb (String.eqb m "")) messages).

Section Relations.
Context `{FloatOps}.

(** [reports s s']: from [s] to [s'], [error_message_] changed as by
    calls of [set_error], those the ghost field [reported_] has gained. *)
Definition reports (s s' : Parser) : Prop :=
  exists messages,
    reported_ s' = reported_ s ++ messages
    /\ error_message_ s' = record_all messages (error_message_ s).

(** A method respects a relation between the parser before and after.
    A fault or an exhausted budget leaves no parser to speak of. *)
Definition respects (R : Parser -> Parser -> Prop) {A} (m : M A) : Prop :=
  forall s,
    match m s with
    | Ok _ s' => R s s'
    | Throw _ s' => R s s'
    | Fault => True
    | OutOfFuel => True
    end.

End Relations.

(** The forbidden bytes of TOML 1.0, in the words of the specification:
    byte [i] of the input is in [0x00, 0x1F] and is not a tab, not a line
    feed and not a carriage return immediately followed by a line feed;
    or it is 0x7F. *)
Definition forbidden_byte (input : list ascii) (i : nat) : Prop :=
  exists c,
    input !! i = Some c
    /\ ((0x00 <= code c <= 0x1F
         /\ code c <> 0x09 /\ code c <> 0x0A
         /\ ~ (code c = 0x0D /\ input !! S i = Some LF))
        \/ code c = 0x7F).

Section AfterValidation.
Context `{FloatOps}.

(** What [parse] does once the scan has found nothing. *)
Definition parse_validated (fuel : nat) (mem : list ascii) : M (option loc) :=
  modify (with_buffer mem 0 (Z.of_nat (length mem))) ;;
  root <- make_shared_Table ;;
  modify (with_root root) ;;
  modify (with_current_table (Some root)) ;;
  completed <- try_parse_document fuel ;;
  if negb completed then ret None
  else
    e <- has_error ;;
    if e then ret None
    else r <- gets root_table_ ;; ret (Some r).

End AfterValidation.

Section States.
Context `{FloatOps}.

(** The parser [s0] reading a buffer of which [pre] lies behind the
    cursor and [rest] ahead of it, up to [end_]. *)
Definition at_ (pre rest : list ascii) (s0 : Parser) : Parser :=
  with_buffer (pre ++ rest) (Z.of_nat (length pre))
    (Z.of_nat (length pre + length rest)) s0.

(** The parser after [set_error(message)]. *)
Definition errored (message : string) (s : Parser) : Parser :=
  with_reported (reported_ s ++ [message])
    (with_error (record (error_message_ s) message) s).

End States.

(** Code points in the words of the specification. *)

(** The value of a hexadecimal digit. *)
Definition hex_digit_denotes (c : ascii) (v : Z) : Prop :=
  0 <= v < 16
  /\ (list_ascii_of_string "0123456789ABCDEF" !! Z.to_nat v = Some c
      \/ list_ascii_of_string "0123456789abcdef" !! Z.to_nat v = Some c).

(** The number a row of hexadecimal digits denotes, most significant
    digit first. *)
Definition hex_digits_denote (ds : list ascii) (C : Z) : Prop :=
  exists vs, Forall2 hex_digit_denotes ds vs
             /\ C = fold_left (fun acc v => 16 * acc + v) vs 0.

(** The UTF-8 encoding of a code point (RFC 3629), as bytes. *)
Definition utf8_encoding (C : Z) : list Z :=
  if C <? 0x80 then [C]
  else if C <? 0x800 then [0xC0 + C / 64; 0x80 + C mod 64]
  else if C <? 0x10000 then
    [0xE0 + C / 4096; 0x80 + (C / 64) mod 64; 0x80 + C mod 64]
  else
    [0xF0 + C / 262144; 0x80 + (C / 4096) mod 64; 0x80 + (C / 64) mod 64;
     0x80 + C mod 64].

Definition bytes_to_string (bs : list Z) : string :=
  string_of_list_ascii (map (fun b => ascii_of_N (Z.to_N b)) bs).

Definition valid_code_point (C : Z) : Prop :=
  0 <= C <= 0x10FFFF /\ ~ (0xD800 <= C <= 0xDFFF).

(** A byte of a basic string that is neither its delimiter nor the
    start of an escape. *)
Definition plain_basic (c : ascii) : bool :=
  negb (c =? DQUOTE)%char && negb (c =? BACKSLASH)%char.

(** Multiline basic strings. *)

(** The first newline after the opening quotes is dropped. *)
Definition trim_first_lf (body : list ascii) : list ascii :=
  match body with
  | c :: body' => if (c =? LF)%char then body' else body
  | [] => []
  end.

(** The bytes ahead do not start with [q]. *)
Definition starts_without (q : ascii) (rest : list ascii) : bool :=
  match rest with
  | c :: _ => negb (c =? q)%char
  | [] => true
  end.

(** A run of [n >= 3] quotes ends the string: when [n = 3], or at the
    end of input, or before a line feed or a carriage return. *)
Definition closes_after (n : nat) (rest : list ascii) : bool :=
  (n =? 3)%nat
  || match rest with
     | c :: _ => (c =? LF)%char || (c =? CR)%char
     | [] => true
     end.

(** Prefixed integers. *)

(** The base a prefix letter selects. *)
Definition prefix_base (x : ascii) : option Z :=
  if (x =? "x")%char || (x =? "X")%char then Some 16
  else if (x =? "o")%char || (x =? "O")%char then Some 8
  else if (x =? "b")%char || (x =? "B")%char then Some 2
  else None.

(** The bytes ahead do not go on with a digit of the base or an
    underscore. *)
Definition ends_digits (base : Z) (rest : list ascii) : bool :=
  match rest with
  | c :: _ => negb (is_prefixed_digit base c)
  | [] => true
  end.

Definition without_underscores (body : list ascii) : string :=
  string_of_list_ascii (List.filter (fun ch => negb (ch =? "_")%char) body).

(** ** What the scanning functions compute *)

Module simd_spec.

(** What the scalar loop returns: the first pointer in [[ptr, ptr + left)]
    whose byte fails [P], or [ptr + left]. *)
Definition first_not (P : ascii -> bool) (mem : list ascii) (ptr lim q : Z) : Prop :=
  ptr <= q <= lim
  /\ (forall i, ptr <= i < q -> exists c, load mem i = Some c /\ P c = true)
  /\ (q < lim -> exists c, load mem q = Some c /\ P c = false).

(** A lane-wise reading of a mask: bit [i] tells whether byte [i] of the
    chunk is in the class [P]. *)
Definition reads (P : ascii -> bool) (mem : list ascii) (ptr : Z) (mask : Z) : Prop :=
  (forall i, (i < 32)%nat ->
     exists c, load mem (ptr + Z.of_nat i) = Some c
               /\ Z.testbit mask (Z.of_nat i) = P c)
  /\ (forall i, 32 <= i -> Z.testbit mask i = false).

Definition eq_lane (x : ascii) (b : Z) : Z := if b =? code x then 255 else 0.


End simd_spec.

(** The code points that [parse_unicode_escape] rejects. *)
Definition invalid_code_point (C : Z) : bool :=
  (0x10FFFF <? C) || ((0xD800 <=? C) && (C <=? 0xDFFF)).


(** ** Documents used as examples *)

Definition lines (ls : list string) : string :=
  fold_right (fun l rest => l +:+ String LF rest) ""%string ls.

Definition two_headers_document : string :=
  lines ["[[a.b]]"; "[a]"]%string.

Definition assignment_after_header_document : string :=
  lines ["[[a.b]]"; "[a]"; "b = [1]"]%string.

(** A range of 40 bytes: 33 spaces, then [x = 1\n...]. *)
Definition sample_buffer : list ascii :=
  replicate 33 " "%char ++ list_ascii_of_string "x = 1y2".

(** Two values are rejected one after the other; the first message stays. *)
Definition two_errors : string := "a = ?" +:+ char_string LF +:+ "b = !".

Definition products_document : string :=
  lines ["[[products]]"; "name = 'A'"; "[[products]]"; "name = 'B'"]%string.

(** The header [[[a.b]]] twice, each time under a new element of the
    array of tables [a]. *)
Definition nested_headers_document : string :=
  lines ["[[a]]"; "[[a.b]]"; "[[a]]"; "[[a.b]]"]%string.

(** The header [[[a.b]]] again after [a.b] has been assigned a static
    array. *)
Definition header_after_assignment_document : string :=
  lines ["[[a.b]]"; "[a]"; "b = [1]"; "[[a.b]]"]%string.

(** The parser after the headers [[[a.b]]] and [[a]]: [a.b] is an array
    of tables recorded in the set, and the current Table is [a]. *)
Definition after_array_of_tables_header : Parser :=
  match parse 40 two_headers_document (@TomlParser text_floats) with
  | Ok _ s => s
  | _ => TomlParser
  end.

(** ** The store as the allocator leaves it *)

Section StoreShape.
Context `{FloatOps}.

(** A pointer value refers to an object that [std::make_shared] has
    handed out: locations are handed out in increasing order, [n] being
    the next one. *)
Definition allocated (n : loc) (v : TomlValue) : Prop :=
  match v with
  | VTablePtr l | VArrayPtr l => (l < n)%nat
  | _ => True
  end.

Record store_ok (s : Parser) : Prop := {
  tables_fresh : forall l, (next_ s <= l)%nat -> tables_ s !! l = None;
  arrays_fresh : forall l, (next_ s <= l)%nat -> arrays_ s !! l = None;
  root_allocated : (root_table_ s < next_ s)%nat;
  table_values_allocated :
    forall t key v, table_at s t !! key = Some v -> allocated (next_ s) v;
  array_elements_allocated :
    forall a v, v ∈ array_at s a -> allocated (next_ s) v
}.

(** The Table reached from [t] through the keys [keys], each of which
    holds a Table. *)
Fixpoint table_path (s : Parser) (t : loc) (keys : list string) : option loc :=
  match keys with
  | [] => Some t
  | key :: keys' =>
      match table_at s t !! key with
      | Some (VTablePtr t') => table_path s t' keys'
      | _ => None
      end
  end.

(** The elements of the array of tables at [path]: the path leads from
    the root through Tables to an Array, and is recorded in the
    array-of-tables set. *)
Definition array_of_tables_at (s : Parser) (path : list string)
  : option (list TomlValue) :=
  match last path with
  | None => None
  | Some last_key =>
      match table_path s (root_table_ s) (removelast path) with
      | None => None
      | Some t =>
          match table_at s t !! last_key with
          | Some (VArrayPtr arr) =>
              if bool_decide (path ∈ array_of_tables_paths_ s)
              then Some (array_at s arr) else None
          | _ => None
          end
      end
  end.

(** [std::make_shared<Table>()] *)
Definition with_new_table (s : Parser) : Parser :=
  with_next (S (next_ s)) (with_tables (<[next_ s := ∅]> (tables_ s)) s).

(** [std::make_shared<Array>()] *)
Definition with_new_array (s : Parser) : Parser :=
  with_next (S (next_ s)) (with_arrays (<[next_ s := []]> (arrays_ s)) s).

(** [t->set(key, value)] *)
Definition with_table_set (t : loc) (key : string) (value : TomlValue) (s : Parser)
  : Parser :=
  with_tables (<[t := <[key := value]> (table_at s t)]> (tables_ s)) s.

(** [arr->append(value)] *)
Definition with_array_append (a : loc) (value : TomlValue) (s : Parser) : Parser :=
  with_arrays (<[a := array_at s a ++ [value]]> (arrays_ s)) s.

(** What the first loop of [get_or_create_array_append_table] leaves
    alone when it arrives at a Table. *)
Record prefix_frame (s s1 : Parser) : Prop := {
  frame_error_message : error_message_ s1 = error_message_ s;
  frame_reported : reported_ s1 = reported_ s;
  frame_paths : array_of_tables_paths_ s1 = array_of_tables_paths_ s;
  frame_root : root_table_ s1 = root_table_ s;
  frame_arrays : arrays_ s1 = arrays_ s;
  frame_next : (next_ s <= next_ s1)%nat
}.

(** Every entry of every Table of [s] is an entry of [s']. *)
Definition keeps_tables (s s' : Parser) : Prop :=
  forall l key v, table_at s l !! key = Some v -> table_at s' l !! key = Some v.

(** The Table at which the first loop of
    [get_or_create_array_append_table] arrives where every key on its
    way is present: it goes through Tables, and through the last Table
    of an Array whose path is recorded in the array-of-tables set. *)
Fixpoint prefix_table (s : Parser) (path keys : list string) (i : nat) (t : loc)
  : option loc :=
  match keys with
  | [] => Some t
  | key :: keys' =>
      match table_at s t !! key with
      | Some (VTablePtr t') => prefix_table s path keys' (S i) t'
      | Some (VArrayPtr arr) =>
          if bool_decide (take (S i) path ∈ array_of_tables_paths_ s) then
            match last (array_at s arr) with
            | Some (VTablePtr t') => prefix_table s path keys' (S i) t'
            | _ => None
            end
          else None
      | _ => None
      end
  end.

(** A step from [s] to [s'] that leaves in place what the store of [s]
    holds: the entries of its Tables, its Arrays and the recorded
    paths.  It may add entries, Tables, Arrays and paths. *)
Record undisturbed (s s' : Parser) : Prop := {
  undisturbed_store : store_ok s';
  undisturbed_tables : keeps_tables s s';
  undisturbed_arrays : forall a, (a < next_ s)%nat -> array_at s' a = array_at s a;
  undisturbed_paths : array_of_tables_paths_ s ⊆ array_of_tables_paths_ s';
  undisturbed_root : root_table_ s' = root_table_ s;
  undisturbed_next : (next_ s <= next_ s')%nat
}.

(** [s'] has come out of [b] by headers [[[path]]] and undisturbed
    steps: what [b] held is in place, and the Array [arr], which [b] did
    not have, stands at [last_key] of the Table [t], is recorded and
    holds the Tables [ts], none of which [b] had. *)
Record grown_by_headers (b : Parser) (path : list string) (t : loc)
    (last_key : string) (arr : loc) (ts : list loc) (s' : Parser) : Prop := {
  grown_store : store_ok s';
  grown_tables : keeps_tables b s';
  grown_arrays : forall a, (a < next_ b)%nat -> array_at s' a = array_at b a;
  grown_paths : array_of_tables_paths_ b ⊆ array_of_tables_paths_ s';
  grown_root : root_table_ s' = root_table_ b;
  grown_next : (next_ b <= next_ s')%nat;
  grown_new : (next_ b <= arr)%nat;
  grown_key : table_at s' t !! last_key = Some (VArrayPtr arr);
  grown_recorded : path ∈ array_of_tables_paths_ s';
  grown_elements : array_at s' arr = VTablePtr <$> ts;
  grown_fresh : forall l, l ∈ ts -> (next_ b <= l)%nat
}.

(** [n] headers [[[path]]] in a row: the Tables they return. *)
Fixpoint headers (n : nat) (path : list string) : M (list (option loc)) :=
  match n with
  | O => ret []
  | S n' =>
      t <- get_or_create_array_append_table path ;;
      ts <- headers n' path ;;
      ret (t :: ts)
  end.

End StoreShape.

(** The constructed parser after one header [[[products]]]. *)
Definition after_first_header : Parser :=
  match get_or_create_array_append_table ["products"%string] (@TomlParser text_floats) with
  | Ok _ s => s
  | _ => TomlParser
  end.

(** The constructed parser with [products = 1] in its root Table. *)
Definition with_integer_products : Parser :=
  with_table_set 0%nat "products" (VInteger 1) (@TomlParser text_floats).

(** ** Runs of a method from a given parser *)

Section Runs.
Context `{FloatOps}.

(** [m], run from [s], returns: with a value and a parser in [Q], or by
    an exception that leaves the parser as it was.  It neither reads
    outside the buffer nor exhausts a loop budget. *)
Definition runs {A} (m : M A) (s : Parser) (Q : A -> Parser -> Prop) : Prop :=
  match m s with
  | Ok a s' => Q a s'
  | Throw _ s' => s' = s
  | Fault => False
  | OutOfFuel => False
  end.

(** The cursor and the end of the input lie in the buffer. *)
Definition buffer_ok (s : Parser) : Prop :=
  0 <= current_ s <= end_ s /\ end_ s <= Z.of_nat (length (input_ s)).

(** A value that [try_parse_datetime] makes of the text [raw]: the text
    itself, the text with its date and time joined by [T], or a
    date-time with offset. *)
Definition datetime_text (v : TomlValue) (raw : string) : Prop :=
  match v with
  | VString str => str = raw \/ str = normalize_T raw
  | VDateTimeOffset _ => (20 <= String.length raw)%nat
  | _ => False
  end.

(** How [try_parse_datetime] leaves the parser [s]. *)
Definition datetime_post (s : Parser) (r : option TomlValue) (s' : Parser) : Prop :=
  match r with
  | None =>
      current_ s' = current_ s
      /\ (s' = s \/ exists message, s' = errored message s)
  | Some v =>
      exists p,
        s' = with_current p s
        /\ current_ s + 8 <= p <= end_ s
        /\ datetime_text v (substr (input_ s) (current_ s) p)
  end.

End Runs.

(** A parser standing before a date whose month is 13. *)
Definition before_invalid_month : Parser :=
  at_ (list_ascii_of_string "d = ") (list_ascii_of_string "1979-13-01")
    (@TomlParser text_floats).

(** A parser standing before a date-time with an offset. *)
Definition before_offset_datetime : Parser :=
  at_ (list_ascii_of_string "d = ") (list_ascii_of_string "1979-05-27T07:32:00-08:00")
    (@TomlParser text_floats).

(** ** Notions used by the further properties *)

(** The Gregorian calendar.  A year is a leap year when 4 divides it;
    but of the years that 100 divides, only those that 400 divides. *)
Definition gregorian_leap (year : Z) : bool :=
  if year mod 100 =? 0 then year mod 400 =? 0 else year mod 4 =? 0.

(** Thirty days have September, April, June and November; February has
    28, and 29 in a leap year; the others have 31. *)
Definition month_length (year month : Z) : Z :=
  if month =? 2 then (if gregorian_leap year then 29 else 28)
  else if (month =? 4) || (month =? 6) || (month =? 9) || (month =? 11) then 30
  else 31.

(** The day after [day] of [month] in [year]. *)
Definition next_day (year month day : Z) : Z * Z * Z :=
  if day <? month_length year month then (year, month, day + 1)
  else if month <? 12 then (year, month + 1, 1)
  else (year + 1, 1, 1).

(** The days from 1 January 1970 to a date, counted in the integers. *)
Definition days_between (y m d : Z) : Z :=
  let days :=
    fold_left (fun days yy => days + (if gregorian_leap yy then 366 else 365))
      (map (fun k => 1970 + Z.of_nat k) (seq 0 (Z.to_nat (y - 1970)))) 0 in
  let days :=
    fold_left (fun days mm => days + month_length y mm)
      (map (fun k => 1 + Z.of_nat k) (seq 0 (Z.to_nat (m - 1)))) days in
  days + (d - 1).

(** The number that a run of decimal digits denotes. *)
Definition decimal_value (ds : list ascii) : Z :=
  fold_left (fun v c => v * 10 + (code c - code "0")) ds 0.

(** A parser whose buffer holds the time [07:32]. *)
Definition before_time : Parser :=
  at_ [] (list_ascii_of_string "07:32") (@TomlParser text_floats).

(** No byte of [body] is [q]. *)
Definition free_of (q : ascii) (body : list ascii) : bool :=
  forallb (fun c => negb (c =? q)%char) body.

(** The bytes of a Windows path, with backslashes. *)
Definition windows_path : list ascii := list_ascii_of_string "C:\Users\nodejs".

(** ** Methods that return *)

Section Landing.
Context `{FloatOps}.

(** [m], run from [s], returns with a value and a parser in [Q], or
    leaves by an exception whose message is not empty.  It neither reads
    outside the buffer nor exhausts a loop budget. *)
Definition lands {A} (m : M A) (s : Parser) (Q : A -> Parser -> Prop) : Prop :=
  match m s with
  | Ok a s' => Q a s'
  | Throw what _ => what <> ""%string
  | Fault => False
  | OutOfFuel => False
  end.

(** From [s] to [s'] the cursor has not moved back and is still in the
    buffer, the buffer and the current Table are the same, and an error
    that was recorded still is. *)
Record moved (s s' : Parser) : Prop := {
  moved_buffer : buffer_ok s';
  moved_input : input_ s' = input_ s;
  moved_end : end_ s' = end_ s;
  moved_current : current_ s <= current_ s';
  moved_table : current_table_ s' = current_table_ s;
  moved_error : error_message_ s <> ""%string -> error_message_ s' <> ""%string
}.

(** The cursor of [s] stands at the byte [c]. *)
Definition stands_at (s : Parser) (c : ascii) : Prop :=
  current_ s < end_ s /\ load (input_ s) (current_ s) = Some c.

(** What [peek] returns from [s]. *)
Definition peeked (s : Parser) (c : ascii) : Prop :=
  (end_ s <= current_ s /\ c = NUL) \/ stands_at s c.

End Landing.

(** ** Decimal integers, in the words of their readers *)

(** A byte of a decimal integer: a digit or an underscore. *)
Definition is_decimal_char (c : ascii) : bool := isdigit c || (c =? "_")%char.

(** The digits of a decimal integer, its underscores left out. *)
Definition decimal_digits (body : list ascii) : list ascii :=
  List.filter (fun ch => negb (ch =? "_")%char) body.

(** A zero followed by a digit. *)
Definition leading_zero (body : list ascii) : bool :=
  match body with
  | c :: d :: _ => (c =? "0")%char && isdigit d
  | _ => false
  end.

(** The bytes ahead neither go on with the number nor make a prefix
    [0x], [0o] or [0b] of its last digit. *)
Definition ends_number (rest : list ascii) : bool :=
  match rest with
  | c :: _ => negb (is_number_char c) && negb (bool_decide (is_Some (prefix_base c)))
  | [] => true
  end.

(** The number that a sign gives to a value. *)
Definition signed (sign : list ascii) (v : Z) : Z :=
  match sign with
  | c :: _ => if (c =? "-")%char then - v else v
  | [] => v
  end.

(** ** Documents, in the words of their readers *)

(** A space or a tab. *)
Definition is_blank (c : ascii) : bool := (c =? " ")%char || (c =? TAB)%char.

(** The bytes ahead do not begin with a byte of [P]. *)
Definition stops (P : ascii -> bool) (rest : list ascii) : bool :=
  match rest with
  | c :: _ => negb (P c)
  | [] => true
  end.

(** The bytes ahead end a value: nothing, or a byte that may follow a
    value. *)
Definition ends_value (rest : list ascii) : bool :=
  match rest with
  | c :: _ => is_value_terminator c
  | [] => true
  end.

(** ** Arrays of integers, in the words of their readers *)

(** A run of decimal digits that is an Integer: not empty, without a
    leading zero, and not above the largest 64-bit value. *)
Definition plain_integer (ds : list ascii) : Prop :=
  ds <> [] /\ forallb isdigit ds = true /\ leading_zero ds = false
  /\ decimal_value ds <= INT64_MAX.

(** The elements of an array after the first: each one follows a comma
    and white space. *)
Fixpoint elements_text (more : list (list ascii * list ascii)) : list ascii :=
  match more with
  | [] => []
  | (ws, ds) :: more' => ","%char :: ws ++ ds ++ elements_text more'
  end.

(** The text of an array of integers: the elements are [(ws, ds)], the
    digits [ds] after the white space [ws]. *)
Definition array_text (items : list (list ascii * list ascii)) : list ascii :=
  "["%char ::
  match items with
  | [] => []
  | (ws, ds) :: more => ws ++ ds ++ elements_text more
  end ++ ["]"%char].

(** An element of such an array. *)
Definition integer_item (item : list ascii * list ascii) : Prop :=
  forallb simd_utils.is_whitespace (fst item) = true /\ plain_integer (snd item).

Section Appended.
Context `{FloatOps}.

(** The parser after the Integer that [ds] denotes has been appended to
    the Array [a]. *)
Definition appended (a : loc) (s : Parser) (ds : list ascii) : Parser :=
  with_array_append a (VInteger (decimal_value ds)) s.

End Appended.

(** ** Inline tables of integers, in the words of their readers *)

(** An assignment [key = digits] in an inline table, with the blanks
    before the key and on both sides of the equals sign. *)
Record Assignment := {
  lead : list ascii;
  name : list ascii;
  before_equals : list ascii;
  after_equals : list ascii;
  digits : list ascii
}.

Definition assignment_text (e : Assignment) : list ascii :=
  name e ++ before_equals e ++ "="%char :: after_equals e ++ digits e.

(** The assignments of an inline table after the first: each one follows
    a comma and blanks. *)
Fixpoint assignments_text (more : list Assignment) : list ascii :=
  match more with
  | [] => []
  | e :: more' => ","%char :: lead e ++ assignment_text e ++ assignments_text more'
  end.

Definition inline_table_text (items : list Assignment) : list ascii :=
  "{"%char ::
  match items with
  | [] => []
  | e :: more => lead e ++ assignment_text e ++ assignments_text more
  end ++ ["}"%char].

(** An assignment of a decimal integer to a bare key. *)
Definition plain_assignment (e : Assignment) : Prop :=
  forallb is_blank (lead e) = true
  /\ name e <> [] /\ forallb is_bare_key_char (name e) = true
  /\ forallb is_blank (before_equals e) = true
  /\ forallb is_blank (after_equals e) = true
  /\ plain_integer (digits e).

Section Assigned.
Context `{FloatOps}.

(** The parser after the assignment [e] has been made in the Table [t]. *)
Definition assigned (t : loc) (s : Parser) (e : Assignment) : Parser :=
  with_table_set t (string_of_list_ascii (name e))
    (VInteger (decimal_value (digits e))) s.

(** The entries of a Table after the assignment [e]: an earlier entry
    of the same key is replaced. *)
Definition bound (m : gmap string TomlValue) (e : Assignment) : gmap string TomlValue :=
  <[string_of_list_ascii (name e) := VInteger (decimal_value (digits e))]> m.

End Assigned.

(** ** Keywords, in the words of their readers *)

Section Keywords.
Context `{FloatOps}.

(** The calls [expect_char(c)] for the bytes [c] of a keyword, one after
    the other, and then [return b]. *)
Fixpoint expect_then (keyword : list ascii) (b : bool) : M bool :=
  match keyword with
  | [] => ret b
  | c :: keyword' => expect_char c ;; expect_then keyword' b
  end.

End Keywords.
(** * Verification *)

(** ** Memory and the scalar loops *)

Lemma load_Some mem p c :
  load mem p = Some c -> 0 <= p < Z.of_nat (length mem).
Proof.
  unfold load. destruct (0 <=? p) eqn:E1; destruct (p <? Z.of_nat (length mem)) eqn:E2;
    simpl; try discriminate. intros _. lia.
Qed.

Lemma load_in_range mem p :
  0 <= p < Z.of_nat (length mem) -> exists c, load mem p = Some c.
Proof.
  intros Hp. unfold load.
  replace (0 <=? p) with true by (symmetry; apply Z.leb_le; lia).
  replace (p <? Z.of_nat (length mem)) with true by (symmetry; apply Z.ltb_lt; lia).
  simpl. destruct (mem !! Z.to_nat p) eqn:E; [eauto|].
  apply lookup_ge_None in E. lia.
Qed.

Lemma code_inj c c' : code c = code c' -> c = c'.
Proof.
  unfold code. intros E. apply N2Z.inj in E.
  rewrite <- (ascii_N_embedding c), <- (ascii_N_embedding c'). congruence.
Qed.

Module simd_facts.
Import simd_utils.
Import simd_spec.

Lemma scalar_loop_first_not P mem left ptr :
  0 <= ptr -> ptr + Z.of_nat left <= Z.of_nat (length mem) ->
  exists q, scalar_loop P mem left ptr = Some q
            /\ first_not P mem ptr (ptr + Z.of_nat left) q.
Proof.
  revert ptr. induction left as [|left IH]; intros ptr H0 Hlen.
  - exists ptr. split; [reflexivity|]. split; [lia|]. split; intros; lia.
  - simpl scalar_loop.
    destruct (load_in_range mem ptr) as [c Hc]; [lia|]. rewrite Hc.
    destruct (P c) eqn:HP.
    + destruct (IH (ptr + 1)) as (q & Hq & Hr1 & Hr2 & Hr3); [lia|lia|].
      exists q. split; [exact Hq|]. split; [lia|]. split.
      * intros i Hi. destruct (Z.eq_dec i ptr) as [->|Hne]; [eauto|].
        apply Hr2. lia.
      * intros Hlt. apply Hr3. lia.
    + exists ptr. split; [reflexivity|]. split; [lia|]. split.
      * intros i Hi. lia.
      * intros _. eauto.
Qed.

Lemma first_not_unique P mem ptr lim q q' :
  first_not P mem ptr lim q -> first_not P mem ptr lim q' -> q = q'.
Proof.
  intros (H1 & H2 & H3) (H1' & H2' & H3').
  destruct (Z.lt_trichotomy q q') as [Hlt|[Heq|Hgt]]; [|exact Heq|].
  - destruct H3 as (c & Hc & HP); [lia|].
    destruct (H2' q) as (c' & Hc' & HP'); [lia|]. congruence.
  - destruct H3' as (c & Hc & HP); [lia|].
    destruct (H2 q') as (c' & Hc' & HP'); [lia|]. congruence.
Qed.

(** The loop can be cut after a run of bytes in [P]. *)
Lemma scalar_loop_skip P mem k left ptr :
  (forall i, ptr <= i < ptr + Z.of_nat k -> exists c, load mem i = Some c /\ P c = true) ->
  scalar_loop P mem (k + left) ptr = scalar_loop P mem left (ptr + Z.of_nat k).
Proof.
  revert ptr. induction k as [|k IH]; intros ptr Hrun.
  - simpl. f_equal. lia.
  - simpl Nat.add. simpl scalar_loop.
    destruct (Hrun ptr) as (c & Hc & HP); [lia|]. rewrite Hc, HP.
    rewrite IH.
    + f_equal. lia.
    + intros i Hi. apply Hrun. lia.
Qed.

Lemma scalar_loop_stop P mem left ptr c :
  load mem ptr = Some c -> P c = false ->
  scalar_loop P mem (S left) ptr = Some ptr.
Proof. intros Hc HP. simpl. rewrite Hc, HP. reflexivity. Qed.

(** ** The vector operations *)

Lemma load_lanes_lookup mem n ptr :
  0 <= ptr -> ptr + Z.of_nat n <= Z.of_nat (length mem) ->
  exists v, load_lanes mem n ptr = Some v /\ length v = n
            /\ forall i, (i < n)%nat ->
                 exists c, load mem (ptr + Z.of_nat i) = Some c /\ v !! i = Some (code c).
Proof.
  revert ptr. induction n as [|n IH]; intros ptr H0 Hlen.
  - exists []. split; [reflexivity|]. split; [reflexivity|]. intros i Hi. lia.
  - simpl load_lanes.
    destruct (load_in_range mem ptr) as [c Hc]; [lia|]. rewrite Hc.
    destruct (IH (ptr + 1)) as (v & Hv & Hl & Hlook); [lia|lia|]. rewrite Hv.
    exists (code c :: v). split; [reflexivity|]. split; [simpl; lia|].
    intros [|i] Hi.
    + exists c. rewrite Z.add_0_r. auto.
    + destruct (Hlook i) as (c' & Hc' & Hv'); [lia|].
      exists c'. split; [|exact Hv'].
      rewrite <- Hc'. f_equal. lia.
Qed.

Lemma zip_with_replicate_lanes {A B C} (f : A -> B -> C) (l : list A) n y :
  (length l <= n)%nat -> zip_with f l (replicate n y) = map (fun x => f x y) l.
Proof.
  revert n. induction l as [|x l IH]; intros n Hn; [reflexivity|].
  destruct n as [|n]; [simpl in Hn; lia|].
  simpl. f_equal. apply IH. simpl in Hn. lia.
Qed.

Lemma b2z_testbit_high (b : bool) i : 0 < i -> Z.testbit (Z.b2z b) i = false.
Proof.
  intros Hi. destruct b.
  - change (Z.b2z true) with (Z.ones 1). apply Z.ones_spec_high. lia.
  - apply Z.testbit_0_l.
Qed.

Lemma movemask_testbit v i :
  Z.testbit (_mm256_movemask_epi8 v) (Z.of_nat i)
  = match v !! i with Some b => Z.testbit b 7 | None => false end.
Proof.
  revert i. induction v as [|b v IH]; intros i.
  - apply Z.testbit_0_l.
  - cbn [_mm256_movemask_epi8]. rewrite Z.lor_spec.
    destruct i as [|i].
    + change (Z.of_nat 0) with 0. rewrite Z.shiftl_spec_low by lia.
      rewrite Z.b2z_bit0, orb_false_r. reflexivity.
    + rewrite Z.shiftl_spec by lia.
      replace (Z.of_nat (S i) - 1) with (Z.of_nat i) by lia.
      rewrite IH, b2z_testbit_high by lia. reflexivity.
Qed.

Lemma movemask_testbit_high v i :
  Z.of_nat (length v) <= i -> Z.testbit (_mm256_movemask_epi8 v) i = false.
Proof.
  intros Hi. replace i with (Z.of_nat (Z.to_nat i)) by lia.
  rewrite movemask_testbit.
  assert (E : v !! Z.to_nat i = None) by (apply lookup_ge_None_2; lia).
  rewrite E. reflexivity.
Qed.

Lemma ctz_from_least n x :
  let k := ctz_from n x in
  0 <= k <= Z.of_nat n
  /\ (forall i, 0 <= i < k -> Z.testbit x i = false)
  /\ (k < Z.of_nat n -> Z.testbit x k = true).
Proof.
  cbv zeta. revert x. induction n as [|n IH]; intros x; cbn [ctz_from].
  - split; [lia|]. split; intros; lia.
  - destruct (Z.testbit x 0) eqn:E0.
    + split; [lia|]. split; [intros; lia|]. intros _. exact E0.
    + destruct (IH (Z.shiftr x 1)) as (Hk & Hlow & Hhit).
      set (k := ctz_from n (Z.shiftr x 1)) in *.
      split; [lia|]. split.
      * intros i Hi. destruct (Z.eq_dec i 0) as [->|Hne]; [exact E0|].
        specialize (Hlow (i - 1)). rewrite Z.shiftr_spec in Hlow by lia.
        replace (i - 1 + 1) with i in Hlow by lia. apply Hlow. lia.
      * intros Hlt. rewrite Z.shiftr_spec in Hhit by lia.
        replace (1 + k) with (k + 1) by lia. apply Hhit. lia.
Qed.

Lemma not32_testbit mask i :
  0 <= i < 32 -> Z.testbit (not32 mask) i = negb (Z.testbit mask i).
Proof.
  intros Hi. unfold not32. rewrite Z.lxor_spec.
  change 0xFFFFFFFF with (Z.ones 32). rewrite Z.ones_spec_low by lia.
  destruct (Z.testbit mask i); reflexivity.
Qed.

Lemma lane_mask_reads (lane : Z -> Z) P mem ptr v :
  length v = 32%nat ->
  (forall i, (i < 32)%nat ->
     exists c, load mem (ptr + Z.of_nat i) = Some c /\ v !! i = Some (code c)) ->
  (forall c, Z.testbit (lane (code c)) 7 = P c) ->
  reads P mem ptr (_mm256_movemask_epi8 (map lane v)).
Proof.
  intros Hlen Hv Hlane. split.
  - intros i Hi. destruct (Hv i Hi) as (c & Hc & Hvi).
    exists c. split; [exact Hc|].
    rewrite movemask_testbit, list_lookup_fmap, Hvi. simpl. apply Hlane.
  - intros i Hi. apply movemask_testbit_high. rewrite length_map, Hlen. lia.
Qed.

Lemma eq_lane_testbit x c : Z.testbit (eq_lane x (code c)) 7 = (c =? x)%char.
Proof.
  unfold eq_lane. destruct (Z.eqb_spec (code c) (code x)) as [E|E].
  - apply code_inj in E. subst. rewrite Ascii.eqb_refl. reflexivity.
  - destruct (Ascii.eqb_spec c x) as [->|_]; [congruence|reflexivity].
Qed.

Lemma cmpeq_set1 v x :
  (length v <= 32)%nat ->
  _mm256_cmpeq_epi8 v (_mm256_set1_epi8 x) = map (eq_lane x) v.
Proof.
  intros Hl. unfold _mm256_cmpeq_epi8, _mm256_set1_epi8.
  rewrite zip_with_replicate_lanes by exact Hl. reflexivity.
Qed.

Lemma or_si256_map (f g : Z -> Z) v :
  _mm256_or_si256 (map f v) (map g v) = map (fun b => Z.lor (f b) (g b)) v.
Proof.
  unfold _mm256_or_si256. induction v as [|b v IH]; [reflexivity|].
  simpl. f_equal. exact IH.
Qed.

Lemma whitespace_mask_reads mem ptr v :
  length v = 32%nat ->
  (forall i, (i < 32)%nat ->
     exists c, load mem (ptr + Z.of_nat i) = Some c /\ v !! i = Some (code c)) ->
  reads is_whitespace mem ptr (whitespace_mask v).
Proof.
  intros Hlen Hv. unfold whitespace_mask.
  rewrite !cmpeq_set1 by lia. rewrite !or_si256_map.
  apply lane_mask_reads; [exact Hlen|exact Hv|].
  intros c. rewrite !Z.lor_spec, !eq_lane_testbit, orb_assoc. reflexivity.
Qed.

Lemma whitespace_no_nl_mask_reads mem ptr v :
  length v = 32%nat ->
  (forall i, (i < 32)%nat ->
     exists c, load mem (ptr + Z.of_nat i) = Some c /\ v !! i = Some (code c)) ->
  reads is_whitespace_no_nl mem ptr (whitespace_no_nl_mask v).
Proof.
  intros Hlen Hv. unfold whitespace_no_nl_mask.
  rewrite !cmpeq_set1 by lia. rewrite !or_si256_map.
  apply lane_mask_reads; [exact Hlen|exact Hv|].
  intros c. rewrite !Z.lor_spec, !eq_lane_testbit. reflexivity.
Qed.

Lemma find_mask_reads x mem ptr v :
  length v = 32%nat ->
  (forall i, (i < 32)%nat ->
     exists c, load mem (ptr + Z.of_nat i) = Some c /\ v !! i = Some (code c)) ->
  reads (fun c => (c =? x)%char) mem ptr (find_mask x v).
Proof.
  intros Hlen Hv. unfold find_mask.
  rewrite cmpeq_set1 by lia.
  apply lane_mask_reads; [exact Hlen|exact Hv|].
  intros c. apply eq_lane_testbit.
Qed.

Lemma reads_full P mem ptr mask :
  reads P mem ptr mask ->
  mask = 0xFFFFFFFF ->
  forall i, ptr <= i < ptr + 32 -> exists c, load mem i = Some c /\ P c = true.
Proof.
  intros [Hlow _] -> i Hi.
  destruct (Hlow (Z.to_nat (i - ptr))) as (c & Hc & Hb); [lia|].
  replace (ptr + Z.of_nat (Z.to_nat (i - ptr))) with i in Hc by lia.
  exists c. split; [exact Hc|]. rewrite <- Hb.
  change 0xFFFFFFFF with (Z.ones 32). apply Z.ones_spec_low. lia.
Qed.

Lemma reads_zero P mem ptr mask :
  reads P mem ptr mask ->
  mask = 0 ->
  forall i, ptr <= i < ptr + 32 -> exists c, load mem i = Some c /\ P c = false.
Proof.
  intros [Hlow _] -> i Hi.
  destruct (Hlow (Z.to_nat (i - ptr))) as (c & Hc & Hb); [lia|].
  replace (ptr + Z.of_nat (Z.to_nat (i - ptr))) with i in Hc by lia.
  exists c. split; [exact Hc|]. rewrite <- Hb. apply Z.testbit_0_l.
Qed.

(** [ctz(~mask)] is the first byte of the chunk outside the class. *)
Lemma reads_ctz_not P mem ptr mask :
  reads P mem ptr mask ->
  mask <> 0xFFFFFFFF ->
  let k := ctz (not32 mask) in
  0 <= k < 32
  /\ (forall i, ptr <= i < ptr + k -> exists c, load mem i = Some c /\ P c = true)
  /\ (exists c, load mem (ptr + k) = Some c /\ P c = false).
Proof.
  intros [Hlow Hhigh] Hne. unfold ctz.
  destruct (ctz_from_least 32 (not32 mask)) as (Hk & Hbelow & Hhit).
  set (k := ctz_from 32 (not32 mask)) in *. simpl.
  assert (Hk32 : k < 32).
  { destruct (Z.eq_dec k 32) as [E|E]; [|lia]. exfalso. apply Hne.
    apply Z.bits_inj'. intros i Hi.
    change 0xFFFFFFFF with (Z.ones 32).
    destruct (Z.lt_ge_cases i 32) as [Hlt|Hge].
    - rewrite Z.ones_spec_low by lia.
      specialize (Hbelow i). rewrite not32_testbit in Hbelow by lia.
      destruct (Z.testbit mask i); [reflexivity|]. simpl in Hbelow.
      symmetry. apply Hbelow. lia.
    - rewrite Z.ones_spec_high by lia. apply Hhigh. lia. }
  split; [lia|]. split.
  - intros i Hi.
    destruct (Hlow (Z.to_nat (i - ptr))) as (c & Hc & Hb); [lia|].
    replace (ptr + Z.of_nat (Z.to_nat (i - ptr))) with i in Hc by lia.
    replace (Z.of_nat (Z.to_nat (i - ptr))) with (i - ptr) in Hb by lia.
    exists c. split; [exact Hc|]. rewrite <- Hb.
    specialize (Hbelow (i - ptr)). rewrite not32_testbit in Hbelow by lia.
    destruct (Z.testbit mask (i - ptr)); [reflexivity|].
    simpl in Hbelow. symmetry. apply Hbelow. lia.
  - destruct (Hlow (Z.to_nat k)) as (c & Hc & Hb); [lia|].
    replace (Z.of_nat (Z.to_nat k)) with k in Hc, Hb by lia.
    exists c. split; [exact Hc|]. rewrite <- Hb.
    specialize (Hhit ltac:(lia)). rewrite not32_testbit in Hhit by lia.
    destruct (Z.testbit mask k); [discriminate|reflexivity].
Qed.

(** [ctz(mask)] is the first byte of the chunk inside the class. *)
Lemma reads_ctz P mem ptr mask :
  reads P mem ptr mask ->
  mask <> 0 ->
  let k := ctz mask in
  0 <= k < 32
  /\ (forall i, ptr <= i < ptr + k -> exists c, load mem i = Some c /\ P c = false)
  /\ (exists c, load mem (ptr + k) = Some c /\ P c = true).
Proof.
  intros [Hlow Hhigh] Hne. unfold ctz.
  destruct (ctz_from_least 32 mask) as (Hk & Hbelow & Hhit).
  set (k := ctz_from 32 mask) in *. simpl.
  assert (Hk32 : k < 32).
  { destruct (Z.eq_dec k 32) as [E|E]; [|lia]. exfalso. apply Hne.
    apply Z.bits_inj'. intros i Hi. rewrite Z.testbit_0_l.
    destruct (Z.lt_ge_cases i 32) as [Hlt|Hge].
    - apply Hbelow. lia.
    - apply Hhigh. lia. }
  split; [lia|]. split.
  - intros i Hi.
    destruct (Hlow (Z.to_nat (i - ptr))) as (c & Hc & Hb); [lia|].
    replace (ptr + Z.of_nat (Z.to_nat (i - ptr))) with i in Hc by lia.
    replace (Z.of_nat (Z.to_nat (i - ptr))) with (i - ptr) in Hb by lia.
    exists c. split; [exact Hc|]. rewrite <- Hb. apply Hbelow. lia.
  - destruct (Hlow (Z.to_nat k)) as (c & Hc & Hb); [lia|].
    replace (Z.of_nat (Z.to_nat k)) with k in Hc, Hb by lia.
    exists c. split; [exact Hc|]. rewrite <- Hb. apply Hhit. lia.
Qed.


(** ** The AVX2 loops compute what the scalar loops compute *)

Lemma skip_chunks_scalar mask_of P mem :
  (forall ptr v,
     length v = 32%nat ->
     (forall i, (i < 32)%nat ->
        exists c, load mem (ptr + Z.of_nat i) = Some c /\ v !! i = Some (code c)) ->
     reads P mem ptr (mask_of v)) ->
  forall chunks ptr end_,
    0 <= ptr -> end_ <= Z.of_nat (length mem) ->
    Z.of_nat chunks * 32 <= end_ - ptr ->
    skip_chunks mask_of P mem chunks ptr end_
    = scalar_loop P mem (Z.to_nat (end_ - ptr)) ptr.
Proof.
  intros Hmask. induction chunks as [|chunks IH]; intros ptr end_ H0 Hend Hroom.
  - reflexivity.
  - cbn [skip_chunks]. unfold _mm256_loadu_si256.
    destruct (load_lanes_lookup mem 32 ptr) as (v & Hv & Hlen & Hlanes); [lia|lia|].
    rewrite Hv. pose proof (Hmask ptr v Hlen Hlanes) as Hreads.
    destruct (Z.eqb_spec (mask_of v) 0xFFFFFFFF) as [Hfull|Hpart]; cbn [negb].
    + replace (Z.to_nat (end_ - ptr))
        with (32 + Z.to_nat (end_ - (ptr + 32)))%nat by lia.
      rewrite scalar_loop_skip.
      * change (Z.of_nat 32) with 32. apply IH; lia.
      * change (Z.of_nat 32) with 32. apply (reads_full _ _ _ _ Hreads Hfull).
    + destruct (reads_ctz_not _ _ _ _ Hreads Hpart) as (Hk & Hrun & c & Hc & HP).
      set (k := ctz (not32 (mask_of v))) in *.
      replace (Z.to_nat (end_ - ptr))
        with (Z.to_nat k + S (Z.to_nat (end_ - ptr - k - 1)))%nat by lia.
      rewrite scalar_loop_skip.
      * replace (Z.of_nat (Z.to_nat k)) with k by lia.
        symmetry. apply (scalar_loop_stop _ _ _ _ c Hc HP).
      * replace (Z.of_nat (Z.to_nat k)) with k by lia. exact Hrun.
Qed.

Lemma find_chunks_scalar x mem :
  forall chunks ptr end_,
    0 <= ptr -> end_ <= Z.of_nat (length mem) ->
    Z.of_nat chunks * 32 <= end_ - ptr ->
    find_chunks x mem chunks ptr end_
    = scalar_loop (fun c => negb (c =? x)%char) mem (Z.to_nat (end_ - ptr)) ptr.
Proof.
  induction chunks as [|chunks IH]; intros ptr end_ H0 Hend Hroom.
  - reflexivity.
  - cbn [find_chunks]. unfold _mm256_loadu_si256.
    destruct (load_lanes_lookup mem 32 ptr) as (v & Hv & Hlen & Hlanes); [lia|lia|].
    rewrite Hv. pose proof (find_mask_reads x mem ptr v Hlen Hlanes) as Hreads.
    destruct (Z.eqb_spec (find_mask x v) 0) as [Hnone|Hsome]; cbn [negb].
    + replace (Z.to_nat (end_ - ptr))
        with (32 + Z.to_nat (end_ - (ptr + 32)))%nat by lia.
      rewrite scalar_loop_skip.
      * change (Z.of_nat 32) with 32. apply IH; lia.
      * change (Z.of_nat 32) with 32. intros i Hi.
        destruct (reads_zero _ _ _ _ Hreads Hnone i Hi) as (c & Hc & HP).
        exists c. rewrite HP. auto.
    + destruct (reads_ctz _ _ _ _ Hreads Hsome) as (Hk & Hrun & c & Hc & HP).
      set (k := ctz (find_mask x v)) in *.
      replace (Z.to_nat (end_ - ptr))
        with (Z.to_nat k + S (Z.to_nat (end_ - ptr - k - 1)))%nat by lia.
      rewrite scalar_loop_skip.
      * replace (Z.of_nat (Z.to_nat k)) with k by lia.
        symmetry. apply (scalar_loop_stop _ _ _ _ c Hc). rewrite HP. reflexivity.
      * replace (Z.of_nat (Z.to_nat k)) with k by lia. intros i Hi.
        destruct (Hrun i Hi) as (c' & Hc' & HP'). exists c'. rewrite HP'. auto.
Qed.

Lemma chunk_count_fits ptr end_ :
  0 <= end_ - ptr -> Z.of_nat (Z.to_nat ((end_ - ptr) / 32)) * 32 <= end_ - ptr.
Proof.
  intros H. pose proof (Z.div_pos (end_ - ptr) 32 H ltac:(lia)).
  rewrite Z2Nat.id by assumption.
  pose proof (Z.mul_div_le (end_ - ptr) 32 ltac:(lia)). lia.
Qed.

(** C3.  On every pointer range [0 <= ptr <= end <= size] of every byte
    sequence, the AVX2 versions of [skip_whitespace], [skip_whitespace_no_nl]
    and [find_char_simd] return the pointer the scalar fallback loops return,
    and that pointer is the first position of the range whose byte is outside
    the white space class (for [find_char_simd]: whose byte is the target
    character), or [end] when there is none. *)
Theorem avx2_agrees_with_scalar (mem : list ascii) (ptr end_ : Z) (x : ascii) :
  0 <= ptr <= end_ -> end_ <= Z.of_nat (length mem) ->
  (skip_whitespace_avx2 mem ptr end_ = skip_whitespace mem ptr end_
   /\ exists q, skip_whitespace mem ptr end_ = Some q
               /\ first_not is_whitespace mem ptr end_ q)
  /\ (skip_whitespace_no_nl_avx2 mem ptr end_ = skip_whitespace_no_nl mem ptr end_
      /\ exists q, skip_whitespace_no_nl mem ptr end_ = Some q
                  /\ first_not is_whitespace_no_nl mem ptr end_ q)
  /\ (find_char_simd_avx2 mem ptr end_ x = find_char_simd mem ptr end_ x
      /\ exists q, find_char_simd mem ptr end_ x = Some q
                  /\ ptr <= q <= end_
                  /\ (forall i, ptr <= i < q ->
                        exists c, load mem i = Some c /\ c <> x)
                  /\ (q < end_ -> load mem q = Some x)).
Proof.
  intros Hrange Hend.
  assert (Hscalar : forall P, exists q,
            scalar_loop P mem (Z.to_nat (end_ - ptr)) ptr = Some q
            /\ first_not P mem ptr end_ q).
  { intros P.
    destruct (scalar_loop_first_not P mem (Z.to_nat (end_ - ptr)) ptr)
      as (q & Hq & Hfirst); [lia|lia|].
    exists q. split; [exact Hq|].
    replace (ptr + Z.of_nat (Z.to_nat (end_ - ptr))) with end_ in Hfirst by lia.
    exact Hfirst. }
  split; [|split].
  - split; [|apply Hscalar].
    unfold skip_whitespace_avx2, skip_whitespace.
    destruct (end_ - ptr <? 32); [reflexivity|].
    apply skip_chunks_scalar; [|lia|lia|apply chunk_count_fits; lia].
    intros p v. apply whitespace_mask_reads.
  - split; [|apply Hscalar].
    unfold skip_whitespace_no_nl_avx2, skip_whitespace_no_nl.
    destruct (end_ - ptr <? 32); [reflexivity|].
    apply skip_chunks_scalar; [|lia|lia|apply chunk_count_fits; lia].
    intros p v. apply whitespace_no_nl_mask_reads.
  - split.
    + unfold find_char_simd_avx2, find_char_simd.
      destruct (end_ - ptr <? 32); [reflexivity|].
      apply find_chunks_scalar; [lia|lia|apply chunk_count_fits; lia].
    + destruct (Hscalar (fun c => negb (c =? x)%char)) as (q & Hq & Hr & Hrun & Hstop).
      exists q. split; [exact Hq|]. split; [exact Hr|]. split.
      * intros i Hi. destruct (Hrun i Hi) as (c & Hc & HP).
        exists c. split; [exact Hc|]. intros ->.
        rewrite Ascii.eqb_refl in HP. discriminate.
      * intros Hlt. destruct (Hstop Hlt) as (c & Hc & HP).
        rewrite Hc. f_equal.
        destruct (Ascii.eqb_spec c x) as [E|E]; [exact E|discriminate].
Qed.

End simd_facts.

Lemma avx2_agrees_with_scalar_witness :
  simd_utils.skip_whitespace_avx2 sample_buffer 0 40
  = simd_utils.skip_whitespace sample_buffer 0 40
  /\ simd_utils.skip_whitespace sample_buffer 0 40 = Some 33
  /\ simd_utils.find_char_simd_avx2 sample_buffer 0 40 "y" = Some 38.
Proof.
  destruct (simd_facts.avx2_agrees_with_scalar sample_buffer 0 40 "y")
    as ((E1 & _) & _ & (E3 & _)).
  - lia.
  - vm_compute. discriminate.
  - split; [exact E1|]. split; [reflexivity|]. rewrite E3. reflexivity.
Defined.

(** ** The monad and the cursor *)

Section CursorFacts.
Context `{FloatOps}.

Lemma bind_ok {A B} (m : M A) (k : A -> M B) s a s' :
  m s = Ok a s' -> bind m k s = k a s'.
Proof. intros E. unfold bind. rewrite E. reflexivity. Qed.

Lemma eof_run s : eof s = Ok (end_ s <=? current_ s) s.
Proof. reflexivity. Qed.

Lemma peek_at_end s : end_ s <= current_ s -> peek s = Ok NUL s.
Proof.
  intros E. unfold peek, bind. rewrite eof_run.
  replace (end_ s <=? current_ s) with true by (symmetry; apply Z.leb_le; lia).
  reflexivity.
Qed.

Lemma advance_at_end s : end_ s <= current_ s -> advance s = Ok NUL s.
Proof.
  intros E. unfold advance, bind. rewrite eof_run.
  replace (end_ s <=? current_ s) with true by (symmetry; apply Z.leb_le; lia).
  reflexivity.
Qed.

Lemma peek_before_end s c :
  current_ s < end_ s -> load (input_ s) (current_ s) = Some c -> peek s = Ok c s.
Proof.
  intros E L. unfold peek, bind. rewrite eof_run.
  replace (end_ s <=? current_ s) with false by (symmetry; apply Z.leb_gt; lia).
  unfold gets, deref. rewrite L. reflexivity.
Qed.

Lemma advance_before_end s c :
  current_ s < end_ s -> load (input_ s) (current_ s) = Some c ->
  advance s = Ok c (with_current (current_ s + 1) s).
Proof.
  intros E L. unfold advance, bind. rewrite eof_run.
  replace (end_ s <=? current_ s) with false by (symmetry; apply Z.leb_gt; lia).
  unfold gets, deref. rewrite L. reflexivity.
Qed.

Lemma load_take (mem mem' : list ascii) (n : nat) (p : Z) :
  take n mem' = take n mem -> p < Z.of_nat n ->
  (n <= length mem)%nat -> (n <= length mem')%nat ->
  load mem' p = load mem p.
Proof.
  intros E Hp Hn Hn'. unfold load.
  destruct (0 <=? p) eqn:E0; [|reflexivity]. apply Z.leb_le in E0.
  replace (p <? Z.of_nat (length mem)) with true by (symmetry; apply Z.ltb_lt; lia).
  replace (p <? Z.of_nat (length mem')) with true by (symmetry; apply Z.ltb_lt; lia).
  simpl.
  rewrite <- (lookup_take_lt mem' n (Z.to_nat p)) by lia.
  rewrite <- (lookup_take_lt mem n (Z.to_nat p)) by lia.
  rewrite E. reflexivity.
Qed.

(** C10.  In a parser whose cursor lies in a buffer that reaches up to
    [end_], [eof], [peek] and [advance] return (no fault, no exception);
    at [current_ >= end_] both [peek] and [advance] return NUL and leave
    the parser as it is; before [end_] they return the byte under the
    cursor, which lies before [end_], and [advance] moves the cursor by
    one; so [current_ <= end_] is kept, and the result does not depend on
    the bytes of the buffer at or after [end_]. *)
Theorem peek_advance_stay_in_bounds (s : Parser) :
  0 <= current_ s -> end_ s <= Z.of_nat (length (input_ s)) ->
  eof s = Ok (end_ s <=? current_ s) s
  /\ (end_ s <= current_ s -> peek s = Ok NUL s /\ advance s = Ok NUL s)
  /\ (current_ s < end_ s ->
      exists c, load (input_ s) (current_ s) = Some c
                /\ peek s = Ok c s
                /\ advance s = Ok c (with_current (current_ s + 1) s))
  /\ (exists c s', advance s = Ok c s'
                   /\ input_ s' = input_ s /\ end_ s' = end_ s
                   /\ current_ s <= current_ s' <= current_ s + 1
                   /\ (current_ s <= end_ s -> current_ s' <= end_ s'))
  /\ (forall mem',
        take (Z.to_nat (end_ s)) mem' = take (Z.to_nat (end_ s)) (input_ s) ->
        end_ s <= Z.of_nat (length mem') ->
        exists c, peek s = Ok c s
                  /\ peek (with_buffer mem' (current_ s) (end_ s) s)
                     = Ok c (with_buffer mem' (current_ s) (end_ s) s)).
Proof.
  intros H0 Hend.
  assert (Hin : current_ s < end_ s ->
                exists c, load (input_ s) (current_ s) = Some c).
  { intros Hlt. apply load_in_range. lia. }
  split; [reflexivity|]. split; [|split; [|split]].
  - intros Hge. split; [apply peek_at_end|apply advance_at_end]; exact Hge.
  - intros Hlt. destruct (Hin Hlt) as [c Hc]. exists c.
    split; [exact Hc|]. split.
    + apply peek_before_end; assumption.
    + apply advance_before_end; assumption.
  - destruct (Z.lt_ge_cases (current_ s) (end_ s)) as [Hlt|Hge].
    + destruct (Hin Hlt) as [c Hc].
      exists c, (with_current (current_ s + 1) s).
      split; [apply advance_before_end; assumption|].
      cbn. repeat split; lia.
    + exists NUL, s. split; [apply advance_at_end; exact Hge|].
      repeat split; lia.
  - intros mem' Htake Hlen'.
    destruct (Z.lt_ge_cases (current_ s) (end_ s)) as [Hlt|Hge].
    + destruct (Hin Hlt) as [c Hc]. exists c.
      split; [apply peek_before_end; assumption|].
      apply peek_before_end; cbn; [exact Hlt|].
      rewrite <- Hc. apply (load_take _ _ (Z.to_nat (end_ s))); [exact Htake|lia|lia|lia].
    + exists NUL. split; apply peek_at_end; cbn; exact Hge.
Qed.

End CursorFacts.

Lemma peek_advance_stay_in_bounds_witness :
  let s := with_buffer (list_ascii_of_string "a=1") 2 3 (@TomlParser text_floats) in
  peek s = Ok "1"%char s
  /\ advance s = Ok "1"%char (with_current 3 s)
  /\ advance (with_current 3 s) = Ok NUL (with_current 3 s).
Proof.
  intros s.
  destruct (@peek_advance_stay_in_bounds text_floats s) as (_ & _ & Hin & _);
    [cbn; lia | cbn; lia |].
  destruct (Hin ltac:(cbn; lia)) as (c & Hc & Hpeek & Hadv).
  assert (c = "1"%char) as -> by (vm_compute in Hc; congruence).
  split; [exact Hpeek|]. split; [exact Hadv|]. reflexivity.
Defined.

(** ** Methods that respect a preorder on parser states *)

Section Respects.
Context `{FloatOps}.
Variable R : Parser -> Parser -> Prop.
Hypothesis R_refl : forall s, R s s.
Hypothesis R_trans : forall s1 s2 s3, R s1 s2 -> R s2 s3 -> R s1 s3.

Lemma respects_ret {A} (a : A) : respects R (ret a).
Proof. intros s. apply R_refl. Qed.

Lemma respects_gets {A} (f : Parser -> A) : respects R (gets f).
Proof. intros s. apply R_refl. Qed.

Lemma respects_throw {A} w : respects R (@throw _ A w).
Proof. intros s. apply R_refl. Qed.

Lemma respects_out_of_fuel {A} : respects R (@out_of_fuel _ A).
Proof. intros s. exact I. Qed.

Lemma respects_fault {A} : respects R (@fault _ A).
Proof. intros s. exact I. Qed.

Lemma respects_deref p : respects R (deref p).
Proof. intros s. unfold deref. destruct (load _ _); [apply R_refl|exact I]. Qed.

Lemma respects_modify f : (forall s, R s (f s)) -> respects R (modify f).
Proof. intros Hf s. apply Hf. Qed.

Lemma respects_bind {A B} (m : M A) (k : A -> M B) :
  respects R m -> (forall a, respects R (k a)) -> respects R (bind m k).
Proof.
  intros Hm Hk s. unfold bind. specialize (Hm s).
  destruct (m s) as [a s1|w s1| |]; try exact I; [|exact Hm].
  specialize (Hk a s1). destruct (k a s1); try exact I; eapply R_trans; eauto.
Qed.

Lemma respects_iter {L X} fuel (body : L -> M (L + X)) l :
  (forall l, respects R (body l)) -> respects R (iter fuel body l).
Proof.
  intros Hbody. revert l. induction fuel as [|fuel IH]; intros l.
  - apply respects_out_of_fuel.
  - cbn [iter]. apply respects_bind; [apply Hbody|].
    intros [l'|x]; [apply IH|apply respects_ret].
Qed.

Lemma respects_while fuel cond body :
  respects R cond -> respects R body -> respects R (while fuel cond body).
Proof.
  intros Hc Hb. induction fuel as [|fuel IH].
  - apply respects_out_of_fuel.
  - cbn [while]. apply respects_bind; [exact Hc|].
    intros [|]; [|apply respects_ret].
    apply respects_bind; [exact Hb|]. intros _. exact IH.
Qed.

End Respects.

(** Walks through a method built from [bind], the loops and case
    distinctions, closing the leaves with the hints of [respects]. *)
Create HintDb respects.

Ltac respects_step :=
  match goal with
  | |- forall _, _ => intro; cbv beta
  | |- respects _ (bind _ _) => apply respects_bind; try assumption
  | |- respects _ (ret _) => apply respects_ret; assumption
  | |- respects _ (gets _) => apply respects_gets; assumption
  | |- respects _ (deref _) => apply respects_deref; assumption
  | |- respects _ (throw _) => apply respects_throw; assumption
  | |- respects _ out_of_fuel => apply respects_out_of_fuel
  | |- respects _ fault => apply respects_fault
  | |- respects _ (iter _ _ _) => apply respects_iter; try assumption
  | |- respects _ (while _ _ _) => apply respects_while; try assumption
  | |- respects _ (if ?b then _ else _) => destruct b
  | |- respects _ (match ?x with _ => _ end) => destruct x
  | |- respects _ _ => solve [eauto with respects]
  end.

Ltac respects_auto := repeat respects_step.

(** Every method of the parser respects a relation [R] that
    [set_error] respects and that holds between two parsers with the same
    [error_message_] and [reported_]. *)

Section AllMethods.
Context `{FloatOps}.
Variable R : Parser -> Parser -> Prop.
Hypothesis R_refl : forall s, R s s.
Hypothesis R_trans : forall s1 s2 s3, R s1 s2 -> R s2 s3 -> R s1 s3.
Hypothesis R_frame :
  forall s s', error_message_ s' = error_message_ s -> reported_ s' = reported_ s -> R s s'.
Hypothesis R_set_error : forall message, respects R (set_error message).

Local Hint Resolve R_set_error : respects.

Lemma respects_frame f :
  (forall s, error_message_ (f s) = error_message_ s) ->
  (forall s, reported_ (f s) = reported_ s) ->
  respects R (modify f).
Proof. intros H1 H2. apply respects_modify. intros s. apply R_frame; auto. Qed.

Ltac frame := apply respects_frame; intros; reflexivity.

Lemma eof_respects : respects R eof.
Proof. unfold eof. respects_auto. Qed.
Local Hint Resolve eof_respects : respects.

Lemma peek_respects : respects R peek.
Proof. unfold peek. respects_auto. Qed.
Local Hint Resolve peek_respects : respects.

Lemma advance_respects : respects R advance.
Proof. unfold advance. respects_auto. frame. Qed.
Local Hint Resolve advance_respects : respects.

Lemma has_error_respects : respects R has_error.
Proof. unfold has_error. respects_auto. Qed.
Local Hint Resolve has_error_respects : respects.

Lemma skip_whitespace_respects : respects R skip_whitespace.
Proof.
  intros s. unfold skip_whitespace.
  destruct (simd_utils.skip_whitespace _ _ _); [|exact I]. apply R_frame; reflexivity.
Qed.
Local Hint Resolve skip_whitespace_respects : respects.

Lemma skip_whitespace_no_nl_respects : respects R skip_whitespace_no_nl.
Proof.
  intros s. unfold skip_whitespace_no_nl.
  destruct (simd_utils.skip_whitespace_no_nl _ _ _); [|exact I]. apply R_frame; reflexivity.
Qed.
Local Hint Resolve skip_whitespace_no_nl_respects : respects.

Lemma peek_is_respects c : respects R (peek_is c).
Proof. unfold peek_is. respects_auto. Qed.
Lemma peek_is_not_respects c : respects R (peek_is_not c).
Proof. unfold peek_is_not. respects_auto. Qed.
Lemma not_eof_respects : respects R not_eof.
Proof. unfold not_eof. respects_auto. Qed.
Local Hint Resolve peek_is_respects peek_is_not_respects not_eof_respects : respects.

Lemma skip_comment_respects fuel : respects R (skip_comment fuel).
Proof. unfold skip_comment. respects_auto. Qed.
Local Hint Resolve skip_comment_respects : respects.

Lemma expect_char_respects c : respects R (expect_char c).
Proof. unfold expect_char. respects_auto. Qed.
Local Hint Resolve expect_char_respects : respects.

Lemma cur_at_respects k : respects R (cur_at k).
Proof. unfold cur_at. respects_auto. Qed.
Local Hint Resolve cur_at_respects : respects.

Lemma cur_at_is_respects k c : respects R (cur_at_is k c).
Proof. unfold cur_at_is. respects_auto. Qed.
Lemma skip_bytes_respects k : respects R (skip_bytes k).
Proof. unfold skip_bytes. frame. Qed.
Local Hint Resolve cur_at_is_respects skip_bytes_respects : respects.

Lemma triple_quote_respects q : respects R (triple_quote q).
Proof. unfold triple_quote. respects_auto. Qed.
Local Hint Resolve triple_quote_respects : respects.

Lemma parse_unicode_escape_respects n : respects R (parse_unicode_escape n).
Proof. unfold parse_unicode_escape, unicode_escape_round. respects_auto. Qed.
Local Hint Resolve parse_unicode_escape_respects : respects.

Lemma parse_escape_sequence_respects : respects R parse_escape_sequence.
Proof. unfold parse_escape_sequence. respects_auto. Qed.
Local Hint Resolve parse_escape_sequence_respects : respects.

Lemma parse_basic_string_respects fuel : respects R (parse_basic_string fuel).
Proof. unfold parse_basic_string, basic_string_round. respects_auto. Qed.
Lemma parse_literal_string_respects fuel : respects R (parse_literal_string fuel).
Proof. unfold parse_literal_string. respects_auto. Qed.
Lemma count_quotes_respects fuel q : respects R (count_quotes fuel q).
Proof. unfold count_quotes, count_quotes_round. respects_auto. Qed.
Local Hint Resolve parse_basic_string_respects parse_literal_string_respects
  count_quotes_respects : respects.

Lemma parse_multiline_basic_string_respects fuel :
  respects R (parse_multiline_basic_string fuel).
Proof. unfold parse_multiline_basic_string, multiline_basic_round. respects_auto. Qed.
Lemma parse_multiline_literal_string_respects fuel :
  respects R (parse_multiline_literal_string fuel).
Proof. unfold parse_multiline_literal_string. respects_auto. Qed.
Local Hint Resolve parse_multiline_basic_string_respects
  parse_multiline_literal_string_respects : respects.

Lemma parse_quoted_respects fuel q : respects R (parse_quoted fuel q).
Proof. unfold parse_quoted. respects_auto. Qed.
Local Hint Resolve parse_quoted_respects : respects.

Lemma parse_key_respects fuel : respects R (parse_key fuel).
Proof. unfold parse_key. respects_auto. Qed.
Local Hint Resolve parse_key_respects : respects.

Lemma parse_dotted_key_respects fuel : respects R (parse_dotted_key fuel).
Proof. unfold parse_dotted_key. respects_auto. Qed.
Local Hint Resolve parse_dotted_key_respects : respects.

(** The store. *)

Lemma make_shared_Table_respects : respects R make_shared_Table.
Proof. intros s. apply R_frame; reflexivity. Qed.
Lemma make_shared_Array_respects : respects R make_shared_Array.
Proof. intros s. apply R_frame; reflexivity. Qed.
Lemma Table_has_respects t key : respects R (Table_has t key).
Proof. unfold Table_has. respects_auto. Qed.
Lemma Table_set_respects t key v : respects R (Table_set t key v).
Proof. unfold Table_set. frame. Qed.
Local Hint Resolve make_shared_Table_respects make_shared_Array_respects
  Table_has_respects Table_set_respects : respects.

Lemma Table_values_respects t key : respects R (Table_values t key).
Proof. unfold Table_values. respects_auto. Qed.
Lemma Array_append_respects a v : respects R (Array_append a v).
Proof. unfold Array_append. frame. Qed.
Lemma Array_elements_respects a : respects R (Array_elements a).
Proof. unfold Array_elements. respects_auto. Qed.
Lemma in_array_of_tables_paths_respects p : respects R (in_array_of_tables_paths p).
Proof. unfold in_array_of_tables_paths. respects_auto. Qed.
Local Hint Resolve Table_values_respects Array_append_respects Array_elements_respects
  in_array_of_tables_paths_respects : respects.

Lemma table_at_path_loop_respects path keys i t :
  respects R (table_at_path_loop path keys i t).
Proof.
  revert i t. induction keys as [|key keys IH]; intros i t; cbn [table_at_path_loop];
    respects_auto.
Qed.
Local Hint Resolve table_at_path_loop_respects : respects.

Lemma get_or_create_table_at_path_respects path :
  respects R (get_or_create_table_at_path path).
Proof. unfold get_or_create_table_at_path. respects_auto. Qed.

Lemma array_prefix_loop_respects path keys i t :
  respects R (array_prefix_loop path keys i t).
Proof.
  revert i t. induction keys as [|key keys IH]; intros i t; cbn [array_prefix_loop];
    respects_auto.
Qed.
Local Hint Resolve get_or_create_table_at_path_respects array_prefix_loop_respects
  : respects.

Lemma get_or_create_array_append_table_respects path :
  respects R (get_or_create_array_append_table path).
Proof. unfold get_or_create_array_append_table. respects_auto. frame. Qed.

Lemma set_value_loop_respects keys t : respects R (set_value_loop keys t).
Proof.
  revert t. induction keys as [|key keys IH]; intros t; cbn [set_value_loop];
    respects_auto.
Qed.
Local Hint Resolve get_or_create_array_append_table_respects set_value_loop_respects
  : respects.

Lemma set_value_at_path_respects table path v :
  respects R (set_value_at_path table path v).
Proof. unfold set_value_at_path. respects_auto. Qed.
Local Hint Resolve set_value_at_path_respects : respects.

(** Dates and times. *)

Lemma parse_int_respects p e a b : respects R (parse_int p e a b).
Proof. unfold parse_int, parse_int_round. respects_auto. Qed.
Lemma garbage_at_respects p : respects R (garbage_at p).
Proof. unfold garbage_at. respects_auto. Qed.
Lemma digit_at_respects p : respects R (digit_at p).
Proof. unfold digit_at. respects_auto. Qed.
Lemma byte_at_is_respects p x : respects R (byte_at_is p x).
Proof. unfold byte_at_is. respects_auto. Qed.
Local Hint Resolve parse_int_respects garbage_at_respects digit_at_respects
  byte_at_is_respects : respects.

Lemma time_shape_at_respects q : respects R (time_shape_at q).
Proof. unfold time_shape_at. respects_auto. Qed.
Lemma date_shape_at_respects q : respects R (date_shape_at q).
Proof. unfold date_shape_at. respects_auto. Qed.
Lemma not_a_datetime_respects start m : respects R (not_a_datetime start m).
Proof. unfold not_a_datetime. respects_auto; frame. Qed.
Lemma datetime_value_respects p v : respects R (datetime_value p v).
Proof. unfold datetime_value. respects_auto. frame. Qed.
Lemma lexeme_respects a b : respects R (lexeme a b).
Proof. unfold lexeme. respects_auto. Qed.
Lemma skip_digits_respects p : respects R (skip_digits p).
Proof.
  intros s. unfold skip_digits.
  destruct (simd_utils.scalar_loop _ _ _ _); [apply R_refl|exact I].
Qed.
Local Hint Resolve time_shape_at_respects date_shape_at_respects not_a_datetime_respects
  datetime_value_respects lexeme_respects skip_digits_respects : respects.

Lemma datetime_time_part_respects start p y m d :
  respects R (datetime_time_part start p y m d).
Proof. unfold datetime_time_part. respects_auto. Qed.
Local Hint Resolve datetime_time_part_respects : respects.

Lemma datetime_after_date_respects start p y m d :
  respects R (datetime_after_date start p y m d).
Proof. unfold datetime_after_date. respects_auto. Qed.
Local Hint Resolve datetime_after_date_respects : respects.

Lemma try_parse_datetime_respects : respects R try_parse_datetime.
Proof. unfold try_parse_datetime. respects_auto. Qed.
Local Hint Resolve try_parse_datetime_respects : respects.

(** Values. *)

Lemma keyword_at_respects a b c : respects R (keyword_at a b c).
Proof. unfold keyword_at. respects_auto. Qed.
Lemma cur_digit_respects k : respects R (cur_digit k).
Proof. unfold cur_digit. respects_auto. Qed.
Local Hint Resolve keyword_at_respects cur_digit_respects : respects.

Lemma parse_prefixed_integer_respects fuel start :
  respects R (parse_prefixed_integer fuel start).
Proof. unfold parse_prefixed_integer, prefixed_digits_round. respects_auto. Qed.
Local Hint Resolve parse_prefixed_integer_respects : respects.

Lemma parse_number_respects fuel c : respects R (parse_number fuel c).
Proof. unfold parse_number. respects_auto. Qed.
Lemma datetime_attempt_respects : respects R datetime_attempt.
Proof. unfold datetime_attempt. respects_auto. Qed.
Local Hint Resolve parse_number_respects datetime_attempt_respects : respects.

Lemma parse_datetime_or_number_respects fuel c :
  respects R (parse_datetime_or_number fuel c).
Proof. unfold parse_datetime_or_number. respects_auto. Qed.
Lemma parse_boolean_respects : respects R parse_boolean.
Proof. unfold parse_boolean. respects_auto. Qed.
Local Hint Resolve parse_datetime_or_number_respects parse_boolean_respects : respects.

Lemma parse_array_with_respects fuel value :
  respects R value -> respects R (parse_array_with fuel value).
Proof. intros Hv. unfold parse_array_with. respects_auto. Qed.

Lemma parse_inline_table_with_respects fuel value :
  respects R value -> respects R (parse_inline_table_with fuel value).
Proof. intros Hv. unfold parse_inline_table_with. respects_auto. Qed.
Local Hint Resolve parse_array_with_respects parse_inline_table_with_respects : respects.

Lemma parse_value_with_respects fuel value :
  respects R value -> respects R (parse_value_with fuel value).
Proof. intros Hv. unfold parse_value_with. respects_auto. Qed.

Lemma parse_value_respects fuel : respects R (parse_value fuel).
Proof.
  induction fuel as [|fuel IH]; cbn [parse_value].
  - apply respects_out_of_fuel.
  - apply parse_value_with_respects. exact IH.
Qed.
Local Hint Resolve parse_value_respects : respects.

Lemma parse_key_value_pair_respects fuel table :
  respects R (parse_key_value_pair fuel table).
Proof. unfold parse_key_value_pair. respects_auto. Qed.
Local Hint Resolve parse_key_value_pair_respects : respects.

Lemma parse_document_respects fuel : respects R (parse_document fuel).
Proof. unfold parse_document. respects_auto; frame. Qed.

Lemma try_parse_document_respects fuel : respects R (try_parse_document fuel).
Proof.
  intros s. unfold try_parse_document.
  pose proof (parse_document_respects fuel s) as Hdoc.
  destruct (parse_document fuel s) as [a s1|w s1| |]; try exact I; [exact Hdoc|].
  pose proof (R_set_error w s1) as Hset. cbn in *.
  eapply R_trans; eassumption.
Qed.

End AllMethods.

(** ** The sticky error *)

Lemma record_nonempty e message : e <> ""%string -> record e message = e.
Proof.
  intros He. unfold record. destruct (String.eqb_spec e ""); [contradiction|reflexivity].
Qed.

Lemma record_all_nonempty messages e : e <> ""%string -> record_all messages e = e.
Proof.
  revert e. induction messages as [|m messages IH]; intros e He; [reflexivity|].
  cbn. rewrite record_nonempty by exact He. apply IH. exact He.
Qed.

Lemma record_all_app l1 l2 e : record_all (l1 ++ l2) e = record_all l2 (record_all l1 e).
Proof. apply fold_left_app. Qed.

Lemma record_all_first_error messages : record_all messages "" = first_error messages.
Proof.
  induction messages as [|m messages IH]; [reflexivity|].
  cbn. unfold first_error. cbn.
  destruct (String.eqb_spec m "") as [->|Hm]; cbn.
  - exact IH.
  - apply record_all_nonempty. exact Hm.
Qed.

Section Sticky.
Context `{FloatOps}.

Lemma reports_refl s : reports s s.
Proof. exists []. split; [symmetry; apply app_nil_r|reflexivity]. Qed.

Lemma reports_trans s1 s2 s3 : reports s1 s2 -> reports s2 s3 -> reports s1 s3.
Proof.
  intros (l1 & Hr1 & He1) (l2 & Hr2 & He2). exists (l1 ++ l2). split.
  - rewrite Hr2, Hr1. symmetry. apply app_assoc.
  - rewrite He2, He1. symmetry. apply record_all_app.
Qed.

Lemma reports_frame s s' :
  error_message_ s' = error_message_ s -> reported_ s' = reported_ s -> reports s s'.
Proof.
  intros He Hr. exists []. split; [rewrite Hr; symmetry; apply app_nil_r|exact He].
Qed.

Lemma set_error_run message s :
  set_error message s
  = Ok tt (with_reported (reported_ s ++ [message])
             (with_error (record (error_message_ s) message) s)).
Proof.
  unfold set_error, modify, record. cbn.
  destruct (String.eqb (error_message_ s) ""); reflexivity.
Qed.

Lemma reports_set_error message : respects reports (set_error message).
Proof.
  intros s. rewrite set_error_run. exists [message]. split; reflexivity.
Qed.

Lemma reports_sticky s s' :
  reports s s' -> error_message_ s <> ""%string -> error_message_ s' = error_message_ s.
Proof. intros (l & _ & He) Hne. rewrite He. apply record_all_nonempty. exact Hne. Qed.

Lemma parse_document_reports fuel : respects reports (parse_document fuel).
Proof.
  apply parse_document_respects;
    [exact reports_refl|exact reports_trans|exact reports_frame|exact reports_set_error].
Qed.

Lemma try_parse_document_reports fuel : respects reports (try_parse_document fuel).
Proof.
  apply try_parse_document_respects;
    [exact reports_refl|exact reports_trans|exact reports_frame|exact reports_set_error].
Qed.

(** [parse] starts from an empty [error_message_] (and an empty ghost
    list), whatever the parser went through before. *)
Lemma parse_reports fuel input s r s' :
  parse fuel input s = Ok r s' ->
  reports (with_reported [] (with_error "" s)) s'.
Proof.
  unfold parse. intros E.
  assert (Hrest : forall m : M (option loc),
            respects reports m ->
            forall s0, m s0 = Ok r s' -> reports s0 s').
  { intros m Hm s0 E0. specialize (Hm s0). rewrite E0 in Hm. exact Hm. }
  unfold bind at 1 in E. cbn [modify] in E.
  refine (Hrest _ _ _ E).
  pose proof reports_refl. pose proof reports_trans.
  pose proof reports_set_error. pose proof try_parse_document_reports.
  respects_auto; try (apply respects_modify; intros; apply reports_frame; reflexivity).
Qed.

(** C6.  [set_error(msg)] stores [msg] in [error_message_] when and only
    when [error_message_] is empty, and touches nothing else of the
    parser; once [error_message_] is non-empty the rest of the document
    parser does not change it; and when [parse] returns, [get_error] is
    the first error message handed to [set_error] during that call. *)
Theorem set_error_is_sticky :
  (forall message s,
     exists s', set_error message s = Ok tt s'
       /\ (error_message_ s = ""%string -> error_message_ s' = message)
       /\ (error_message_ s <> ""%string -> error_message_ s' = error_message_ s)
       /\ with_reported (reported_ s) s' = with_error (error_message_ s') s)
  /\ (forall fuel s,
        error_message_ s <> ""%string ->
        match parse_document fuel s with
        | Ok _ s' => error_message_ s' = error_message_ s
        | Throw _ s' => error_message_ s' = error_message_ s
        | Fault => True
        | OutOfFuel => True
        end)
  /\ (forall fuel input s r s',
        parse fuel input s = Ok r s' ->
        get_error s' = first_error (reported_ s')).
Proof.
  split; [|split].
  - intros message s. eexists. split; [apply set_error_run|]. cbn.
    split; [|split].
    + intros ->. reflexivity.
    + intros Hne. apply record_nonempty. exact Hne.
    + reflexivity.
  - intros fuel s Hne. pose proof (parse_document_reports fuel s) as Hdoc.
    destruct (parse_document fuel s); try exact I; apply reports_sticky; assumption.
  - intros fuel input s r s' E.
    destruct (parse_reports _ _ _ _ _ E) as (l & Hr & He). cbn in Hr, He.
    unfold get_error. rewrite He, Hr. apply record_all_first_error.
Qed.

End Sticky.

Lemma set_error_is_sticky_witness :
  exists s',
    parse 20 two_errors (@TomlParser text_floats) = Ok None s'
    /\ get_error s' = first_error (reported_ s')
    /\ get_error s' = "Unexpected character in value: ?"%string
    /\ In "Unexpected character in value: !"%string (reported_ s').
Proof.
  destruct (parse 20 two_errors (@TomlParser text_floats)) as [r s'| | |] eqn:E;
    try (vm_compute in E; discriminate).
  destruct (@set_error_is_sticky text_floats) as (_ & _ & Hparse).
  pose proof (Hparse _ _ _ _ _ E) as Hfirst.
  vm_compute in E. injection E as <- <-.
  eexists. split; [reflexivity|]. split; [exact Hfirst|].
  split; [reflexivity|]. vm_compute. tauto.
Defined.

(** ** Pre-validation *)

Lemma code_range c : 0 <= code c < 256.
Proof.
  unfold code. pose proof (N_ascii_bounded c) as Hb. lia.
Qed.

Lemma code_LF c : code c = 0x0A <-> c = LF.
Proof.
  split; [|intros ->; reflexivity].
  intros E. apply code_inj. exact E.
Qed.

Lemma forbidden_byte_shift c rest i :
  forbidden_byte (c :: rest) (S i) <-> forbidden_byte rest i.
Proof. unfold forbidden_byte. cbn. reflexivity. Qed.

Lemma control_scan_finds input :
  control_scan input = true <-> exists i, forbidden_byte input i.
Proof.
  induction input as [|c rest IH].
  - cbn. split; [discriminate|]. intros (i & x & Hx & _). discriminate.
  - assert (Hlater : (exists i, forbidden_byte rest i)
                     -> exists i, forbidden_byte (c :: rest) i).
    { intros (i & Hi). exists (S i). exact Hi. }
    assert (Hsplit : (exists i, forbidden_byte (c :: rest) i)
                     -> forbidden_byte (c :: rest) 0 \/ exists i, forbidden_byte rest i).
    { intros ([|i] & Hi); [left; exact Hi|right].
      exists i. exact Hi. }
    pose proof (code_range c) as Hc.
    cbn [control_scan].
    destruct (Z.eqb_spec (code c) 0x0D) as [Hcr|Hncr].
    + destruct rest as [|c' rest'].
      * split; [intros _|reflexivity].
        exists 0%nat, c. split; [reflexivity|]. left.
        repeat split; try lia. intros (_ & Hnext). discriminate.
      * destruct (Ascii.eqb_spec c' LF) as [->|Hnlf]; cbn [negb].
        -- rewrite IH. split; [exact Hlater|].
           intros Hex. destruct (Hsplit Hex) as [(x & Hx & Hbad)|Hrest]; [|exact Hrest].
           cbn in Hx. injection Hx as <-. exfalso.
           destruct Hbad as [(_ & _ & _ & Hcrlf)|H7f]; [|lia].
           apply Hcrlf. split; [exact Hcr|reflexivity].
        -- split; [intros _|reflexivity].
           exists 0%nat, c. split; [reflexivity|]. left.
           repeat split; try lia. intros (_ & Hnext).
           cbn in Hnext. injection Hnext as ->. contradiction.
    + unfold is_forbidden_control.
      destruct (Z.eqb_spec (code c) 0x09) as [Htab|Hntab]; cbn [orb].
      { rewrite IH. split; [exact Hlater|].
        intros Hex. destruct (Hsplit Hex) as [(x & Hx & Hbad)|Hrest]; [|exact Hrest].
        cbn in Hx. injection Hx as <-. exfalso.
        destruct Hbad as [(_ & Ht & _)|H7f]; lia. }
      destruct (Z.eqb_spec (code c) 0x0A) as [Hlf|Hnlf].
      { rewrite IH. split; [exact Hlater|].
        intros Hex. destruct (Hsplit Hex) as [(x & Hx & Hbad)|Hrest]; [|exact Hrest].
        cbn in Hx. injection Hx as <-. exfalso.
        destruct Hbad as [(_ & _ & Hl & _)|H7f]; lia. }
      destruct (Z.eqb_spec (code c) 0x0D) as [?|_]; [contradiction|].
      destruct (Z.leb_spec (code c) 0x1F) as [Hlow|Hhigh]; cbn [orb].
      { split; [intros _|reflexivity].
        exists 0%nat, c. split; [reflexivity|]. left.
        repeat split; try lia. }
      destruct (Z.eqb_spec (code c) 0x7F) as [Hdel|Hndel].
      { split; [intros _|reflexivity].
        exists 0%nat, c. split; [reflexivity|]. right. exact Hdel. }
      rewrite IH. split; [exact Hlater|].
      intros Hex. destruct (Hsplit Hex) as [(x & Hx & Hbad)|Hrest]; [|exact Hrest].
      cbn in Hx. injection Hx as <-. exfalso.
      destruct Hbad as [(Hr & _)|H7f]; lia.
Qed.

Section PreValidation.
Context `{FloatOps}.

(** C2.  An input holds a forbidden byte exactly when the scan at the
    head of [parse] stops on it.  On such an input [parse] returns
    [nullptr] with the control-character message in [error_message_], and
    has done nothing else than clear the error and the array-of-tables
    set: no buffer installed, no table made.  On an input without such a
    byte the scan records nothing and [parse] goes on to the document. *)
Theorem parse_rejects_control_characters (fuel : nat) (input : string) (s : Parser) :
  let bytes := list_ascii_of_string input in
  ((exists i, forbidden_byte bytes i) <-> control_scan bytes = true)
  /\ ((exists i, forbidden_byte bytes i) ->
      parse fuel input s
      = Ok None (with_reported [control_message]
                   (with_error control_message (with_paths ∅ s))))
  /\ (~ (exists i, forbidden_byte bytes i) ->
      parse fuel input s
      = parse_validated fuel bytes (with_paths ∅ (with_reported [] (with_error "" s)))).
Proof.
  intros bytes. split; [symmetry; apply control_scan_finds|]. split.
  - intros Hbad. apply control_scan_finds in Hbad.
    unfold parse. fold bytes. rewrite Hbad. reflexivity.
  - intros Hgood.
    assert (Hscan : control_scan bytes = false).
    { destruct (control_scan bytes) eqn:E; [|reflexivity].
      exfalso. apply Hgood. apply control_scan_finds. exact E. }
    unfold parse. fold bytes. rewrite Hscan. reflexivity.
Qed.

End PreValidation.

(** A NUL byte in a value; and a document of printable bytes. *)
Lemma parse_rejects_control_characters_witness :
  let bad := ("x = " +:+ char_string NUL)%string in
  (exists s', parse 20 bad (@TomlParser text_floats) = Ok None s'
              /\ get_error s' = control_message
              /\ input_ s' = [] /\ tables_ s' = tables_ (@TomlParser text_floats))
  /\ (exists r s', parse 20 "x = 1" (@TomlParser text_floats) = Ok (Some r) s'
                   /\ get_error s' = ""%string).
Proof.
  intros bad. split.
  - destruct (@parse_rejects_control_characters text_floats 20 bad TomlParser)
      as (_ & Hbad & _).
    eexists. split; [apply Hbad|].
    + exists 4%nat, NUL. split; [reflexivity|]. left.
      vm_compute. intuition discriminate.
    + repeat split.
  - destruct (@parse_rejects_control_characters text_floats 20 "x = 1" TomlParser)
      as (Hiff & _ & Hgood).
    rewrite Hgood.
    + vm_compute. eexists _, _. split; reflexivity.
    + intros Hex. apply Hiff in Hex. vm_compute in Hex. discriminate.
Defined.

(** ** Running the methods on a known buffer *)

Section Run.
Context `{FloatOps}.

Lemma bind_run {A B} (m : M A) (k : A -> M B) s :
  bind m k s
  = match m s with
    | Ok a s' => k a s'
    | Throw w s' => Throw w s'
    | Fault => Fault
    | OutOfFuel => OutOfFuel
    end.
Proof. reflexivity. Qed.

Lemma load_at pre rest (k : nat) :
  load (pre ++ rest) (Z.of_nat (length pre) + Z.of_nat k) = rest !! k.
Proof.
  unfold load. rewrite length_app.
  replace (0 <=? Z.of_nat (length pre) + Z.of_nat k) with true
    by (symmetry; apply Z.leb_le; lia).
  destruct (Z.ltb_spec (Z.of_nat (length pre) + Z.of_nat k)
              (Z.of_nat (length pre + length rest))) as [Hlt|Hge]; cbn [andb].
  - replace (Z.to_nat (Z.of_nat (length pre) + Z.of_nat k))
      with (length pre + k)%nat by lia.
    rewrite lookup_app_r by lia. f_equal. lia.
  - symmetry. apply lookup_ge_None_2. lia.
Qed.

Lemma ret_run {A} (a : A) s : ret a s = Ok a s.
Proof. reflexivity. Qed.

Lemma gets_run {A} (f : Parser -> A) s : gets f s = Ok (f s) s.
Proof. reflexivity. Qed.

Lemma modify_run f s : modify f s = Ok tt (f s).
Proof. reflexivity. Qed.

Lemma current_at pre rest s0 : current_ (at_ pre rest s0) = Z.of_nat (length pre).
Proof. reflexivity. Qed.

Lemma end_at pre rest s0 :
  end_ (at_ pre rest s0) = Z.of_nat (length pre + length rest).
Proof. reflexivity. Qed.

Lemma input_at pre rest s0 : input_ (at_ pre rest s0) = pre ++ rest.
Proof. reflexivity. Qed.

Lemma with_current_at pre l rest s0 :
  with_current (Z.of_nat (length pre) + Z.of_nat (length l)) (at_ pre (l ++ rest) s0)
  = at_ (pre ++ l) rest s0.
Proof.
  unfold at_, with_current, with_buffer. cbn.
  rewrite <- app_assoc, !length_app.
  replace (Z.of_nat (length pre) + Z.of_nat (length l))
    with (Z.of_nat (length pre + length l)) by lia.
  replace (Z.of_nat (length pre + length l + length rest))
    with (Z.of_nat (length pre + (length l + length rest))) by lia.
  reflexivity.
Qed.

Lemma errored_at message pre rest s0 :
  errored message (at_ pre rest s0) = at_ pre rest (errored message s0).
Proof. reflexivity. Qed.

Lemma eof_nil pre s0 : eof (at_ pre [] s0) = Ok true (at_ pre [] s0).
Proof.
  rewrite eof_run, current_at, end_at. cbn [length].
  replace (Z.of_nat (length pre + 0) <=? Z.of_nat (length pre)) with true
    by (symmetry; apply Z.leb_le; lia).
  reflexivity.
Qed.

Lemma eof_cons pre c rest s0 :
  eof (at_ pre (c :: rest) s0) = Ok false (at_ pre (c :: rest) s0).
Proof.
  rewrite eof_run, current_at, end_at. cbn [length].
  replace (Z.of_nat (length pre + S (length rest)) <=? Z.of_nat (length pre)) with false
    by (symmetry; apply Z.leb_gt; lia).
  reflexivity.
Qed.

Lemma not_eof_nil pre s0 : not_eof (at_ pre [] s0) = Ok false (at_ pre [] s0).
Proof. unfold not_eof. rewrite bind_run, eof_nil. reflexivity. Qed.

Lemma not_eof_cons pre c rest s0 :
  not_eof (at_ pre (c :: rest) s0) = Ok true (at_ pre (c :: rest) s0).
Proof. unfold not_eof. rewrite bind_run, eof_cons. reflexivity. Qed.

Lemma deref_at pre rest s0 (k : nat) c :
  rest !! k = Some c ->
  deref (Z.of_nat (length pre) + Z.of_nat k) (at_ pre rest s0) = Ok c (at_ pre rest s0).
Proof. intros Hk. unfold deref. rewrite input_at, load_at, Hk. reflexivity. Qed.

Lemma peek_nil pre s0 : peek (at_ pre [] s0) = Ok NUL (at_ pre [] s0).
Proof. unfold peek. rewrite bind_run, eof_nil. reflexivity. Qed.

Lemma peek_cons pre c rest s0 :
  peek (at_ pre (c :: rest) s0) = Ok c (at_ pre (c :: rest) s0).
Proof.
  unfold peek. rewrite bind_run, eof_cons. cbv beta iota.
  rewrite bind_run. cbn [gets]. rewrite current_at.
  rewrite <- (Z.add_0_r (Z.of_nat (length pre))).
  change 0 with (Z.of_nat 0). rewrite (deref_at _ _ _ _ c); reflexivity.
Qed.

Lemma advance_nil pre s0 : advance (at_ pre [] s0) = Ok NUL (at_ pre [] s0).
Proof. unfold advance. rewrite bind_run, eof_nil. reflexivity. Qed.

Lemma advance_cons pre c rest s0 :
  advance (at_ pre (c :: rest) s0) = Ok c (at_ (pre ++ [c]) rest s0).
Proof.
  unfold advance. rewrite bind_run, eof_cons. cbv beta iota.
  rewrite bind_run. cbn [gets]. rewrite current_at.
  rewrite bind_run.
  rewrite <- (Z.add_0_r (Z.of_nat (length pre))) at 1.
  change 0 with (Z.of_nat 0) at 1. rewrite (deref_at _ _ _ _ c) by reflexivity.
  rewrite bind_run. cbn [modify ret].
  change (c :: rest) with ([c] ++ rest).
  change 1 with (Z.of_nat (length [c])).
  rewrite with_current_at. reflexivity.
Qed.

Lemma peek_is_nil pre s0 x :
  peek_is x (at_ pre [] s0) = Ok (NUL =? x)%char (at_ pre [] s0).
Proof. unfold peek_is. rewrite bind_run, peek_nil. reflexivity. Qed.

Lemma peek_is_cons pre c rest s0 x :
  peek_is x (at_ pre (c :: rest) s0) = Ok (c =? x)%char (at_ pre (c :: rest) s0).
Proof. unfold peek_is. rewrite bind_run, peek_cons. reflexivity. Qed.

Lemma peek_is_not_nil pre s0 x :
  peek_is_not x (at_ pre [] s0) = Ok (negb (NUL =? x)%char) (at_ pre [] s0).
Proof. unfold peek_is_not. rewrite bind_run, peek_nil. reflexivity. Qed.

Lemma peek_is_not_cons pre c rest s0 x :
  peek_is_not x (at_ pre (c :: rest) s0)
  = Ok (negb (c =? x)%char) (at_ pre (c :: rest) s0).
Proof. unfold peek_is_not. rewrite bind_run, peek_cons. reflexivity. Qed.

Lemma set_error_at message pre rest s0 :
  set_error message (at_ pre rest s0) = Ok tt (at_ pre rest (errored message s0)).
Proof. rewrite set_error_run. reflexivity. Qed.

Lemma expect_char_cons pre c rest s0 :
  expect_char c (at_ pre (c :: rest) s0) = Ok tt (at_ (pre ++ [c]) rest s0).
Proof.
  unfold expect_char. rewrite bind_run, bind_run, eof_cons. cbv beta iota.
  rewrite peek_is_not_cons, Ascii.eqb_refl. cbv beta iota. cbn [negb].
  rewrite bind_run, advance_cons. reflexivity.
Qed.

End Run.

(** Rewriting with the equations above, as far as they go. *)
Create Rewrite HintDb run.
#[export] Hint Rewrite @ret_run @gets_run @modify_run
  @eof_nil @eof_cons @not_eof_nil @not_eof_cons @peek_nil @peek_cons
  @advance_nil @advance_cons @peek_is_nil @peek_is_cons @peek_is_not_nil
  @peek_is_not_cons @set_error_at @expect_char_cons : run.

(** Evaluates the comparisons of two known characters. *)
Ltac eval_chars :=
  repeat match goal with
         | |- context [(?a =? ?b)%char] =>
             let v := eval vm_compute in (a =? b)%char in
             lazymatch v with
             | true => change (a =? b)%char with true
             | false => change (a =? b)%char with false
             end
         end.

Ltac run :=
  repeat first
    [ rewrite bind_run
    | progress autorewrite with run
    | progress cbv beta iota
    | progress cbn [negb andb orb]
    | progress eval_chars ].

(** Lists of bytes, nested to the right. *)
Ltac norm_app := repeat first [ rewrite <- app_assoc | progress cbn [app] ].

(** ** Unicode escapes *)

Lemma lor_shiftl_add x k d :
  0 <= k -> 0 <= d < 2 ^ k -> Z.lor (Z.shiftl x k) d = Z.shiftl x k + d.
Proof.
  intros Hk Hd.
  assert (Hland : Z.land (Z.shiftl x k) d = 0).
  { apply Z.bits_inj'. intros i Hi. rewrite Z.land_spec, Z.bits_0.
    destruct (Z.lt_ge_cases i k) as [Hlt|Hge].
    - rewrite Z.shiftl_spec_low by lia. reflexivity.
    - destruct (Z.eq_dec d 0) as [->|Hnz].
      + rewrite Z.bits_0. apply andb_false_r.
      + rewrite (Z.bits_above_log2 d i); [apply andb_false_r|lia|].
        apply Z.lt_le_trans with k; [|exact Hge].
        apply Z.log2_lt_pow2; lia. }
  rewrite <- Z.lxor_lor by exact Hland.
  symmetry. apply Z.add_nocarry_lxor. exact Hland.
Qed.

Lemma to_char_small x : 0 <= x < 256 -> to_char x = ascii_of_N (Z.to_N x).
Proof. intros Hx. unfold to_char. rewrite Z.mod_small by exact Hx. reflexivity. Qed.

Lemma push_back_list out c :
  push_back out c = string_of_list_ascii (list_ascii_of_string out ++ [c]).
Proof.
  unfold push_back, char_string.
  induction out as [|a out IH]; [reflexivity|].
  change (String a out +:+ String c "") with (String a (out +:+ String c "")).
  cbn [list_ascii_of_string app string_of_list_ascii]. f_equal. exact IH.
Qed.

Ltac pow2_side :=
  try lia;
  repeat match goal with
         | |- context [2 ^ ?k] =>
             let v := eval vm_compute in (2 ^ k) in change (2 ^ k) with v
         | |- context [Z.shiftl ?a ?k] =>
             let v := eval vm_compute in (Z.shiftl a k) in change (Z.shiftl a k) with v
         end;
  Z.div_mod_to_equations; lia.

Lemma append_utf8_encoding C :
  valid_code_point C -> append_utf8 "" C = (true, bytes_to_string (utf8_encoding C)).
Proof.
  intros [[H0 Hmax] Hsur]. unfold append_utf8, utf8_encoding.
  replace (0x10FFFF <? C) with false by (symmetry; apply Z.ltb_ge; lia).
  replace ((0xD800 <=? C) && (C <=? 0xDFFF)) with false
    by (symmetry; apply andb_false_iff;
        destruct (Z.leb_spec 0xD800 C); [right; apply Z.leb_gt; lia|left; reflexivity]).
  cbn [orb].
  assert (Hland : forall y, Z.land y 0x3F = y mod 64).
  { intros y. change 0x3F with (Z.ones 6). apply Z.land_ones. lia. }
  assert (Hshr6 : Z.shiftr C 6 = C / 64) by (apply Z.shiftr_div_pow2; lia).
  assert (Hshr12 : Z.shiftr C 12 = C / 4096) by (apply Z.shiftr_div_pow2; lia).
  assert (Hshr18 : Z.shiftr C 18 = C / 262144) by (apply Z.shiftr_div_pow2; lia).
  destruct (Z.leb_spec C 0x7F) as [H1|H1].
  { replace (C <? 0x80) with true by (symmetry; apply Z.ltb_lt; lia).
    rewrite to_char_small by lia. reflexivity. }
  replace (C <? 0x80) with false by (symmetry; apply Z.ltb_ge; lia).
  destruct (Z.leb_spec C 0x7FF) as [H2|H2].
  { replace (C <? 0x800) with true by (symmetry; apply Z.ltb_lt; lia).
    rewrite !Hland, ?Hshr6, ?Hshr12, ?Hshr18.
    change 0xC0 with (Z.shiftl 3 6) at 1. change 0x80 with (Z.shiftl 2 6) at 1.
    rewrite !lor_shiftl_add by pow2_side.
    rewrite !to_char_small by pow2_side.
    reflexivity. }
  replace (C <? 0x800) with false by (symmetry; apply Z.ltb_ge; lia).
  destruct (Z.leb_spec C 0xFFFF) as [H3|H3].
  { replace (C <? 0x10000) with true by (symmetry; apply Z.ltb_lt; lia).
    rewrite !Hland, ?Hshr6, ?Hshr12, ?Hshr18.
    change 0xE0 with (Z.shiftl 14 4) at 1. change 0x80 with (Z.shiftl 2 6) at 1 2.
    rewrite !lor_shiftl_add by pow2_side.
    rewrite !to_char_small by pow2_side.
    reflexivity. }
  replace (C <? 0x10000) with false by (symmetry; apply Z.ltb_ge; lia).
  rewrite !Hland, ?Hshr6, ?Hshr12, ?Hshr18.
  change 0xF0 with (Z.shiftl 15 4) at 1. change 0x80 with (Z.shiftl 2 6) at 1 2 3.
  rewrite !lor_shiftl_add by pow2_side.
  rewrite !to_char_small by pow2_side.
  reflexivity.
Qed.

Lemma hex_digit_of c v : hex_digit_denotes c v -> hex_digit c = v.
Proof.
  intros [Hr Hc]. set (n := Z.to_nat v) in *.
  assert (Hv : v = Z.of_nat n) by lia. assert (Hn : (n < 16)%nat) by lia.
  clearbody n. subst v.
  do 16 (destruct n as [|n];
         [cbn in Hc; destruct Hc as [E|E]; injection E as <-; reflexivity|]).
  lia.
Qed.

Section UnicodeEscape.
Context `{FloatOps}.

Lemma unicode_digits_run num ds vs :
  Forall2 hex_digit_denotes ds vs ->
  forall cp i fuel pre rest s0,
    i + Z.of_nat (length ds) = num -> num <= 8 ->
    (length ds < fuel)%nat -> 0 <= i -> 0 <= cp < 16 ^ i ->
    iter fuel (unicode_escape_round num) (cp, i) (at_ pre (ds ++ rest) s0)
    = Ok (Some (fold_left (fun acc v => 16 * acc + v) vs cp, num))
        (at_ (pre ++ ds) rest s0).
Proof.
  induction 1 as [|d v ds vs Hd Hds IH]; intros cp i fuel pre rest s0 Hi Hnum Hfuel Hi0 Hcp.
  - destruct fuel as [|fuel]; [cbn in Hfuel; lia|].
    cbn [iter length app fold_left] in *. unfold unicode_escape_round.
    replace (i <? num) with false by (symmetry; apply Z.ltb_ge; lia).
    run. rewrite app_nil_r. replace i with num by lia. reflexivity.
  - destruct fuel as [|fuel]; [cbn in Hfuel; lia|].
    cbn [length] in Hi, Hfuel.
    pose proof (hex_digit_of _ _ Hd) as Hhex. destruct Hd as [Hv _].
    cbn [iter app fold_left]. unfold unicode_escape_round at 1.
    replace (i <? num) with true by (symmetry; apply Z.ltb_lt; lia).
    run. rewrite Hhex.
    replace (v <? 0) with false by (symmetry; apply Z.ltb_ge; lia).
    run.
    assert (Hpow : 16 ^ i <= 16 ^ 7) by (apply Z.pow_le_mono_r; lia).
    assert (Hshift : Z.shiftl cp 4 = 16 * cp)
      by (rewrite Z.shiftl_mul_pow2 by lia; change (2 ^ 4) with 16; lia).
    rewrite Z.mod_small
      by (rewrite Hshift; change (16 ^ 7) with 268435456 in Hpow;
          change (2 ^ 32) with 4294967296; lia).
    rewrite lor_shiftl_add by (change (2 ^ 4) with 16; lia).
    rewrite Hshift.
    rewrite (IH (16 * cp + v) (i + 1) fuel (pre ++ [d]) rest s0); try lia.
    + rewrite <- app_assoc. reflexivity.
    + rewrite Z.pow_add_r by lia. change (16 ^ 1) with 16. lia.
Qed.

Lemma hex_digits_nonneg vs :
  Forall (fun v => 0 <= v < 16) vs ->
  forall acc, 0 <= acc -> 0 <= fold_left (fun acc v => 16 * acc + v) vs acc.
Proof.
  induction 1 as [|v vs Hv Hvs IH]; intros acc Hacc; [exact Hacc|].
  cbn. apply IH. lia.
Qed.

Lemma hex_digits_denote_nonneg ds C : hex_digits_denote ds C -> 0 <= C.
Proof.
  intros (vs & Hvs & ->). apply hex_digits_nonneg; [|lia].
  clear -Hvs. induction Hvs as [|d v ds vs [Hv _] _ IH]; constructor; assumption.
Qed.

Lemma parse_unicode_escape_run num ds C pre rest s0 :
  Z.of_nat (length ds) = num -> num <= 8 -> hex_digits_denote ds C ->
  parse_unicode_escape num (at_ pre (ds ++ rest) s0)
  = if invalid_code_point C
    then Ok replacement_character
           (at_ (pre ++ ds) rest (errored "Invalid Unicode codepoint in escape" s0))
    else Ok (bytes_to_string (utf8_encoding C)) (at_ (pre ++ ds) rest s0).
Proof.
  intros Hlen Hnum HC. pose proof (hex_digits_denote_nonneg _ _ HC) as H0.
  destruct HC as (vs & Hvs & HC).
  unfold parse_unicode_escape. rewrite bind_run.
  rewrite (unicode_digits_run num ds vs Hvs); try lia.
  rewrite <- HC. cbv beta iota. rewrite Z.eqb_refl. cbn [negb].
  fold (invalid_code_point C).
  destruct (invalid_code_point C) eqn:Hinv.
  - run. reflexivity.
  - run. rewrite append_utf8_encoding; [reflexivity|].
    unfold invalid_code_point in Hinv. apply orb_false_iff in Hinv as [Hmax Hsur].
    apply Z.ltb_ge in Hmax. split; [lia|].
    intros [Hlo Hhi]. apply andb_false_iff in Hsur as [Hs|Hs];
      [apply Z.leb_gt in Hs|apply Z.leb_gt in Hs]; lia.
Qed.

(** The escape [\u] or [\U] after its backslash. *)
Lemma parse_escape_sequence_unicode (u : ascii) ds C pre rest s0 :
  (u = "u"%char /\ length ds = 4%nat) \/ (u = "U"%char /\ length ds = 8%nat) ->
  hex_digits_denote ds C ->
  parse_escape_sequence (at_ pre (u :: ds ++ rest) s0)
  = if invalid_code_point C
    then Ok replacement_character
           (at_ (pre ++ u :: ds) rest (errored "Invalid Unicode codepoint in escape" s0))
    else Ok (bytes_to_string (utf8_encoding C)) (at_ (pre ++ u :: ds) rest s0).
Proof.
  intros Hu HC. unfold parse_escape_sequence. run.
  replace (pre ++ u :: ds) with ((pre ++ [u]) ++ ds) by (rewrite <- app_assoc; reflexivity).
  destruct Hu as [[-> Hlen]|[-> Hlen]]; run;
    apply parse_unicode_escape_run; try assumption; lia.
Qed.

Lemma append_push_back a c l :
  push_back a c +:+ string_of_list_ascii l = a +:+ string_of_list_ascii (c :: l).
Proof.
  unfold push_back, char_string. induction a as [|x a IH]; [reflexivity|].
  change (String x a +:+ String c "") with (String x (a +:+ String c "")).
  change (String x (a +:+ String c "") +:+ string_of_list_ascii l)
    with (String x ((a +:+ String c "") +:+ string_of_list_ascii l)).
  rewrite IH. reflexivity.
Qed.

Lemma append_empty_r a : a +:+ "" = a.
Proof.
  induction a as [|x a IH]; [reflexivity|].
  change (String x a +:+ "") with (String x (a +:+ "")). rewrite IH. reflexivity.
Qed.

(** The loop of [parse_basic_string] copies a run of plain bytes. *)
Lemma basic_string_plain_run txt :
  forallb plain_basic txt = true ->
  forall acc pre rest fuel s0,
    iter (length txt + fuel) basic_string_round acc (at_ pre (txt ++ rest) s0)
    = iter fuel basic_string_round (acc +:+ string_of_list_ascii txt)
        (at_ (pre ++ txt) rest s0).
Proof.
  induction txt as [|c txt IH]; intros Hplain acc pre rest fuel s0.
  - cbn [length Nat.add app string_of_list_ascii].
    rewrite app_nil_r, append_empty_r. reflexivity.
  - cbn [forallb] in Hplain. apply andb_true_iff in Hplain as [Hc Htxt].
    unfold plain_basic in Hc. apply andb_true_iff in Hc as [Hq Hb].
    apply negb_true_iff in Hb.
    cbn [length Nat.add app iter]. unfold basic_string_round at 1.
    run. rewrite Hq. run. rewrite Hb. run.
    rewrite IH by exact Htxt.
    rewrite <- app_assoc, append_push_back. reflexivity.
Qed.

End UnicodeEscape.

Section UnicodeInBasicString.
Context `{FloatOps}.

Lemma invalid_code_point_false C : valid_code_point C -> invalid_code_point C = false.
Proof.
  intros [[H0 Hmax] Hsur]. unfold invalid_code_point.
  apply orb_false_iff. split; [apply Z.ltb_ge; lia|].
  apply andb_false_iff.
  destruct (Z.leb_spec 0xD800 C); [right; apply Z.leb_gt; lia|left; reflexivity].
Qed.

Lemma invalid_code_point_true C :
  0 <= C -> ~ valid_code_point C -> invalid_code_point C = true.
Proof.
  intros H0 Hnot. destruct (invalid_code_point C) eqn:E; [reflexivity|].
  exfalso. apply Hnot. unfold invalid_code_point in E.
  apply orb_false_iff in E as [Hmax Hsur]. apply Z.ltb_ge in Hmax.
  split; [lia|]. intros [Hlo Hhi].
  apply andb_false_iff in Hsur as [Hs|Hs]; apply Z.leb_gt in Hs; lia.
Qed.

(** A basic string holding plain bytes, one Unicode escape and plain
    bytes again: what [parse_basic_string] returns, given what the escape
    contributes. *)
Lemma basic_string_with_escape fuel u ds C txt1 txt2 pre rest s0 :
  (u = "u"%char /\ length ds = 4%nat) \/ (u = "U"%char /\ length ds = 8%nat) ->
  hex_digits_denote ds C ->
  forallb plain_basic txt1 = true -> forallb plain_basic txt2 = true ->
  (length txt1 + length txt2 + 2 <= fuel)%nat ->
  let literal := DQUOTE :: txt1 ++ BACKSLASH :: u :: ds ++ txt2 ++ [DQUOTE] in
  parse_basic_string fuel (at_ pre (literal ++ rest) s0)
  = if invalid_code_point C
    then Ok ((string_of_list_ascii txt1 +:+ replacement_character)
             +:+ string_of_list_ascii txt2)
           (at_ (pre ++ literal) rest
              (errored "Invalid Unicode codepoint in escape" s0))
    else Ok ((string_of_list_ascii txt1 +:+ bytes_to_string (utf8_encoding C))
             +:+ string_of_list_ascii txt2)
           (at_ (pre ++ literal) rest s0).
Proof.
  intros Hu HC Hp1 Hp2 Hfuel literal. subst literal.
  replace fuel
    with (length txt1 + S (length txt2 + S (fuel - length txt1 - length txt2 - 2)))%nat
    by lia.
  set (extra := (fuel - length txt1 - length txt2 - 2)%nat).
  assert (Hdone :
    forall s1 : Parser,
      at_ (((((pre ++ [DQUOTE]) ++ txt1) ++ [BACKSLASH]) ++ u :: ds) ++ txt2 ++ [DQUOTE])
        rest s1
      = at_ (pre ++ DQUOTE :: txt1 ++ BACKSLASH :: u :: ds ++ txt2 ++ [DQUOTE]) rest s1).
  { intros s1. f_equal. norm_app. reflexivity. }
  unfold parse_basic_string. norm_app. run.
  rewrite basic_string_plain_run by exact Hp1.
  cbn [iter]. unfold basic_string_round at 1. run.
  rewrite (parse_escape_sequence_unicode u ds C) by assumption.
  change ("" +:+ string_of_list_ascii txt1) with (string_of_list_ascii txt1).
  destruct (invalid_code_point C); run.
  - rewrite basic_string_plain_run by exact Hp2.
    cbn [iter]. unfold basic_string_round at 1. run.
    rewrite <- Hdone. f_equal. f_equal. norm_app. reflexivity.
  - rewrite basic_string_plain_run by exact Hp2.
    cbn [iter]. unfold basic_string_round at 1. run.
    rewrite <- Hdone. f_equal. f_equal. norm_app. reflexivity.
Qed.

(** C4.  In a basic string, an escape [\uXXXX] or [\UXXXXXXXX] whose
    hexadecimal digits denote a code point [C] with [C <= 0x10FFFF]
    outside [0xD800, 0xDFFF] contributes exactly the UTF-8 encoding of
    [C], and no error is recorded; for any other [C] the error "Invalid
    Unicode codepoint in escape" is handed to [set_error], the bytes
    EF BF BD are put in its place and the string is read to its end. *)
Theorem unicode_escape_in_basic_string fuel (u : ascii) ds C txt1 txt2 pre rest s0 :
  (u = "u"%char /\ length ds = 4%nat) \/ (u = "U"%char /\ length ds = 8%nat) ->
  hex_digits_denote ds C ->
  forallb plain_basic txt1 = true -> forallb plain_basic txt2 = true ->
  (length txt1 + length txt2 + 2 <= fuel)%nat ->
  let literal := DQUOTE :: txt1 ++ BACKSLASH :: u :: ds ++ txt2 ++ [DQUOTE] in
  (valid_code_point C ->
   parse_basic_string fuel (at_ pre (literal ++ rest) s0)
   = Ok ((string_of_list_ascii txt1 +:+ bytes_to_string (utf8_encoding C))
         +:+ string_of_list_ascii txt2)
       (at_ (pre ++ literal) rest s0))
  /\ (~ valid_code_point C ->
      parse_basic_string fuel (at_ pre (literal ++ rest) s0)
      = Ok ((string_of_list_ascii txt1 +:+ replacement_character)
            +:+ string_of_list_ascii txt2)
          (at_ (pre ++ literal) rest
             (errored "Invalid Unicode codepoint in escape" s0))
      /\ replacement_character = bytes_to_string [0xEF; 0xBF; 0xBD]
      /\ error_message_ (errored "Invalid Unicode codepoint in escape" s0) <> ""%string).
Proof.
  intros Hu HC Hp1 Hp2 Hfuel literal.
  pose proof (basic_string_with_escape fuel u ds C txt1 txt2 pre rest s0
                Hu HC Hp1 Hp2 Hfuel) as Hrun.
  cbv zeta in Hrun. fold literal in Hrun. split.
  - intros Hvalid. rewrite Hrun, invalid_code_point_false by exact Hvalid. reflexivity.
  - intros Hinvalid.
    rewrite Hrun, invalid_code_point_true
      by (try exact Hinvalid; eapply hex_digits_denote_nonneg; exact HC).
    split; [reflexivity|]. split; [reflexivity|].
    cbn. unfold record. destruct (String.eqb_spec (error_message_ s0) "") as [E|E];
      [discriminate|exact E].
Qed.

End UnicodeInBasicString.

Lemma hex_digits_denote_00E9 : hex_digits_denote (list_ascii_of_string "00E9") 0xE9.
Proof.
  exists [0; 0; 14; 9]. split; [|reflexivity].
  cbn [list_ascii_of_string].
  repeat (constructor;
          [split; [lia|first [left; reflexivity|right; reflexivity]]|]).
  constructor.
Qed.

Lemma hex_digits_denote_D800 : hex_digits_denote (list_ascii_of_string "d800") 0xD800.
Proof.
  exists [13; 8; 0; 0]. split; [|reflexivity].
  cbn [list_ascii_of_string].
  repeat (constructor;
          [split; [lia|first [left; reflexivity|right; reflexivity]]|]).
  constructor.
Qed.

(** ["caf\u00E9"] is [caf] followed by C3 A9; ["\ud800"] is rejected. *)
Lemma unicode_escape_in_basic_string_witness :
  parse_basic_string 5
    (at_ [] (DQUOTE :: list_ascii_of_string "caf\u00E9" ++ [DQUOTE]) (@TomlParser text_floats))
  = Ok ("caf" +:+ bytes_to_string [0xC3; 0xA9])%string
      (at_ (DQUOTE :: list_ascii_of_string "caf\u00E9" ++ [DQUOTE]) [] TomlParser)
  /\ parse_basic_string 5
       (at_ [] (DQUOTE :: list_ascii_of_string "\ud800" ++ [DQUOTE]) (@TomlParser text_floats))
     = Ok (bytes_to_string [0xEF; 0xBF; 0xBD])
         (at_ (DQUOTE :: list_ascii_of_string "\ud800" ++ [DQUOTE]) []
            (errored "Invalid Unicode codepoint in escape" TomlParser)).
Proof.
  split.
  - destruct (@unicode_escape_in_basic_string text_floats 5 "u"
                (list_ascii_of_string "00E9") 0xE9 (list_ascii_of_string "caf") []
                [] [] TomlParser) as [Hvalid _].
    + left. split; reflexivity.
    + exact hex_digits_denote_00E9.
    + reflexivity.
    + reflexivity.
    + cbn. lia.
    + apply Hvalid. split; [lia|]. lia.
  - destruct (@unicode_escape_in_basic_string text_floats 5 "u"
                (list_ascii_of_string "d800") 0xD800 [] []
                [] [] TomlParser) as [_ Hinvalid].
    + left. split; reflexivity.
    + exact hex_digits_denote_D800.
    + reflexivity.
    + reflexivity.
    + cbn. lia.
    + apply Hinvalid. intros [_ Hsur]. apply Hsur. lia.
Defined.

(** ** Multiline basic strings *)

Section Multiline.
Context `{FloatOps}.

Lemma count_quotes_run q n :
  forall k fuel pre rest s0,
    (n < fuel)%nat -> starts_without q rest = true ->
    iter fuel (count_quotes_round q) k (at_ pre (replicate n q ++ rest) s0)
    = Ok (k + Z.of_nat n) (at_ (pre ++ replicate n q) rest s0).
Proof.
  induction n as [|n IH]; intros k fuel pre rest s0 Hfuel Hrest;
    (destruct fuel as [|fuel]; [lia|]); cbn [iter replicate app].
  - unfold count_quotes_round. rewrite app_nil_r, Z.add_0_r.
    destruct rest as [|c rest]; run; [reflexivity|].
    cbn [starts_without] in Hrest. apply negb_true_iff in Hrest. rewrite Hrest.
    run. reflexivity.
  - unfold count_quotes_round at 1. run. rewrite Ascii.eqb_refl. run.
    rewrite IH by (try lia; exact Hrest).
    f_equal; [lia|]. f_equal. norm_app. reflexivity.
Qed.

Lemma multiline_plain_run F txt :
  forallb plain_basic txt = true ->
  forall acc pre rest fuel s0,
    iter (length txt + fuel) (multiline_basic_round F) acc (at_ pre (txt ++ rest) s0)
    = iter fuel (multiline_basic_round F) (acc +:+ string_of_list_ascii txt)
        (at_ (pre ++ txt) rest s0).
Proof.
  induction txt as [|c txt IH]; intros Hplain acc pre rest fuel s0.
  - cbn [length Nat.add app string_of_list_ascii].
    rewrite app_nil_r, append_empty_r. reflexivity.
  - cbn [forallb] in Hplain. apply andb_true_iff in Hplain as [Hc Htxt].
    unfold plain_basic in Hc. apply andb_true_iff in Hc as [Hq Hb].
    apply negb_true_iff in Hq, Hb.
    cbn [length Nat.add app iter]. unfold multiline_basic_round at 1.
    run. rewrite Hq. run. rewrite Hb. run.
    rewrite IH by exact Htxt.
    rewrite <- app_assoc, append_push_back. reflexivity.
Qed.

(** The round of the loop that meets a run of [n >= 3] quotes. *)
Lemma multiline_quote_round F n acc pre rest s0 :
  (3 <= n)%nat -> (n < F)%nat -> starts_without DQUOTE rest = true ->
  multiline_basic_round F acc (at_ pre (replicate n DQUOTE ++ rest) s0)
  = Ok (if closes_after n rest
        then inr (acc +:+ fill (Z.of_nat n - 3) DQUOTE)
        else inl (acc +:+ fill (Z.of_nat n - 3) DQUOTE))
      (at_ (pre ++ replicate n DQUOTE) rest s0).
Proof.
  intros Hn HF Hrest. unfold multiline_basic_round.
  destruct n as [|n]; [lia|]. cbn [replicate app]. run.
  unfold count_quotes.
  change (DQUOTE :: replicate n DQUOTE ++ rest) with (replicate (S n) DQUOTE ++ rest).
  rewrite count_quotes_run by assumption. cbv beta iota.
  replace (3 <=? 0 + Z.of_nat (S n)) with true by (symmetry; apply Z.leb_le; lia).
  cbv beta iota zeta. replace (0 + Z.of_nat (S n)) with (Z.of_nat (S n)) by lia.
  unfold closes_after.
  destruct (Nat.eqb_spec (S n) 3) as [E|E].
  - replace (Z.of_nat (S n) =? 3) with true by (symmetry; apply Z.eqb_eq; lia).
    run. reflexivity.
  - replace (Z.of_nat (S n) =? 3) with false by (symmetry; apply Z.eqb_neq; lia).
    destruct rest as [|c rest]; run; [reflexivity|].
    destruct (c =? LF)%char; run; [reflexivity|].
    destruct (c =? CR)%char; run; reflexivity.
Qed.

(** The trimming of the first newline, then the loop. *)
Lemma multiline_trim fuel body tail pre s0 :
  forallb plain_basic body = true ->
  starts_without LF tail = true ->
  parse_multiline_basic_string fuel (at_ pre (body ++ tail) s0)
  = iter fuel (multiline_basic_round fuel) ""%string
      (at_ (pre ++ firstn (length body - length (trim_first_lf body)) body)
         (trim_first_lf body ++ tail) s0).
Proof.
  intros Hplain Htail. unfold parse_multiline_basic_string.
  destruct body as [|c body].
  - cbn [app trim_first_lf length Nat.sub firstn]. rewrite app_nil_r.
    destruct tail as [|t tail]; run; [reflexivity|].
    cbn [starts_without] in Htail. apply negb_true_iff in Htail. rewrite Htail.
    run. reflexivity.
  - cbn [app trim_first_lf]. run.
    destruct (c =? LF)%char eqn:E; run.
    + replace (length (c :: body) - length body)%nat with 1%nat by (cbn [length]; lia).
      reflexivity.
    + rewrite Nat.sub_diag. cbn [firstn]. rewrite app_nil_r. reflexivity.
Qed.

Lemma trim_first_lf_split body :
  firstn (length body - length (trim_first_lf body)) body ++ trim_first_lf body = body.
Proof.
  destruct body as [|c body]; [reflexivity|]. cbn [trim_first_lf].
  destruct (c =? LF)%char.
  - replace (length (c :: body) - length body)%nat with 1%nat by (cbn [length]; lia).
    reflexivity.
  - rewrite Nat.sub_diag. reflexivity.
Qed.

Lemma trim_first_lf_plain body :
  forallb plain_basic body = true -> forallb plain_basic (trim_first_lf body) = true.
Proof.
  destruct body as [|c body]; [reflexivity|]. cbn [trim_first_lf forallb].
  intros Hb. destruct (c =? LF)%char; [|exact Hb].
  apply andb_true_iff in Hb. tauto.
Qed.

Lemma trim_first_lf_length body : (length (trim_first_lf body) <= length body)%nat.
Proof.
  destruct body as [|c body]; [reflexivity|]. cbn [trim_first_lf].
  destruct (c =? LF)%char; cbn [length]; lia.
Qed.

Lemma starts_without_quotes n rest :
  (1 <= n)%nat -> starts_without LF (replicate n DQUOTE ++ rest) = true.
Proof. destruct n as [|n]; [lia|]. reflexivity. Qed.

(** C8, as the code has it.  After the opening quotes, a body of plain
    bytes followed by a run of [n >= 3] double quotes: the first [n - 3]
    quotes of the run are content; the run ends the string when [n = 3],
    or when it is followed by the end of the input, a line feed or a
    carriage return.  Followed by any other byte, a run of more than 3
    quotes does not end the string: scanning goes on, and with only plain
    bytes left the string is reported unclosed. *)
Theorem multiline_basic_closing_run fuel body n rest pre s0 :
  forallb plain_basic body = true -> (3 <= n)%nat ->
  starts_without DQUOTE rest = true ->
  (length body + n + length rest + 2 <= fuel)%nat ->
  let quotes := replicate n DQUOTE in
  let content :=
    string_of_list_ascii (trim_first_lf body) +:+ fill (Z.of_nat n - 3) DQUOTE in
  (closes_after n rest = true ->
   parse_multiline_basic_string fuel (at_ pre (body ++ quotes ++ rest) s0)
   = Ok content (at_ (pre ++ body ++ quotes) rest s0))
  /\ (closes_after n rest = false -> forallb plain_basic rest = true ->
      parse_multiline_basic_string fuel (at_ pre (body ++ quotes ++ rest) s0)
      = Ok (content +:+ string_of_list_ascii rest)
          (at_ (pre ++ body ++ quotes ++ rest) []
             (errored "Unclosed multiline basic string" s0))).
Proof.
  intros Hbody Hn Hrest Hfuel quotes content.
  pose proof (trim_first_lf_length body) as Htrim.
  assert (Hstart :
    parse_multiline_basic_string fuel (at_ pre (body ++ quotes ++ rest) s0)
    = (x <- ret (if closes_after n rest then inr content else inl content) ;;
      match x with
      | inl l' =>
          iter (fuel - length (trim_first_lf body) - 1) (multiline_basic_round fuel) l'
      | inr r => ret r
      end) (at_ (pre ++ body ++ quotes) rest s0)).
  { unfold quotes. rewrite multiline_trim
      by (try exact Hbody; apply starts_without_quotes; lia).
    replace fuel
      with (length (trim_first_lf body) + S (fuel - length (trim_first_lf body) - 1))%nat
      at 1 by lia.
    rewrite multiline_plain_run by (apply trim_first_lf_plain; exact Hbody).
    cbn [iter]. rewrite bind_run.
    rewrite multiline_quote_round by (try assumption; lia).
    rewrite <- !app_assoc, (app_assoc _ (trim_first_lf body)), trim_first_lf_split.
    change ("" +:+ string_of_list_ascii (trim_first_lf body))
      with (string_of_list_ascii (trim_first_lf body)).
    fold content. run. reflexivity. }
  split.
  - intros Hclose. rewrite Hstart, Hclose. run. reflexivity.
  - intros Hopen Hplain. rewrite Hstart, Hopen. run.
    replace (fuel - length (trim_first_lf body) - 1)%nat
      with (length rest + S (fuel - length (trim_first_lf body) - 1 - length rest - 1))%nat
      by lia.
    replace (at_ (pre ++ body ++ quotes) rest s0)
      with (at_ (pre ++ body ++ quotes) (rest ++ []) s0) by (rewrite app_nil_r; reflexivity).
    rewrite multiline_plain_run by exact Hplain.
    cbn [iter]. unfold multiline_basic_round at 1. run.
    norm_app. reflexivity.
Qed.

End Multiline.

(** The value [a""] of a multiline string written with five closing
    quotes, at the end of a line. *)
Lemma multiline_basic_closing_run_witness :
  parse_multiline_basic_string 10
    (at_ [] ("a"%char :: replicate 5 DQUOTE ++ [LF]) (@TomlParser text_floats))
  = Ok (string_of_list_ascii ("a"%char :: replicate 2 DQUOTE))
      (at_ ("a"%char :: replicate 5 DQUOTE) [LF] TomlParser).
Proof.
  destruct (@multiline_basic_closing_run text_floats 10 ["a"%char] 5 [LF] [] TomlParser)
    as [Hclose _].
  - reflexivity.
  - lia.
  - reflexivity.
  - cbn. lia.
  - apply Hclose. reflexivity.
Defined.

(** C8 as stated fails.  The document is [s = ], three double quotes,
    [a], five double quotes, a space and [#]: a multiline basic string
    whose body ends with a run of five quotes, followed by a comment.
    The run is not taken as two quotes of content and the closing
    delimiter: the string is read on to the end of the input and reported
    unclosed. *)
Lemma five_quotes_before_a_comment :
  let quotes n := string_of_list_ascii (replicate n DQUOTE) in
  let document := ("s = " +:+ quotes 3%nat +:+ "a" +:+ quotes 5%nat +:+ " #")%string in
  exists s',
    parse 40 document (@TomlParser text_floats) = Ok None s'
    /\ get_error s' = "Unclosed multiline basic string"%string
    /\ parse_multiline_basic_string 10
         (at_ [] ("a"%char :: replicate 5 DQUOTE ++ [" "%char]) (@TomlParser text_floats))
       = Ok (string_of_list_ascii ("a"%char :: replicate 2 DQUOTE ++ [" "%char]))
           (at_ ("a"%char :: replicate 5 DQUOTE ++ [" "%char]) []
              (errored "Unclosed multiline basic string" TomlParser)).
Proof.
  intros quotes document. eexists. split; [vm_compute; reflexivity|].
  split; reflexivity.
Qed.

(** ** Prefixed integers *)

Ltac decide_cmp :=
  repeat match goal with
         | |- context [?a <? ?b] =>
             first [ replace (a <? b) with true
                       by (symmetry; apply Z.ltb_lt; rewrite ?length_app; cbn [length]; lia)
                   | replace (a <? b) with false
                       by (symmetry; apply Z.ltb_ge; rewrite ?length_app; cbn [length]; lia) ]
         | |- context [?a <=? ?b] =>
             first [ replace (a <=? b) with true
                       by (symmetry; apply Z.leb_le; rewrite ?length_app; cbn [length]; lia)
                   | replace (a <=? b) with false
                       by (symmetry; apply Z.leb_gt; rewrite ?length_app; cbn [length]; lia) ]
         | |- context [?a =? ?b] =>
             first [ replace (a =? b) with true
                       by (symmetry; apply Z.eqb_eq; rewrite ?length_app; cbn [length]; lia)
                   | replace (a =? b) with false
                       by (symmetry; apply Z.eqb_neq; rewrite ?length_app; cbn [length]; lia) ]
         end.

Section MoreRuns.
Context `{FloatOps}.

Lemma cur_at_at k pre l s0 :
  0 <= k ->
  cur_at k (at_ pre l s0)
  = match l !! Z.to_nat k with
    | Some c => Ok c (at_ pre l s0)
    | None => Fault
    end.
Proof.
  intros Hk. unfold cur_at. rewrite bind_run, gets_run, current_at.
  unfold deref. rewrite input_at.
  replace k with (Z.of_nat (Z.to_nat k)) at 1 by lia. rewrite load_at.
  reflexivity.
Qed.

Lemma cur_at_is_at k x pre l s0 :
  0 <= k ->
  cur_at_is k x (at_ pre l s0)
  = match l !! Z.to_nat k with
    | Some c => Ok (c =? x)%char (at_ pre l s0)
    | None => Fault
    end.
Proof.
  intros Hk. unfold cur_at_is. rewrite bind_run, cur_at_at by exact Hk.
  destruct (l !! Z.to_nat k); reflexivity.
Qed.

Lemma cur_digit_at k pre l s0 :
  0 <= k ->
  cur_digit k (at_ pre l s0)
  = match l !! Z.to_nat k with
    | Some c => Ok (isdigit c) (at_ pre l s0)
    | None => Fault
    end.
Proof.
  intros Hk. unfold cur_digit. rewrite bind_run, cur_at_at by exact Hk.
  destruct (l !! Z.to_nat k); reflexivity.
Qed.

Lemma skip_bytes_at l1 pre l2 s0 :
  skip_bytes (Z.of_nat (length l1)) (at_ pre (l1 ++ l2) s0) = Ok tt (at_ (pre ++ l1) l2 s0).
Proof.
  unfold skip_bytes. rewrite modify_run, current_at, with_current_at. reflexivity.
Qed.

Lemma skip_whitespace_no_nl_stays pre c l s0 :
  simd_utils.is_whitespace_no_nl c = false ->
  skip_whitespace_no_nl (at_ pre (c :: l) s0) = Ok tt (at_ pre (c :: l) s0).
Proof.
  intros Hc. unfold skip_whitespace_no_nl, simd_utils.skip_whitespace_no_nl.
  rewrite input_at, current_at, end_at. cbn [length].
  replace (Z.to_nat (Z.of_nat (length pre + S (length l)) - Z.of_nat (length pre)))
    with (S (length l)) by lia.
  cbn [simd_utils.scalar_loop].
  rewrite <- (Z.add_0_r (Z.of_nat (length pre))) at 1.
  change 0 with (Z.of_nat 0) at 1. rewrite load_at. cbn [lookup list_lookup].
  rewrite Hc. reflexivity.
Qed.

Lemma skip_whitespace_no_nl_end pre s0 :
  skip_whitespace_no_nl (at_ pre [] s0) = Ok tt (at_ pre [] s0).
Proof.
  unfold skip_whitespace_no_nl, simd_utils.skip_whitespace_no_nl.
  rewrite input_at, current_at, end_at. cbn [length].
  replace (Z.to_nat (Z.of_nat (length pre + 0) - Z.of_nat (length pre))) with 0%nat by lia.
  reflexivity.
Qed.

(** A byte behind the cursor. *)
Lemma deref_behind pre c l rest s0 :
  deref (Z.of_nat (length pre)) (at_ (pre ++ c :: l) rest s0)
  = Ok c (at_ (pre ++ c :: l) rest s0).
Proof.
  unfold deref. rewrite input_at, <- app_assoc.
  rewrite <- (Z.add_0_r (Z.of_nat (length pre))).
  change 0 with (Z.of_nat 0). rewrite load_at. reflexivity.
Qed.

Lemma byte_at_is_behind x pre c l rest s0 :
  byte_at_is (Z.of_nat (length pre)) x (at_ (pre ++ c :: l) rest s0)
  = Ok (c =? x)%char (at_ (pre ++ c :: l) rest s0).
Proof. unfold byte_at_is. rewrite bind_run, deref_behind. reflexivity. Qed.

Lemma lexeme_behind pre l rest s0 :
  lexeme (Z.of_nat (length pre)) (Z.of_nat (length (pre ++ l))) (at_ (pre ++ l) rest s0)
  = Ok (string_of_list_ascii l) (at_ (pre ++ l) rest s0).
Proof.
  unfold lexeme. rewrite gets_run, input_at. f_equal. unfold substr.
  rewrite length_app, Nat2Z.id.
  replace (Z.to_nat (Z.of_nat (length pre + length l) - Z.of_nat (length pre)))
    with (length l) by lia.
  rewrite <- app_assoc, drop_app_length, take_app_length. reflexivity.
Qed.

End MoreRuns.

#[export] Hint Rewrite @current_at @end_at @cur_at_at @cur_at_is_at @cur_digit_at
  using lia : run.
#[export] Hint Rewrite @skip_whitespace_no_nl_end @byte_at_is_behind : run.

(** Looks up a known position in a known list. *)
Ltac eval_lookup :=
  repeat match goal with
         | |- context [Z.to_nat ?k] =>
             let v := eval vm_compute in (Z.to_nat k) in
             lazymatch v with
             | O => change (Z.to_nat k) with v
             | S _ => change (Z.to_nat k) with v
             end
         end;
  cbn [lookup list_lookup].

Ltac eval_isdigit :=
  repeat match goal with
         | |- context [isdigit ?c] =>
             let v := eval vm_compute in (isdigit c) in
             lazymatch v with
             | true => change (isdigit c) with true
             | false => change (isdigit c) with false
             end
         end.

Lemma prefix_base_cases x base :
  prefix_base x = Some base ->
  (x = "x"%char /\ base = 16) \/ (x = "X"%char /\ base = 16)
  \/ (x = "o"%char /\ base = 8) \/ (x = "O"%char /\ base = 8)
  \/ (x = "b"%char /\ base = 2) \/ (x = "B"%char /\ base = 2).
Proof.
  unfold prefix_base.
  destruct (Ascii.eqb_spec x "x") as [->|_]; [intros [= <-]; tauto|].
  destruct (Ascii.eqb_spec x "X") as [->|_]; [intros [= <-]; tauto|].
  destruct (Ascii.eqb_spec x "o") as [->|_]; [intros [= <-]; tauto|].
  destruct (Ascii.eqb_spec x "O") as [->|_]; [intros [= <-]; tauto|].
  destruct (Ascii.eqb_spec x "b") as [->|_]; [intros [= <-]; tauto|].
  destruct (Ascii.eqb_spec x "B") as [->|_]; [intros [= <-]; tauto|].
  discriminate.
Qed.

(** [run], with the evaluation of known positions, digits and
    comparisons of numbers. *)
Ltac runv :=
  repeat first
    [ rewrite bind_run
    | progress autorewrite with run
    | progress cbv beta iota
    | progress cbn [negb andb orb]
    | progress eval_chars
    | progress eval_lookup
    | progress eval_isdigit
    | progress decide_cmp ].

Section PrefixedIntegers.
Context `{FloatOps}.

Lemma prefixed_digits_run base body rest :
  forallb (is_prefixed_digit base) body = true -> ends_digits base rest = true ->
  forall acc pre fuel s0,
    (length body < fuel)%nat ->
    iter fuel (prefixed_digits_round base) acc (at_ pre (body ++ rest) s0)
    = Ok (acc +:+ without_underscores body) (at_ (pre ++ body) rest s0).
Proof.
  intros Hbody Hrest. induction body as [|c body IH]; intros acc pre fuel s0 Hfuel;
    (destruct fuel as [|fuel]; [cbn [length] in Hfuel; lia|]); cbn [iter app].
  - unfold prefixed_digits_round, without_underscores. cbn [List.filter string_of_list_ascii].
    rewrite app_nil_r, append_empty_r.
    destruct rest as [|c rest]; run; [reflexivity|].
    cbn [ends_digits] in Hrest. apply negb_true_iff in Hrest. rewrite Hrest.
    run. reflexivity.
  - cbn [forallb] in Hbody. apply andb_true_iff in Hbody as [Hc Hbody].
    cbn [length] in Hfuel.
    unfold prefixed_digits_round at 1. run. rewrite Hc. run.
    unfold without_underscores. cbn [List.filter].
    destruct (c =? "_")%char; run.
    + rewrite IH by (try assumption; lia). f_equal. f_equal. norm_app. reflexivity.
    + rewrite IH by (try assumption; lia).
      unfold without_underscores. rewrite append_push_back.
      f_equal. f_equal. norm_app. reflexivity.
Qed.

Lemma at_literal x body pre rest (s1 : Parser) :
  at_ ((pre ++ ["0"%char; x]) ++ body) rest s1 = at_ (pre ++ "0"%char :: x :: body) rest s1.
Proof. f_equal. norm_app. reflexivity. Qed.

Lemma parse_number_prefixed fuel x base body rest pre s0 :
  prefix_base x = Some base ->
  forallb (is_prefixed_digit base) body = true -> ends_digits base rest = true ->
  (length body < fuel)%nat ->
  let literal := "0"%char :: x :: body in
  let digits := without_underscores body in
  parse_number fuel "0" (at_ pre (literal ++ rest) s0)
  = if String.eqb digits ""
    then Ok (VInteger 0) (at_ (pre ++ literal) rest (errored "Invalid integer literal" s0))
    else match stoll digits base with
         | Some v => Ok (VInteger v) (at_ (pre ++ literal) rest s0)
         | None =>
             Ok (VInteger 0)
               (at_ (pre ++ literal) rest
                  (errored ("Invalid integer: " +:+ string_of_list_ascii literal) s0))
         end.
Proof.
  intros Hx Hbody Hrest Hfuel literal digits. subst literal. cbn [app].
  unfold parse_number. runv. unfold parse_prefixed_integer. runv.
  assert (Hbase : (if (x =? "x")%char || (x =? "X")%char then 16
                   else if (x =? "o")%char || (x =? "O")%char then 8
                   else if (x =? "b")%char || (x =? "B")%char then 2 else 0) = base).
  { unfold prefix_base in Hx.
    destruct ((x =? "x")%char || (x =? "X")%char); [congruence|].
    destruct ((x =? "o")%char || (x =? "O")%char); [congruence|].
    destruct ((x =? "b")%char || (x =? "B")%char); [congruence|discriminate]. }
  rewrite Hbase.
  assert (Hnz : (base =? 0) = false).
  { apply prefix_base_cases in Hx.
    destruct Hx as [[_ ->]|[[_ ->]|[[_ ->]|[[_ ->]|[[_ ->]|[_ ->]]]]]]; reflexivity. }
  rewrite Hnz. runv.
  change 2 with (Z.of_nat (length ["0"%char; x])).
  change ("0"%char :: x :: body ++ rest) with (["0"%char; x] ++ body ++ rest).
  rewrite skip_bytes_at. runv.
  rewrite prefixed_digits_run by assumption. runv.
  change ("" +:+ without_underscores body) with digits.
  destruct (String.eqb digits ""); runv.
  - rewrite at_literal. reflexivity.
  - destruct (stoll digits base) as [v|]; runv.
    + rewrite !at_literal. runv. reflexivity.
    + rewrite !at_literal.
      replace ((pre ++ ["0"%char; x]) ++ body) with (pre ++ "0"%char :: x :: body)
        by (norm_app; reflexivity).
      rewrite lexeme_behind. runv. reflexivity.
Qed.

(** A literal [0x...], [0o...] or [0b...] as a value. *)
Lemma prefixed_integer_run fuel x base body rest pre s0 :
  prefix_base x = Some base ->
  forallb (is_prefixed_digit base) body = true -> ends_digits base rest = true ->
  (length body < fuel)%nat ->
  let literal := "0"%char :: x :: body in
  let digits := without_underscores body in
  parse_value (S fuel) (at_ pre (literal ++ rest) s0)
  = if String.eqb digits ""
    then Ok (VInteger 0) (at_ (pre ++ literal) rest (errored "Invalid integer literal" s0))
    else match stoll digits base with
         | Some v => Ok (VInteger v) (at_ (pre ++ literal) rest s0)
         | None =>
             Ok (VInteger 0)
               (at_ (pre ++ literal) rest
                  (errored ("Invalid integer: " +:+ string_of_list_ascii literal) s0))
         end.
Proof.
  intros Hx Hbody Hrest Hfuel literal digits.
  pose proof (parse_number_prefixed fuel x base body rest pre s0 Hx Hbody Hrest Hfuel)
    as Hnumber.
  cbv zeta in Hnumber. subst literal digits. rewrite <- Hnumber. clear Hnumber.
  cbn [parse_value app]. unfold parse_value_with.
  rewrite bind_run, skip_whitespace_no_nl_stays by reflexivity.
  runv.
  unfold parse_datetime_or_number.
  assert (Hnd : isdigit x = false).
  { apply prefix_base_cases in Hx.
    destruct Hx as [[-> _]|[[-> _]|[[-> _]|[[-> _]|[[-> _]|[-> _]]]]]]; reflexivity. }
  runv.
  destruct (10 <=? to_size_t _); runv; rewrite ?Hnd; runv;
    destruct (8 <=? to_size_t _); runv; rewrite ?Hnd; runv; reflexivity.
Qed.

End PrefixedIntegers.

(** C7, as the code has it.  In a literal with prefix [0x]/[0X],
    [0o]/[0O] or [0b]/[0B], every underscore after the prefix is dropped
    wherever it stands (leading, trailing or doubled); the value is that
    of the remaining digits in the base.  An error is recorded only when
    no digit remains or when the value does not fit 64 bits.  So [0x_1]
    and [0x1_] both yield the Integer 1, and [0x1_0] yields 16. *)
Theorem prefixed_integer_drops_underscores :
  forall `{FloatOps} fuel x base body rest pre s0,
    prefix_base x = Some base ->
    forallb (is_prefixed_digit base) body = true -> ends_digits base rest = true ->
    (length body < fuel)%nat ->
    let literal := "0"%char :: x :: body in
    let digits := without_underscores body in
    parse_value (S fuel) (at_ pre (literal ++ rest) s0)
    = (if String.eqb digits ""
       then Ok (VInteger 0)
              (at_ (pre ++ literal) rest (errored "Invalid integer literal" s0))
       else match stoll digits base with
            | Some v => Ok (VInteger v) (at_ (pre ++ literal) rest s0)
            | None =>
                Ok (VInteger 0)
                  (at_ (pre ++ literal) rest
                     (errored ("Invalid integer: " +:+ string_of_list_ascii literal) s0))
            end)
    /\ parse_value 4 (at_ [] (list_ascii_of_string "0x_1") s0)
       = Ok (VInteger 1) (at_ (list_ascii_of_string "0x_1") [] s0)
    /\ parse_value 4 (at_ [] (list_ascii_of_string "0x1_") s0)
       = Ok (VInteger 1) (at_ (list_ascii_of_string "0x1_") [] s0)
    /\ parse_value 5 (at_ [] (list_ascii_of_string "0x1_0") s0)
       = Ok (VInteger 16) (at_ (list_ascii_of_string "0x1_0") [] s0).
Proof.
  intros F fuel x base body rest pre s0 Hx Hbody Hrest Hfuel literal digits.
  split; [apply prefixed_integer_run; assumption|].
  split; [|split].
  - apply (prefixed_integer_run 3 "x" 16 (list_ascii_of_string "_1") [] [] s0);
      try reflexivity. cbn. lia.
  - apply (prefixed_integer_run 3 "x" 16 (list_ascii_of_string "1_") [] [] s0);
      try reflexivity. cbn. lia.
  - apply (prefixed_integer_run 4 "x" 16 (list_ascii_of_string "1_0") [] [] s0);
      try reflexivity. cbn. lia.
Qed.

(** [0xDEAD_BEEF] is 3735928559. *)
Lemma prefixed_integer_drops_underscores_witness :
  parse_value 11 (at_ [] (list_ascii_of_string "0xDEAD_BEEF") (@TomlParser text_floats))
  = Ok (VInteger 3735928559) (at_ (list_ascii_of_string "0xDEAD_BEEF") [] TomlParser).
Proof.
  assert (Hfuel : (length (list_ascii_of_string "DEAD_BEEF") < 10)%nat) by (cbn; lia).
  destruct (@prefixed_integer_drops_underscores text_floats 10 "x" 16
              (list_ascii_of_string "DEAD_BEEF") [] [] TomlParser
              eq_refl eq_refl eq_refl Hfuel) as [Hrun _].
  exact Hrun.
Defined.

(** C7 as stated fails: the documents [x = 0x_1] and [x = 0x1_] parse
    without any error, and [x] is the Integer 1 in both. *)
Lemma underscore_next_to_prefix_or_end :
  (exists s',
     parse 20 "x = 0x_1" (@TomlParser text_floats) = Ok (Some 1%nat) s'
     /\ get_error s' = ""%string /\ reported_ s' = []
     /\ table_at s' 1%nat !! "x"%string = Some (VInteger 1))
  /\ (exists s',
        parse 20 "x = 0x1_" (@TomlParser text_floats) = Ok (Some 1%nat) s'
        /\ get_error s' = ""%string /\ reported_ s' = []
        /\ table_at s' 1%nat !! "x"%string = Some (VInteger 1)).
Proof.
  split; (eexists; split; [vm_compute; reflexivity|]); repeat split; reflexivity.
Qed.

(** ** The store of Tables and Arrays *)

Section Store.
Context `{FloatOps}.

Lemma Table_has_run (t : loc) (key : string) (s : Parser) :
  Table_has t key s = Ok (bool_decide (is_Some (table_at s t !! key))) s.
Proof. reflexivity. Qed.

Lemma Table_set_run (t : loc) (key : string) (value : TomlValue) (s : Parser) :
  Table_set t key value s
  = Ok tt (with_tables (<[t := <[key := value]> (table_at s t)]> (tables_ s)) s).
Proof. reflexivity. Qed.

Lemma Table_values_run (t : loc) (key : string) (v : TomlValue) (s : Parser) :
  table_at s t !! key = Some v -> Table_values t key s = Ok v s.
Proof.
  intros Hv. unfold Table_values. rewrite bind_run, Table_has_run.
  rewrite bool_decide_eq_true_2 by (rewrite Hv; eauto).
  unfold gets. now rewrite Hv.
Qed.

Lemma table_at_set_same (t : loc) (key : string) (value : TomlValue) (s : Parser) :
  table_at (with_tables (<[t := <[key := value]> (table_at s t)]> (tables_ s)) s) t
  = <[key := value]> (table_at s t).
Proof. unfold table_at at 1. cbn. now rewrite lookup_insert_eq. Qed.

(** The loop of [set_value_at_path] records an error only on the way
    to its early return. *)
Lemma set_value_loop_quiet (keys : list string) :
  forall (t t' : loc) (s s1 : Parser),
    set_value_loop keys t s = Ok (Some t') s1 ->
    error_message_ s1 = error_message_ s
    /\ reported_ s1 = reported_ s
    /\ array_of_tables_paths_ s1 = array_of_tables_paths_ s
    /\ arrays_ s1 = arrays_ s.
Proof.
  induction keys as [|key keys IH]; intros t t' s s1 Hrun; cbn [set_value_loop] in Hrun.
  - injection Hrun as _ <-. auto.
  - rewrite bind_run, Table_has_run in Hrun. cbv beta iota in Hrun.
    destruct (bool_decide (is_Some (table_at s t !! key))) eqn:Hhas.
    + apply bool_decide_eq_true_1 in Hhas. destruct Hhas as [v Hv].
      rewrite bind_run, (Table_values_run _ _ _ _ Hv) in Hrun.
      cbv beta iota in Hrun.
      destruct v; try (rewrite bind_run in Hrun; cbn in Hrun; discriminate).
      eauto.
    + rewrite bind_run in Hrun. unfold make_shared_Table in Hrun.
      cbv beta iota zeta in Hrun.
      rewrite bind_run, Table_set_run in Hrun. cbv beta iota in Hrun.
      apply IH in Hrun. cbn in Hrun. exact Hrun.
Qed.

End Store.

(** ** Direct assignment to a path of an array of tables *)

Section DirectAssignment.
Context `{FloatOps}.

Lemma last_snoc_key (prefix : list string) (key : string) :
  last (prefix ++ [key]) = Some key.
Proof. apply last_snoc. Qed.

(** C9 (amended).  [set_value_at_path] never consults the
    array-of-tables set: once the leading keys of the path have led
    through Tables to [t], the value is stored at the final key of [t],
    whatever [t] held there before, an array of tables created by a
    header included; no error is recorded and the set of array-of-tables
    paths is left as it was. *)
Theorem assignment_replaces_array_of_tables
    (table t : loc) (prefix : list string) (key : string) (value : TomlValue)
    (s s1 : Parser) :
  set_value_loop prefix table s = Ok (Some t) s1 ->
  exists s',
    set_value_at_path table (prefix ++ [key]) value s = Ok tt s'
    /\ table_at s' t !! key = Some value
    /\ error_message_ s' = error_message_ s
    /\ reported_ s' = reported_ s
    /\ array_of_tables_paths_ s' = array_of_tables_paths_ s.
Proof.
  intros Hloop.
  destruct (set_value_loop_quiet _ _ _ _ _ Hloop) as (He & Hr & Hp & _).
  unfold set_value_at_path.
  rewrite last_snoc_key, removelast_last, bind_run, Hloop, Table_set_run.
  eexists. split; [reflexivity|].
  rewrite table_at_set_same, lookup_insert_eq. cbn. auto.
Qed.

End DirectAssignment.

Lemma assignment_replaces_array_of_tables_witness :
  table_at after_array_of_tables_header 2%nat !! "b"%string = Some (VArrayPtr 3%nat)
  /\ ["a"; "b"]%string ∈ array_of_tables_paths_ after_array_of_tables_header
  /\ exists s',
       set_value_at_path 1%nat (["a"%string] ++ ["b"%string]) (VInteger 7)
         after_array_of_tables_header = Ok tt s'
       /\ table_at s' 2%nat !! "b"%string = Some (VInteger 7)
       /\ error_message_ s' = error_message_ after_array_of_tables_header
       /\ reported_ s' = reported_ after_array_of_tables_header
       /\ array_of_tables_paths_ s' = array_of_tables_paths_ after_array_of_tables_header.
Proof.
  split; [vm_compute; reflexivity|].
  split; [vm_compute; reflexivity|].
  apply (@assignment_replaces_array_of_tables text_floats 1%nat 2%nat
           ["a"%string] "b"%string (VInteger 7)
           after_array_of_tables_header after_array_of_tables_header).
  vm_compute. reflexivity.
Defined.

(** C9 as stated fails: after the header [[[a.b]]], the header [[a]] and
    the line [b = [1]] assign a static array to the same path [a.b].
    The document parses without any error; [a.b] is then the static
    array, and the path is still in the array-of-tables set. *)
Lemma static_array_replaces_array_of_tables :
  exists s',
    parse 40 assignment_after_header_document (@TomlParser text_floats)
    = Ok (Some 1%nat) s'
    /\ get_error s' = ""%string /\ reported_ s' = []
    /\ table_at s' 1%nat !! "a"%string = Some (VTablePtr 2%nat)
    /\ table_at s' 2%nat !! "b"%string = Some (VArrayPtr 5%nat)
    /\ array_at s' 5%nat = [VInteger 1]
    /\ ["a"; "b"]%string ∈ array_of_tables_paths_ s'.
Proof.
  eexists; split; [vm_compute; reflexivity|].
  repeat split; reflexivity.
Qed.

(** ** [[header]]: arrays of tables *)

Section StoreInvariant.
Context `{FloatOps}.

Lemma allocated_mono (n m : loc) (v : TomlValue) :
  (n <= m)%nat -> allocated n v -> allocated m v.
Proof. destruct v; cbn; lia. Qed.

Lemma table_at_fresh (s : Parser) (l : loc) :
  store_ok s -> (next_ s <= l)%nat -> table_at s l = ∅.
Proof. intros Hok Hl. unfold table_at. now rewrite (tables_fresh _ Hok). Qed.

Lemma table_with_key_allocated (s : Parser) (t : loc) (key : string) (v : TomlValue) :
  store_ok s -> table_at s t !! key = Some v -> (t < next_ s)%nat.
Proof.
  intros Hok Hv. destruct (Nat.lt_ge_cases t (next_ s)) as [|Hge]; [assumption|].
  rewrite (table_at_fresh _ _ Hok Hge), lookup_empty in Hv. discriminate.
Qed.

Lemma make_shared_Table_run (s : Parser) :
  make_shared_Table s = Ok (next_ s) (with_new_table s).
Proof. reflexivity. Qed.

Lemma make_shared_Array_run (s : Parser) :
  make_shared_Array s = Ok (next_ s) (with_new_array s).
Proof. reflexivity. Qed.

Lemma Table_set_with (t : loc) (key : string) (value : TomlValue) (s : Parser) :
  Table_set t key value s = Ok tt (with_table_set t key value s).
Proof. reflexivity. Qed.

Lemma Array_append_with (a : loc) (value : TomlValue) (s : Parser) :
  Array_append a value s = Ok tt (with_array_append a value s).
Proof. reflexivity. Qed.

Lemma in_array_of_tables_paths_run (path : list string) (s : Parser) :
  in_array_of_tables_paths path s
  = Ok (bool_decide (path ∈ array_of_tables_paths_ s)) s.
Proof. reflexivity. Qed.

Lemma Array_elements_run (a : loc) (s : Parser) :
  Array_elements a s = Ok (array_at s a) s.
Proof. reflexivity. Qed.

Lemma table_at_new_table (s : Parser) (l : loc) :
  table_at (with_new_table s) l = if decide (l = next_ s) then ∅ else table_at s l.
Proof.
  unfold table_at, with_new_table. cbn. destruct (decide (l = next_ s)) as [->|Hne].
  - now rewrite lookup_insert_eq.
  - now rewrite lookup_insert_ne by congruence.
Qed.

Lemma table_at_table_set (t : loc) (key : string) (value : TomlValue) (s : Parser)
    (l : loc) :
  table_at (with_table_set t key value s) l
  = if decide (l = t) then <[key := value]> (table_at s t) else table_at s l.
Proof.
  unfold table_at at 1, with_table_set. cbn. destruct (decide (l = t)) as [->|Hne].
  - now rewrite lookup_insert_eq.
  - rewrite lookup_insert_ne by congruence. reflexivity.
Qed.

Lemma array_at_new_array (s : Parser) (a : loc) :
  array_at (with_new_array s) a = if decide (a = next_ s) then [] else array_at s a.
Proof.
  unfold array_at, with_new_array. cbn. destruct (decide (a = next_ s)) as [->|Hne].
  - now rewrite lookup_insert_eq.
  - now rewrite lookup_insert_ne by congruence.
Qed.

Lemma array_at_array_append (a : loc) (value : TomlValue) (s : Parser) (l : loc) :
  array_at (with_array_append a value s) l
  = if decide (l = a) then array_at s a ++ [value] else array_at s l.
Proof.
  unfold array_at at 1, with_array_append. cbn. destruct (decide (l = a)) as [->|Hne].
  - now rewrite lookup_insert_eq.
  - rewrite lookup_insert_ne by congruence. reflexivity.
Qed.

Lemma store_ok_new_table (s : Parser) : store_ok s -> store_ok (with_new_table s).
Proof.
  intros [Ht Ha Hr Htv Hae]. split; cbn.
  - intros l Hl. rewrite lookup_insert_ne by lia. apply Ht. lia.
  - intros l Hl. apply Ha. lia.
  - lia.
  - intros t key v. rewrite table_at_new_table. destruct (decide _).
    + now rewrite lookup_empty.
    + intros Hv. eapply allocated_mono; [|eapply Htv; exact Hv]. lia.
  - intros a v Hv. eapply allocated_mono; [|eapply Hae; exact Hv]. lia.
Qed.

Lemma store_ok_new_array (s : Parser) : store_ok s -> store_ok (with_new_array s).
Proof.
  intros [Ht Ha Hr Htv Hae]. split; cbn.
  - intros l Hl. apply Ht. lia.
  - intros l Hl. rewrite lookup_insert_ne by lia. apply Ha. lia.
  - lia.
  - intros t key v Hv. eapply allocated_mono; [|eapply Htv; exact Hv]. lia.
  - intros a v. rewrite array_at_new_array. destruct (decide _).
    + intros Hv. apply elem_of_nil in Hv. contradiction.
    + intros Hv. eapply allocated_mono; [|eapply Hae; exact Hv]. lia.
Qed.

Lemma store_ok_table_set (t : loc) (key : string) (value : TomlValue) (s : Parser) :
  store_ok s -> (t < next_ s)%nat -> allocated (next_ s) value ->
  store_ok (with_table_set t key value s).
Proof.
  intros [Ht Ha Hr Htv Hae] Hlt Hval. split; cbn.
  - intros l Hl. rewrite lookup_insert_ne by lia. apply Ht. lia.
  - exact Ha.
  - exact Hr.
  - intros t' key' v. rewrite table_at_table_set. destruct (decide _).
    + destruct (decide (key' = key)) as [->|Hne].
      * rewrite lookup_insert_eq. now intros [= <-].
      * rewrite lookup_insert_ne by congruence. apply Htv.
    + apply Htv.
  - exact Hae.
Qed.

Lemma store_ok_array_append (a : loc) (value : TomlValue) (s : Parser) :
  store_ok s -> (a < next_ s)%nat -> allocated (next_ s) value ->
  store_ok (with_array_append a value s).
Proof.
  intros [Ht Ha Hr Htv Hae] Hlt Hval. split; cbn.
  - exact Ht.
  - intros l Hl. rewrite lookup_insert_ne by lia. apply Ha. lia.
  - exact Hr.
  - exact Htv.
  - intros a' v. rewrite array_at_array_append. destruct (decide _).
    + intros Hv. apply elem_of_app in Hv as [Hv|Hv]; [eapply Hae; exact Hv|].
      apply list_elem_of_singleton in Hv. now subst.
    + apply Hae.
Qed.

End StoreInvariant.

Ltac step_in H lem := rewrite bind_run, lem in H; cbv beta iota in H.

Ltac early_return H :=
  exfalso; cbv beta iota delta [bind set_error modify ret] in H; discriminate H.

Section PrefixLoop.
Context `{FloatOps}.

Lemma prefix_frame_refl (s : Parser) : prefix_frame s s.
Proof. split; auto. Qed.

Lemma prefix_frame_trans (s s1 s2 : Parser) :
  prefix_frame s s1 -> prefix_frame s1 s2 -> prefix_frame s s2.
Proof. intros [] []. split; try congruence. lia. Qed.

Lemma array_prefix_loop_ok (path keys : list string) :
  forall (i : nat) (t t' : loc) (s s1 : Parser),
    store_ok s -> (t < next_ s)%nat ->
    array_prefix_loop path keys i t s = Ok (Some t') s1 ->
    store_ok s1 /\ (t' < next_ s1)%nat /\ prefix_frame s s1.
Proof.
  induction keys as [|key keys IH]; intros i t t' s s1 Hok Ht Hrun;
    cbn [array_prefix_loop] in Hrun.
  - injection Hrun as <- <-. auto using prefix_frame_refl.
  - step_in Hrun Table_has_run.
    destruct (bool_decide (is_Some (table_at s t !! key))) eqn:Hhas.
    + apply bool_decide_eq_true_1 in Hhas. destruct Hhas as [v Hv].
      step_in Hrun (Table_values_run _ _ _ _ Hv).
      pose proof (table_values_allocated _ Hok _ _ _ Hv) as Hal.
      destruct v; try early_return Hrun.
      * eapply IH; eauto.
      * step_in Hrun in_array_of_tables_paths_run.
        destruct (bool_decide _); cbn [negb] in Hrun; [|early_return Hrun].
        step_in Hrun Array_elements_run.
        destruct (last (array_at s p)) as [[]|] eqn:Hlast; try early_return Hrun.
        eapply IH; [exact Hok| |exact Hrun].
        apply last_Some_elem_of in Hlast.
        exact (array_elements_allocated _ Hok _ _ Hlast).
    + step_in Hrun make_shared_Table_run. step_in Hrun Table_set_with.
      apply IH in Hrun.
      * destruct Hrun as (Hok1 & Ht1 & Hframe). split; [exact Hok1|].
        split; [exact Ht1|]. destruct Hframe. split; cbn in *; auto. lia.
      * apply store_ok_table_set; [apply store_ok_new_table; exact Hok| |]; cbn; lia.
      * cbn. lia.
Qed.

End PrefixLoop.

Section StoreFrames.
Context `{FloatOps}.

Lemma array_at_new_table (s : Parser) (a : loc) :
  array_at (with_new_table s) a = array_at s a.
Proof. reflexivity. Qed.

Lemma array_at_table_set (t : loc) (key : string) (value : TomlValue) (s : Parser)
    (a : loc) :
  array_at (with_table_set t key value s) a = array_at s a.
Proof. reflexivity. Qed.

Lemma table_at_new_array (s : Parser) (l : loc) :
  table_at (with_new_array s) l = table_at s l.
Proof. reflexivity. Qed.

Lemma table_at_array_append (a : loc) (value : TomlValue) (s : Parser) (l : loc) :
  table_at (with_array_append a value s) l = table_at s l.
Proof. reflexivity. Qed.

Lemma table_at_with_paths (ps : gset (list string)) (s : Parser) (l : loc) :
  table_at (with_paths ps s) l = table_at s l.
Proof. reflexivity. Qed.

Lemma array_at_with_paths (ps : gset (list string)) (s : Parser) (a : loc) :
  array_at (with_paths ps s) a = array_at s a.
Proof. reflexivity. Qed.

Lemma store_ok_with_paths (ps : gset (list string)) (s : Parser) :
  store_ok s -> store_ok (with_paths ps s).
Proof. intros []. split; assumption. Qed.

Lemma store_ok_errored (message : string) (s : Parser) :
  store_ok s -> store_ok (errored message s).
Proof. intros []. split; assumption. Qed.

End StoreFrames.

#[export] Hint Rewrite @array_at_new_table @array_at_table_set @table_at_new_array
  @table_at_array_append @table_at_with_paths @array_at_with_paths
  @table_at_new_table @table_at_table_set @array_at_new_array
  @array_at_array_append : run.


Section HeaderCall.
Context `{FloatOps}.

Variables (path : list string) (last_key : string) (s s1 : Parser) (t : loc).
Hypothesis Hlast : last path = Some last_key.
Hypothesis Hok : store_ok s.
Hypothesis Hprefix :
  array_prefix_loop path (removelast path) 0 (root_table_ s) s = Ok (Some t) s1.

Lemma header_call_run :
  get_or_create_array_append_table path s
  = (h <- Table_has t last_key ;;
     if negb h then
       modify (fun s => with_paths ({[ path ]} ∪ array_of_tables_paths_ s) s) ;;
       arr <- make_shared_Array ;;
       new_table <- make_shared_Table ;;
       Array_append arr (VTablePtr new_table) ;;
       Table_set t last_key (VArrayPtr arr) ;;
       ret (Some new_table)
     else
       v <- Table_values t last_key ;;
       match v with
       | VArrayPtr arr =>
           known <- in_array_of_tables_paths path ;;
           if negb known then
             set_error
               ("Key '" +:+ last_key +:+ "' already defined as non-array-of-tables") ;;
             ret None
           else
             elements <- Array_elements arr ;;
             if negb (forallb is_TablePtr elements) then
               set_error
                 ("Key '" +:+ last_key +:+ "' already defined as non-array-of-tables") ;;
               ret None
             else
               new_table <- make_shared_Table ;;
               Array_append arr (VTablePtr new_table) ;;
               ret (Some new_table)
       | _ =>
           set_error ("Key '" +:+ last_key +:+ "' already defined as non-array") ;;
           ret None
       end) s1.
Proof.
  unfold get_or_create_array_append_table. rewrite Hlast.
  rewrite bind_run, gets_run. cbv beta iota. rewrite bind_run, Hprefix. reflexivity.
Qed.

Lemma header_prefix_ok : store_ok s1 /\ (t < next_ s1)%nat /\ prefix_frame s s1.
Proof.
  eapply array_prefix_loop_ok; [exact Hok| |exact Hprefix]. apply root_allocated, Hok.
Qed.

(** The final key is absent. *)
Lemma absent_key_creates_array :
  table_at s1 t !! last_key = None ->
  exists s',
    get_or_create_array_append_table path s = Ok (Some (S (next_ s1))) s'
    /\ array_of_tables_paths_ s' = {[ path ]} ∪ array_of_tables_paths_ s
    /\ table_at s' t !! last_key = Some (VArrayPtr (next_ s1))
    /\ array_at s' (next_ s1) = [VTablePtr (S (next_ s1))]
    /\ table_at s' (S (next_ s1)) = ∅
    /\ tables_ s1 !! S (next_ s1) = None
    /\ arrays_ s1 !! next_ s1 = None
    /\ error_message_ s' = error_message_ s
    /\ reported_ s' = reported_ s
    /\ root_table_ s' = root_table_ s
    /\ keeps_tables s1 s'
    /\ (forall a, a <> next_ s1 -> array_at s' a = array_at s1 a)
    /\ next_ s' = S (S (next_ s1))
    /\ store_ok s'.
Proof.
  intros Habsent. destruct header_prefix_ok as (Hok1 & Ht & Hframe).
  rewrite header_call_run, bind_run, Table_has_run. cbv beta iota.
  rewrite bool_decide_eq_false_2 by (rewrite Habsent; apply is_Some_None).
  cbn [negb].
  rewrite bind_run, modify_run. cbv beta iota.
  rewrite bind_run, make_shared_Array_run. cbv beta iota.
  rewrite bind_run, make_shared_Table_run. cbv beta iota.
  rewrite bind_run, Array_append_with. cbv beta iota.
  rewrite bind_run, Table_set_with. cbv beta iota. rewrite ret_run.
  eexists. split; [reflexivity|].
  split; [cbn; now rewrite (frame_paths _ _ Hframe)|].
  split.
  { autorewrite with run. rewrite decide_True by reflexivity.
    now rewrite lookup_insert_eq. }
  split.
  { autorewrite with run. cbn. rewrite decide_True by reflexivity.
    rewrite decide_True by reflexivity. reflexivity. }
  split.
  { autorewrite with run. cbn. rewrite decide_False by lia.
    rewrite decide_True by reflexivity. reflexivity. }
  split; [apply (tables_fresh _ Hok1); lia|].
  split; [apply (arrays_fresh _ Hok1); lia|].
  split; [exact (frame_error_message _ _ Hframe)|].
  split; [exact (frame_reported _ _ Hframe)|].
  split; [exact (frame_root _ _ Hframe)|].
  split.
  { intros l key v Hv. autorewrite with run. cbn.
    pose proof (table_with_key_allocated _ _ _ _ Hok1 Hv) as Hl.
    rewrite (decide_False (P := l = S (next_ s1))) by lia.
    destruct (decide (l = t)) as [->|Hne]; [|exact Hv].
    rewrite decide_False by lia. rewrite lookup_insert_ne; [exact Hv|].
    intros <-. congruence. }
  split.
  { intros a Ha. autorewrite with run. cbn.
    rewrite decide_False by exact Ha. now rewrite decide_False by exact Ha. }
  split; [reflexivity|].
  apply store_ok_table_set; [apply store_ok_array_append| |]; cbn; try lia.
  apply store_ok_new_table, store_ok_new_array, store_ok_with_paths, Hok1.
Qed.

(** The final key holds an Array that previous headers of this path
    made, all of its elements being Tables. *)
Lemma present_array_appends (arr : loc) :
  table_at s1 t !! last_key = Some (VArrayPtr arr) ->
  path ∈ array_of_tables_paths_ s ->
  forallb is_TablePtr (array_at s1 arr) = true ->
  exists s',
    get_or_create_array_append_table path s = Ok (Some (next_ s1)) s'
    /\ array_at s' arr = array_at s1 arr ++ [VTablePtr (next_ s1)]
    /\ table_at s' (next_ s1) = ∅
    /\ tables_ s1 !! next_ s1 = None
    /\ (forall l, l <> next_ s1 -> table_at s' l = table_at s1 l)
    /\ array_of_tables_paths_ s' = array_of_tables_paths_ s
    /\ error_message_ s' = error_message_ s
    /\ reported_ s' = reported_ s
    /\ root_table_ s' = root_table_ s
    /\ next_ s' = S (next_ s1)
    /\ (forall a, a <> arr -> array_at s' a = array_at s1 a)
    /\ store_ok s'.
Proof.
  intros Hv Hknown Htables. destruct header_prefix_ok as (Hok1 & Ht & Hframe).
  rewrite header_call_run, bind_run, Table_has_run. cbv beta iota.
  rewrite bool_decide_eq_true_2 by (rewrite Hv; eauto). cbn [negb].
  rewrite bind_run, (Table_values_run _ _ _ _ Hv). cbv beta iota.
  rewrite bind_run, in_array_of_tables_paths_run. cbv beta iota.
  rewrite bool_decide_eq_true_2 by (now rewrite (frame_paths _ _ Hframe)).
  cbn [negb].
  rewrite bind_run, Array_elements_run. cbv beta iota. rewrite Htables. cbn [negb].
  rewrite bind_run, make_shared_Table_run. cbv beta iota.
  rewrite bind_run, Array_append_with. cbv beta iota. rewrite ret_run.
  pose proof (table_values_allocated _ Hok1 _ _ _ Hv) as Harr. cbn in Harr.
  eexists. split; [reflexivity|].
  split; [autorewrite with run; now rewrite decide_True by reflexivity|].
  split; [autorewrite with run; now rewrite decide_True by reflexivity|].
  split; [apply (tables_fresh _ Hok1); lia|].
  split; [intros l Hl; autorewrite with run; now rewrite decide_False by exact Hl|].
  split; [exact (frame_paths _ _ Hframe)|].
  split; [exact (frame_error_message _ _ Hframe)|].
  split; [exact (frame_reported _ _ Hframe)|].
  split; [exact (frame_root _ _ Hframe)|].
  split; [reflexivity|].
  split; [intros a Ha; autorewrite with run; now rewrite decide_False by exact Ha|].
  apply store_ok_array_append; [apply store_ok_new_table, Hok1| |]; cbn; lia.
Qed.

(** The final key holds something else than an Array of Tables that
    headers of this path made: no Array, an Array whose path is not
    recorded, or an Array with an element that is no Table. *)
Lemma present_other_is_error (v : TomlValue) :
  table_at s1 t !! last_key = Some v ->
  (forall arr, v = VArrayPtr arr ->
               path ∉ array_of_tables_paths_ s
               \/ forallb is_TablePtr (array_at s1 arr) = false) ->
  exists message,
    message <> ""%string
    /\ get_or_create_array_append_table path s = Ok None (errored message s1).
Proof.
  intros Hv Hnot. destruct header_prefix_ok as (Hok1 & Ht & Hframe).
  rewrite header_call_run, bind_run, Table_has_run. cbv beta iota.
  rewrite bool_decide_eq_true_2 by (rewrite Hv; eauto). cbn [negb].
  rewrite bind_run, (Table_values_run _ _ _ _ Hv). cbv beta iota.
  destruct v;
    try (rewrite bind_run, set_error_run; eexists; split; [|reflexivity];
         discriminate).
  rewrite bind_run, in_array_of_tables_paths_run. cbv beta iota.
  destruct (bool_decide (path ∈ array_of_tables_paths_ s1)) eqn:Hknown; cbn [negb].
  - apply bool_decide_eq_true_1 in Hknown. rewrite (frame_paths _ _ Hframe) in Hknown.
    destruct (Hnot _ eq_refl) as [Hout|Helements]; [contradiction|].
    rewrite bind_run, Array_elements_run. cbv beta iota. rewrite Helements.
    cbn [negb]. rewrite bind_run, set_error_run.
    eexists; split; [|reflexivity]. discriminate.
  - rewrite bind_run, set_error_run.
    eexists; split; [|reflexivity]. discriminate.
Qed.

End HeaderCall.

Section RepeatedHeaders.
Context `{FloatOps}.

Lemma keeps_tables_refl (s : Parser) : keeps_tables s s.
Proof. intros l key v Hv. exact Hv. Qed.

Lemma keeps_tables_trans (s s1 s2 : Parser) :
  keeps_tables s s1 -> keeps_tables s1 s2 -> keeps_tables s s2.
Proof. intros H1 H2 l key v Hv. apply H2, H1, Hv. Qed.

Lemma table_path_kept (keys : list string) :
  forall (t t' : loc) (s s' : Parser),
    keeps_tables s s' -> table_path s t keys = Some t' ->
    table_path s' t keys = Some t'.
Proof.
  induction keys as [|key keys IH]; intros t t' s s' Hkeep Hpath; cbn in *.
  - exact Hpath.
  - destruct (table_at s t !! key) as [v|] eqn:Hv; [|discriminate].
    rewrite (Hkeep _ _ _ Hv). destruct v; try discriminate. eauto.
Qed.

(** A Table made for an absent key leaves the entries that were there. *)
Lemma keeps_tables_new_entry (t : loc) (key : string) (s : Parser) :
  store_ok s -> table_at s t !! key = None ->
  keeps_tables s (with_table_set t key (VTablePtr (next_ s)) (with_new_table s)).
Proof.
  intros Hok Habsent l key' v Hv. autorewrite with run.
  pose proof (table_with_key_allocated _ _ _ _ Hok Hv) as Hl.
  destruct (decide (l = t)) as [->|Hne].
  - rewrite decide_False by lia. rewrite lookup_insert_ne; [exact Hv|].
    intros <-. rewrite Habsent in Hv. discriminate.
  - rewrite decide_False by lia. exact Hv.
Qed.

(** The first loop leaves every entry that it finds. *)
Lemma array_prefix_loop_keeps (path keys : list string) :
  forall (i : nat) (t t' : loc) (s s1 : Parser),
    store_ok s -> (t < next_ s)%nat ->
    array_prefix_loop path keys i t s = Ok (Some t') s1 ->
    keeps_tables s s1.
Proof.
  induction keys as [|key keys IH]; intros i t t' s s1 Hok Ht Hrun;
    cbn [array_prefix_loop] in Hrun.
  - injection Hrun as <- <-. apply keeps_tables_refl.
  - step_in Hrun Table_has_run.
    destruct (bool_decide (is_Some (table_at s t !! key))) eqn:Hhas.
    + apply bool_decide_eq_true_1 in Hhas. destruct Hhas as [v Hv].
      step_in Hrun (Table_values_run _ _ _ _ Hv).
      pose proof (table_values_allocated _ Hok _ _ _ Hv) as Hal.
      destruct v; try early_return Hrun.
      * eapply IH; eauto.
      * step_in Hrun in_array_of_tables_paths_run.
        destruct (bool_decide _); cbn [negb] in Hrun; [|early_return Hrun].
        step_in Hrun Array_elements_run.
        destruct (last (array_at s p)) as [[]|] eqn:Hlast; try early_return Hrun.
        eapply IH; [exact Hok| |exact Hrun].
        apply last_Some_elem_of in Hlast.
        exact (array_elements_allocated _ Hok _ _ Hlast).
    + apply bool_decide_eq_false_1 in Hhas.
      assert (Habsent : table_at s t !! key = None)
        by (destruct (table_at s t !! key); [exfalso; apply Hhas; eauto|reflexivity]).
      step_in Hrun make_shared_Table_run. step_in Hrun Table_set_with.
      eapply keeps_tables_trans; [apply keeps_tables_new_entry; eassumption|].
      eapply IH; [| |exact Hrun].
      * apply store_ok_table_set; [apply store_ok_new_table; exact Hok| |]; cbn; lia.
      * cbn. lia.
Qed.

(** Where the first loop has arrived, it arrives again, by then without
    making any Table. *)
Lemma array_prefix_loop_arrives (path keys : list string) :
  forall (i : nat) (t t' : loc) (s s1 : Parser),
    store_ok s -> (t < next_ s)%nat ->
    array_prefix_loop path keys i t s = Ok (Some t') s1 ->
    prefix_table s1 path keys i t = Some t'.
Proof.
  induction keys as [|key keys IH]; intros i t t' s s1 Hok Ht Hrun;
    pose proof (array_prefix_loop_keeps _ _ _ _ _ _ _ Hok Ht Hrun) as Hkeep;
    pose proof (array_prefix_loop_ok _ _ _ _ _ _ _ Hok Ht Hrun) as (_ & _ & Hframe);
    cbn [array_prefix_loop] in Hrun; cbn [prefix_table].
  - injection Hrun as <- <-. reflexivity.
  - step_in Hrun Table_has_run.
    destruct (bool_decide (is_Some (table_at s t !! key))) eqn:Hhas.
    + apply bool_decide_eq_true_1 in Hhas. destruct Hhas as [v Hv].
      step_in Hrun (Table_values_run _ _ _ _ Hv).
      pose proof (table_values_allocated _ Hok _ _ _ Hv) as Hal.
      rewrite (Hkeep _ _ _ Hv).
      destruct v; try early_return Hrun.
      * eapply IH; eauto.
      * step_in Hrun in_array_of_tables_paths_run.
        rewrite (frame_paths _ _ Hframe).
        destruct (bool_decide _); cbn [negb] in Hrun; [|early_return Hrun].
        step_in Hrun Array_elements_run.
        unfold array_at at 1. rewrite (frame_arrays _ _ Hframe).
        fold (array_at s p).
        destruct (last (array_at s p)) as [[]|] eqn:Hlast; try early_return Hrun.
        eapply IH; [exact Hok| |exact Hrun].
        apply last_Some_elem_of in Hlast.
        exact (array_elements_allocated _ Hok _ _ Hlast).
    + apply bool_decide_eq_false_1 in Hhas.
      step_in Hrun make_shared_Table_run. step_in Hrun Table_set_with.
      assert (Hok2 : store_ok (with_table_set t key (VTablePtr (next_ s))
                                 (with_new_table s)))
        by (apply store_ok_table_set; [apply store_ok_new_table; exact Hok| |];
            cbn; lia).
      assert (Hnew : (next_ s < next_ (with_table_set t key (VTablePtr (next_ s))
                                          (with_new_table s)))%nat) by (cbn; lia).
      rewrite (array_prefix_loop_keeps _ _ _ _ _ _ _ Hok2 Hnew Hrun t key
                 (VTablePtr (next_ s))).
      * eapply IH; [exact Hok2|exact Hnew|exact Hrun].
      * autorewrite with run. rewrite decide_True by reflexivity.
        apply lookup_insert_eq.
Qed.

(** Along keys that are present the first loop changes nothing. *)
Lemma prefix_table_run (path keys : list string) :
  forall (i : nat) (t t' : loc) (s : Parser),
    prefix_table s path keys i t = Some t' ->
    array_prefix_loop path keys i t s = Ok (Some t') s.
Proof.
  induction keys as [|key keys IH]; intros i t t' s Hpath; cbn [prefix_table] in Hpath;
    cbn [array_prefix_loop].
  - now injection Hpath as <-.
  - destruct (table_at s t !! key) as [v|] eqn:Hv; [|discriminate].
    rewrite bind_run, Table_has_run. cbv beta iota.
    rewrite bool_decide_eq_true_2 by (rewrite Hv; eauto).
    rewrite bind_run, (Table_values_run _ _ _ _ Hv). cbv beta iota.
    destruct v; try discriminate.
    + apply IH. exact Hpath.
    + rewrite bind_run, in_array_of_tables_paths_run. cbv beta iota.
      destruct (bool_decide _); [|discriminate]. cbn [negb].
      rewrite bind_run, Array_elements_run. cbv beta iota.
      destruct (last (array_at s p)) as [[]|]; try discriminate.
      apply IH. exact Hpath.
Qed.

(** The way to a Table stays what it is while the entries and the
    Arrays on it stay. *)
Lemma prefix_table_kept (path keys : list string) :
  forall (i : nat) (t t' : loc) (s s' : Parser),
    store_ok s -> keeps_tables s s' ->
    (forall a, (a < next_ s)%nat -> array_at s' a = array_at s a) ->
    array_of_tables_paths_ s ⊆ array_of_tables_paths_ s' ->
    prefix_table s path keys i t = Some t' ->
    prefix_table s' path keys i t = Some t'.
Proof.
  induction keys as [|key keys IH]; intros i t t' s s' Hok Hkeep Harrays Hpaths Hpath;
    cbn [prefix_table] in *.
  - exact Hpath.
  - destruct (table_at s t !! key) as [v|] eqn:Hv; [|discriminate].
    rewrite (Hkeep _ _ _ Hv).
    pose proof (table_values_allocated _ Hok _ _ _ Hv) as Hal.
    destruct v; try discriminate.
    + eapply IH; eassumption.
    + destruct (bool_decide (take (S i) path ∈ array_of_tables_paths_ s)) eqn:Hknown;
        [|discriminate].
      apply bool_decide_eq_true_1 in Hknown.
      rewrite bool_decide_eq_true_2 by (apply Hpaths, Hknown).
      rewrite (Harrays _ Hal).
      destruct (last (array_at s p)) as [[]|]; try discriminate.
      eapply IH; eassumption.
Qed.

Lemma forallb_is_TablePtr (ts : list loc) :
  forallb is_TablePtr (VTablePtr <$> ts) = true.
Proof. induction ts; [reflexivity|exact IHts]. Qed.

(** The first header of a path whose final key is absent in the Table
    [t] at which the prefix arrives. *)
Lemma first_header (path : list string) (last_key : string) (s s1 : Parser) (t : loc) :
  store_ok s -> last path = Some last_key ->
  array_prefix_loop path (removelast path) 0 (root_table_ s) s = Ok (Some t) s1 ->
  table_at s1 t !! last_key = None ->
  exists s',
    get_or_create_array_append_table path s = Ok (Some (S (next_ s1))) s'
    /\ grown_by_headers s1 path t last_key (next_ s1) [S (next_ s1)] s'
    /\ table_at s' (S (next_ s1)) = ∅
    /\ error_message_ s' = error_message_ s
    /\ reported_ s' = reported_ s.
Proof.
  intros Hok Hlast Hprefix Habsent.
  destruct (array_prefix_loop_ok _ _ _ _ _ _ _ Hok (root_allocated _ Hok) Hprefix)
    as (Hok1 & _ & Hframe).
  destruct (absent_key_creates_array path last_key s s1 t Hlast Hok Hprefix Habsent)
    as (s' & Hcall & Hpaths & Hkey & Harr & Hempty & _ & _ & He & Hr & Hroot & Hkeep
        & Harrays & Hnext & Hok').
  exists s'. split; [exact Hcall|]. split; [|auto]. split.
  - exact Hok'.
  - exact Hkeep.
  - intros a Ha. apply Harrays. lia.
  - rewrite Hpaths, (frame_paths _ _ Hframe). apply union_subseteq_r.
  - rewrite Hroot. symmetry. exact (frame_root _ _ Hframe).
  - lia.
  - lia.
  - exact Hkey.
  - rewrite Hpaths. apply elem_of_union_l, elem_of_singleton. reflexivity.
  - exact Harr.
  - intros l Hl. apply list_elem_of_singleton in Hl as ->. lia.
Qed.

(** An entry set at an absent key is an undisturbed step. *)
Lemma undisturbed_new_entry (t : loc) (key : string) (value : TomlValue) (s : Parser) :
  store_ok s -> (t < next_ s)%nat -> allocated (next_ s) value ->
  table_at s t !! key = None ->
  undisturbed s (with_table_set t key value s).
Proof.
  intros Hok Ht Hvalue Habsent. split.
  - apply store_ok_table_set; assumption.
  - intros l key' v Hv. autorewrite with run.
    destruct (decide (l = t)) as [->|Hne]; [|exact Hv].
    rewrite lookup_insert_ne; [exact Hv|]. intros <-. congruence.
  - reflexivity.
  - reflexivity.
  - reflexivity.
  - cbn. lia.
Qed.

Section LaterHeaders.

Variables (b : Parser) (path : list string) (t : loc) (last_key : string) (arr : loc).
Hypothesis Hlast : last path = Some last_key.
Hypothesis Hbase : store_ok b.
Hypothesis Hway : prefix_table b path (removelast path) 0 (root_table_ b) = Some t.

(** The prefix arrives at [t] as it did in [b]. *)
Lemma grown_way (ts : list loc) (s : Parser) :
  grown_by_headers b path t last_key arr ts s ->
  prefix_table s path (removelast path) 0 (root_table_ s) = Some t.
Proof.
  intros Hgrown. rewrite (grown_root _ _ _ _ _ _ _ Hgrown).
  eapply prefix_table_kept; [exact Hbase| | | |exact Hway]; apply Hgrown.
Qed.

(** A later header of the same path. *)
Lemma later_header (ts : list loc) (s : Parser) :
  grown_by_headers b path t last_key arr ts s ->
  exists s',
    get_or_create_array_append_table path s = Ok (Some (next_ s)) s'
    /\ grown_by_headers b path t last_key arr (ts ++ [next_ s]) s'
    /\ table_at s' (next_ s) = ∅
    /\ tables_ s !! next_ s = None
    /\ (forall l, l <> next_ s -> table_at s' l = table_at s l)
    /\ next_ s' = S (next_ s)
    /\ error_message_ s' = error_message_ s
    /\ reported_ s' = reported_ s.
Proof.
  intros Hgrown. pose proof (grown_way ts s Hgrown) as Hway'.
  destruct Hgrown as [Hok Hkeep Harrays Hpaths Hroot Hnext Hnew Hkey Hrec Hel Hfresh].
  pose proof (prefix_table_run _ _ _ _ _ _ Hway') as Hrun.
  destruct (present_array_appends path last_key s s t Hlast Hok Hrun arr Hkey Hrec)
    as (s' & Hcall & Harr' & Hempty' & Hnone & Hsame & Hpaths' & He' & Hr' & Hroot'
        & Hnext' & Harrays' & Hok').
  { rewrite Hel. apply forallb_is_TablePtr. }
  exists s'. split; [exact Hcall|]. split; [|auto 10]. split.
  - exact Hok'.
  - intros l key v Hv. rewrite Hsame; [apply Hkeep, Hv|].
    pose proof (table_with_key_allocated _ _ _ _ Hbase Hv). lia.
  - intros a Ha. rewrite Harrays' by lia. apply Harrays, Ha.
  - rewrite Hpaths'. exact Hpaths.
  - congruence.
  - lia.
  - exact Hnew.
  - rewrite Hsame; [exact Hkey|].
    pose proof (table_with_key_allocated _ _ _ _ Hok Hkey). lia.
  - rewrite Hpaths'. exact Hrec.
  - rewrite Harr', Hel, fmap_app. reflexivity.
  - intros l Hl. apply elem_of_app in Hl as [Hl|Hl]; [apply Hfresh, Hl|].
    apply list_elem_of_singleton in Hl as ->. lia.
Qed.

(** A step in between that leaves the store in place. *)
Lemma grown_undisturbed (ts : list loc) (s s' : Parser) :
  grown_by_headers b path t last_key arr ts s -> undisturbed s s' ->
  grown_by_headers b path t last_key arr ts s'.
Proof.
  intros [Hok Hkeep Harrays Hpaths Hroot Hnext Hnew Hkey Hrec Hel Hfresh]
         [Hok' Hkeep' Harrays' Hpaths' Hroot' Hnext'].
  pose proof (table_values_allocated _ Hok _ _ _ Hkey) as Harr. cbn in Harr.
  split.
  - exact Hok'.
  - eapply keeps_tables_trans; eassumption.
  - intros a Ha. rewrite Harrays' by lia. apply Harrays, Ha.
  - etransitivity; eassumption.
  - congruence.
  - lia.
  - exact Hnew.
  - apply Hkeep', Hkey.
  - apply Hpaths', Hrec.
  - rewrite Harrays' by exact Harr. exact Hel.
  - exact Hfresh.
Qed.

(** [n] later headers in a row append the Tables [next_ s],
    [next_ s + 1], ... *)
Lemma later_headers (n : nat) :
  forall (ts : list loc) (s : Parser),
    grown_by_headers b path t last_key arr ts s ->
    exists s',
      headers n path s = Ok (Some <$> seq (next_ s) n) s'
      /\ grown_by_headers b path t last_key arr (ts ++ seq (next_ s) n) s'
      /\ (forall l, (next_ s <= l)%nat -> table_at s' l = ∅)
      /\ (forall l, (l < next_ s)%nat -> table_at s' l = table_at s l)
      /\ error_message_ s' = error_message_ s
      /\ reported_ s' = reported_ s.
Proof.
  induction n as [|n IH]; intros ts s Hgrown; cbn [headers seq].
  - exists s. rewrite app_nil_r. split; [reflexivity|]. split; [exact Hgrown|].
    split; [|auto]. intros l Hl. apply table_at_fresh; [apply Hgrown|exact Hl].
  - destruct (later_header ts s Hgrown)
      as (s1 & Hcall & Hgrown1 & Hempty & _ & Hsame & Hnext & He & Hr).
    destruct (IH _ _ Hgrown1) as (s' & Hrun & Hgrown' & Hnew & Hold & He' & Hr').
    rewrite Hnext in *.
    exists s'. rewrite bind_run, Hcall. cbv beta iota.
    rewrite bind_run, Hrun. cbv beta iota. rewrite ret_run.
    split; [reflexivity|]. split; [now rewrite <- app_assoc in Hgrown'|].
    split.
    { intros l Hl. destruct (decide (l = next_ s)) as [->|Hne].
      - rewrite Hold by lia. exact Hempty.
      - apply Hnew. lia. }
    split; [|split; congruence].
    intros l Hl. rewrite Hold by lia. apply Hsame. lia.
Qed.

End LaterHeaders.

End RepeatedHeaders.

Section ArrayOfTables.
Context `{FloatOps}.

(** C1.  [get_or_create_array_append_table] on a store that
    [std::make_shared] has laid out, once its first loop has led to the
    parent Table [t] (through Tables and through the last Table of each
    recorded Array on the way, making the Tables that are missing):
    - the final key is absent in [t]: the path is recorded in the
      array-of-tables set, a new Array holding one new empty Table is
      stored at the key, and that Table is returned;
    - the final key holds an Array, the path is in the set and the
      elements are Tables: a new empty Table is appended to that Array
      and returned;
    - the final key holds anything else (no Array, an Array whose path
      is not in the set, an Array with an element that is no Table): an
      error is recorded and no Table is returned.
    Hence, from a header that finds the final key absent in [t] on:
    every further header of the path arrives at [t] again and appends a
    new empty Table to the Array that the first one made, also after
    steps in between that leave in place what the store holds
    ([undisturbed]); the Array holds the Tables that the headers have
    returned, in their order ([grown_by_headers]).  In particular
    [n + 1] headers in a row return [n + 1] distinct new empty Tables,
    and the Array holds exactly these. *)
Theorem array_of_tables_header_appends :
  (forall (path : list string) (last_key : string) (s s1 : Parser) (t : loc),
     store_ok s ->
     last path = Some last_key ->
     array_prefix_loop path (removelast path) 0 (root_table_ s) s = Ok (Some t) s1 ->
     (table_at s1 t !! last_key = None ->
      exists s',
        get_or_create_array_append_table path s = Ok (Some (S (next_ s1))) s'
        /\ array_of_tables_paths_ s' = {[ path ]} ∪ array_of_tables_paths_ s
        /\ table_at s' t !! last_key = Some (VArrayPtr (next_ s1))
        /\ array_at s' (next_ s1) = [VTablePtr (S (next_ s1))]
        /\ table_at s' (S (next_ s1)) = ∅
        /\ tables_ s1 !! S (next_ s1) = None
        /\ arrays_ s1 !! next_ s1 = None
        /\ error_message_ s' = error_message_ s
        /\ reported_ s' = reported_ s
        /\ store_ok s')
     /\ (forall arr,
           table_at s1 t !! last_key = Some (VArrayPtr arr) ->
           path ∈ array_of_tables_paths_ s ->
           forallb is_TablePtr (array_at s1 arr) = true ->
           exists s',
             get_or_create_array_append_table path s = Ok (Some (next_ s1)) s'
             /\ array_at s' arr = array_at s1 arr ++ [VTablePtr (next_ s1)]
             /\ table_at s' (next_ s1) = ∅
             /\ tables_ s1 !! next_ s1 = None
             /\ table_at s' t !! last_key = Some (VArrayPtr arr)
             /\ array_of_tables_paths_ s' = array_of_tables_paths_ s
             /\ error_message_ s' = error_message_ s
             /\ reported_ s' = reported_ s
             /\ store_ok s')
     /\ (forall v,
           table_at s1 t !! last_key = Some v ->
           (forall arr, v = VArrayPtr arr ->
                        path ∉ array_of_tables_paths_ s
                        \/ forallb is_TablePtr (array_at s1 arr) = false) ->
           exists s' message,
             get_or_create_array_append_table path s = Ok None s'
             /\ message <> ""%string
             /\ reported_ s' = reported_ s ++ [message]
             /\ error_message_ s' = record (error_message_ s) message
             /\ error_message_ s' <> ""%string
             /\ tables_ s' = tables_ s1
             /\ arrays_ s' = arrays_ s1))
  /\ (forall (path : list string) (last_key : string) (s s1 : Parser) (t : loc),
        store_ok s ->
        last path = Some last_key ->
        array_prefix_loop path (removelast path) 0 (root_table_ s) s = Ok (Some t) s1 ->
        table_at s1 t !! last_key = None ->
        let grown := grown_by_headers s1 path t last_key (next_ s1) in
        (exists s',
           get_or_create_array_append_table path s = Ok (Some (S (next_ s1))) s'
           /\ grown [S (next_ s1)] s')
        /\ (forall ts s2,
              grown ts s2 ->
              prefix_table s2 path (removelast path) 0 (root_table_ s2) = Some t
              /\ table_at s2 t !! last_key = Some (VArrayPtr (next_ s1))
              /\ path ∈ array_of_tables_paths_ s2
              /\ array_at s2 (next_ s1) = VTablePtr <$> ts
              /\ exists s3,
                   get_or_create_array_append_table path s2 = Ok (Some (next_ s2)) s3
                   /\ tables_ s2 !! next_ s2 = None
                   /\ table_at s3 (next_ s2) = ∅
                   /\ error_message_ s3 = error_message_ s2
                   /\ reported_ s3 = reported_ s2
                   /\ grown (ts ++ [next_ s2]) s3)
        /\ (forall ts s2 s3, grown ts s2 -> undisturbed s2 s3 -> grown ts s3)
        /\ (forall n,
              exists ts s',
                headers (S n) path s = Ok (Some <$> ts) s'
                /\ length ts = S n
                /\ NoDup ts
                /\ grown ts s'
                /\ (forall l, l ∈ ts -> table_at s' l = ∅ /\ tables_ s !! l = None)
                /\ error_message_ s' = error_message_ s
                /\ reported_ s' = reported_ s)).
Proof.
  split.
  - intros path last_key s s1 t Hok Hlast Hprefix.
    destruct (array_prefix_loop_ok _ _ _ _ _ _ _ Hok (root_allocated _ Hok) Hprefix)
      as (Hok1 & Ht & Hframe).
    split; [|split].
    + intros Habsent.
      destruct (absent_key_creates_array path last_key s s1 t Hlast Hok Hprefix Habsent)
        as (s' & ? & ? & ? & ? & ? & ? & ? & ? & ? & ? & ? & ? & ? & ?).
      exists s'. auto 12.
    + intros arr Hkey Hknown Htables.
      destruct (present_array_appends path last_key s s1 t Hlast Hok Hprefix arr
                  Hkey Hknown Htables)
        as (s' & ? & ? & ? & ? & Hsame & ? & ? & ? & ? & ? & ? & ?).
      exists s'. repeat (split; [assumption|]). split; [|auto].
      rewrite Hsame; [exact Hkey|]. lia.
    + intros v Hkey Hnot.
      destruct (present_other_is_error path last_key s s1 t Hlast Hok Hprefix v
                  Hkey Hnot) as (message & Hmessage & Hcall).
      exists (errored message s1), message. split; [exact Hcall|].
      split; [exact Hmessage|]. cbn.
      rewrite (frame_reported _ _ Hframe), (frame_error_message _ _ Hframe).
      split; [reflexivity|]. split; [reflexivity|]. split; [|auto].
      unfold record. destruct (String.eqb_spec (error_message_ s) ""); assumption.
  - intros path last_key s s1 t Hok Hlast Hprefix Habsent grown.
    pose proof (root_allocated _ Hok) as Hroot.
    destruct (array_prefix_loop_ok _ _ _ _ _ _ _ Hok Hroot Hprefix)
      as (Hok1 & Ht & Hframe).
    pose proof (array_prefix_loop_arrives _ _ _ _ _ _ _ Hok Hroot Hprefix) as Hway.
    rewrite <- (frame_root _ _ Hframe) in Hway.
    destruct (first_header path last_key s s1 t Hok Hlast Hprefix Habsent)
      as (s2 & Hcall & Hgrown & Hempty2 & He2 & Hr2).
    split; [exists s2; split; assumption|].
    split.
    { intros ts s3 Hgrown3.
      split; [exact (grown_way s1 path t last_key (next_ s1) Hok1 Hway ts s3 Hgrown3)|].
      split; [exact (grown_key _ _ _ _ _ _ _ Hgrown3)|].
      split; [exact (grown_recorded _ _ _ _ _ _ _ Hgrown3)|].
      split; [exact (grown_elements _ _ _ _ _ _ _ Hgrown3)|].
      destruct (later_header s1 path t last_key (next_ s1) Hlast Hok1 Hway ts s3 Hgrown3)
        as (s4 & ? & ? & ? & ? & ? & ? & ? & ?).
      exists s4. auto 10. }
    split; [exact (grown_undisturbed s1 path t last_key (next_ s1))|].
    intros n.
    destruct (later_headers s1 path t last_key (next_ s1) Hlast Hok1 Hway n _ _ Hgrown)
      as (s' & Hrun & Hgrown' & Hnew & Hold & He & Hr).
    pose proof (frame_next _ _ Hframe) as Hle.
    pose proof (grown_next _ _ _ _ _ _ _ Hgrown) as Hnext2.
    assert (Hin2 : VTablePtr (S (next_ s1)) ∈ array_at s2 (next_ s1)).
    { rewrite (grown_elements _ _ _ _ _ _ _ Hgrown).
      apply list_elem_of_singleton. reflexivity. }
    pose proof (array_elements_allocated _ (grown_store _ _ _ _ _ _ _ Hgrown) _ _ Hin2)
      as Hal. cbn in Hal.
    exists ([S (next_ s1)] ++ seq (next_ s2) n), s'.
    cbn [headers]. rewrite bind_run, Hcall. cbv beta iota.
    rewrite bind_run, Hrun. cbv beta iota. rewrite ret_run.
    split; [reflexivity|].
    split; [cbn; now rewrite length_seq|].
    split.
    { cbn [app]. constructor; [|apply NoDup_seq]. rewrite elem_of_seq. lia. }
    split; [exact Hgrown'|].
    split.
    { intros l Hl. split.
      - apply elem_of_app in Hl as [Hl|Hl].
        + apply list_elem_of_singleton in Hl as ->. rewrite Hold by lia. exact Hempty2.
        + apply elem_of_seq in Hl. apply Hnew. lia.
      - apply (tables_fresh _ Hok).
        pose proof (grown_fresh _ _ _ _ _ _ _ Hgrown' l Hl). lia. }
    split; congruence.
Qed.

End ArrayOfTables.

Lemma store_ok_TomlParser `{FloatOps} : store_ok TomlParser.
Proof.
  split; cbn.
  - intros l Hl. apply lookup_singleton_ne. lia.
  - intros l _. apply lookup_empty.
  - lia.
  - intros t key v. unfold table_at. cbn. destruct (decide (t = 0%nat)) as [->|Hne].
    + rewrite lookup_singleton_eq. cbn. now rewrite lookup_empty.
    + rewrite lookup_singleton_ne by congruence. cbn. now rewrite lookup_empty.
  - intros a v. unfold array_at. cbn. rewrite lookup_empty. cbn.
    intros Hv. apply elem_of_nil in Hv. contradiction.
Qed.

Lemma array_of_tables_header_appends_witness :
  (exists s',
     get_or_create_array_append_table ["products"%string] (@TomlParser text_floats)
     = Ok (Some 2%nat) s'
     /\ array_at s' 1%nat = [VTablePtr 2%nat])
  /\ (exists s',
        get_or_create_array_append_table ["products"%string] after_first_header
        = Ok (Some 3%nat) s'
        /\ array_at s' 1%nat = [VTablePtr 2%nat; VTablePtr 3%nat])
  /\ (exists s',
        get_or_create_array_append_table ["products"%string] with_integer_products
        = Ok None s'
        /\ error_message_ s' <> ""%string)
  /\ (exists s',
        get_or_create_array_append_table ["products"%string]
          (with_table_set 2%nat "name" (VString "A") after_first_header)
        = Ok (Some 3%nat) s'
        /\ array_at s' 1%nat = [VTablePtr 2%nat; VTablePtr 3%nat])
  /\ (exists ts s',
        headers 2 ["products"%string] (@TomlParser text_floats) = Ok (Some <$> ts) s'
        /\ length ts = 2%nat
        /\ table_at s' 0%nat !! "products"%string = Some (VArrayPtr 1%nat)
        /\ array_at s' 1%nat = VTablePtr <$> ts).
Proof.
  destruct (@array_of_tables_header_appends text_floats) as [Hcall Hrepeat].
  pose proof (@store_ok_TomlParser text_floats) as Hok.
  destruct (Hcall ["products"%string] "products"%string TomlParser TomlParser 0%nat
              Hok eq_refl eq_refl) as (Habsent & _ & _).
  destruct (Habsent eq_refl)
    as (s1 & Hrun1 & _ & _ & Harr1 & _ & _ & _ & _ & _ & Hok1).
  assert (Hs1 : after_first_header = s1)
    by (unfold after_first_header; now rewrite Hrun1).
  split; [exists s1; split; [exact Hrun1|exact Harr1]|].
  split.
  { rewrite Hs1.
    destruct (Hcall ["products"%string] "products"%string s1 s1 0%nat
                Hok1) as (_ & Hpresent & _).
    - reflexivity.
    - rewrite <- Hs1. reflexivity.
    - destruct (Hpresent 1%nat) as (s2 & Hrun2 & Harr2 & _).
      + rewrite <- Hs1. reflexivity.
      + rewrite <- Hs1. vm_compute. reflexivity.
      + rewrite <- Hs1. reflexivity.
      + exists s2. rewrite <- Hs1 in Hrun2, Harr2. rewrite <- Hs1.
        split; [exact Hrun2|exact Harr2]. }
  split.
  { assert (Hok3 : store_ok with_integer_products).
    { apply store_ok_table_set; [exact Hok|cbn; lia|exact I]. }
    destruct (Hcall ["products"%string] "products"%string with_integer_products
                with_integer_products 0%nat Hok3 eq_refl eq_refl) as (_ & _ & Hother).
    destruct (Hother (VInteger 1) eq_refl) as (s3 & message & Hrun3 & _ & _ & _ & He & _).
    - intros arr Harr. discriminate Harr.
    - exists s3. split; [exact Hrun3|exact He]. }
  destruct (Hrepeat ["products"%string] "products"%string TomlParser TomlParser 0%nat
              Hok eq_refl eq_refl eq_refl)
    as ((s2 & Hrun2 & Hgrown2) & Hlater & Hstep & Hrow).
  rewrite Hrun1 in Hrun2. injection Hrun2 as <-.
  split.
  { assert (Hquiet : undisturbed s1 (with_table_set 2%nat "name" (VString "A") s1)).
    { apply undisturbed_new_entry; [exact Hok1| |exact I|];
        rewrite <- Hs1; vm_compute; reflexivity. }
    destruct (Hlater _ _ (Hstep _ _ _ Hgrown2 Hquiet))
      as (_ & _ & _ & Hels & s3 & Hrun3 & _ & _ & _ & _ & Hgrown3).
    pose proof (grown_elements _ _ _ _ _ _ _ Hgrown3) as Hels3.
    assert (Hn : next_ s1 = 3%nat) by (rewrite <- Hs1; reflexivity).
    change (next_ (with_table_set 2%nat "name" (VString "A") s1)) with (next_ s1)
      in Hrun3, Hels3.
    rewrite Hn in Hrun3, Hels3.
    exists s3. rewrite Hs1. split; [exact Hrun3|exact Hels3]. }
  destruct (Hrow 1%nat) as (ts & s4 & Hrun4 & Hlen & _ & Hgrown4 & _).
  exists ts, s4. split; [exact Hrun4|]. split; [exact Hlen|].
  split; [exact (grown_key _ _ _ _ _ _ _ Hgrown4)|].
  exact (grown_elements _ _ _ _ _ _ _ Hgrown4).
Defined.

(** C1 as stated fails.  In the first document the header [[[a.b]]]
    occurs twice, each time after a header [[[a]]]: the second [[[a]]]
    appends a Table to the array [a], the prefix of [a.b] then leads to
    that Table, where [b] is absent, and a second Array is made.  So two
    occurrences of [[[a.b]]] leave two Arrays of one Table each, and
    none of two Tables.  In the second document [b] of the Table [a] is
    assigned a static array between two headers [[[a.b]]]: the path is
    in the array-of-tables set and the key holds an Array, yet the
    second header appends nothing: it records an error and [parse]
    returns no table. *)
Lemma header_under_another_parent :
  (exists s',
     parse 40 nested_headers_document (@TomlParser text_floats) = Ok (Some 1%nat) s'
     /\ get_error s' = ""%string /\ reported_ s' = []
     /\ table_at s' 1%nat !! "a"%string = Some (VArrayPtr 2%nat)
     /\ array_at s' 2%nat = [VTablePtr 3%nat; VTablePtr 6%nat]
     /\ table_at s' 3%nat !! "b"%string = Some (VArrayPtr 4%nat)
     /\ array_at s' 4%nat = [VTablePtr 5%nat]
     /\ table_at s' 6%nat !! "b"%string = Some (VArrayPtr 7%nat)
     /\ array_at s' 7%nat = [VTablePtr 8%nat]
     /\ ["a"; "b"]%string ∈ array_of_tables_paths_ s')
  /\ (exists s',
        parse 40 header_after_assignment_document (@TomlParser text_floats) = Ok None s'
        /\ get_error s' = "Key 'b' already defined as non-array-of-tables"%string
        /\ table_at s' 1%nat !! "a"%string = Some (VTablePtr 2%nat)
        /\ table_at s' 2%nat !! "b"%string = Some (VArrayPtr 5%nat)
        /\ array_at s' 5%nat = [VInteger 1]
        /\ ["a"; "b"]%string ∈ array_of_tables_paths_ s').
Proof.
  split; (eexists; split; [vm_compute; reflexivity|]); repeat split; reflexivity.
Qed.

(** The document with two [[[products]]] headers: [products] is an
    Array of two Tables, with the names [A] and [B]. *)
Example products_document_parses :
  exists s',
    parse 40 products_document (@TomlParser text_floats) = Ok (Some 1%nat) s'
    /\ get_error s' = ""%string
    /\ array_of_tables_at s' ["products"%string] = Some [VTablePtr 3%nat; VTablePtr 4%nat]
    /\ table_at s' 3%nat !! "name"%string = Some (VString "A")
    /\ table_at s' 4%nat !! "name"%string = Some (VString "B").
Proof.
  eexists; split; [vm_compute; reflexivity|]. repeat split; reflexivity.
Qed.

(** ** [try_parse_datetime] *)

Section RunRules.
Context `{FloatOps}.

Lemma runs_bind_ret {A B} (a : A) (k : A -> M B) s Q :
  runs (k a) s Q -> runs (bind (ret a) k) s Q.
Proof. exact (fun H => H). Qed.

Lemma runs_bind_gets {A B} (f : Parser -> A) (k : A -> M B) s Q :
  runs (k (f s)) s Q -> runs (bind (gets f) k) s Q.
Proof. exact (fun H => H). Qed.

Lemma runs_bind_assoc {A B C} (m : M A) (k1 : A -> M B) (k2 : B -> M C) s Q :
  runs (bind m (fun a => bind (k1 a) k2)) s Q -> runs (bind (bind m k1) k2) s Q.
Proof. unfold runs, bind. destruct (m s); exact (fun H => H). Qed.

Lemma runs_bind_throw {A B} (what : string) (k : A -> M B) s Q :
  runs (bind (throw what) k) s Q.
Proof. reflexivity. Qed.

(** A read that returns and leaves the parser as it is. *)
Lemma runs_bind_total {A B} (m : M A) (k : A -> M B) s Q :
  (exists a, m s = Ok a s) -> (forall a, runs (k a) s Q) -> runs (bind m k) s Q.
Proof.
  intros [a Ha] Hk. unfold runs. rewrite bind_run, Ha. apply Hk.
Qed.

Lemma deref_total (p : Z) s :
  0 <= p < Z.of_nat (length (input_ s)) -> exists c, deref p s = Ok c s.
Proof.
  intros Hp. destruct (load_in_range (input_ s) p Hp) as [c Hc].
  exists c. unfold deref. now rewrite Hc.
Qed.

Lemma runs_bind_deref {B} (p : Z) (k : ascii -> M B) s Q :
  0 <= p < Z.of_nat (length (input_ s)) ->
  (forall c, runs (k c) s Q) -> runs (bind (deref p) k) s Q.
Proof. intros Hp. apply runs_bind_total, deref_total, Hp. Qed.

Lemma digit_at_total (p : Z) s :
  0 <= p < Z.of_nat (length (input_ s)) -> exists b, digit_at p s = Ok b s.
Proof.
  intros Hp. destruct (deref_total p s Hp) as [c Hc].
  exists (isdigit c). unfold digit_at. now rewrite bind_run, Hc.
Qed.

Lemma byte_at_is_total (p : Z) (x : ascii) s :
  0 <= p < Z.of_nat (length (input_ s)) -> exists b, byte_at_is p x s = Ok b s.
Proof.
  intros Hp. destruct (deref_total p s Hp) as [c Hc].
  exists (c =? x)%char. unfold byte_at_is. now rewrite bind_run, Hc.
Qed.

Lemma and_total (a b : M bool) s :
  (exists x, a s = Ok x s) -> (exists y, b s = Ok y s) ->
  exists z, (a &&& b) s = Ok z s.
Proof.
  intros [x Hx] [y Hy]. rewrite bind_run, Hx. destruct x; [eauto|].
  exists false. reflexivity.
Qed.

Lemma time_shape_at_total (q : Z) s :
  0 <= q -> q + 8 <= Z.of_nat (length (input_ s)) ->
  exists b, time_shape_at q s = Ok b s.
Proof.
  intros H0 H8. unfold time_shape_at.
  repeat apply and_total; first [apply digit_at_total|apply byte_at_is_total]; lia.
Qed.

Lemma date_shape_at_total (q : Z) s :
  0 <= q -> q + 10 <= Z.of_nat (length (input_ s)) ->
  exists b, date_shape_at q s = Ok b s.
Proof.
  intros H0 H10. unfold date_shape_at.
  repeat apply and_total; first [apply digit_at_total|apply byte_at_is_total]; lia.
Qed.

Lemma skip_digits_total (p : Z) s :
  0 <= p <= end_ s -> end_ s <= Z.of_nat (length (input_ s)) ->
  exists q, skip_digits p s = Ok q s /\ p <= q <= end_ s.
Proof.
  intros Hp He.
  destruct (simd_facts.scalar_loop_first_not isdigit (input_ s)
              (Z.to_nat (end_ s - p)) p) as (q & Hq & Hrange & _); [lia|lia|].
  exists q. unfold skip_digits. rewrite Hq. split; [reflexivity|lia].
Qed.

Lemma runs_bind_skip_digits {B} (p : Z) (k : Z -> M B) s Q :
  0 <= p <= end_ s -> end_ s <= Z.of_nat (length (input_ s)) ->
  (forall q, p <= q <= end_ s -> runs (k q) s Q) ->
  runs (bind (skip_digits p) k) s Q.
Proof.
  intros Hp He Hk. destruct (skip_digits_total p s Hp He) as (q & Hq & Hrange).
  unfold runs. rewrite bind_run, Hq. apply Hk, Hrange.
Qed.

End RunRules.

Section ParseInt.
Context `{FloatOps}.

Lemma parse_int_loop_total (end' min_digits max_digits : Z) (fuel : nat) :
  forall (ptr v n : Z) (s : Parser),
    0 <= ptr -> end' <= Z.of_nat (length (input_ s)) ->
    n <= max_digits -> (Z.to_nat (max_digits - n) < fuel)%nat ->
    exists p' r,
      iter fuel (parse_int_round end' min_digits max_digits) (ptr, v, n) s
      = Ok (p', r) s
      /\ ptr <= p' <= ptr + (max_digits - n)
      /\ p' <= Z.max ptr end'
      /\ (forall x, r = Some x -> min_digits <= n + (p' - ptr)).
Proof.
  induction fuel as [|fuel IH]; intros ptr v n s H0 Hlen Hn Hfuel; [lia|].
  cbn [iter]. unfold parse_int_round at 1. cbv beta iota delta [bind ret].
  assert (Hleave :
            exists p' r,
              (if n <? min_digits
               then Ok (A := Z * option Z) (ptr, None) s
               else Ok (ptr, Some v) s) = Ok (p', r) s
              /\ ptr <= p' <= ptr + (max_digits - n)
              /\ p' <= Z.max ptr end'
              /\ (forall x, r = Some x -> min_digits <= n + (p' - ptr))).
  { destruct (n <? min_digits) eqn:Emin.
    - exists ptr, None. split; [reflexivity|]. split; [lia|]. split; [lia|].
      discriminate.
    - apply Z.ltb_ge in Emin. exists ptr, (Some v). split; [reflexivity|].
      split; [lia|]. split; [lia|]. intros; lia. }
  destruct (ptr <? end') eqn:Eend; cbv beta iota.
  - apply Z.ltb_lt in Eend.
    destruct (n <? max_digits) eqn:Emax; cbv beta iota.
    + apply Z.ltb_lt in Emax.
      destruct (deref_total ptr s) as [c Hc]; [lia|].
      rewrite !Hc. cbv beta iota.
      destruct (isdigit c); cbv beta iota.
      * rewrite Hc. cbv beta iota.
        destruct (IH (ptr + 1) (wrap_int64 (v * 10 + (code c - code "0"))) (n + 1) s)
          as (p' & r & Hrun & Hp & Hmax & Hr); [lia|lia|lia|lia|].
        exists p', r. split; [exact Hrun|]. split; [lia|]. split; [lia|].
        intros x Hx. specialize (Hr x Hx). lia.
      * destruct (n <? min_digits); exact Hleave.
    + destruct (n <? min_digits); exact Hleave.
  - destruct (n <? min_digits); exact Hleave.
Qed.

Lemma parse_int_total (ptr end' min_digits max_digits : Z) (s : Parser) :
  0 <= ptr -> end' <= Z.of_nat (length (input_ s)) -> 0 <= max_digits ->
  exists p' r,
    parse_int ptr end' min_digits max_digits s = Ok (p', r) s
    /\ ptr <= p' <= ptr + max_digits
    /\ (forall x, r = Some x -> ptr + min_digits <= p' /\ p' <= end').
Proof.
  intros H0 Hlen Hmax. unfold parse_int. cbv beta iota delta [bind ret].
  assert (Hbad : exists p' r,
            Ok (A := Z * option Z) (ptr, None) s = Ok (p', r) s
            /\ ptr <= p' <= ptr + max_digits
            /\ (forall x, r = Some x -> ptr + min_digits <= p' /\ p' <= end')).
  { exists ptr, None. split; [reflexivity|]. split; [lia|]. discriminate. }
  destruct (end' <=? ptr) eqn:Eend; cbv beta iota; [exact Hbad|].
  apply Z.leb_gt in Eend.
  destruct (deref_total ptr s) as [c Hc]; [lia|].
  rewrite Hc. cbv beta iota.
  destruct (isdigit c); cbn [negb]; cbv beta iota; [|exact Hbad].
  destruct (parse_int_loop_total end' min_digits max_digits
              (S (Z.to_nat max_digits)) ptr 0 0 s)
    as (p' & r & Hrun & Hp & Hle & Hr); [lia|lia|lia|lia|].
  exists p', r. split; [exact Hrun|]. split; [lia|].
  intros x Hx. specialize (Hr x Hx). lia.
Qed.

Lemma runs_bind_parse_int {B} (ptr end' min_digits max_digits : Z)
    (k : Z * option Z -> M B) s Q :
  0 <= ptr -> end' <= Z.of_nat (length (input_ s)) -> 0 <= max_digits ->
  (forall p' r,
      ptr <= p' <= ptr + max_digits ->
      (forall x, r = Some x -> ptr + min_digits <= p' /\ p' <= end') ->
      runs (k (p', r)) s Q) ->
  runs (bind (parse_int ptr end' min_digits max_digits) k) s Q.
Proof.
  intros H0 Hlen Hmax Hk.
  destruct (parse_int_total ptr end' min_digits max_digits s H0 Hlen Hmax)
    as (p' & r & Hrun & Hp & Hr).
  unfold runs. rewrite bind_run, Hrun. apply Hk; assumption.
Qed.

End ParseInt.

Section DatetimeLeaves.
Context `{FloatOps}.

Lemma with_current_same (s : Parser) : with_current (current_ s) s = s.
Proof. destruct s. reflexivity. Qed.

Lemma runs_not_a_datetime (message : option string) (s : Parser) :
  runs (not_a_datetime (current_ s) message) s (datetime_post s).
Proof.
  unfold runs, not_a_datetime. destruct message as [m|].
  - rewrite bind_run, set_error_run. cbv beta iota. rewrite bind_run, modify_run.
    cbv beta iota. rewrite ret_run. split; [reflexivity|]. right. exists m.
    destruct s. reflexivity.
  - rewrite bind_run, ret_run. cbv beta iota. rewrite bind_run, modify_run.
    cbv beta iota. rewrite ret_run. split; [reflexivity|]. left.
    apply with_current_same.
Qed.

Lemma runs_datetime_value (p : Z) (v : TomlValue) (s : Parser) :
  current_ s + 8 <= p <= end_ s ->
  datetime_text v (substr (input_ s) (current_ s) p) ->
  runs (datetime_value p v) s (datetime_post s).
Proof. intros Hp Hv. exists p. auto. Qed.

Lemma runs_ret_None (s : Parser) :
  runs (ret None) s (datetime_post s).
Proof. split; [reflexivity|]. left. reflexivity. Qed.

Lemma string_of_list_ascii_length (l : list ascii) :
  String.length (string_of_list_ascii l) = length l.
Proof. induction l as [|c l IH]; [reflexivity|]. cbn. now rewrite IH. Qed.

Lemma substr_length (mem : list ascii) (first last : Z) :
  0 <= first <= last -> last <= Z.of_nat (length mem) ->
  String.length (substr mem first last) = Z.to_nat (last - first).
Proof.
  intros Hf Hl. unfold substr.
  rewrite string_of_list_ascii_length, length_take, length_drop. lia.
Qed.

End DatetimeLeaves.

Ltac bools :=
  repeat match goal with
  | H : (_ <? _) = true |- _ => apply Z.ltb_lt in H
  | H : (_ <? _) = false |- _ => apply Z.ltb_ge in H
  | H : (_ <=? _) = true |- _ => apply Z.leb_le in H
  | H : (_ <=? _) = false |- _ => apply Z.leb_gt in H
  | H : (_ =? _) = true |- _ => apply Z.eqb_eq in H
  | H : (_ =? _) = false |- _ => apply Z.eqb_neq in H
  end.

Ltac bounds := unfold buffer_ok in *; lia.

Ltac datetime_text_holds :=
  cbn [datetime_text];
  first [ left; reflexivity
        | right; reflexivity
        | left; f_equal; bounds
        | rewrite substr_length by bounds; bounds ].

Ltac run_step :=
  lazymatch goal with
  | |- runs (bind (bind _ _) _) _ _ => apply runs_bind_assoc
  | |- runs (bind (ret _) _) _ _ => apply runs_bind_ret; cbv beta iota zeta
  | |- runs (bind (gets _) _) _ _ => apply runs_bind_gets; cbv beta iota zeta
  | |- runs (bind (throw _) _) _ _ => apply runs_bind_throw
  | |- runs (bind (deref _) _) _ _ =>
      apply runs_bind_deref; [bounds|intro; cbv beta iota zeta]
  | |- runs (bind (parse_int _ _ _ _) _) _ _ =>
      let Hr := fresh "Hr" in
      apply runs_bind_parse_int;
      [bounds|bounds|lia
      |intros ? [?|] ? Hr; [specialize (Hr _ eq_refl)|clear Hr];
       cbv beta iota zeta]
  | |- runs (bind (skip_digits _) _) _ _ =>
      apply runs_bind_skip_digits; [bounds|bounds|intros ? ?; cbv beta iota zeta]
  | |- runs (bind (date_shape_at _) _) _ _ =>
      apply runs_bind_total;
      [apply date_shape_at_total; bounds|intros [|]; cbv beta iota zeta]
  | |- runs (bind (time_shape_at _) _) _ _ =>
      apply runs_bind_total;
      [apply time_shape_at_total; bounds|intros [|]; cbv beta iota zeta]
  | |- runs (bind (byte_at_is _ _) _) _ _ => unfold byte_at_is at 1
  | |- runs (bind (garbage_at _) _) _ _ => unfold garbage_at at 1
  | |- runs (bind (lexeme _ _) _) _ _ => unfold lexeme at 1
  | |- runs (bind (if ?b then _ else _) _) _ _ =>
      destruct b eqn:?; bools; cbv beta iota zeta
  | |- runs (bind (match ?x with _ => _ end) _) _ _ =>
      destruct x; cbv beta iota zeta
  | |- runs (not_a_datetime _ _) _ _ => apply runs_not_a_datetime
  | |- runs (datetime_value _ _) _ _ =>
      apply runs_datetime_value; [bounds|datetime_text_holds]
  | |- runs (ret None) _ _ => apply runs_ret_None
  | |- runs (datetime_after_date _ _ _ _ _) _ _ => unfold datetime_after_date
  | |- runs (datetime_time_part _ _ _ _ _) _ _ => unfold datetime_time_part
  | |- runs (if ?b then _ else _) _ _ => destruct b eqn:?; bools; cbv beta iota zeta
  | |- runs (match ?x with _ => _ end) _ _ => destruct x; cbv beta iota zeta
  end.

Section Datetime.
Context `{FloatOps}.

(** X23.  From a parser whose cursor lies in its buffer,
    [try_parse_datetime] returns, or leaves by the exception of
    [std::stod] with the parser untouched.  When it returns no value the
    cursor stands where it stood at entry, and nothing but the error
    state has changed, by at most one message.  When it returns a value
    nothing but the cursor has changed: it has moved forward, by 8
    bytes at least and not past the end, and a String value is the text
    it has moved over. *)
Theorem try_parse_datetime_restores_cursor (s : Parser) :
  buffer_ok s -> runs try_parse_datetime s (datetime_post s).
Proof.
  intros Hbuf. unfold try_parse_datetime.
  repeat run_step.
Qed.

End Datetime.

Lemma buffer_ok_at `{FloatOps} (pre rest : list ascii) (s0 : Parser) :
  buffer_ok (at_ pre rest s0).
Proof. unfold buffer_ok, at_. cbn. rewrite length_app. lia. Qed.

Lemma try_parse_datetime_restores_cursor_witness :
  (buffer_ok before_invalid_month
   /\ runs try_parse_datetime before_invalid_month (datetime_post before_invalid_month))
  /\ (buffer_ok before_offset_datetime
      /\ runs try_parse_datetime before_offset_datetime
           (datetime_post before_offset_datetime)).
Proof.
  split.
  - pose proof (@buffer_ok_at text_floats (list_ascii_of_string "d = ")
                  (list_ascii_of_string "1979-13-01") TomlParser) as Hbuf.
    split; [exact Hbuf|].
    exact (@try_parse_datetime_restores_cursor text_floats before_invalid_month Hbuf).
  - pose proof (@buffer_ok_at text_floats (list_ascii_of_string "d = ")
                  (list_ascii_of_string "1979-05-27T07:32:00-08:00") TomlParser)
      as Hbuf.
    split; [exact Hbuf|].
    exact (@try_parse_datetime_restores_cursor text_floats before_offset_datetime Hbuf).
Defined.

(** The two parsers above: the month 13 records an error and leaves the
    cursor at the date; the date-time with offset moves the cursor to
    the end of the input. *)
Example try_parse_datetime_examples :
  try_parse_datetime before_invalid_month
  = Ok None (errored "Invalid date: month must be 01-12" before_invalid_month)
  /\ try_parse_datetime before_offset_datetime
     = Ok (Some (VDateTimeOffset
                   (mkDateTimeOffset
                      (@mkDateTime text_floats 296667120 "0.0"%string) (-480))))
          (with_current 29 before_offset_datetime).
Proof. split; vm_compute; reflexivity. Qed.

(** C5.  A value is returned where no full date or time has been read.
    The time [07:32:00.] ends in a point that no digit follows: the
    branch for a time alone steps over the point and returns the text
    with it, as a String, and the document [t = 07:32:00.] parses
    without an error.  The branch for a date with a time rejects the
    same point ([fractional seconds must have at least one digit]).
    Likewise a date whose [T] is followed by the end of the input is
    returned with its [T]. *)
Theorem value_of_an_unfinished_time :
  try_parse_datetime
    (at_ [] (list_ascii_of_string "07:32:00.") (@TomlParser text_floats))
  = Ok (Some (VString "07:32:00."))
       (at_ (list_ascii_of_string "07:32:00.") [] TomlParser)
  /\ try_parse_datetime
       (at_ [] (list_ascii_of_string "1979-05-27T07:32:00.") (@TomlParser text_floats))
     = Ok None
          (errored "Invalid datetime: fractional seconds must have at least one digit"
             (at_ [] (list_ascii_of_string "1979-05-27T07:32:00.") TomlParser))
  /\ try_parse_datetime
       (at_ [] (list_ascii_of_string "1979-05-27T") (@TomlParser text_floats))
     = Ok (Some (VString "1979-05-27T"))
          (at_ (list_ascii_of_string "1979-05-27T") [] TomlParser)
  /\ exists s',
       parse 20 "t = 07:32:00." (@TomlParser text_floats) = Ok (Some 1%nat) s'
       /\ get_error s' = ""%string
       /\ table_at s' 1%nat !! "t"%string = Some (VString "07:32:00.").
Proof.
  split; [vm_compute; reflexivity|].
  split; [vm_compute; reflexivity|].
  split; [vm_compute; reflexivity|].
  eexists. split; [vm_compute; reflexivity|]. split; reflexivity.
Qed.
(** * Further properties *)

(** ** The day count of [days_from_1970] *)

Lemma wrap_int_small (x : Z) : INT_MIN <= x <= INT_MAX -> wrap_int x = x.
Proof.
  unfold wrap_int, INT_MIN, INT_MAX. intros Hx.
  rewrite Z.mod_small; [lia|]. change (2 ^ 32) with 4294967296. lia.
Qed.

Lemma wrap_int64_small (x : Z) : INT64_MIN <= x <= INT64_MAX -> wrap_int64 x = x.
Proof.
  unfold wrap_int64, INT64_MIN, INT64_MAX. intros Hx.
  rewrite Z.mod_small; [lia|]. change (2 ^ 64) with 18446744073709551616. lia.
Qed.

(** The leap years of the source are those of the calendar. *)
Lemma leap_year_gregorian (y : Z) : leap_year y = gregorian_leap y.
Proof.
  unfold leap_year, gregorian_leap.
  destruct (Z.eqb_spec (Z.rem y 4) 0), (Z.eqb_spec (Z.rem y 100) 0),
    (Z.eqb_spec (Z.rem y 400) 0), (Z.eqb_spec (y mod 100) 0),
    (Z.eqb_spec (y mod 400) 0), (Z.eqb_spec (y mod 4) 0);
    cbn; try reflexivity; exfalso; Z.to_euclidean_division_equations; lia.
Qed.

Lemma max_day_in_month_gregorian (year month : Z) :
  1 <= month <= 12 -> max_day_in_month year month = month_length year month.
Proof.
  intros Hm. unfold max_day_in_month, month_length. rewrite leap_year_gregorian.
  assert (Hcases : month = 1 \/ month = 2 \/ month = 3 \/ month = 4 \/ month = 5
                   \/ month = 6 \/ month = 7 \/ month = 8 \/ month = 9
                   \/ month = 10 \/ month = 11 \/ month = 12) by lia.
  destruct Hcases as [->|[->|[->|[->|[->|[->|[->|[->|[->|[->|[->| ->]]]]]]]]]]];
    cbn; try reflexivity; destruct (gregorian_leap year); reflexivity.
Qed.

Lemma fold_left_plus {A} (g : A -> Z) (l : list A) (base : Z) :
  fold_left (fun days x => days + g x) l base
  = base + fold_left (fun days x => days + g x) l 0.
Proof.
  revert base. induction l as [|x l IH]; intros base; cbn [fold_left]; [lia|].
  rewrite (IH (base + g x)), (IH (0 + g x)). lia.
Qed.

(** A sum that stays in the range of [int] is not wrapped around. *)
Lemma fold_left_wrapped {A} (g : A -> Z) (top : Z) (l : list A) :
  (forall x, 0 <= g x <= top) ->
  forall base,
    0 <= base -> base + top * Z.of_nat (length l) <= INT_MAX ->
    fold_left (fun days x => wrap_int (days + g x)) l base
    = fold_left (fun days x => days + g x) l base
    /\ base <= fold_left (fun days x => days + g x) l base
       <= base + top * Z.of_nat (length l).
Proof.
  intros Hg. induction l as [|x l IH]; intros base Hbase Htop; cbn [fold_left length].
  - split; lia.
  - pose proof (Hg x) as Hx. cbn [length] in Htop.
    rewrite Nat2Z.inj_succ, Z.mul_succ_r in *.
    assert (0 <= top * Z.of_nat (length l)) by (apply Z.mul_nonneg_nonneg; lia).
    rewrite wrap_int_small by (unfold INT_MIN, INT_MAX in *; lia).
    destruct (IH (base + g x)) as [Heq Hrange]; [lia|lia|].
    split; [exact Heq|]. lia.
Qed.

Lemma length_years (k : nat) :
  length (map (fun k => 1970 + Z.of_nat k) (seq 0 k)) = k.
Proof. now rewrite length_map, length_seq. Qed.

Lemma fold_years_gregorian (l : list Z) (base : Z) :
  fold_left (fun days yy => days + (if leap_year yy then 366 else 365)) l base
  = fold_left (fun days yy => days + (if gregorian_leap yy then 366 else 365)) l base.
Proof.
  revert base. induction l as [|yy l IH]; intros base; cbn [fold_left]; [reflexivity|].
  now rewrite IH, leap_year_gregorian.
Qed.

Ltac eval_bool_test t :=
  let v := eval vm_compute in t in
  lazymatch v with
  | true => change t with true
  | false => change t with false
  end.

Ltac eval_closed_terms :=
  repeat match goal with
  | |- context [take (Z.to_nat ?k) days_in_month] =>
      let t := constr:(take (Z.to_nat k) days_in_month) in
      let v := eval vm_compute in t in
      progress change t with v
  | |- context [map ?f (seq 0 (Z.to_nat ?k))] =>
      let t := constr:(map f (seq 0 (Z.to_nat k))) in
      let v := eval vm_compute in t in
      progress change t with v
  | |- context [?a <? ?b] => progress eval_bool_test (a <? b)
  | |- context [?a =? ?b] => progress eval_bool_test (a =? b)
  | |- context [?a || ?b] => progress eval_bool_test (a || b)
  end.

Ltac unwrap_ints :=
  repeat match goal with
  | |- context [wrap_int ?x] =>
      lazymatch x with
      | context [wrap_int _] => fail
      | _ => rewrite (wrap_int_small x) by (unfold INT_MIN, INT_MAX; lia)
      end
  end.

(** The day count of the source is that of the calendar, for the years
    whose count an [int] holds. *)
Lemma days_from_1970_days_between (y m d : Z) :
  1970 <= y <= 5000001 -> 1 <= m <= 12 -> 1 <= d <= 31 ->
  days_from_1970 y m d = days_between y m d.
Proof.
  intros Hy Hm Hd. unfold days_from_1970, days_between.
  set (years := map (fun k => 1970 + Z.of_nat k) (seq 0 (Z.to_nat (y - 1970)))).
  destruct (fold_left_wrapped (fun yy => if leap_year yy then 366 else 365) 366 years)
    with (base := 0) as [Hyears Hrange].
  { intros yy. destruct (leap_year yy); lia. }
  { lia. }
  { unfold years. rewrite length_years. unfold INT_MAX. lia. }
  unfold years in Hrange. rewrite length_years in Hrange. fold years in Hrange.
  rewrite Hyears. clear Hyears.
  rewrite fold_years_gregorian in *.
  set (D := fold_left _ years 0) in *.
  rewrite leap_year_gregorian.
  assert (Hcases : m = 1 \/ m = 2 \/ m = 3 \/ m = 4 \/ m = 5 \/ m = 6 \/ m = 7
                   \/ m = 8 \/ m = 9 \/ m = 10 \/ m = 11 \/ m = 12) by lia.
  unfold INT_MAX in *.
  destruct Hcases as [->|[->|[->|[->|[->|[->|[->|[->|[->|[->|[->| ->]]]]]]]]]]];
    eval_closed_terms; cbn [fold_left andb];
    cbv beta iota delta [month_length Z.eqb Pos.eqb orb];
    destruct (gregorian_leap y);
    unwrap_ints; lia.
Qed.

Lemma month_length_range (year month : Z) : 28 <= month_length year month <= 31.
Proof.
  unfold month_length.
  destruct (month =? 2); [destruct (gregorian_leap year); lia|].
  destruct ((month =? 4) || (month =? 6) || (month =? 9) || (month =? 11)); lia.
Qed.

(** The count of the calendar grows by one from a day to the next. *)
Lemma days_between_next_day (year month day : Z) :
  1970 <= year -> 1 <= month <= 12 -> 1 <= day <= month_length year month ->
  let '(year', month', day') := next_day year month day in
  days_between year' month' day' = days_between year month day + 1.
Proof.
  intros Hy Hm Hd. unfold next_day.
  destruct (day <? month_length year month) eqn:Eday.
  - unfold days_between. lia.
  - apply Z.ltb_ge in Eday.
    assert (Hlast : day = month_length year month) by lia. clear Eday Hd.
    destruct (month <? 12) eqn:Emonth.
    + apply Z.ltb_lt in Emonth. unfold days_between.
      replace (Z.to_nat (month + 1 - 1)) with (S (Z.to_nat (month - 1))) by lia.
      rewrite seq_S, map_app, fold_left_app. cbn [map fold_left Nat.add].
      replace (1 + Z.of_nat (Z.to_nat (month - 1))) with month by lia.
      lia.
    + apply Z.ltb_ge in Emonth. assert (month = 12) as -> by lia.
      unfold days_between.
      replace (Z.to_nat (year + 1 - 1970)) with (S (Z.to_nat (year - 1970))) by lia.
      rewrite seq_S, map_app, fold_left_app. cbn [map fold_left Nat.add].
      replace (1970 + Z.of_nat (Z.to_nat (year - 1970))) with year by lia.
      rewrite Hlast.
      rewrite (fold_left_plus (month_length year) _ (fold_left _ _ _)).
      eval_closed_terms. cbn [fold_left].
      cbv beta iota delta [month_length Z.eqb Pos.eqb orb].
      destruct (gregorian_leap year); lia.
Qed.

(** X1.  [days_from_1970] counts the days of the Gregorian calendar, for
    the years whose count an [int] holds: it is 0 on 1970-01-01; it is
    the sum of the lengths of the years from 1970 and of the months of
    the year that have gone by, and of the days of the month before the
    day; so from a date to the day after it, it grows by one.  The
    length that [max_day_in_month] gives is that of the calendar. *)
Theorem days_from_1970_counts_days :
  days_from_1970 1970 1 1 = 0
  /\ (forall year month,
        1 <= month <= 12 -> max_day_in_month year month = month_length year month)
  /\ forall year month day,
       1970 <= year <= 5000000 -> 1 <= month <= 12 ->
       1 <= day <= month_length year month ->
       days_from_1970 year month day = days_between year month day
       /\ let '(year', month', day') := next_day year month day in
          days_from_1970 year' month' day' = days_from_1970 year month day + 1.
Proof.
  split; [reflexivity|]. split; [exact max_day_in_month_gregorian|].
  intros year month day Hy Hm Hd.
  pose proof (month_length_range year month) as Hlen.
  assert (Hhere : days_from_1970 year month day = days_between year month day)
    by (apply days_from_1970_days_between; lia).
  split; [exact Hhere|].
  pose proof (days_between_next_day year month day) as Hnext.
  unfold next_day in *.
  destruct (day <? month_length year month) eqn:Eday;
    [|destruct (month <? 12) eqn:Emonth];
    rewrite Hhere, <- Hnext by lia;
    apply days_from_1970_days_between; lia.
Qed.

Lemma days_from_1970_counts_days_witness :
  days_from_1970 2024 2 29 = days_between 2024 2 29
  /\ days_from_1970 2024 3 1 = days_from_1970 2024 2 29 + 1.
Proof.
  assert (Hy : 1970 <= 2024 <= 5000000) by lia.
  assert (Hm : 1 <= 2 <= 12) by lia.
  assert (Hd : 1 <= 29 <= month_length 2024 2) by (vm_compute; split; discriminate).
  exact (proj2 (proj2 days_from_1970_counts_days) 2024 2 29 Hy Hm Hd).
Defined.
(** ** The number read by [parse_int] *)

Section ParseIntValue.
Context `{FloatOps}.

Lemma deref_input (pre : list ascii) (c : ascii) (rest : list ascii) (s : Parser) :
  input_ s = pre ++ c :: rest -> deref (Z.of_nat (length pre)) s = Ok c s.
Proof.
  intros Hin. unfold deref. rewrite Hin.
  rewrite <- (Z.add_0_r (Z.of_nat (length pre))). change 0 with (Z.of_nat 0).
  rewrite load_at. reflexivity.
Qed.

Lemma digit_code_range (c : ascii) :
  isdigit c = true -> 0 <= code c - code "0" <= 9.
Proof.
  unfold isdigit. intros Hc. apply andb_true_iff in Hc as [Hlow Hhigh].
  apply Z.leb_le in Hlow, Hhigh. change (code "0") with 48. lia.
Qed.

(** Reading a further digit does not make the number smaller. *)
Lemma decimal_fold_grows (ds : list ascii) :
  Forall (fun c => isdigit c = true) ds ->
  forall v, 0 <= v -> v <= fold_left (fun v c => v * 10 + (code c - code "0")) ds v.
Proof.
  induction 1 as [|d ds Hd _ IH]; intros v Hv; cbn [fold_left]; [lia|].
  pose proof (digit_code_range d Hd). etransitivity; [|apply IH]; lia.
Qed.

(** A run of digits whose value an [int64_t] holds is read without
    wrapping around. *)
Lemma decimal_fold_wrapped (ds : list ascii) :
  Forall (fun c => isdigit c = true) ds ->
  forall v,
    0 <= v ->
    fold_left (fun v c => v * 10 + (code c - code "0")) ds v <= INT64_MAX ->
    fold_left (fun v c => wrap_int64 (v * 10 + (code c - code "0"))) ds v
    = fold_left (fun v c => v * 10 + (code c - code "0")) ds v.
Proof.
  induction 1 as [|d ds Hd Hds IH]; intros v Hv Hmax; cbn [fold_left] in *;
    [reflexivity|].
  pose proof (digit_code_range d Hd) as Hrange.
  pose proof (decimal_fold_grows ds Hds (v * 10 + (code d - code "0"))) as Hgrows.
  rewrite wrap_int64_small by (unfold INT64_MIN; lia).
  apply IH; [lia|exact Hmax].
Qed.

Lemma parse_int_loop_value (end' min_digits max_digits : Z) (ds : list ascii) :
  forall (pre rest : list ascii) (v n : Z) (fuel : nat) (s : Parser),
    input_ s = pre ++ ds ++ rest ->
    Forall (fun c => isdigit c = true) ds ->
    Z.of_nat (length pre + length ds) <= end' ->
    n + Z.of_nat (length ds) <= max_digits ->
    (length ds < fuel)%nat ->
    n + Z.of_nat (length ds) = max_digits
    \/ end' = Z.of_nat (length pre + length ds)
    \/ (exists c rest', rest = c :: rest' /\ isdigit c = false) ->
    iter fuel (parse_int_round end' min_digits max_digits)
      (Z.of_nat (length pre), v, n) s
    = Ok (Z.of_nat (length pre + length ds),
          if n + Z.of_nat (length ds) <? min_digits then None
          else Some (fold_left (fun v c => wrap_int64 (v * 10 + (code c - code "0")))
                       ds v)) s.
Proof.
  induction ds as [|d ds IH]; intros pre rest v n fuel s Hin Hds Hend Hmax Hfuel Hstop;
    (destruct fuel as [|fuel]; [cbn in Hfuel; lia|]);
    cbn [iter]; unfold parse_int_round at 1; cbv beta iota delta [bind ret].
  - cbn [length fold_left] in *. rewrite Nat.add_0_r, Z.add_0_r in *.
    assert (Hleave :
              (if n <? min_digits
               then Ok (A := Z * option Z) (Z.of_nat (length pre), None) s
               else Ok (Z.of_nat (length pre), Some v) s)
              = Ok (Z.of_nat (length pre), if n <? min_digits then None else Some v) s)
      by (destruct (n <? min_digits); reflexivity).
    destruct (Z.of_nat (length pre) <? end') eqn:Elt; cbv beta iota;
      [|destruct (n <? min_digits); exact Hleave].
    destruct (n <? max_digits) eqn:Emax; cbv beta iota;
      [|destruct (n <? min_digits); exact Hleave].
    apply Z.ltb_lt in Elt, Emax.
    destruct Hstop as [Hstop|[Hstop|(c & rest' & -> & Hc)]]; [lia|lia|].
    rewrite (deref_input pre c rest' s Hin). cbv beta iota. rewrite Hc.
    cbv beta iota. destruct (n <? min_digits); exact Hleave.
  - cbn [length] in *. inversion Hds as [|d' ds' Hd Hds']; subst d' ds'.
    replace (Z.of_nat (length pre) <? end') with true
      by (symmetry; apply Z.ltb_lt; lia).
    replace (n <? max_digits) with true by (symmetry; apply Z.ltb_lt; lia).
    cbv beta iota. rewrite (deref_input pre d (ds ++ rest) s Hin). cbv beta iota.
    rewrite Hd. cbv beta iota. rewrite (deref_input pre d (ds ++ rest) s Hin).
    cbv beta iota.
    replace (Z.of_nat (length pre) + 1) with (Z.of_nat (length (pre ++ [d])))
      by (rewrite length_app; cbn; lia).
    rewrite (IH (pre ++ [d]) rest _ (n + 1) fuel s).
    + rewrite length_app. cbn [length fold_left].
      replace (length pre + 1 + length ds)%nat with (length pre + S (length ds))%nat
        by lia.
      replace (n + 1 + Z.of_nat (length ds)) with (n + Z.of_nat (S (length ds)))
        by lia.
      reflexivity.
    + rewrite <- app_assoc. exact Hin.
    + exact Hds'.
    + rewrite length_app. cbn. lia.
    + lia.
    + lia.
    + rewrite length_app. cbn [length].
      destruct Hstop as [Hstop|[Hstop|Hstop]]; [left; lia|right; left; lia|auto].
Qed.

(** X2.  [parse_int] on a run of digits [ds] that ends by the bound
    [max_digits], by the end pointer or by a byte that is no digit, and
    whose value an [int64_t] holds: the pointer is moved over the run;
    the number is the decimal value of the run, or there is none when
    the run is shorter than [min_digits].  Where no digit stands, the
    pointer stays and there is no number. *)
Theorem parse_int_reads_decimal (pre ds rest : list ascii) (s : Parser)
    (end' min_digits max_digits : Z) :
  input_ s = pre ++ ds ++ rest ->
  Forall (fun c => isdigit c = true) ds ->
  Z.of_nat (length pre + length ds) <= end' ->
  Z.of_nat (length ds) <= max_digits -> 1 <= max_digits <= INT_MAX ->
  decimal_value ds <= INT64_MAX ->
  Z.of_nat (length ds) = max_digits
  \/ end' = Z.of_nat (length pre + length ds)
  \/ (exists c rest', rest = c :: rest' /\ isdigit c = false) ->
  parse_int (Z.of_nat (length pre)) end' min_digits max_digits s
  = Ok (Z.of_nat (length pre + length ds),
        if (Z.of_nat (length ds) =? 0) || (Z.of_nat (length ds) <? min_digits)
        then None else Some (decimal_value ds)) s.
Proof.
  intros Hin Hds Hend Hmax [Hmax1 _] Hvalue Hstop. unfold parse_int.
  cbv beta iota delta [bind ret].
  destruct ds as [|d ds].
  - cbn [length] in *. rewrite Nat.add_0_r in *. cbn [Z.of_nat Z.eqb orb].
    destruct (end' <=? Z.of_nat (length pre)) eqn:Ele; cbv beta iota; [reflexivity|].
    apply Z.leb_gt in Ele.
    destruct Hstop as [Hstop|[Hstop|(c & rest' & -> & Hc)]].
    + lia.
    + lia.
    + rewrite (deref_input pre c rest' s Hin). cbv beta iota. rewrite Hc. reflexivity.
  - inversion Hds as [|d' ds' Hd Hds']; subst d' ds'. cbn [length] in *.
    replace (end' <=? Z.of_nat (length pre)) with false
      by (symmetry; apply Z.leb_gt; lia).
    cbv beta iota. rewrite (deref_input pre d (ds ++ rest) s Hin). cbv beta iota.
    rewrite Hd. cbn [negb]. cbv beta iota.
    rewrite (parse_int_loop_value end' min_digits max_digits (d :: ds) pre rest 0 0
               (S (Z.to_nat max_digits)) s Hin Hds);
      [|cbn [length]; lia|cbn [length]; lia|cbn [length]; lia
       |cbn [length]; destruct Hstop as [Hstop|[Hstop|Hstop]]; auto; left; lia].
    cbn [length]. rewrite Z.add_0_l.
    replace (Z.of_nat (S (length ds)) =? 0) with false
      by (symmetry; apply Z.eqb_neq; lia).
    rewrite (decimal_fold_wrapped (d :: ds) Hds 0) by (lia || exact Hvalue).
    reflexivity.
Qed.

End ParseIntValue.

Lemma parse_int_reads_decimal_witness :
  parse_int 0 5 2 2 before_time = Ok (2, Some 7) before_time.
Proof.
  assert (Hds : Forall (fun c => isdigit c = true) (list_ascii_of_string "07"))
    by (repeat constructor).
  assert (Hend : Z.of_nat (length (@nil ascii) + length (list_ascii_of_string "07")) <= 5)
    by (cbn; lia).
  assert (Hmax : Z.of_nat (length (list_ascii_of_string "07")) <= 2) by (cbn; lia).
  assert (Hmax1 : 1 <= 2 <= INT_MAX) by (unfold INT_MAX; lia).
  assert (Hvalue : decimal_value (list_ascii_of_string "07") <= INT64_MAX)
    by (vm_compute; discriminate).
  exact (@parse_int_reads_decimal text_floats [] (list_ascii_of_string "07")
           (list_ascii_of_string ":32") before_time 5 2 2
           eq_refl Hds Hend Hmax Hmax1 Hvalue (or_introl eq_refl)).
Defined.

(** ** Dotted keys and table headers over existing entries *)

Section ExistingEntries.
Context `{FloatOps}.

Lemma table_path_app (s : Parser) (pre more : list string) :
  forall t, table_path s t (pre ++ more)
            = match table_path s t pre with
              | Some t' => table_path s t' more
              | None => None
              end.
Proof.
  induction pre as [|key pre IH]; intros t; cbn [app table_path]; [reflexivity|].
  destruct (table_at s t !! key) as [[]|]; auto.
Qed.

(** Along a path of Tables the loop of [set_value_at_path] changes nothing. *)
Lemma set_value_loop_along (pre more : list string) :
  forall (table t : loc) (s : Parser),
    table_path s table pre = Some t ->
    set_value_loop (pre ++ more) table s = set_value_loop more t s.
Proof.
  induction pre as [|key pre IH]; intros table t s Hpath; cbn in Hpath.
  - now injection Hpath as <-.
  - destruct (table_at s table !! key) as [v|] eqn:Hv; [|discriminate].
    cbn [app set_value_loop]. rewrite bind_run, Table_has_run. cbv beta iota.
    rewrite bool_decide_eq_true_2 by (rewrite Hv; eauto).
    rewrite bind_run, (Table_values_run _ _ _ _ Hv). cbv beta iota.
    destruct v; try discriminate. apply IH. exact Hpath.
Qed.

(** Along a path of Tables the loop of [get_or_create_table_at_path]
    changes nothing. *)
Lemma table_at_path_loop_along (path pre more : list string) :
  forall (i : nat) (table t : loc) (s : Parser),
    table_path s table pre = Some t ->
    table_at_path_loop path (pre ++ more) i table s
    = table_at_path_loop path more (i + length pre) t s.
Proof.
  induction pre as [|key pre IH]; intros i table t s Hpath; cbn in Hpath.
  - injection Hpath as <-. cbn [app length]. now rewrite Nat.add_0_r.
  - destruct (table_at s table !! key) as [v|] eqn:Hv; [|discriminate].
    cbn [app table_at_path_loop]. rewrite bind_run, Table_has_run. cbv beta iota.
    rewrite bool_decide_eq_true_2 by (rewrite Hv; eauto).
    rewrite bind_run, (Table_values_run _ _ _ _ Hv). cbv beta iota.
    destruct v; try discriminate. rewrite (IH (S i) _ t s Hpath).
    cbn [length]. f_equal. lia.
Qed.

Lemma take_path_so_far (pre : list string) (key : string) (rest : list string) :
  take (S (0 + length pre)) (pre ++ key :: rest) = pre ++ [key].
Proof.
  cbn [Nat.add]. replace (S (length pre)) with (length (pre ++ [key]))
    by (rewrite length_app; cbn; lia).
  replace (pre ++ key :: rest) with ((pre ++ [key]) ++ rest)
    by (now rewrite <- app_assoc).
  apply take_app_length.
Qed.

(** X3.  A dotted key whose way leads through a key that holds no Table:
    [set_value_at_path] records the error and stores nothing. *)
Theorem dotted_key_through_non_table
    (table t : loc) (pre : list string) (key : string) (rest : list string)
    (x value : TomlValue) (s : Parser) :
  table_path s table pre = Some t ->
  table_at s t !! key = Some x ->
  is_TablePtr x = false ->
  rest <> [] ->
  set_value_at_path table (pre ++ key :: rest) value s
  = Ok tt (errored ("Key '" +:+ key +:+ "' already defined as non-table") s).
Proof.
  intros Hpath Hx Hnot Hrest. unfold set_value_at_path.
  destruct (exists_last Hrest) as (rest' & back & ->).
  replace (pre ++ key :: rest' ++ [back]) with ((pre ++ key :: rest') ++ [back])
    by (now rewrite <- app_assoc).
  rewrite last_snoc, removelast_last, bind_run.
  rewrite (set_value_loop_along pre (key :: rest') table t s Hpath).
  cbn [set_value_loop]. rewrite bind_run, Table_has_run. cbv beta iota.
  rewrite bool_decide_eq_true_2 by (rewrite Hx; eauto).
  rewrite bind_run, (Table_values_run _ _ _ _ Hx). cbv beta iota.
  destruct x; try discriminate Hnot;
    rewrite bind_run, set_error_run; reflexivity.
Qed.

(** X4.  A [[table]] header over what exists already: a path of Tables is
    followed to its Table, also through the last Table of an array of
    tables, and nothing is changed or reported, so that a header which
    names a Table a second time is accepted. *)
Theorem table_header_reopens :
  (forall (path : list string) (t : loc) (s : Parser),
     table_path s (root_table_ s) path = Some t ->
     get_or_create_table_at_path path s = Ok (Some t) s)
  /\ (forall (pre : list string) (key : string) (rest : list string)
             (t a t' t'' : loc) (s : Parser),
        table_path s (root_table_ s) pre = Some t ->
        table_at s t !! key = Some (VArrayPtr a) ->
        pre ++ [key] ∈ array_of_tables_paths_ s ->
        last (array_at s a) = Some (VTablePtr t') ->
        table_path s t' rest = Some t'' ->
        get_or_create_table_at_path (pre ++ key :: rest) s = Ok (Some t'') s).
Proof.
  split.
  - intros path t s Hpath. unfold get_or_create_table_at_path.
    rewrite bind_run, gets_run. cbv beta iota.
    rewrite <- (app_nil_r path) at 2.
    rewrite (table_at_path_loop_along path path [] 0 _ t s Hpath). reflexivity.
  - intros pre key rest t a t' t'' s Hpath Hkey Hknown Hlast Hrest.
    unfold get_or_create_table_at_path. rewrite bind_run, gets_run. cbv beta iota.
    rewrite (table_at_path_loop_along _ pre (key :: rest) 0 _ t s Hpath).
    cbn [table_at_path_loop]. rewrite bind_run, Table_has_run. cbv beta iota.
    rewrite bool_decide_eq_true_2 by (rewrite Hkey; eauto).
    rewrite bind_run, (Table_values_run _ _ _ _ Hkey). cbv beta iota.
    rewrite take_path_so_far.
    rewrite bind_run, in_array_of_tables_paths_run. cbv beta iota.
    rewrite bool_decide_eq_true_2 by exact Hknown. cbn [negb].
    rewrite bind_run, Array_elements_run. cbv beta iota. rewrite Hlast.
    rewrite <- (app_nil_r rest).
    rewrite (table_at_path_loop_along _ rest [] _ t' t'' s Hrest). reflexivity.
Qed.

(** X5.  A [[table]] header whose way leads through a static array, or
    through a value that is neither Table nor Array: the error is
    recorded, no Table is returned and nothing is stored. *)
Theorem table_header_through_value
    (pre : list string) (key : string) (rest : list string) (t : loc)
    (x : TomlValue) (s : Parser) :
  table_path s (root_table_ s) pre = Some t ->
  table_at s t !! key = Some x ->
  (forall a, x = VArrayPtr a -> pre ++ [key] ∉ array_of_tables_paths_ s) ->
  is_TablePtr x = false ->
  get_or_create_table_at_path (pre ++ key :: rest) s
  = Ok None
      (errored (match x with
                | VArrayPtr _ => "Cannot extend static array with table header"
                | _ => "Key '" +:+ key +:+ "' already defined as non-table"
                end) s).
Proof.
  intros Hpath Hkey Hstatic Hnot.
  unfold get_or_create_table_at_path. rewrite bind_run, gets_run. cbv beta iota.
  rewrite (table_at_path_loop_along _ pre (key :: rest) 0 _ t s Hpath).
  cbn [table_at_path_loop]. rewrite bind_run, Table_has_run. cbv beta iota.
  rewrite bool_decide_eq_true_2 by (rewrite Hkey; eauto).
  rewrite bind_run, (Table_values_run _ _ _ _ Hkey). cbv beta iota.
  destruct x; try discriminate Hnot;
    try (rewrite bind_run, set_error_run; reflexivity).
  rewrite take_path_so_far.
  rewrite bind_run, in_array_of_tables_paths_run. cbv beta iota.
  rewrite bool_decide_eq_false_2 by (apply (Hstatic _ eq_refl)). cbn [negb].
  rewrite bind_run, set_error_run. reflexivity.
Qed.

End ExistingEntries.

(** ** Table headers that make new Tables *)

Section NewTables.
Context `{FloatOps}.

(** Where the first key is absent, the loop of
    [get_or_create_table_at_path] makes a Table for every key. *)
Lemma table_at_path_loop_creates (path keys : list string) :
  forall (i : nat) (t : loc) (s : Parser),
    store_ok s -> (t < next_ s)%nat ->
    (forall key, head keys = Some key -> table_at s t !! key = None) ->
    exists t' s1,
      table_at_path_loop path keys i t s = Ok (Some t') s1
      /\ table_path s1 t keys = Some t'
      /\ keeps_tables s s1
      /\ (keys <> [] -> table_at s1 t' = ∅ /\ (next_ s <= t')%nat)
      /\ (t' < next_ s1)%nat
      /\ store_ok s1
      /\ prefix_frame s s1.
Proof.
  induction keys as [|key keys IH]; intros i t s Hok Ht Habsent;
    cbn [table_at_path_loop].
  - exists t, s. split; [reflexivity|]. split; [reflexivity|].
    split; [apply keeps_tables_refl|]. split; [congruence|].
    auto using prefix_frame_refl.
  - rewrite bind_run, Table_has_run. cbv beta iota.
    rewrite bool_decide_eq_false_2
      by (rewrite (Habsent key eq_refl); apply is_Some_None).
    rewrite bind_run, make_shared_Table_run. cbv beta iota.
    rewrite bind_run, Table_set_with. cbv beta iota.
    set (s2 := with_table_set t key (VTablePtr (next_ s)) (with_new_table s)).
    assert (Hnew : table_at s2 (next_ s) = ∅).
    { unfold s2. autorewrite with run. rewrite decide_False by lia.
      now rewrite decide_True by reflexivity. }
    assert (Hkeep : keeps_tables s s2).
    { intros l key' v Hv. unfold s2. autorewrite with run.
      pose proof (table_with_key_allocated _ _ _ _ Hok Hv) as Hl.
      rewrite (decide_False (P := t = next_ s)) by lia.
      destruct (decide (l = t)) as [->|Hne].
      - rewrite lookup_insert_ne; [exact Hv|].
        intros <-. rewrite (Habsent key eq_refl) in Hv. discriminate.
      - rewrite decide_False by lia. exact Hv. }
    assert (Hok2 : store_ok s2).
    { apply store_ok_table_set; [apply store_ok_new_table; exact Hok| |]; cbn; lia. }
    destruct (IH (S i) (next_ s) s2)
      as (t' & s1 & Hrun & Hpath & Hkeep1 & Hempty & Hlt & Hok1 & Hframe).
    { exact Hok2. }
    { cbn. lia. }
    { intros key' _. rewrite Hnew. apply lookup_empty. }
    exists t', s1. split; [exact Hrun|]. split.
    { cbn. rewrite (Hkeep1 t key (VTablePtr (next_ s))); [exact Hpath|].
      unfold s2. autorewrite with run. rewrite decide_True by reflexivity.
      apply lookup_insert_eq. }
    split; [eapply keeps_tables_trans; eassumption|].
    split.
    { intros _. destruct keys as [|key' keys'].
      - cbn in Hrun. injection Hrun as <- <-. split; [exact Hnew|lia].
      - destruct Hempty as [He Hge]; [discriminate|]. split; [exact He|].
        cbn in Hge. lia. }
    split; [exact Hlt|]. split; [exact Hok1|].
    destruct Hframe. split; cbn in *; auto. lia.
Qed.

(** X6.  A [[table]] header whose way leaves the existing Tables at an absent
    key: a new Table is made for that key and for every key after it.
    The last one is returned; it is empty and was not in the store
    before.  No entry of any Table is lost, no Array is touched and
    nothing is reported. *)
Theorem table_header_creates
    (pre : list string) (key : string) (rest : list string) (t : loc) (s : Parser) :
  store_ok s ->
  table_path s (root_table_ s) pre = Some t ->
  table_at s t !! key = None ->
  exists t' s',
    get_or_create_table_at_path (pre ++ key :: rest) s = Ok (Some t') s'
    /\ table_path s' (root_table_ s') (pre ++ key :: rest) = Some t'
    /\ table_at s' t' = ∅
    /\ tables_ s !! t' = None
    /\ keeps_tables s s'
    /\ arrays_ s' = arrays_ s
    /\ array_of_tables_paths_ s' = array_of_tables_paths_ s
    /\ error_message_ s' = error_message_ s
    /\ reported_ s' = reported_ s
    /\ store_ok s'.
Proof.
  intros Hok Hpath Habsent.
  assert (Ht : (t < next_ s)%nat).
  { destruct pre as [|k pre] using rev_ind.
    - cbn in Hpath. injection Hpath as <-. apply Hok.
    - rewrite table_path_app in Hpath.
      destruct (table_path s (root_table_ s) pre) as [t0|]; [|discriminate].
      cbn in Hpath. destruct (table_at s t0 !! k) as [[]|] eqn:Hk; try discriminate.
      injection Hpath as <-.
      exact (table_values_allocated _ Hok _ _ _ Hk). }
  destruct (table_at_path_loop_creates (pre ++ key :: rest) (key :: rest)
              (0 + length pre) t s Hok Ht)
    as (t' & s' & Hrun & Hnew & Hkeep & Hempty & Hlt & Hok' & Hframe).
  { intros key' Hhead. cbn in Hhead. now injection Hhead as <-. }
  destruct Hempty as [Hempty Hge]; [discriminate|].
  exists t', s'. unfold get_or_create_table_at_path.
  rewrite bind_run, gets_run. cbv beta iota.
  rewrite (table_at_path_loop_along _ pre (key :: rest) 0 _ t s Hpath).
  split; [exact Hrun|]. split.
  { rewrite table_path_app, (frame_root _ _ Hframe).
    rewrite (table_path_kept _ _ _ _ _ Hkeep Hpath). exact Hnew. }
  split; [exact Hempty|]. split; [apply (tables_fresh _ Hok); lia|].
  split; [exact Hkeep|]. destruct Hframe. auto 10.
Qed.

End NewTables.

Lemma dotted_key_through_non_table_witness :
  set_value_at_path 0%nat ["products"; "name"]%string (VString "A") with_integer_products
  = Ok tt (errored "Key 'products' already defined as non-table" with_integer_products).
Proof.
  assert (Hrest : ["name"%string] <> []) by discriminate.
  exact (@dotted_key_through_non_table text_floats 0%nat 0%nat [] "products"
           ["name"%string] (VInteger 1) (VString "A") with_integer_products
           eq_refl eq_refl eq_refl Hrest).
Defined.

Lemma table_header_reopens_witness :
  get_or_create_table_at_path ["a"%string] after_array_of_tables_header
  = Ok (Some 2%nat) after_array_of_tables_header
  /\ get_or_create_table_at_path (["a"%string] ++ "b"%string :: [])
       after_array_of_tables_header
     = Ok (Some 4%nat) after_array_of_tables_header.
Proof.
  destruct (@table_header_reopens text_floats) as [Hpath Harray].
  split; [apply Hpath; reflexivity|].
  apply (Harray ["a"%string] "b"%string [] 2%nat 3%nat 4%nat 4%nat
           after_array_of_tables_header); reflexivity.
Defined.

Lemma table_header_through_value_witness :
  get_or_create_table_at_path ["products"; "name"]%string with_integer_products
  = Ok None (errored "Key 'products' already defined as non-table"
               with_integer_products).
Proof.
  apply (@table_header_through_value text_floats [] "products"%string ["name"%string]
           0%nat (VInteger 1) with_integer_products); try reflexivity.
  intros a Ha. discriminate Ha.
Defined.

Lemma table_header_creates_witness :
  exists t' s',
    get_or_create_table_at_path ["a"; "b"]%string (@TomlParser text_floats)
    = Ok (Some t') s'
    /\ table_path s' (root_table_ s') ["a"; "b"]%string = Some t'
    /\ table_at s' t' = ∅.
Proof.
  destruct (@table_header_creates text_floats [] "a"%string ["b"%string] 0%nat
              TomlParser store_ok_TomlParser eq_refl eq_refl)
    as (t' & s' & Hrun & Hpath & Hempty & _).
  exists t', s'. auto.
Defined.

(** ** Literal strings, bare keys and comments *)

Section VerbatimRuns.
Context `{FloatOps}.

(** The loop of [parse_literal_string] copies the bytes before the next
    quote. *)
Lemma literal_string_loop_run (body : list ascii) :
  free_of SQUOTE body = true ->
  forall acc pre rest fuel s0,
    iter (length body + fuel)
      (fun result : string =>
         go <- (not_eof &&& peek_is_not SQUOTE) ;;
         if go then c <- advance ;; ret (inl (push_back result c))
         else ret (inr result))
      acc (at_ pre (body ++ rest) s0)
    = iter fuel
        (fun result : string =>
           go <- (not_eof &&& peek_is_not SQUOTE) ;;
           if go then c <- advance ;; ret (inl (push_back result c))
           else ret (inr result))
        (acc +:+ string_of_list_ascii body) (at_ (pre ++ body) rest s0).
Proof.
  induction body as [|c body IH]; intros Hfree acc pre rest fuel s0.
  - cbn [length Nat.add app string_of_list_ascii].
    rewrite app_nil_r, append_empty_r. reflexivity.
  - cbn [free_of forallb] in Hfree. apply andb_true_iff in Hfree as [Hc Hbody].
    cbn [length Nat.add app iter]. run. rewrite Hc. run.
    rewrite IH by exact Hbody.
    rewrite <- app_assoc, append_push_back. reflexivity.
Qed.

(** X7.  [parse_literal_string] returns the bytes between the quotes as they
    are, line feeds and backslashes included, and stands behind the
    closing quote.  Where the input ends before a closing quote, it
    returns the bytes all the same and records the missing quote. *)
Theorem literal_string_is_verbatim
    (body pre rest : list ascii) (fuel : nat) (s0 : Parser) :
  free_of SQUOTE body = true ->
  (length body < fuel)%nat ->
  parse_literal_string fuel (at_ pre (SQUOTE :: body ++ SQUOTE :: rest) s0)
  = Ok (string_of_list_ascii body) (at_ (pre ++ SQUOTE :: body ++ [SQUOTE]) rest s0)
  /\ parse_literal_string fuel (at_ pre (SQUOTE :: body) s0)
     = Ok (string_of_list_ascii body)
         (errored "Expected ''' but found 'EOF'" (at_ (pre ++ SQUOTE :: body) [] s0)).
Proof.
  intros Hfree Hfuel.
  replace fuel with (length body + S (fuel - length body - 1))%nat by lia.
  unfold parse_literal_string. split.
  - run. rewrite (literal_string_loop_run body Hfree). cbn [iter]. run.
    norm_app. reflexivity.
  - run.
    replace (at_ (pre ++ [SQUOTE]) body s0) with (at_ (pre ++ [SQUOTE]) (body ++ []) s0)
      by (now rewrite app_nil_r).
    rewrite (literal_string_loop_run body Hfree). cbn [iter]. run.
    unfold expect_char. run. norm_app. reflexivity.
Qed.

End VerbatimRuns.

Lemma bare_key_char_starts_bare_key (c : ascii) :
  is_bare_key_char c = true ->
  simd_utils.is_whitespace_no_nl c = false
  /\ (c =? DQUOTE)%char = false /\ (c =? SQUOTE)%char = false.
Proof.
  destruct c as [[] [] [] [] [] [] [] []]; vm_compute; intros Hc;
    first [discriminate Hc | auto].
Qed.

Section BareKeys.
Context `{FloatOps}.

(** The loop of [parse_key] copies a run of bare-key bytes. *)
Lemma bare_key_loop_run (key : list ascii) :
  forallb is_bare_key_char key = true ->
  forall acc pre rest fuel s0,
    iter (length key + fuel)
      (fun key : string =>
         go <- (not_eof &&& (x <- peek ;; ret (is_bare_key_char x))) ;;
         if go then c <- advance ;; ret (inl (push_back key c))
         else ret (inr key))
      acc (at_ pre (key ++ rest) s0)
    = iter fuel
        (fun key : string =>
           go <- (not_eof &&& (x <- peek ;; ret (is_bare_key_char x))) ;;
           if go then c <- advance ;; ret (inl (push_back key c))
           else ret (inr key))
        (acc +:+ string_of_list_ascii key) (at_ (pre ++ key) rest s0).
Proof.
  induction key as [|c key IH]; intros Hbare acc pre rest fuel s0.
  - cbn [length Nat.add app string_of_list_ascii].
    rewrite app_nil_r, append_empty_r. reflexivity.
  - cbn [forallb] in Hbare. apply andb_true_iff in Hbare as [Hc Hkey].
    cbn [length Nat.add app iter]. run. rewrite Hc. run.
    rewrite IH by exact Hkey.
    rewrite <- app_assoc, append_push_back. reflexivity.
Qed.

(** X8.  A bare key is the longest run of letters, digits, [_] and [-] at the
    cursor.  Where no such byte stands (and no quote and no blank),
    [parse_key] records the error, returns the empty key, and moves over
    one byte if there is one. *)
Theorem bare_key_is_longest_run :
  (forall (c : ascii) (key pre rest : list ascii) (fuel : nat) (s0 : Parser),
     forallb is_bare_key_char (c :: key) = true ->
     match rest with
     | [] => True
     | x :: _ => is_bare_key_char x = false
     end ->
     (S (length key) < fuel)%nat ->
     parse_key fuel (at_ pre (c :: key ++ rest) s0)
     = Ok (string_of_list_ascii (c :: key)) (at_ (pre ++ c :: key) rest s0))
  /\ (forall (c : ascii) (pre rest : list ascii) (fuel : nat) (s0 : Parser),
        is_bare_key_char c = false ->
        simd_utils.is_whitespace_no_nl c = false ->
        (c =? DQUOTE)%char = false -> (c =? SQUOTE)%char = false ->
        (0 < fuel)%nat ->
        parse_key fuel (at_ pre (c :: rest) s0)
        = Ok ""%string (errored "Expected key" (at_ (pre ++ [c]) rest s0)))
  /\ (forall (pre : list ascii) (fuel : nat) (s0 : Parser),
        (0 < fuel)%nat ->
        parse_key fuel (at_ pre [] s0)
        = Ok ""%string (errored "Expected key" (at_ pre [] s0))).
Proof.
  split; [|split].
  - intros c key pre rest fuel s0 Hbare Hrest Hfuel.
    pose proof Hbare as Hall. cbn [forallb] in Hbare.
    apply andb_true_iff in Hbare as [Hc Hkey].
    destruct (bare_key_char_starts_bare_key c Hc) as (Hws & Hdq & Hsq).
    unfold parse_key. rewrite bind_run, (skip_whitespace_no_nl_stays _ _ _ _ Hws).
    run. rewrite Hdq, Hsq. run.
    replace fuel with (length (c :: key) + S (fuel - length key - 2))%nat
      by (cbn [length]; lia).
    change (c :: key ++ rest) with ((c :: key) ++ rest).
    rewrite (bare_key_loop_run (c :: key) Hall). cbn [iter].
    destruct rest as [|x rest]; run; [|rewrite Hrest; run]; reflexivity.
  - intros c pre rest fuel s0 Hc Hws Hdq Hsq Hfuel.
    destruct fuel as [|fuel]; [lia|].
    unfold parse_key. rewrite bind_run, (skip_whitespace_no_nl_stays _ _ _ _ Hws).
    run. rewrite Hdq, Hsq. run. cbn [iter]. run. rewrite Hc. run.
    cbn [String.eqb]. run. reflexivity.
  - intros pre fuel s0 Hfuel. destruct fuel as [|fuel]; [lia|].
    unfold parse_key. run. cbn [iter]. run. cbn [String.eqb]. run. reflexivity.
Qed.

(** The loop of [skip_comment] moves over the bytes before the next
    line feed. *)
Lemma skip_comment_loop_run (body : list ascii) :
  free_of LF body = true ->
  forall pre rest fuel s0,
    while (length body + fuel) (not_eof &&& peek_is_not LF) (advance ;; ret tt)
      (at_ pre (body ++ rest) s0)
    = while fuel (not_eof &&& peek_is_not LF) (advance ;; ret tt)
        (at_ (pre ++ body) rest s0).
Proof.
  induction body as [|c body IH]; intros Hfree pre rest fuel s0.
  - cbn [length Nat.add app]. rewrite app_nil_r. reflexivity.
  - cbn [free_of forallb] in Hfree. apply andb_true_iff in Hfree as [Hc Hbody].
    cbn [length Nat.add app while]. run. rewrite Hc. run.
    rewrite IH by exact Hbody. rewrite <- app_assoc. reflexivity.
Qed.

(** X9.  A comment runs from [#] to the end of the line: [skip_comment] moves
    the cursor to the next line feed, which it leaves, or to the end of
    the input.  Where no [#] stands it does nothing. *)
Theorem comment_ends_at_line_feed :
  (forall (body pre rest : list ascii) (fuel : nat) (s0 : Parser),
     free_of LF body = true ->
     match rest with
     | [] => True
     | x :: _ => x = LF
     end ->
     (S (length body) < fuel)%nat ->
     skip_comment fuel (at_ pre ("#"%char :: body ++ rest) s0)
     = Ok tt (at_ (pre ++ "#"%char :: body) rest s0))
  /\ (forall (c : ascii) (pre rest : list ascii) (fuel : nat) (s0 : Parser),
        (c =? "#")%char = false ->
        skip_comment fuel (at_ pre (c :: rest) s0) = Ok tt (at_ pre (c :: rest) s0))
  /\ (forall (pre : list ascii) (fuel : nat) (s0 : Parser),
        skip_comment fuel (at_ pre [] s0) = Ok tt (at_ pre [] s0)).
Proof.
  split; [|split].
  - intros body pre rest fuel s0 Hfree Hrest Hfuel.
    unfold skip_comment. run.
    replace fuel with (length ("#"%char :: body) + S (fuel - length body - 2))%nat
      by (cbn [length]; lia).
    change ("#"%char :: body ++ rest) with (("#"%char :: body) ++ rest).
    rewrite (skip_comment_loop_run ("#"%char :: body)) by exact Hfree.
    cbn [while]. destruct rest as [|x rest]; run; [reflexivity|].
    subst x. run. reflexivity.
  - intros c pre rest fuel s0 Hc. unfold skip_comment. run. rewrite Hc. run.
    reflexivity.
  - intros pre fuel s0. unfold skip_comment. run. reflexivity.
Qed.

End BareKeys.

Lemma literal_string_is_verbatim_witness :
  parse_literal_string 20
    (at_ [] (SQUOTE :: windows_path ++ SQUOTE :: []) (@TomlParser text_floats))
  = Ok (string_of_list_ascii windows_path)
      (at_ ([] ++ SQUOTE :: windows_path ++ [SQUOTE]) [] TomlParser)
  /\ parse_literal_string 20 (at_ [] (SQUOTE :: windows_path) (@TomlParser text_floats))
     = Ok (string_of_list_ascii windows_path)
         (errored "Expected ''' but found 'EOF'"
            (at_ ([] ++ SQUOTE :: windows_path) [] TomlParser)).
Proof.
  assert (Hfuel : (length windows_path < 20)%nat) by (vm_compute; lia).
  exact (@literal_string_is_verbatim text_floats windows_path [] [] 20 TomlParser
           eq_refl Hfuel).
Defined.

Lemma bare_key_is_longest_run_witness :
  parse_key 20 (at_ [] (list_ascii_of_string "server-1 = 2") (@TomlParser text_floats))
  = Ok "server-1"%string
      (at_ (list_ascii_of_string "server-1") (list_ascii_of_string " = 2") TomlParser)
  /\ parse_key 20 (at_ [] (list_ascii_of_string "= 2") (@TomlParser text_floats))
     = Ok ""%string
         (errored "Expected key"
            (at_ (list_ascii_of_string "=") (list_ascii_of_string " 2") TomlParser))
  /\ parse_key 20 (at_ [] [] (@TomlParser text_floats))
     = Ok ""%string (errored "Expected key" (at_ [] [] TomlParser)).
Proof.
  destruct (@bare_key_is_longest_run text_floats) as (Hrun & Hnone & Hend).
  assert (H1 : (S (length (list_ascii_of_string "erver-1")) < 20)%nat)
    by (vm_compute; lia).
  assert (H0 : (0 < 20)%nat) by lia.
  split; [|split].
  - exact (Hrun "s"%char (list_ascii_of_string "erver-1") []
             (list_ascii_of_string " = 2") 20%nat TomlParser eq_refl eq_refl H1).
  - exact (Hnone "="%char [] (list_ascii_of_string " 2") 20%nat TomlParser
             eq_refl eq_refl eq_refl eq_refl H0).
  - exact (Hend [] 20%nat TomlParser H0).
Defined.

Lemma comment_ends_at_line_feed_witness :
  skip_comment 20
    (at_ [] (list_ascii_of_string "# note" ++ [LF; "x"%char]) (@TomlParser text_floats))
  = Ok tt (at_ (list_ascii_of_string "# note") [LF; "x"%char] TomlParser)
  /\ skip_comment 20 (at_ [] (list_ascii_of_string "x = 1") (@TomlParser text_floats))
     = Ok tt (at_ [] (list_ascii_of_string "x = 1") TomlParser).
Proof.
  destruct (@comment_ends_at_line_feed text_floats) as (Hrun & Hnone & _).
  assert (H1 : (S (length (list_ascii_of_string " note")) < 20)%nat)
    by (vm_compute; lia).
  split.
  - exact (Hrun (list_ascii_of_string " note") [] [LF; "x"%char] 20%nat TomlParser
             eq_refl eq_refl H1).
  - exact (Hnone "x"%char [] (list_ascii_of_string " = 1") 20%nat TomlParser eq_refl).
Defined.

(** ** The parser always returns *)

Section LandingRules.
Context `{FloatOps}.

Lemma lands_ret {A} (a : A) s (Q : A -> Parser -> Prop) : Q a s -> lands (ret a) s Q.
Proof. exact (fun H => H). Qed.

Lemma lands_gets {A} (f : Parser -> A) s (Q : A -> Parser -> Prop) :
  Q (f s) s -> lands (gets f) s Q.
Proof. exact (fun H => H). Qed.

Lemma lands_bind {A B} (m : M A) (k : A -> M B) s (Q1 : A -> Parser -> Prop) Q :
  lands m s Q1 -> (forall a s', Q1 a s' -> lands (k a) s' Q) -> lands (bind m k) s Q.
Proof.
  intros H1 H2. unfold lands in H1 |- *. rewrite bind_run.
  destruct (m s) as [a s'| | |]; [exact (H2 a s' H1)|exact H1|exact H1|exact H1].
Qed.

Lemma lands_weaken {A} (m : M A) s (Q Q' : A -> Parser -> Prop) :
  lands m s Q -> (forall a s', Q a s' -> Q' a s') -> lands m s Q'.
Proof. unfold lands. destruct (m s); auto. Qed.

Lemma lands_bind_ret {A B} (a : A) (k : A -> M B) s Q :
  lands (k a) s Q -> lands (bind (ret a) k) s Q.
Proof. exact (fun H => H). Qed.

Lemma lands_bind_gets {A B} (f : Parser -> A) (k : A -> M B) s Q :
  lands (k (f s)) s Q -> lands (bind (gets f) k) s Q.
Proof. exact (fun H => H). Qed.

Lemma lands_bind_modify {B} (f : Parser -> Parser) (k : unit -> M B) s Q :
  lands (k tt) (f s) Q -> lands (bind (modify f) k) s Q.
Proof. exact (fun H => H). Qed.

Lemma lands_bind_assoc {A B C} (m : M A) (k1 : A -> M B) (k2 : B -> M C) s Q :
  lands (bind m (fun a => bind (k1 a) k2)) s Q -> lands (bind (bind m k1) k2) s Q.
Proof. unfold lands, bind. destruct (m s); exact (fun H => H). Qed.

Lemma lands_bind_deref {B} (p : Z) (k : ascii -> M B) s Q :
  0 <= p < Z.of_nat (length (input_ s)) ->
  (forall c, load (input_ s) p = Some c -> lands (k c) s Q) ->
  lands (bind (deref p) k) s Q.
Proof.
  intros Hp Hk. destruct (load_in_range (input_ s) p Hp) as [c Hc].
  unfold lands. rewrite bind_run. unfold deref. rewrite Hc. apply Hk, Hc.
Qed.

Lemma lands_bind_throw {A B} (what : string) (k : A -> M B) s Q :
  what <> ""%string -> lands (bind (throw what) k) s Q.
Proof. exact (fun H => H). Qed.

Lemma moved_refl (s : Parser) : buffer_ok s -> moved s s.
Proof. intros Hb. split; auto. lia. Qed.

Lemma moved_trans (s1 s2 s3 : Parser) : moved s1 s2 -> moved s2 s3 -> moved s1 s3.
Proof. intros [] []. split; try congruence; auto. lia. Qed.

(** A loop whose rounds move the cursor forward ends within a budget
    larger than what is left of the input. *)
Lemma lands_iter {L R} (body : L -> M (L + R)) (I : L -> Parser -> Prop)
    (Q : R -> Parser -> Prop) :
  (forall l s, I l s -> buffer_ok s ->
     lands (body l) s
       (fun x s' =>
          match x with
          | inl l' => I l' s' /\ buffer_ok s' /\ end_ s' = end_ s
                      /\ current_ s < current_ s'
          | inr r => Q r s'
          end)) ->
  forall fuel l s,
    I l s -> buffer_ok s -> end_ s - current_ s < Z.of_nat fuel ->
    lands (iter fuel body l) s Q.
Proof.
  intros Hbody. induction fuel as [|fuel IH]; intros l s HI Hbuf Hfuel.
  - unfold buffer_ok in Hbuf. lia.
  - cbn [iter]. eapply lands_bind; [apply Hbody; assumption|].
    intros [l'|r] s' Hpost; cbv beta iota in *.
    + destruct Hpost as (HI' & Hbuf' & Hend & Hcur). apply IH; auto. lia.
    + exact Hpost.
Qed.

End LandingRules.

(** Facts for [lia] from a test that has been decided. *)
Ltac note_bool E :=
  lazymatch type of E with
  | negb ?b = true =>
      let E' := fresh "E" in
      pose proof (proj1 (negb_true_iff b) E) as E'; note_bool E'
  | negb ?b = false =>
      let E' := fresh "E" in
      pose proof (proj1 (negb_false_iff b) E) as E'; note_bool E'
  | (?a <? ?b) = true => let H := fresh "Hlt" in pose proof (proj1 (Z.ltb_lt a b) E) as H
  | (?a <? ?b) = false => let H := fresh "Hge" in pose proof (proj1 (Z.ltb_ge a b) E) as H
  | (?a <=? ?b) = true => let H := fresh "Hle" in pose proof (proj1 (Z.leb_le a b) E) as H
  | (?a <=? ?b) = false => let H := fresh "Hgt" in pose proof (proj1 (Z.leb_gt a b) E) as H
  | (?a =? ?b) = true => let H := fresh "Heq" in pose proof (proj1 (Z.eqb_eq a b) E) as H
  | (?a =? ?b) = false => let H := fresh "Hne" in pose proof (proj1 (Z.eqb_neq a b) E) as H
  | (?a =? ?b)%string = true =>
      let H := fresh "Hs" in pose proof (proj1 (String.eqb_eq a b) E) as H
  | (?a =? ?b)%string = false =>
      let H := fresh "Hs" in pose proof (proj1 (String.eqb_neq a b) E) as H
  | (?c =? ?x)%char = true =>
      let H := fresh "Hc" in
      pose proof (proj1 (Ascii.eqb_eq c x) E) as H;
      try (is_var c; subst c)
  | _ => idtac
  end.

(** A byte that is known is not the [NUL] of [peek] at the end. *)
Ltac known_peeks :=
  repeat match goal with
  | H : peeked _ ?c |- _ =>
      let v := eval vm_compute in (c =? NUL)%char in
      lazymatch v with
      | false =>
          let Hn := fresh in
          destruct H as [[_ Hn]|H]; [discriminate Hn|]; unfold stands_at in H;
          destruct H as [? ?]
      end
  end.

Ltac case_bool b :=
  first
    [ match goal with
      | H : b = true |- _ => rewrite H
      | H : b = false |- _ => rewrite H
      end
    | let E := fresh "E" in
      destruct b eqn:E; note_bool E; known_peeks;
      try (exfalso; unfold stands_at, peeked in *; lia) ];
  cbv beta iota zeta; cbn [negb andb orb].

Ltac message_given H :=
  lazymatch type of H with
  | (?m <> ""%string) -> _ =>
      try (let Hm := fresh in
           assert (Hm : m <> ""%string)
             by (let X := fresh in intro X; cbn [String.append] in X; discriminate X);
           specialize (H Hm); clear Hm)
  end.

Ltac post_facts H :=
  cbv beta in H;
  lazymatch type of H with
  | _ /\ _ =>
      let H1 := fresh "HP" in
      let H2 := fresh "HP" in
      destruct H as [H1 H2]; post_facts H1; post_facts H2
  | moved _ _ =>
      let Hb := fresh "Hbuf" in
      destruct H as [Hb ? ? ? ? ?]; unfold buffer_ok in Hb
  | buffer_ok _ => unfold buffer_ok in H
  | ?x = _ => try (is_var x; subst x)
  | (_ <> ""%string) -> _ => message_given H
  | _ => idtac
  end.

Create HintDb lands.
#[export] Hint Extern 3 (buffer_ok _) => unfold buffer_ok, stands_at in *; lia : lands.
#[export] Hint Extern 3 (_ < _) => unfold stands_at in *; lia : lands.
#[export] Hint Extern 3 (_ <= _) => unfold stands_at in *; lia : lands.
#[export] Hint Extern 3 (_ <= _ <= _) => unfold stands_at in *; lia : lands.
#[export] Hint Extern 3 (_ <= _ < _) => unfold stands_at in *; lia : lands.
#[export] Hint Extern 3 (stands_at _ _) =>
  unfold stands_at in *; split; [lia|congruence] : lands.
#[export] Hint Extern 3 (peeked _ _) => assumption : lands.

(** Two bytes read at one place are one byte. *)
Ltac byte_clash :=
  match goal with
  | H1 : load ?m ?p = Some ?a, H2 : load ?m ?p = Some ?b |- _ =>
      first
        [ exfalso; clear - H1 H2;
          unfold NUL, BS, TAB, LF, FF, CR, DQUOTE, SQUOTE, BACKSLASH in *; congruence
        | let E := fresh in
          assert (E : a = b) by congruence;
          first [subst a | subst b];
          repeat match goal with
                 | X : context [(?x =? ?x)%char] |- _ => rewrite Ascii.eqb_refl in X
                 end;
          cbn [negb andb orb] in *; first [discriminate | congruence] ]
  end.

Ltac forward :=
  repeat match goal with
  | H : ?P -> _, HP : ?P |- _ =>
      match type of P with Prop => specialize (H HP) end
  | H : stands_at ?s ?c -> _ |- _ =>
      let X := fresh in
      assert (X : stands_at s c)
        by (unfold stands_at in *; split; [lia|first [assumption|congruence]]);
      specialize (H X); clear X
  end.

Ltac peek_cases :=
  repeat match goal with
  | H : peeked _ _ |- _ => unfold peeked, stands_at in H
  | H : stands_at _ _ |- _ => unfold stands_at in H
  | H : _ /\ _ |- _ => destruct H
  | H : (_ /\ _ = NUL) \/ (_ /\ load _ _ = Some _) |- _ => destruct H
  end.

Ltac peek_reason :=
  unfold not; intros; peek_cases; forward; unfold stands_at;
  first [lia | congruence | byte_clash | split; first [lia | congruence]].

(** The end of a method: what it promises about the parser. *)
Ltac landed :=
  cbv beta iota zeta; cbn [fst snd]; forward;
  repeat match goal with
  | |- _ /\ _ => split
  | |- moved _ _ => split
  end;
  first
    [ assumption
    | reflexivity
    | unfold buffer_ok, stands_at in *; lia
    | congruence
    | discriminate
    | solve [intros; forward;
             first [assumption | unfold buffer_ok, stands_at in *; lia | congruence]]
    | solve [peek_reason]
    | idtac ].

Ltac lands_call :=
  eapply lands_bind;
  [ solve [eauto 2 with lands]
  | let HQ := fresh "HQ" in intros ? ? HQ; post_facts HQ; known_peeks;
    cbv beta iota zeta ].

Ltac lands_tail :=
  eapply lands_weaken;
  [ solve [eauto 2 with lands]
  | let HQ := fresh "HQ" in intros ? ? HQ; post_facts HQ; known_peeks; landed ].

Ltac loop_body :=
  let l := fresh "l" in
  let s1 := fresh "s" in
  let HI := fresh "HI" in
  let Hb := fresh "Hb" in
  intros l s1 HI Hb; post_facts HI; unfold buffer_ok in Hb; cbv beta iota zeta.

Ltac side := first [assumption | unfold buffer_ok, stands_at in *; lia].

(** A loop over the input, with the invariant that the cursor has moved
    on from where the loop began. *)
Ltac lands_loop body s :=
  eapply (lands_iter body (fun _ s1 => moved s s1) (fun _ s1 => moved s s1));
  [loop_body|apply moved_refl; side|side|side].

Ltac lands_basic :=
  lazymatch goal with
  | |- lands (bind (bind _ _) _) _ _ => apply lands_bind_assoc
  | |- lands (bind (ret _) _) _ _ => apply lands_bind_ret; cbv beta iota zeta
  | |- lands (bind (gets _) _) _ _ => apply lands_bind_gets; cbv beta iota zeta
  | |- lands (bind (throw _) _) _ _ => apply lands_bind_throw; discriminate
  | |- lands (bind (deref _) _) _ _ =>
      apply lands_bind_deref;
      [unfold stands_at in *; lia|intros ? ?; cbv beta iota zeta]
  | |- lands (bind (if ?b then _ else _) _) _ _ => case_bool b
  | |- lands (bind (match ?x with _ => _ end) _) _ _ => destruct x; cbv beta iota zeta
  | |- lands (bind eof _) _ _ => unfold eof at 1
  | |- lands (bind not_eof _) _ _ => unfold not_eof at 1
  | |- lands (bind (peek_is _) _) _ _ => unfold peek_is at 1
  | |- lands (bind (peek_is_not _) _) _ _ => unfold peek_is_not at 1
  | |- lands (bind (peek_char _) _) _ _ => unfold peek_char at 1
  | |- lands (bind has_error _) _ _ => unfold has_error at 1
  | |- lands (bind (cur_at _) _) _ _ => unfold cur_at at 1
  | |- lands (bind (cur_at_is _ _) _) _ _ => unfold cur_at_is at 1
  | |- lands (bind (cur_digit _) _) _ _ => unfold cur_digit at 1
  | |- lands (bind (digit_at _) _) _ _ => unfold digit_at at 1
  | |- lands (bind (byte_at_is _ _) _) _ _ => unfold byte_at_is at 1
  | |- lands (bind (garbage_at _) _) _ _ => unfold garbage_at at 1
  | |- lands (bind (lexeme _ _) _) _ _ => unfold lexeme at 1
  | |- lands (bind (triple_quote _) _) _ _ => unfold triple_quote at 1
  | |- lands (bind (keyword_at _ _ _) _) _ _ => unfold keyword_at at 1
  | |- lands (bind (Table_has _ _) _) _ _ => unfold Table_has at 1
  | |- lands (bind (in_array_of_tables_paths _) _) _ _ =>
      unfold in_array_of_tables_paths at 1
  | |- lands (bind (Array_elements _) _) _ _ => unfold Array_elements at 1
  | |- lands (bind (iter _ _ _) _) _ _ => fail
  | |- lands (bind _ _) _ _ => lands_call
  | |- lands (if ?b then _ else _) _ _ => case_bool b
  | |- lands (match ?x with _ => _ end) _ _ => destruct x; cbv beta iota zeta
  | |- lands (ret _) _ _ => apply lands_ret; landed
  | |- lands (gets _) _ _ => apply lands_gets; landed
  | |- lands (throw _) _ _ => unfold lands, throw; discriminate
  | |- lands (iter _ _ _) _ _ => fail
  | |- lands _ _ _ => lands_tail
  end.

Ltac lands_step :=
  first
    [ lands_basic
    | lazymatch goal with
      | |- lands (bind (iter _ ?body _) _) ?s _ =>
          eapply lands_bind;
          [ lands_loop body s
          | let HQ := fresh "HQ" in
            intros ? ? HQ; post_facts HQ; cbv beta iota zeta ]
      | |- lands (iter _ ?body _) ?s _ =>
          eapply lands_weaken;
          [ lands_loop body s
          | let HQ := fresh "HQ" in intros ? ? HQ; post_facts HQ; landed ]
      end ].

Ltac lands_auto := repeat lands_step.

(** A loop over the input with an invariant and a result of its own. *)
Ltac lands_loop_with I Q :=
  lazymatch goal with
  | |- lands (bind (iter _ ?body _) _) _ _ =>
      eapply lands_bind;
      [ eapply (lands_iter body I Q); [loop_body| | |]
      | let HQ := fresh "HQ" in
        intros ? ? HQ; post_facts HQ; cbv beta iota zeta ]
  | |- lands (iter _ ?body _) _ _ =>
      eapply lands_weaken;
      [ eapply (lands_iter body I Q); [loop_body| | |]
      | let HQ := fresh "HQ" in intros ? ? HQ; post_facts HQ; cbv beta iota zeta ]
  end.

Section Primitives.
Context `{FloatOps}.

Lemma peek_lands s :
  buffer_ok s -> lands peek s (fun c s' => s' = s /\ peeked s c).
Proof.
  intros Hbuf. unfold buffer_ok in Hbuf. unfold peek, eof.
  apply lands_bind_gets. cbv beta. destruct (end_ s <=? current_ s) eqn:E.
  - apply Z.leb_le in E. apply lands_ret. split; [reflexivity|]. left. auto.
  - apply Z.leb_gt in E. apply lands_bind_gets. cbv beta.
    unfold lands, deref.
    destruct (load_in_range (input_ s) (current_ s)) as [c Hc]; [lia|].
    rewrite Hc. split; [reflexivity|]. right. split; assumption.
Qed.

Lemma advance_lands s :
  buffer_ok s ->
  lands advance s
    (fun c s' => moved s s' /\ peeked s c
                 /\ current_ s' <= current_ s + 1
                 /\ (current_ s < end_ s -> current_ s' = current_ s + 1)).
Proof.
  intros Hbuf. pose proof Hbuf as Hb. unfold buffer_ok in Hb. unfold advance, eof.
  apply lands_bind_gets. cbv beta. destruct (end_ s <=? current_ s) eqn:E.
  - apply Z.leb_le in E. apply lands_ret.
    split; [apply moved_refl; exact Hbuf|]. split; [left; auto|]. lia.
  - apply Z.leb_gt in E. apply lands_bind_gets. cbv beta.
    apply lands_bind_deref; [lia|]. intros c Hc.
    apply lands_bind_modify. apply lands_ret.
    split; [split; cbn; unfold buffer_ok; cbn; auto; lia|].
    split; [right; split; assumption|]. cbn. lia.
Qed.

Lemma set_error_lands message s :
  buffer_ok s ->
  lands (set_error message) s
    (fun _ s' => moved s s' /\ current_ s' = current_ s
                 /\ (message <> ""%string -> error_message_ s' <> ""%string)).
Proof.
  intros Hbuf. unfold lands. rewrite set_error_run. cbn.
  split; [split; cbn; auto; try lia|split; [reflexivity|]].
  - unfold record. destruct (String.eqb_spec (error_message_ s) ""); congruence.
  - unfold record. destruct (String.eqb_spec (error_message_ s) ""); congruence.
Qed.

Lemma scalar_loop_lands (P : ascii -> bool) s :
  buffer_ok s ->
  exists p, simd_utils.scalar_loop P (input_ s) (Z.to_nat (end_ s - current_ s))
              (current_ s) = Some p
            /\ current_ s <= p <= end_ s.
Proof.
  intros Hbuf. unfold buffer_ok in Hbuf.
  destruct (simd_facts.scalar_loop_first_not P (input_ s)
              (Z.to_nat (end_ s - current_ s)) (current_ s))
    as (p & Hp & Hrange & _); [lia|lia|].
  exists p. split; [exact Hp|lia].
Qed.

Lemma skip_whitespace_lands s :
  buffer_ok s -> lands skip_whitespace s (fun _ s' => moved s s').
Proof.
  intros Hbuf. destruct (scalar_loop_lands simd_utils.is_whitespace s Hbuf)
    as (p & Hp & Hrange).
  unfold lands, skip_whitespace, simd_utils.skip_whitespace. rewrite Hp.
  unfold buffer_ok in Hbuf. split; cbn; unfold buffer_ok; cbn; auto; lia.
Qed.

Lemma skip_whitespace_no_nl_lands s :
  buffer_ok s -> lands skip_whitespace_no_nl s (fun _ s' => moved s s').
Proof.
  intros Hbuf. destruct (scalar_loop_lands simd_utils.is_whitespace_no_nl s Hbuf)
    as (p & Hp & Hrange).
  unfold lands, skip_whitespace_no_nl, simd_utils.skip_whitespace_no_nl. rewrite Hp.
  unfold buffer_ok in Hbuf. split; cbn; unfold buffer_ok; cbn; auto; lia.
Qed.

Lemma skip_bytes_lands (k : Z) s :
  buffer_ok s -> 0 <= k -> current_ s + k <= end_ s ->
  lands (skip_bytes k) s (fun _ s' => moved s s' /\ current_ s' = current_ s + k).
Proof.
  intros Hbuf Hk Hend. unfold buffer_ok in Hbuf. unfold lands, skip_bytes, modify.
  split; [split; cbn; unfold buffer_ok; cbn; auto; lia|reflexivity].
Qed.

End Primitives.

#[export] Hint Resolve peek_lands advance_lands set_error_lands skip_whitespace_lands
  skip_whitespace_no_nl_lands skip_bytes_lands : lands.

Section Utilities.
Context `{FloatOps}.

Lemma expect_char_lands (c : ascii) s :
  buffer_ok s ->
  lands (expect_char c) s
    (fun _ s' => moved s s' /\ current_ s' <= current_ s + 1
                 /\ (stands_at s c -> current_ s' = current_ s + 1)).
Proof.
  intros Hbuf. pose proof Hbuf as Hb. unfold buffer_ok in Hb.
  unfold expect_char. lands_auto.
Qed.

Lemma comment_loop_lands (fuel : nat) :
  forall s,
    buffer_ok s -> end_ s - current_ s < Z.of_nat fuel ->
    lands (while fuel (not_eof &&& peek_is_not LF) (advance ;; ret tt)) s
      (fun _ s' => moved s s').
Proof.
  induction fuel as [|fuel IH]; intros s Hbuf Hfuel.
  - unfold buffer_ok in Hbuf. lia.
  - pose proof Hbuf as Hb. unfold buffer_ok in Hb. cbn [while]. lands_auto.
Qed.

Local Hint Resolve comment_loop_lands : lands.

Lemma skip_comment_lands (fuel : nat) s :
  buffer_ok s -> end_ s - current_ s < Z.of_nat fuel ->
  lands (skip_comment fuel) s
    (fun _ s' => moved s s' /\ (stands_at s "#" -> current_ s < current_ s')).
Proof.
  intros Hbuf Hfuel. pose proof Hbuf as Hb. unfold buffer_ok in Hb.
  unfold skip_comment. destruct fuel as [|fuel]; [lia|]. cbn [while]. lands_auto.
Qed.

End Utilities.

#[export] Hint Resolve expect_char_lands comment_loop_lands skip_comment_lands : lands.

Section Strings.
Context `{FloatOps}.

(** A loop that counts down ends within a budget larger than its count. *)
Lemma lands_iter_counted {L R} (body : L -> M (L + R)) (I : L -> Parser -> Prop)
    (count : L -> Z) (Q : R -> Parser -> Prop) :
  (forall l s, I l s ->
     lands (body l) s
       (fun x s' =>
          match x with
          | inl l' => I l' s' /\ 0 <= count l' < count l
          | inr r => Q r s'
          end)) ->
  forall fuel l s,
    I l s -> 0 <= count l < Z.of_nat fuel -> lands (iter fuel body l) s Q.
Proof.
  intros Hbody. induction fuel as [|fuel IH]; intros l s HI Hfuel; [lia|].
  cbn [iter]. eapply lands_bind; [apply Hbody; assumption|].
  intros [l'|r] s' Hpost; cbv beta iota in *.
  - destruct Hpost as (HI' & Hcount). apply IH; auto. lia.
  - exact Hpost.
Qed.

Lemma parse_unicode_escape_lands (num_hex_digits : Z) s :
  buffer_ok s -> 0 <= num_hex_digits ->
  lands (parse_unicode_escape num_hex_digits) s (fun _ s' => moved s s').
Proof.
  intros Hbuf Hn. pose proof Hbuf as Hb0. unfold buffer_ok in Hb0.
  unfold parse_unicode_escape.
  eapply lands_bind.
  - eapply (lands_iter_counted _ (fun l s1 => moved s s1 /\ snd l <= num_hex_digits)
              (fun l => num_hex_digits - snd l) (fun _ s1 => moved s s1)).
    + intros [cp i] s1 HI. post_facts HI. cbn [snd] in *.
      unfold unicode_escape_round. lands_auto.
    + split; [apply moved_refl; exact Hbuf|cbn; lia].
    + cbn. lia.
  - intros r s1 HQ. post_facts HQ. destruct r as [[cp i]|]; lands_auto.
Qed.

Local Hint Resolve parse_unicode_escape_lands : lands.

Lemma parse_escape_sequence_lands s :
  buffer_ok s -> lands parse_escape_sequence s (fun _ s' => moved s s').
Proof.
  intros Hbuf. pose proof Hbuf as Hb0. unfold buffer_ok in Hb0.
  unfold parse_escape_sequence. lands_auto.
Qed.

Local Hint Resolve parse_escape_sequence_lands : lands.

Lemma parse_basic_string_lands (fuel : nat) s :
  buffer_ok s -> end_ s - current_ s + 1 < Z.of_nat fuel ->
  lands (parse_basic_string fuel) s
    (fun _ s' => moved s s' /\ (stands_at s DQUOTE -> current_ s < current_ s')).
Proof.
  intros Hbuf Hfuel. pose proof Hbuf as Hb0. unfold buffer_ok in Hb0.
  unfold parse_basic_string, basic_string_round. lands_auto.
Qed.

Lemma parse_literal_string_lands (fuel : nat) s :
  buffer_ok s -> end_ s - current_ s + 1 < Z.of_nat fuel ->
  lands (parse_literal_string fuel) s
    (fun _ s' => moved s s' /\ (stands_at s SQUOTE -> current_ s < current_ s')).
Proof.
  intros Hbuf Hfuel. pose proof Hbuf as Hb0. unfold buffer_ok in Hb0.
  unfold parse_literal_string. lands_auto.
Qed.

Lemma count_quotes_lands (fuel : nat) (q : ascii) s :
  buffer_ok s -> end_ s - current_ s + 1 < Z.of_nat fuel ->
  lands (count_quotes fuel q) s
    (fun _ s' => moved s s' /\ (stands_at s q -> current_ s < current_ s')).
Proof.
  intros Hbuf Hfuel. pose proof Hbuf as Hb0. unfold buffer_ok in Hb0.
  unfold count_quotes.
  eapply (lands_iter _ (fun n s1 => moved s s1
                                    /\ (n = 0 -> current_ s1 = current_ s)
                                    /\ (n <> 0 -> current_ s < current_ s1)
                                    /\ 0 <= n)
            (fun _ s1 => moved s s1 /\ (stands_at s q -> current_ s < current_ s1))).
  - loop_body. unfold count_quotes_round. lands_auto.
    intros [Hlt Hload]. destruct (Z.eq_dec l 0) as [Hl|Hl]; [exfalso|auto].
    match goal with HP : l = 0 -> _ |- _ => specialize (HP Hl) end.
    unfold peeked, stands_at in *.
    match goal with
    | Hc : current_ ?s1 = current_ s, Hi : input_ ?s1 = input_ s,
      Hp : _ \/ (_ /\ load (input_ ?s1) (current_ ?s1) = Some ?a) |- _ =>
        rewrite Hc, Hi in Hp; destruct Hp as [[? ?]|[? Hl1]]; [lia|];
        assert (a = q) by congruence; subst a
    end.
    rewrite Ascii.eqb_refl in *. discriminate.
  - split; [apply moved_refl; exact Hbuf|]. repeat split; intros; lia.
  - exact Hbuf.
  - lia.
Qed.

Local Hint Resolve parse_basic_string_lands parse_literal_string_lands
  count_quotes_lands : lands.

Lemma parse_multiline_basic_string_lands (fuel : nat) s :
  buffer_ok s -> end_ s - current_ s + 1 < Z.of_nat fuel ->
  lands (parse_multiline_basic_string fuel) s (fun _ s' => moved s s').
Proof.
  intros Hbuf Hfuel. pose proof Hbuf as Hb0. unfold buffer_ok in Hb0.
  unfold parse_multiline_basic_string, multiline_basic_round. lands_auto.
Qed.

Lemma parse_multiline_literal_string_lands (fuel : nat) s :
  buffer_ok s -> end_ s - current_ s + 1 < Z.of_nat fuel ->
  lands (parse_multiline_literal_string fuel) s (fun _ s' => moved s s').
Proof.
  intros Hbuf Hfuel. pose proof Hbuf as Hb0. unfold buffer_ok in Hb0.
  unfold parse_multiline_literal_string. lands_auto.
Qed.

Local Hint Resolve parse_multiline_basic_string_lands
  parse_multiline_literal_string_lands : lands.

Lemma parse_quoted_lands (fuel : nat) (q : ascii) s :
  buffer_ok s -> end_ s - current_ s + 1 < Z.of_nat fuel ->
  q = DQUOTE \/ q = SQUOTE -> stands_at s q ->
  lands (parse_quoted fuel q) s (fun _ s' => moved s s' /\ current_ s < current_ s').
Proof.
  intros Hbuf Hfuel Hq Hst. pose proof Hbuf as Hb0. unfold buffer_ok in Hb0.
  pose proof Hst as Hst0. unfold stands_at in Hst0.
  unfold parse_quoted. destruct Hq as [-> | ->]; eval_chars; cbv beta iota;
    lands_auto.
Qed.

End Strings.

#[export] Hint Resolve parse_unicode_escape_lands parse_escape_sequence_lands
  parse_basic_string_lands parse_literal_string_lands count_quotes_lands
  parse_multiline_basic_string_lands parse_multiline_literal_string_lands
  parse_quoted_lands : lands.
#[export] Hint Extern 3 (_ = DQUOTE \/ _ = SQUOTE) => (left; reflexivity) : lands.
#[export] Hint Extern 3 (_ = DQUOTE \/ _ = SQUOTE) => (right; reflexivity) : lands.

Section Keys.
Context `{FloatOps}.

Lemma parse_key_lands (fuel : nat) s :
  buffer_ok s -> end_ s - current_ s + 1 < Z.of_nat fuel ->
  lands (parse_key fuel) s
    (fun _ s' => moved s s' /\ (current_ s < end_ s -> current_ s < current_ s')).
Proof.
  intros Hbuf Hfuel. pose proof Hbuf as Hb0. unfold buffer_ok in Hb0.
  unfold parse_key. repeat lands_basic.
  all: match goal with
       | |- lands (bind (iter _ _ _) _) ?s1 _ =>
           lands_loop_with
             (fun (key : string) s2 =>
                moved s1 s2 /\ (key <> ""%string -> current_ s1 < current_ s2))
             (fun (key : string) s2 =>
                moved s1 s2 /\ (key <> ""%string -> current_ s1 < current_ s2))
       end.
  all: lands_auto.
  all: first [ split; [apply moved_refl; side|intros; congruence] | side ].
Qed.

Local Hint Resolve parse_key_lands : lands.

Lemma parse_dotted_key_lands (fuel : nat) s :
  buffer_ok s -> end_ s - current_ s + 1 < Z.of_nat fuel ->
  lands (parse_dotted_key fuel) s
    (fun path s' => moved s s' /\ path <> []
                    /\ (current_ s < end_ s -> current_ s < current_ s')).
Proof.
  intros Hbuf Hfuel. pose proof Hbuf as Hb0. unfold buffer_ok in Hb0.
  unfold parse_dotted_key. repeat lands_basic.
  match goal with
  | |- lands (iter _ _ _) ?s1 _ =>
      lands_loop_with
        (fun (path : list string) s2 => moved s1 s2 /\ path <> [])
        (fun (path : list string) s2 => moved s1 s2 /\ path <> [])
  end.
  all: lands_auto.
  all: first [ split; [apply moved_refl; side|discriminate]
             | side
             | intros Hnil; apply app_eq_nil in Hnil as [_ Hnil]; discriminate Hnil
             | landed ].
Qed.

End Keys.

#[export] Hint Resolve parse_key_lands parse_dotted_key_lands : lands.

Section StoreMethods.
Context `{FloatOps}.

Lemma store_change_lands {A} (m : M A) (f : Parser -> Parser) (a : Parser -> A) s :
  (forall s, m s = Ok (a s) (f s)) ->
  (forall s, input_ (f s) = input_ s) -> (forall s, end_ (f s) = end_ s) ->
  (forall s, current_ (f s) = current_ s) ->
  (forall s, current_table_ (f s) = current_table_ s) ->
  (forall s, error_message_ (f s) = error_message_ s) ->
  buffer_ok s ->
  lands m s (fun _ s' => moved s s' /\ current_ s' = current_ s).
Proof.
  intros Hm Hi He Hc Ht Herr Hbuf. unfold lands. rewrite Hm.
  unfold buffer_ok in *. split; [split; unfold buffer_ok|]; rewrite ?Hi, ?He, ?Hc, ?Ht, ?Herr;
    auto; lia.
Qed.

Lemma make_shared_Table_lands s :
  buffer_ok s ->
  lands make_shared_Table s (fun _ s' => moved s s' /\ current_ s' = current_ s).
Proof.
  apply (store_change_lands make_shared_Table with_new_table next_); reflexivity.
Qed.

Lemma make_shared_Array_lands s :
  buffer_ok s ->
  lands make_shared_Array s (fun _ s' => moved s s' /\ current_ s' = current_ s).
Proof.
  apply (store_change_lands make_shared_Array with_new_array next_); reflexivity.
Qed.

Lemma Table_set_lands t key value s :
  buffer_ok s ->
  lands (Table_set t key value) s (fun _ s' => moved s s' /\ current_ s' = current_ s).
Proof.
  apply (store_change_lands (Table_set t key value) (with_table_set t key value)
           (fun _ => tt)); reflexivity.
Qed.

Lemma Array_append_lands a value s :
  buffer_ok s ->
  lands (Array_append a value) s (fun _ s' => moved s s' /\ current_ s' = current_ s).
Proof.
  apply (store_change_lands (Array_append a value) (with_array_append a value)
           (fun _ => tt)); reflexivity.
Qed.

Lemma note_path_lands (path : list string) s :
  buffer_ok s ->
  lands (modify (fun s => with_paths ({[ path ]} ∪ array_of_tables_paths_ s) s)) s
    (fun _ s' => moved s s' /\ current_ s' = current_ s).
Proof.
  apply (store_change_lands _
           (fun s => with_paths ({[ path ]} ∪ array_of_tables_paths_ s) s)
           (fun _ => tt)); reflexivity.
Qed.

Local Hint Resolve make_shared_Table_lands make_shared_Array_lands Table_set_lands
  Array_append_lands note_path_lands : lands.

Lemma Table_values_lands t key s :
  buffer_ok s ->
  lands (Table_values t key) s (fun _ s' => moved s s' /\ current_ s' = current_ s).
Proof.
  intros Hbuf. pose proof Hbuf as Hb0. unfold buffer_ok in Hb0.
  unfold Table_values. lands_auto.
Qed.

Local Hint Resolve Table_values_lands : lands.

Lemma table_at_path_loop_lands (path keys : list string) :
  forall (i : nat) (t : loc) s,
    buffer_ok s ->
    lands (table_at_path_loop path keys i t) s
      (fun r s' => moved s s' /\ current_ s' = current_ s
                   /\ (r = None -> error_message_ s' <> ""%string)).
Proof.
  induction keys as [|key keys IH]; intros i t s Hbuf;
    pose proof Hbuf as Hb0; unfold buffer_ok in Hb0; cbn [table_at_path_loop];
    lands_auto.
Qed.

Lemma array_prefix_loop_lands (path keys : list string) :
  forall (i : nat) (t : loc) s,
    buffer_ok s ->
    lands (array_prefix_loop path keys i t) s
      (fun r s' => moved s s' /\ current_ s' = current_ s
                   /\ (r = None -> error_message_ s' <> ""%string)).
Proof.
  induction keys as [|key keys IH]; intros i t s Hbuf;
    pose proof Hbuf as Hb0; unfold buffer_ok in Hb0; cbn [array_prefix_loop];
    lands_auto.
Qed.

Lemma set_value_loop_lands (keys : list string) :
  forall (t : loc) s,
    buffer_ok s ->
    lands (set_value_loop keys t) s
      (fun _ s' => moved s s' /\ current_ s' = current_ s).
Proof.
  induction keys as [|key keys IH]; intros t s Hbuf;
    pose proof Hbuf as Hb0; unfold buffer_ok in Hb0; cbn [set_value_loop];
    lands_auto.
Qed.

Local Hint Resolve table_at_path_loop_lands array_prefix_loop_lands
  set_value_loop_lands : lands.

Lemma get_or_create_table_at_path_lands path s :
  buffer_ok s ->
  lands (get_or_create_table_at_path path) s
    (fun r s' => moved s s' /\ current_ s' = current_ s
                 /\ (r = None -> error_message_ s' <> ""%string)).
Proof.
  intros Hbuf. pose proof Hbuf as Hb0. unfold buffer_ok in Hb0.
  unfold get_or_create_table_at_path. lands_auto.
Qed.

Lemma get_or_create_array_append_table_lands path s :
  buffer_ok s ->
  lands (get_or_create_array_append_table path) s
    (fun r s' => moved s s' /\ current_ s' = current_ s
                 /\ (r = None -> error_message_ s' <> ""%string)).
Proof.
  intros Hbuf. pose proof Hbuf as Hb0. unfold buffer_ok in Hb0.
  unfold get_or_create_array_append_table. lands_auto.
Qed.

Lemma set_value_at_path_lands table path value s :
  buffer_ok s ->
  lands (set_value_at_path table path value) s
    (fun _ s' => moved s s' /\ current_ s' = current_ s).
Proof.
  intros Hbuf. pose proof Hbuf as Hb0. unfold buffer_ok in Hb0.
  unfold set_value_at_path. lands_auto.
Qed.

End StoreMethods.

#[export] Hint Resolve make_shared_Table_lands make_shared_Array_lands Table_set_lands
  Array_append_lands Table_values_lands get_or_create_table_at_path_lands
  get_or_create_array_append_table_lands set_value_at_path_lands : lands.

Section DatetimeLanding.
Context `{FloatOps}.

Lemma lands_bind_total {A B} (m : M A) (k : A -> M B) s Q :
  (exists a, m s = Ok a s) -> (forall a, lands (k a) s Q) -> lands (bind m k) s Q.
Proof.
  intros [a Ha] Hk. unfold lands. rewrite bind_run, Ha. apply Hk.
Qed.

Lemma lands_bind_parse_int {B} (ptr end' min_digits max_digits : Z)
    (k : Z * option Z -> M B) s Q :
  0 <= ptr -> end' <= Z.of_nat (length (input_ s)) -> 0 <= max_digits ->
  (forall p' r,
      ptr <= p' <= ptr + max_digits ->
      (forall x, r = Some x -> ptr + min_digits <= p' /\ p' <= end') ->
      lands (k (p', r)) s Q) ->
  lands (bind (parse_int ptr end' min_digits max_digits) k) s Q.
Proof.
  intros H0 Hlen Hmax Hk.
  destruct (parse_int_total ptr end' min_digits max_digits s H0 Hlen Hmax)
    as (p' & r & Hrun & Hp & Hr).
  unfold lands. rewrite bind_run, Hrun. apply Hk; assumption.
Qed.

Lemma lands_bind_skip_digits {B} (p : Z) (k : Z -> M B) s Q :
  0 <= p <= end_ s -> end_ s <= Z.of_nat (length (input_ s)) ->
  (forall q, p <= q <= end_ s -> lands (k q) s Q) ->
  lands (bind (skip_digits p) k) s Q.
Proof.
  intros Hp He Hk. destruct (skip_digits_total p s Hp He) as (q & Hq & Hrange).
  unfold lands. rewrite bind_run, Hq. apply Hk, Hrange.
Qed.

Lemma lands_datetime_value (p : Z) (v : TomlValue) s :
  buffer_ok s -> current_ s <= p <= end_ s ->
  lands (datetime_value p v) s (fun _ s' => moved s s').
Proof.
  intros Hbuf Hp. unfold buffer_ok in Hbuf.
  unfold lands, datetime_value. rewrite bind_run, modify_run. cbv beta iota.
  rewrite ret_run. split; cbn; unfold buffer_ok; cbn; auto; lia.
Qed.

Lemma lands_not_a_datetime (message : option string) s :
  buffer_ok s ->
  lands (not_a_datetime (current_ s) message) s (fun _ s' => moved s s').
Proof.
  intros Hbuf. unfold not_a_datetime. destruct message as [m|].
  - eapply lands_bind; [apply set_error_lands, Hbuf|].
    intros [] s1 (Hm & Hc & _). cbv beta. apply lands_bind_modify, lands_ret.
    destruct Hm. unfold buffer_ok in *. split; cbn; unfold buffer_ok; cbn; auto; lia.
  - apply lands_bind_ret, lands_bind_modify, lands_ret.
    unfold buffer_ok in Hbuf. split; cbn; unfold buffer_ok; cbn; auto; lia.
Qed.

End DatetimeLanding.

Ltac date_step :=
  lazymatch goal with
  | |- lands (bind (bind _ _) _) _ _ => apply lands_bind_assoc
  | |- lands (bind (ret _) _) _ _ => apply lands_bind_ret; cbv beta iota zeta
  | |- lands (bind (gets _) _) _ _ => apply lands_bind_gets; cbv beta iota zeta
  | |- lands (bind (throw _) _) _ _ => apply lands_bind_throw; discriminate
  | |- lands (bind (deref _) _) _ _ =>
      apply lands_bind_deref; [bounds|intros ? _; cbv beta iota zeta]
  | |- lands (bind (parse_int _ _ _ _) _) _ _ =>
      let Hr := fresh "Hr" in
      apply lands_bind_parse_int;
      [bounds|bounds|lia
      |intros ? [?|] ? Hr; [specialize (Hr _ eq_refl)|clear Hr];
       cbv beta iota zeta]
  | |- lands (bind (skip_digits _) _) _ _ =>
      apply lands_bind_skip_digits; [bounds|bounds|intros ? ?; cbv beta iota zeta]
  | |- lands (bind (date_shape_at _) _) _ _ =>
      apply lands_bind_total;
      [apply date_shape_at_total; bounds|intros [|]; cbv beta iota zeta]
  | |- lands (bind (time_shape_at _) _) _ _ =>
      apply lands_bind_total;
      [apply time_shape_at_total; bounds|intros [|]; cbv beta iota zeta]
  | |- lands (bind (byte_at_is _ _) _) _ _ => unfold byte_at_is at 1
  | |- lands (bind (garbage_at _) _) _ _ => unfold garbage_at at 1
  | |- lands (bind (lexeme _ _) _) _ _ => unfold lexeme at 1
  | |- lands (bind (if ?b then _ else _) _) _ _ =>
      destruct b eqn:?; bools; cbv beta iota zeta
  | |- lands (bind (match ?x with _ => _ end) _) _ _ =>
      destruct x; cbv beta iota zeta
  | |- lands (not_a_datetime _ _) _ _ => apply lands_not_a_datetime; assumption
  | |- lands (datetime_value _ _) _ _ =>
      apply lands_datetime_value; [assumption|bounds]
  | |- lands (ret None) _ _ => apply lands_ret, moved_refl; assumption
  | |- lands (datetime_after_date _ _ _ _ _) _ _ => unfold datetime_after_date
  | |- lands (datetime_time_part _ _ _ _ _) _ _ => unfold datetime_time_part
  | |- lands (if ?b then _ else _) _ _ => destruct b eqn:?; bools; cbv beta iota zeta
  | |- lands (match ?x with _ => _ end) _ _ => destruct x; cbv beta iota zeta
  end.

Section DatetimeLands.
Context `{FloatOps}.

Lemma try_parse_datetime_lands s :
  buffer_ok s -> lands try_parse_datetime s (fun _ s' => moved s s').
Proof.
  intros Hbuf. pose proof Hbuf as Hb0. unfold try_parse_datetime.
  repeat date_step.
Qed.

Lemma datetime_attempt_lands s :
  buffer_ok s -> lands datetime_attempt s (fun _ s' => moved s s').
Proof.
  intros Hbuf. unfold datetime_attempt.
  eapply lands_bind; [apply try_parse_datetime_lands, Hbuf|].
  intros r s1 Hm. post_facts Hm. destruct r; cbv beta iota; lands_auto.
Qed.

End DatetimeLands.

#[export] Hint Resolve datetime_attempt_lands : lands.

Section Numbers.
Context `{FloatOps}.

Lemma to_size_t_le (d : Z) : 0 <= d -> to_size_t d <= d.
Proof. intros Hd. unfold to_size_t. apply Z.mod_le; lia. Qed.

Lemma parse_prefixed_integer_lands (fuel : nat) (start : Z) s :
  buffer_ok s -> 0 <= start -> end_ s - current_ s < Z.of_nat fuel ->
  lands (parse_prefixed_integer fuel start) s (fun _ s' => moved s s').
Proof.
  intros Hbuf Hstart Hfuel. pose proof Hbuf as Hb0. unfold buffer_ok in Hb0.
  unfold parse_prefixed_integer, prefixed_digits_round. lands_auto.
Qed.

Local Hint Resolve parse_prefixed_integer_lands : lands.

Lemma parse_number_lands (fuel : nat) (c : ascii) s :
  buffer_ok s -> end_ s - current_ s < Z.of_nat fuel ->
  lands (parse_number fuel c) s (fun _ s' => moved s s').
Proof.
  intros Hbuf Hfuel. pose proof Hbuf as Hb0. unfold buffer_ok in Hb0.
  unfold parse_number. lands_auto.
Qed.

Lemma parse_boolean_lands s :
  buffer_ok s -> lands parse_boolean s (fun _ s' => moved s s').
Proof.
  intros Hbuf. pose proof Hbuf as Hb0. unfold buffer_ok in Hb0.
  unfold parse_boolean. lands_auto.
Qed.

Local Hint Resolve parse_number_lands : lands.

Lemma parse_datetime_or_number_lands (fuel : nat) (c : ascii) s :
  buffer_ok s -> end_ s - current_ s < Z.of_nat fuel ->
  lands (parse_datetime_or_number fuel c) s (fun _ s' => moved s s').
Proof.
  intros Hbuf Hfuel. pose proof Hbuf as Hb0. unfold buffer_ok in Hb0.
  unfold parse_datetime_or_number.
  repeat (lands_auto;
          match goal with
          | Hle : _ <= to_size_t ?d |- _ =>
              lazymatch goal with
              | _ : 0 <= d -> to_size_t d <= d |- _ => fail
              | _ => pose proof (to_size_t_le d)
              end
          end).
Qed.

End Numbers.

#[export] Hint Resolve parse_number_lands parse_boolean_lands
  parse_datetime_or_number_lands : lands.

#[export] Hint Extern 3 (_ + _ < _) => unfold stands_at in *; lia : lands.

Section Containers.
Context `{FloatOps}.

Variable fuel : nat.
Variable value : M TomlValue.
Hypothesis value_lands :
  forall s, buffer_ok s -> end_ s - current_ s + 2 < Z.of_nat fuel ->
            lands value s (fun _ s' => moved s s').

Lemma parse_array_with_lands s :
  buffer_ok s -> stands_at s "[" -> end_ s - current_ s + 1 < Z.of_nat fuel ->
  lands (parse_array_with fuel value) s (fun _ s' => moved s s').
Proof.
  intros Hbuf Hat Hfuel. pose proof Hbuf as Hb0. unfold buffer_ok in Hb0.
  unfold parse_array_with. repeat lands_basic.
  lands_loop_with (fun (_ : unit) s1 => moved s s1 /\ current_ s < current_ s1)
                  (fun (_ : unit) s1 => moved s s1).
  - repeat lands_basic.
    lands_loop_with (fun (_ : unit) s2 => moved s0 s2)
                    (fun (at_end : bool) s2 =>
                       moved s0 s2 /\ (at_end = false -> ~ stands_at s2 "]")).
    + repeat lands_basic.
    + apply moved_refl; side.
    + side.
    + side.
    + destruct a4; [lands_auto|].
      match goal with Hn : false = false -> _ |- _ => specialize (Hn eq_refl) end.
      repeat lands_basic.
      match goal with
      | Hn : ~ stands_at ?a _ |- _ < current_ ?b =>
          destruct (Z.eq_dec (current_ a) (current_ b)) as [Heq|Hne];
          [exfalso; apply Hn; unfold stands_at in *; split; [lia|congruence]|lia]
      end.
  - landed.
  - side.
  - side.
  - lands_auto.
Qed.

Lemma parse_inline_table_with_lands s :
  buffer_ok s -> stands_at s "{" -> end_ s - current_ s + 1 < Z.of_nat fuel ->
  lands (parse_inline_table_with fuel value) s (fun _ s' => moved s s').
Proof.
  intros Hbuf Hat Hfuel. pose proof Hbuf as Hb0. unfold buffer_ok in Hb0.
  unfold parse_inline_table_with. repeat lands_basic.
  lands_loop_with (fun (_ : unit) s1 => moved s s1 /\ current_ s < current_ s1)
                  (fun (_ : unit) s1 => moved s s1).
  - lands_auto.
  - landed.
  - side.
  - side.
  - lands_auto.
Qed.

Local Hint Resolve parse_array_with_lands parse_inline_table_with_lands : lands.

Lemma parse_value_with_lands s :
  buffer_ok s -> end_ s - current_ s + 1 < Z.of_nat fuel ->
  lands (parse_value_with fuel value) s (fun _ s' => moved s s').
Proof.
  intros Hbuf Hfuel. pose proof Hbuf as Hb0. unfold buffer_ok in Hb0.
  unfold parse_value_with. lands_auto.
Qed.

End Containers.

Section Value.
Context `{FloatOps}.

Lemma parse_value_lands (fuel : nat) :
  forall s,
    buffer_ok s -> end_ s - current_ s + 2 < Z.of_nat fuel ->
    lands (parse_value fuel) s (fun _ s' => moved s s').
Proof.
  induction fuel as [|fuel IH]; intros s Hbuf Hfuel.
  - unfold buffer_ok in Hbuf. lia.
  - cbn [parse_value]. apply parse_value_with_lands; [exact IH|exact Hbuf|lia].
Qed.

End Value.

#[export] Hint Resolve parse_value_lands : lands.

Section Document.
Context `{FloatOps}.

Lemma parse_key_value_pair_lands (fuel : nat) (table : loc) s :
  buffer_ok s -> current_ s < end_ s -> end_ s - current_ s + 1 < Z.of_nat fuel ->
  lands (parse_key_value_pair fuel table) s
    (fun _ s' => moved s s' /\ current_ s < current_ s').
Proof.
  intros Hbuf Hcur Hfuel. pose proof Hbuf as Hb0. unfold buffer_ok in Hb0.
  unfold parse_key_value_pair. lands_auto.
Qed.

Lemma set_current_table_lands (t : option loc) s :
  buffer_ok s ->
  lands (modify (with_current_table t)) s
    (fun _ s' => buffer_ok s' /\ input_ s' = input_ s /\ end_ s' = end_ s
                 /\ current_ s' = current_ s
                 /\ error_message_ s' = error_message_ s
                 /\ current_table_ s' = t).
Proof. intros Hbuf. unfold lands, modify. cbn. auto 10. Qed.

Local Hint Resolve parse_key_value_pair_lands set_current_table_lands : lands.

(** What [parse_document] keeps of the parser it starts from. *)
Lemma parse_document_lands (fuel : nat) s :
  buffer_ok s -> current_table_ s <> None ->
  end_ s - current_ s + 1 < Z.of_nat fuel ->
  lands (parse_document fuel) s
    (fun _ s' =>
       buffer_ok s' /\ input_ s' = input_ s /\ end_ s' = end_ s
       /\ (error_message_ s <> ""%string -> error_message_ s' <> ""%string)
       /\ (end_ s' <= current_ s' \/ error_message_ s' <> ""%string)).
Proof.
  intros Hbuf Htable Hfuel. pose proof Hbuf as Hb0. unfold buffer_ok in Hb0.
  unfold parse_document. repeat lands_basic.
  lands_loop_with
    (fun (_ : unit) s1 =>
       buffer_ok s1 /\ input_ s1 = input_ s /\ end_ s1 = end_ s
       /\ current_ s <= current_ s1 /\ current_table_ s1 <> None
       /\ (error_message_ s <> ""%string -> error_message_ s1 <> ""%string))
    (fun (_ : unit) s1 =>
       buffer_ok s1 /\ input_ s1 = input_ s /\ end_ s1 = end_ s
       /\ (error_message_ s <> ""%string -> error_message_ s1 <> ""%string)
       /\ (end_ s1 <= current_ s1 \/ error_message_ s1 <> ""%string)).
  - repeat first
      [ lazymatch goal with
        | |- lands (match current_table_ ?s1 with _ => _ end) _ _ =>
            destruct (current_table_ s1) eqn:?; [|exfalso; congruence];
            cbv beta iota
        end
      | lands_step ].
    all: right;
      match goal with Hn : None = None -> _ |- _ => specialize (Hn eq_refl) end;
      congruence.
  - landed.
  - side.
  - side.
  - landed.
Qed.

Lemma list_ascii_of_string_length (x : string) :
  length (list_ascii_of_string x) = String.length x.
Proof. induction x as [|c x IH]; [reflexivity|]. cbn. now rewrite IH. Qed.

(** [try_parse_document] catches what [parse_document] throws. *)
Lemma try_parse_document_returns (fuel : nat) s :
  buffer_ok s -> current_table_ s <> None ->
  end_ s - current_ s + 1 < Z.of_nat fuel ->
  exists completed s',
    try_parse_document fuel s = Ok completed s'
    /\ (completed = false -> error_message_ s' <> ""%string)
    /\ (completed = true ->
        input_ s' = input_ s /\ end_ s' = end_ s
        /\ (current_ s' = end_ s' \/ error_message_ s' <> ""%string)).
Proof.
  intros Hbuf Htable Hfuel.
  pose proof (parse_document_lands fuel s Hbuf Htable Hfuel) as Hdoc.
  unfold lands in Hdoc. unfold try_parse_document.
  destruct (parse_document fuel s) as [[] s'|what s'| |]; try contradiction.
  - destruct Hdoc as (Hb & Hi & He & _ & Hdone). unfold buffer_ok in Hb.
    exists true, s'. split; [reflexivity|]. split; [discriminate|].
    intros _. split; [exact Hi|]. split; [exact He|].
    destruct Hdone as [Hend|Herr]; [left; lia|right; exact Herr].
  - rewrite bind_run, set_error_run. cbv beta iota. rewrite ret_run.
    eexists false, _. split; [reflexivity|]. split; [|discriminate].
    intros _. cbn. unfold record.
    destruct (String.eqb_spec (error_message_ s') ""); congruence.
Qed.

(** The parser that [parse] hands to [parse_document]. *)
Lemma parse_outcome (fuel : nat) (input : string) s :
  (String.length input + 2 <= fuel)%nat ->
  exists r s',
    parse fuel input s = Ok r s'
    /\ (r = None <-> error_message_ s' <> ""%string)
    /\ (r <> None ->
        r = Some (root_table_ s')
        /\ input_ s' = list_ascii_of_string input
        /\ end_ s' = Z.of_nat (String.length input)
        /\ current_ s' = end_ s').
Proof.
  intros Hfuel. unfold parse.
  rewrite bind_run, modify_run. cbv beta iota.
  rewrite bind_run, modify_run. cbv beta iota.
  destruct (control_scan (list_ascii_of_string input)).
  - rewrite bind_run, set_error_run. cbv beta iota. rewrite ret_run.
    eexists None, _. split; [reflexivity|]. split; [|congruence].
    split; [intros _; cbn; discriminate|reflexivity].
  - cbv zeta. rewrite bind_run, modify_run. cbv beta iota.
    rewrite bind_run, make_shared_Table_run. cbv beta iota.
    rewrite bind_run, modify_run. cbv beta iota.
    rewrite bind_run, modify_run. cbv beta iota.
    rewrite bind_run.
    match goal with
    | |- context [try_parse_document fuel ?s1] =>
        destruct (try_parse_document_returns fuel s1)
          as (completed & s' & Hrun & Hfalse & Htrue)
    end.
    + unfold buffer_ok. cbn. lia.
    + cbn. discriminate.
    + cbn. rewrite list_ascii_of_string_length. lia.
    + rewrite Hrun. cbv beta iota. destruct completed; cbn [negb].
      * destruct (Htrue eq_refl) as (Hi & He & Hdone). cbn in Hi, He.
        unfold has_error. rewrite bind_run, gets_run. cbv beta iota.
        destruct (String.eqb_spec (error_message_ s') "") as [Hnone|Hsome];
          cbn [negb].
        -- rewrite bind_run, gets_run. cbv beta iota. rewrite ret_run.
           eexists _, s'. split; [reflexivity|]. split.
           ++ split; [discriminate|]. intros Herr. contradiction.
           ++ intros _. destruct Hdone as [Hend|Herr]; [|contradiction].
              rewrite list_ascii_of_string_length in He. auto.
        -- rewrite ret_run. exists None, s'. split; [reflexivity|].
           split; [|congruence]. split; auto.
      * rewrite ret_run. exists None, s'. split; [reflexivity|].
        split; [|congruence]. split; auto.
Qed.

End Document.

(** ** The parser as a whole *)

Section WholeParser.
Context `{FloatOps}.

(** X10.  No exception leaves [parse], and no method it calls reads
    a byte outside the buffer or follows a null pointer to a Table:
    whatever is thrown inside, by [expect_char], by the parsers of
    strings and numbers or by the conversions of the library, is caught
    and left as the recorded error. *)
Theorem parse_lets_no_exception_out (fuel : nat) (input : string) (s : Parser) :
  (String.length input + 2 <= fuel)%nat ->
  parse fuel input s <> Fault
  /\ forall what s', parse fuel input s <> Throw what s'.
Proof.
  intros Hfuel. destruct (parse_outcome fuel input s Hfuel) as (r & s' & Hrun & _).
  rewrite Hrun. split; [discriminate|]. intros what s1. discriminate.
Qed.

(** X11.  [parse] returns [nullptr] exactly when [get_error()] is not
    empty afterwards: a failure always comes with a message, and a table
    is returned only when no error has been recorded. *)
Theorem parse_null_iff_error (fuel : nat) (input : string) (s : Parser)
    (r : option loc) (s' : Parser) :
  (String.length input + 2 <= fuel)%nat ->
  parse fuel input s = Ok r s' ->
  r = None <-> get_error s' <> ""%string.
Proof.
  intros Hfuel Hrun.
  destruct (parse_outcome fuel input s Hfuel) as (r1 & s1 & Hrun1 & Hiff & _).
  rewrite Hrun in Hrun1. injection Hrun1 as <- <-. exact Hiff.
Qed.

(** X12.  When [parse] returns a table it has read the whole input: the
    cursor stands at the end of the buffer, which holds the input, and
    the table is the root table. *)
Theorem parse_success_reads_all (fuel : nat) (input : string) (s : Parser)
    (t : loc) (s' : Parser) :
  (String.length input + 2 <= fuel)%nat ->
  parse fuel input s = Ok (Some t) s' ->
  t = root_table_ s'
  /\ input_ s' = list_ascii_of_string input
  /\ end_ s' = Z.of_nat (String.length input)
  /\ current_ s' = end_ s'.
Proof.
  intros Hfuel Hrun.
  destruct (parse_outcome fuel input s Hfuel) as (r1 & s1 & Hrun1 & _ & Hall).
  rewrite Hrun in Hrun1. injection Hrun1 as <- <-.
  destruct Hall as (Hroot & Hrest); [discriminate|].
  split; [congruence|exact Hrest].
Qed.

(** X13.  Whenever [parse_value], started with its cursor inside the
    buffer, returns a value, the cursor is still inside the buffer and
    has not moved back, the input and the current table are the ones it
    started with, and an error recorded before is still recorded.  An
    exception that it leaves by has a message, and it reads no byte
    outside the buffer. *)
Theorem parse_value_stays_in_buffer (fuel : nat) (s : Parser) :
  buffer_ok s -> end_ s - current_ s + 2 < Z.of_nat fuel ->
  (forall v s', parse_value fuel s = Ok v s' -> moved s s')
  /\ (forall what s', parse_value fuel s = Throw what s' -> what <> ""%string)
  /\ parse_value fuel s <> Fault.
Proof.
  intros Hbuf Hfuel. pose proof (parse_value_lands fuel s Hbuf Hfuel) as Hlands.
  unfold lands in Hlands.
  destruct (parse_value fuel s) as [v s'|what s'| |]; try contradiction.
  - split; [intros ? ? [= <- <-]; exact Hlands|]. split; [discriminate|discriminate].
  - split; [discriminate|]. split; [intros ? ? [= <- <-]; exact Hlands|discriminate].
Qed.

(** X14.  [parse_dotted_key] never returns an empty path, so the tests
    for an empty path in its callers never fire; and when bytes are left
    it consumes at least one of them, so the loops of its callers come
    to an end. *)
Theorem parse_dotted_key_is_not_empty (fuel : nat) (s : Parser) :
  buffer_ok s -> end_ s - current_ s + 1 < Z.of_nat fuel ->
  lands (parse_dotted_key fuel) s
    (fun path s' =>
       moved s s' /\ path <> [] /\ (current_ s < end_ s -> current_ s < current_ s')).
Proof. apply parse_dotted_key_lands. Qed.

End WholeParser.

Lemma parse_lets_no_exception_out_witness :
  parse 7 "a = ?" (@TomlParser text_floats) <> Fault
  /\ forall what s', parse 7 "a = ?" (@TomlParser text_floats) <> Throw what s'.
Proof.
  apply (@parse_lets_no_exception_out text_floats 7 "a = ?" TomlParser). cbn. lia.
Defined.

Lemma parse_null_iff_error_witness :
  exists r s',
    parse 7 "a = ?" (@TomlParser text_floats) = Ok r s'
    /\ (r = None <-> get_error s' <> ""%string).
Proof.
  eexists _, _. split; [vm_compute; reflexivity|].
  apply (@parse_null_iff_error text_floats 7 "a = ?" TomlParser);
    [cbn; lia|vm_compute; reflexivity].
Defined.

Lemma parse_success_reads_all_witness :
  exists t s',
    parse 7 "a = 1" (@TomlParser text_floats) = Ok (Some t) s'
    /\ t = root_table_ s'
    /\ input_ s' = list_ascii_of_string "a = 1"
    /\ end_ s' = Z.of_nat (String.length "a = 1")
    /\ current_ s' = end_ s'.
Proof.
  eexists _, _. split; [vm_compute; reflexivity|].
  apply (@parse_success_reads_all text_floats 7 "a = 1" TomlParser);
    [cbn; lia|vm_compute; reflexivity].
Defined.

Lemma parse_value_stays_in_buffer_witness :
  (forall v s',
     parse_value 10 (at_ [] (list_ascii_of_string "[1, 2]") (@TomlParser text_floats))
     = Ok v s' ->
     moved (at_ [] (list_ascii_of_string "[1, 2]") TomlParser) s')
  /\ (forall what s',
        parse_value 10 (at_ [] (list_ascii_of_string "[1, 2]") (@TomlParser text_floats))
        = Throw what s' ->
        what <> ""%string)
  /\ parse_value 10 (at_ [] (list_ascii_of_string "[1, 2]") (@TomlParser text_floats))
     <> Fault.
Proof.
  apply (@parse_value_stays_in_buffer text_floats); [apply buffer_ok_at|cbn; lia].
Defined.

Lemma parse_dotted_key_is_not_empty_witness :
  lands (parse_dotted_key 10) (at_ [] (list_ascii_of_string "a.b = 1") (@TomlParser text_floats))
    (fun path s' =>
       moved (at_ [] (list_ascii_of_string "a.b = 1") TomlParser) s' /\ path <> []
       /\ (current_ (at_ [] (list_ascii_of_string "a.b = 1") (@TomlParser text_floats))
           < end_ (at_ [] (list_ascii_of_string "a.b = 1") (@TomlParser text_floats)) ->
           current_ (at_ [] (list_ascii_of_string "a.b = 1") (@TomlParser text_floats))
           < current_ s')).
Proof.
  apply (@parse_dotted_key_is_not_empty text_floats); [apply buffer_ok_at|cbn; lia].
Defined.

(** ** A parser that is used again *)

Section Reuse.
Context `{FloatOps}.

(** The parser that [parse] hands to [try_parse_document]. *)
Lemma parse_run (fuel : nat) (input : string) (s : Parser) :
  let mem := list_ascii_of_string input in
  let s0 := with_paths ∅ (with_reported [] (with_error "" s)) in
  parse fuel input s
  = if control_scan mem then Ok None (errored control_message s0)
    else
      (completed <- try_parse_document fuel ;;
       if negb completed then ret None
       else
         e <- has_error ;;
         if e then ret None
         else r <- gets root_table_ ;; ret (Some r))
        (with_current_table (Some (next_ s))
           (with_root (next_ s)
              (with_new_table (with_buffer mem 0 (Z.of_nat (length mem)) s0)))).
Proof.
  intros mem s0. unfold parse. fold mem.
  destruct (control_scan mem); reflexivity.
Qed.

Lemma entry_state_same (mem : list ascii) (s1 s2 : Parser) :
  tables_ s1 = tables_ s2 -> arrays_ s1 = arrays_ s2 -> next_ s1 = next_ s2 ->
  with_current_table (Some (next_ s1))
    (with_root (next_ s1)
       (with_new_table
          (with_buffer mem 0 (Z.of_nat (length mem))
             (with_paths ∅ (with_reported [] (with_error "" s1))))))
  = with_current_table (Some (next_ s2))
      (with_root (next_ s2)
         (with_new_table
            (with_buffer mem 0 (Z.of_nat (length mem))
               (with_paths ∅ (with_reported [] (with_error "" s2)))))).
Proof.
  destruct s1, s2. simpl. intros -> -> ->. reflexivity.
Qed.

(** X15.  [parse] starts afresh: what it returns, the error it leaves
    and the Tables and Arrays it builds depend on the input and on the
    objects already allocated, not on what an earlier use has left in the
    parser, be it an error message, a buffer and a cursor, a root or a
    current Table, or paths of arrays of tables. *)
Theorem parse_starts_afresh (fuel : nat) (input : string) (s1 s2 : Parser)
    (r : option loc) (s1' : Parser) :
  tables_ s1 = tables_ s2 -> arrays_ s1 = arrays_ s2 -> next_ s1 = next_ s2 ->
  parse fuel input s1 = Ok r s1' ->
  exists s2',
    parse fuel input s2 = Ok r s2'
    /\ get_error s2' = get_error s1'
    /\ tables_ s2' = tables_ s1' /\ arrays_ s2' = arrays_ s1'.
Proof.
  intros Ht Ha Hn. rewrite !parse_run. cbv zeta.
  destruct (control_scan (list_ascii_of_string input)).
  - intros [= <- <-]. eexists. split; [reflexivity|].
    split; [reflexivity|]. split; [exact (eq_sym Ht)|exact (eq_sym Ha)].
  - rewrite (entry_state_same _ s1 s2 Ht Ha Hn).
    intros Hrun. exists s1'. auto.
Qed.

End Reuse.

Lemma parse_starts_afresh_witness :
  exists s2',
    parse 7 "a = 1"
      (with_paths {[ ["a"%string] ]}
         (errored "Expected key" (at_ [] (list_ascii_of_string "= 1") (@TomlParser text_floats))))
    = Ok (Some 1%nat) s2'
    /\ get_error s2' = ""%string.
Proof.
  edestruct (@parse_starts_afresh text_floats 7 "a = 1" TomlParser
              (with_paths {[ ["a"%string] ]}
                 (errored "Expected key"
                    (at_ [] (list_ascii_of_string "= 1") (@TomlParser text_floats))))
              (Some 1%nat))
    as (s2' & Hrun & Herr & _);
    [reflexivity|reflexivity|reflexivity|vm_compute; reflexivity|].
  exists s2'. split; [exact Hrun|]. rewrite Herr. reflexivity.
Defined.

(** ** Decimal integers *)

Section DecimalFacts.

Lemma decimal_char_facts (c : ascii) :
  is_decimal_char c = true ->
  (c =? "+")%char = false /\ (c =? "-")%char = false /\ (c =? ".")%char = false
  /\ (c =? "e")%char = false /\ (c =? "E")%char = false
  /\ (c =? "i")%char = false /\ (c =? "n")%char = false
  /\ is_number_char c = true /\ prefix_base c = None /\ isspace c = false.
Proof.
  destruct c as [[] [] [] [] [] [] [] []]; vm_compute; intros Hc;
    first [discriminate Hc | repeat split].
Qed.

Lemma digit_in_base_10 (c : ascii) :
  isdigit c = true -> digit_in_base 10 c = Some (code c - code "0").
Proof.
  destruct c as [[] [] [] [] [] [] [] []]; vm_compute; intros Hc;
    first [discriminate Hc | reflexivity].
Qed.

Lemma not_digit_in_base_10 (c : ascii) :
  is_number_char c = false -> digit_in_base 10 c = None.
Proof.
  destruct c as [[] [] [] [] [] [] [] []]; vm_compute; intros Hc;
    first [discriminate Hc | reflexivity].
Qed.

Lemma stoll_digits_decimal (ds : list ascii) :
  forallb isdigit ds = true ->
  forall acc seen,
    (seen = true \/ ds <> []) ->
    stoll_digits 10 ds acc seen
    = Some (fold_left (fun v c => v * 10 + (code c - code "0")) ds acc).
Proof.
  induction ds as [|c ds IH]; intros Hds acc seen Hseen.
  - destruct Hseen as [->|Hne]; [reflexivity|contradiction].
  - cbn [forallb] in Hds. apply andb_true_iff in Hds as [Hc Hds].
    cbn [stoll_digits fold_left]. rewrite (digit_in_base_10 c Hc).
    apply IH; [exact Hds|left; reflexivity].
Qed.

Lemma stoll_prefix_10 (s : list ascii) : stoll_prefix 10 s = s.
Proof. destruct s as [|c0 [|x [|h s]]]; reflexivity. Qed.

Lemma skip_spaces_none (c : ascii) (s : list ascii) :
  isspace c = false -> skip_spaces (c :: s) = c :: s.
Proof. intros Hc. cbn [skip_spaces]. rewrite Hc. reflexivity. Qed.

(** [std::stoll] on a signed run of decimal digits. *)
Lemma stoll_decimal (sign ds : list ascii) :
  sign = [] \/ sign = ["+"%char] \/ sign = ["-"%char] ->
  forallb isdigit ds = true -> ds <> [] ->
  INT64_MIN <= signed sign (decimal_value ds) <= INT64_MAX ->
  stoll (string_of_list_ascii (sign ++ ds)) 10
  = Some (signed sign (decimal_value ds)).
Proof.
  intros Hsign Hds Hne Hrange. unfold stoll.
  rewrite list_ascii_of_string_of_list_ascii.
  assert (Hrun : stoll_digits 10 (stoll_prefix 10 ds) 0 false = Some (decimal_value ds)).
  { rewrite stoll_prefix_10. apply stoll_digits_decimal; [exact Hds|right; exact Hne]. }
  assert (Hfits : (INT64_MIN <=? signed sign (decimal_value ds))
                  && (signed sign (decimal_value ds) <=? INT64_MAX) = true).
  { apply andb_true_iff. split; apply Z.leb_le; lia. }
  destruct Hsign as [->|[->| ->]]; cbn [app].
  - destruct ds as [|c ds]; [contradiction|].
    cbn [forallb] in Hds. apply andb_true_iff in Hds as [Hc _].
    assert (Hdec : is_decimal_char c = true)
      by (unfold is_decimal_char; rewrite Hc; reflexivity).
    destruct (decimal_char_facts c Hdec) as (Hplus & Hminus & _ & _ & _ & _ & _ & _ & _ & Hsp).
    rewrite skip_spaces_none by exact Hsp. rewrite Hminus, Hplus, Hrun.
    cbn [signed] in Hfits |- *. rewrite Hfits. reflexivity.
  - rewrite skip_spaces_none by reflexivity.
    change ("+" =? "-")%char with false. change ("+" =? "+")%char with true.
    cbv iota. rewrite Hrun. cbn [signed] in Hfits |- *.
    change ("+" =? "-")%char with false in Hfits |- *. rewrite Hfits. reflexivity.
  - rewrite skip_spaces_none by reflexivity.
    change ("-" =? "-")%char with true. cbv iota. rewrite Hrun.
    cbn [signed] in Hfits |- *.
    change ("-" =? "-")%char with true in Hfits |- *. rewrite Hfits. reflexivity.
Qed.

Lemma decimal_digits_are_digits (body : list ascii) :
  forallb is_decimal_char body = true -> forallb isdigit (decimal_digits body) = true.
Proof.
  induction body as [|c body IH]; intros Hbody; [reflexivity|].
  cbn [forallb] in Hbody. apply andb_true_iff in Hbody as [Hc Hbody].
  unfold decimal_digits. cbn [List.filter]. unfold is_decimal_char in Hc.
  destruct (c =? "_")%char; cbn [negb].
  - apply IH, Hbody.
  - rewrite orb_false_r in Hc. cbn [forallb]. rewrite Hc. apply IH, Hbody.
Qed.

Lemma remove_underscores_signed (sign body : list ascii) :
  sign = [] \/ sign = ["+"%char] \/ sign = ["-"%char] ->
  remove_underscores (string_of_list_ascii (sign ++ body))
  = string_of_list_ascii (sign ++ decimal_digits body).
Proof.
  intros Hsign. unfold remove_underscores.
  rewrite list_ascii_of_string_of_list_ascii.
  destruct Hsign as [->|[->| ->]]; reflexivity.
Qed.

End DecimalFacts.

Section DecimalRuns.
Context `{FloatOps}.

(** Bytes that do not begin with a prefix [0x], [0o] or [0b]. *)
Lemma no_prefix_run (fuel : nat) (start : Z) (l : list ascii) pre s0 :
  match l with
  | _ :: x :: _ => prefix_base x = None
  | _ => True
  end ->
  parse_prefixed_integer fuel start (at_ pre l s0) = Ok None (at_ pre l s0).
Proof.
  intros Hl. unfold parse_prefixed_integer.
  destruct l as [|a [|x l]]; runv; cbn [length]; runv.
  - reflexivity.
  - destruct (a =? "0")%char; runv; reflexivity.
  - destruct (a =? "0")%char; runv; [|reflexivity].
    unfold prefix_base in Hl.
    destruct ((x =? "x")%char || (x =? "X")%char); [discriminate|].
    destruct ((x =? "o")%char || (x =? "O")%char); [discriminate|].
    destruct ((x =? "b")%char || (x =? "B")%char); [discriminate|].
    runv. reflexivity.
Qed.

(** A decimal integer in the number branch of [parse_value]. *)
Lemma decimal_integer_run (fuel : nat) (sign body rest pre : list ascii) s0 :
  sign = [] \/ sign = ["+"%char] \/ sign = ["-"%char] ->
  forallb is_decimal_char body = true ->
  decimal_digits body <> [] ->
  (sign = [] -> leading_zero body = false) ->
  ends_number rest = true ->
  (length body < fuel)%nat ->
  INT64_MIN <= signed sign (decimal_value (decimal_digits body)) <= INT64_MAX ->
  parse_number fuel (hd NUL (sign ++ body)) (at_ pre (sign ++ body ++ rest) s0)
  = Ok (VInteger (signed sign (decimal_value (decimal_digits body))))
      (at_ (pre ++ sign ++ body) rest s0).
Proof.
  intros Hsign Hbody Hdigits Hzero Hrest Hfuel Hrange.
  destruct body as [|b0 body']; [contradiction Hdigits; reflexivity|].
  pose proof Hbody as Hb0. cbn [forallb] in Hb0. apply andb_true_iff in Hb0 as [Hb0 Hbody'].
  destruct (decimal_char_facts b0 Hb0)
    as (Hplus & Hminus & Hdot & He & HE & Hi & Hn & Hnum & Hpre & Hsp).
  unfold parse_number.
  match goal with
  | |- context [iter fuel ?round (false, false)] => set (loop := round)
  end.
  assert (Hloop : forall l pre1 k,
            forallb is_decimal_char l = true -> (length l < k)%nat ->
            iter k loop (false, false) (at_ pre1 (l ++ rest) s0)
            = Ok (Some (false, false)) (at_ (pre1 ++ l) rest s0)).
  { induction l as [|c l IH]; intros pre1 k Hl Hk;
      (destruct k as [|k]; [cbn [length] in Hk; lia|]); cbn [iter app].
    - unfold loop at 1. rewrite app_nil_r.
      destruct rest as [|c rest']; run; [reflexivity|].
      cbn [ends_number] in Hrest. apply andb_true_iff in Hrest as [Hc _].
      apply negb_true_iff in Hc. rewrite Hc. run. reflexivity.
    - cbn [forallb] in Hl. apply andb_true_iff in Hl as [Hc Hl].
      destruct (decimal_char_facts c Hc)
        as (_ & _ & Hcdot & Hce & HcE & _ & _ & Hcnum & _ & _).
      unfold loop at 1. run. rewrite Hcnum. run. rewrite Hcdot, Hce, HcE. run.
      cbn [length] in Hk. rewrite IH by (try assumption; lia).
      f_equal. f_equal. norm_app. reflexivity. }
  clearbody loop.
  assert (Hnp : match b0 :: body' ++ rest with
                | _ :: x :: _ => prefix_base x = None
                | _ => True
                end).
  { destruct body' as [|x body''].
    - destruct rest as [|x rest']; [exact I|].
      cbn [app]. cbn [ends_number] in Hrest.
      apply andb_true_iff in Hrest as [_ Hx]. apply negb_true_iff in Hx.
      destruct (prefix_base x); [discriminate Hx|reflexivity].
    - cbn [app]. cbn [forallb] in Hbody'. apply andb_true_iff in Hbody' as [Hx _].
      apply (decimal_char_facts x Hx). }
  destruct Hsign as [->|Hsigned].
  - cbn [app hd]. rewrite Hplus, Hminus. runv.
    rewrite no_prefix_run by exact Hnp.
    runv. rewrite Hdot. runv.
    match goal with
    | |- match ?m with _ => _ end = _ =>
        assert (Hz : m = Ok false (at_ pre (b0 :: body' ++ rest) s0))
    end.
    { specialize (Hzero eq_refl). cbn [leading_zero] in Hzero.
      destruct (b0 =? "0")%char; runv; [|reflexivity].
      destruct body' as [|d body'']; cbn [app length].
      - destruct rest as [|x rest']; cbn [length]; runv; [reflexivity|].
        cbn [ends_number] in Hrest. apply andb_true_iff in Hrest as [Hx _].
        apply negb_true_iff in Hx. unfold is_number_char in Hx.
        repeat (apply orb_false_iff in Hx as [Hx _]). rewrite Hx. reflexivity.
      - runv. cbn [andb] in Hzero. rewrite Hzero. reflexivity. }
    rewrite Hz. runv.
    change (b0 :: body' ++ rest) with ((b0 :: body') ++ rest).
    rewrite Hloop by assumption. runv.
    rewrite lexeme_behind. runv.
    pose proof (remove_underscores_signed [] (b0 :: body') (or_introl eq_refl)) as Htext.
    pose proof (stoll_decimal [] (decimal_digits (b0 :: body')) (or_introl eq_refl)
                  (decimal_digits_are_digits _ Hbody) Hdigits Hrange) as Hvalue.
    cbn [app] in Htext, Hvalue. rewrite Htext, Hvalue. reflexivity.
  - destruct Hsigned as [->| ->]; cbn [app hd]; runv; rewrite Hi; runv; rewrite Hn; runv;
      rewrite no_prefix_run by exact Hnp; runv;
      change (b0 :: body' ++ rest) with ((b0 :: body') ++ rest);
      rewrite Hloop by assumption; runv;
      rewrite <- app_assoc; cbn [app]; rewrite lexeme_behind; runv.
    + pose proof (remove_underscores_signed ["+"%char] (b0 :: body')
                    (or_intror (or_introl eq_refl))) as Htext.
      pose proof (stoll_decimal ["+"%char] (decimal_digits (b0 :: body'))
                    (or_intror (or_introl eq_refl))
                    (decimal_digits_are_digits _ Hbody) Hdigits Hrange) as Hvalue.
      cbn [app] in Htext, Hvalue. rewrite Htext, Hvalue. reflexivity.
    + pose proof (remove_underscores_signed ["-"%char] (b0 :: body')
                    (or_intror (or_intror eq_refl))) as Htext.
      pose proof (stoll_decimal ["-"%char] (decimal_digits (b0 :: body'))
                    (or_intror (or_intror eq_refl))
                    (decimal_digits_are_digits _ Hbody) Hdigits Hrange) as Hvalue.
      cbn [app] in Htext, Hvalue. rewrite Htext, Hvalue. reflexivity.
Qed.

(** X16.  A decimal integer, with or without a sign, is read to the
    value of its digits: underscores are dropped wherever they stand,
    the cursor ends behind the last byte and no error is recorded,
    provided the value fits 64 bits.  The test for a leading zero is made
    only when there is no sign, so [-0_12] and [+007] are accepted. *)
Theorem decimal_integer_value (fuel : nat) (sign body rest pre : list ascii) s0 :
  sign = [] \/ sign = ["+"%char] \/ sign = ["-"%char] ->
  forallb is_decimal_char body = true ->
  decimal_digits body <> [] ->
  (sign = [] -> leading_zero body = false) ->
  ends_number rest = true ->
  (length body < fuel)%nat ->
  INT64_MIN <= signed sign (decimal_value (decimal_digits body)) <= INT64_MAX ->
  parse_number fuel (hd NUL (sign ++ body)) (at_ pre (sign ++ body ++ rest) s0)
  = Ok (VInteger (signed sign (decimal_value (decimal_digits body))))
      (at_ (pre ++ sign ++ body) rest s0).
Proof. apply decimal_integer_run. Qed.

(** X17.  An unsigned number that begins with a zero followed by a
    digit is rejected: the error [Leading zero not allowed in decimal
    integer] is recorded, the value is the Integer 0 and the cursor stays
    on the zero, whatever follows. *)
Theorem leading_zero_is_rejected (fuel : nat) (d : ascii) (l pre : list ascii) s0 :
  isdigit d = true ->
  parse_number fuel "0" (at_ pre ("0"%char :: d :: l) s0)
  = Ok (VInteger 0)
      (at_ pre ("0"%char :: d :: l)
         (errored "Leading zero not allowed in decimal integer" s0)).
Proof.
  intros Hd.
  assert (Hdec : is_decimal_char d = true)
    by (unfold is_decimal_char; rewrite Hd; reflexivity).
  unfold parse_number. runv.
  rewrite no_prefix_run by (apply (decimal_char_facts d Hdec)).
  runv. cbn [length]. runv. rewrite Hd. runv. reflexivity.
Qed.

End DecimalRuns.

Lemma decimal_integer_value_witness :
  parse_number 5 "-" (at_ [] (list_ascii_of_string "-0_12,") (@TomlParser text_floats))
  = Ok (VInteger (-12)) (at_ (list_ascii_of_string "-0_12") [","%char] TomlParser).
Proof.
  apply (@decimal_integer_value text_floats 5 ["-"%char] (list_ascii_of_string "0_12")
           [","%char] [] TomlParser).
  - right. right. reflexivity.
  - reflexivity.
  - discriminate.
  - discriminate.
  - reflexivity.
  - cbn. lia.
  - vm_compute. split; discriminate.
Defined.

Lemma leading_zero_is_rejected_witness :
  parse_number 5 "0" (at_ [] (list_ascii_of_string "007") (@TomlParser text_floats))
  = Ok (VInteger 0)
      (at_ [] (list_ascii_of_string "007")
         (errored "Leading zero not allowed in decimal integer" TomlParser)).
Proof.
  apply (@leading_zero_is_rejected text_floats 5 "0" ["7"%char] [] TomlParser).
  reflexivity.
Defined.

(** ** White space *)

Lemma scalar_loop_run (P : ascii -> bool) (ws rest : list ascii) :
  forallb P ws = true -> stops P rest = true ->
  forall pre,
    simd_utils.scalar_loop P (pre ++ ws ++ rest) (length ws + length rest)
      (Z.of_nat (length pre))
    = Some (Z.of_nat (length pre + length ws)).
Proof.
  intros Hws Hrest. induction ws as [|c ws IH]; intros pre.
  - cbn [app length Nat.add]. rewrite Nat.add_0_r.
    destruct rest as [|x rest]; [reflexivity|].
    cbn [stops] in Hrest. apply negb_true_iff in Hrest.
    cbn [length]. apply (simd_facts.scalar_loop_stop P _ _ _ x); [|exact Hrest].
    rewrite <- (Z.add_0_r (Z.of_nat (length pre))). change 0 with (Z.of_nat 0).
    rewrite load_at. reflexivity.
  - cbn [forallb] in Hws. apply andb_true_iff in Hws as [Hc Hws].
    cbn [app length Nat.add simd_utils.scalar_loop].
    rewrite <- (Z.add_0_r (Z.of_nat (length pre))) at 1. change 0 with (Z.of_nat 0) at 1.
    rewrite load_at. cbn [lookup list_lookup]. rewrite Hc.
    specialize (IH Hws (pre ++ [c])).
    rewrite <- app_assoc, length_app in IH. cbn [app length] in IH.
    replace (Z.of_nat (length pre) + 1) with (Z.of_nat (length pre + 1)) by lia.
    rewrite IH. f_equal. lia.
Qed.

Section WhiteSpace.
Context `{FloatOps}.

Lemma skip_whitespace_run (ws rest pre : list ascii) s0 :
  forallb simd_utils.is_whitespace ws = true ->
  stops simd_utils.is_whitespace rest = true ->
  skip_whitespace (at_ pre (ws ++ rest) s0) = Ok tt (at_ (pre ++ ws) rest s0).
Proof.
  intros Hws Hrest. unfold skip_whitespace, simd_utils.skip_whitespace.
  rewrite input_at, current_at, end_at, length_app.
  replace (Z.to_nat (Z.of_nat (length pre + (length ws + length rest))
                     - Z.of_nat (length pre)))
    with (length ws + length rest)%nat by lia.
  rewrite (scalar_loop_run _ ws rest Hws Hrest pre).
  rewrite Nat2Z.inj_add, with_current_at. reflexivity.
Qed.

Lemma skip_whitespace_no_nl_run (ws rest pre : list ascii) s0 :
  forallb simd_utils.is_whitespace_no_nl ws = true ->
  stops simd_utils.is_whitespace_no_nl rest = true ->
  skip_whitespace_no_nl (at_ pre (ws ++ rest) s0) = Ok tt (at_ (pre ++ ws) rest s0).
Proof.
  intros Hws Hrest. unfold skip_whitespace_no_nl, simd_utils.skip_whitespace_no_nl.
  rewrite input_at, current_at, end_at, length_app.
  replace (Z.to_nat (Z.of_nat (length pre + (length ws + length rest))
                     - Z.of_nat (length pre)))
    with (length ws + length rest)%nat by lia.
  rewrite (scalar_loop_run _ ws rest Hws Hrest pre).
  rewrite Nat2Z.inj_add, with_current_at. reflexivity.
Qed.

(** X18.  [skip_whitespace] moves the cursor over the spaces, tabs,
    carriage returns and line feeds that stand at it, and stops at the
    first other byte or at the end of the input; [skip_whitespace_no_nl]
    does the same but also stops at a line feed.  Nothing else of the
    parser changes. *)
Theorem skip_whitespace_skips_blanks (ws rest pre : list ascii) (s0 : Parser) :
  (forallb simd_utils.is_whitespace ws = true ->
   stops simd_utils.is_whitespace rest = true ->
   skip_whitespace (at_ pre (ws ++ rest) s0) = Ok tt (at_ (pre ++ ws) rest s0))
  /\ (forallb simd_utils.is_whitespace_no_nl ws = true ->
      stops simd_utils.is_whitespace_no_nl rest = true ->
      skip_whitespace_no_nl (at_ pre (ws ++ rest) s0) = Ok tt (at_ (pre ++ ws) rest s0)).
Proof.
  split; [apply skip_whitespace_run|apply skip_whitespace_no_nl_run].
Qed.

End WhiteSpace.

Lemma skip_whitespace_skips_blanks_witness :
  skip_whitespace (at_ [] (list_ascii_of_string "  a") (@TomlParser text_floats))
  = Ok tt (at_ (list_ascii_of_string "  ") ["a"%char] TomlParser)
  /\ skip_whitespace_no_nl
       (at_ [] (" "%char :: TAB :: LF :: list_ascii_of_string " a") (@TomlParser text_floats))
     = Ok tt (at_ [" "%char; TAB] (LF :: list_ascii_of_string " a") TomlParser).
Proof.
  split.
  - apply (proj1 (@skip_whitespace_skips_blanks text_floats (list_ascii_of_string "  ")
                    ["a"%char] [] TomlParser)); reflexivity.
  - apply (proj2 (@skip_whitespace_skips_blanks text_floats [" "%char; TAB]
                    (LF :: list_ascii_of_string " a") [] TomlParser)); reflexivity.
Defined.

(** ** A document of one key and one integer *)

Lemma bare_key_char_facts (c : ascii) :
  is_bare_key_char c = true ->
  simd_utils.is_whitespace c = false /\ simd_utils.is_whitespace_no_nl c = false
  /\ (c =? DQUOTE)%char = false /\ (c =? SQUOTE)%char = false
  /\ (c =? "#")%char = false /\ (c =? "[")%char = false
  /\ (code c =? 0x0D) = false /\ is_forbidden_control c = false.
Proof.
  destruct c as [[] [] [] [] [] [] [] []]; vm_compute; intros Hc;
    first [discriminate Hc | repeat split].
Qed.

Lemma digit_facts (c : ascii) :
  isdigit c = true ->
  simd_utils.is_whitespace_no_nl c = false /\ is_bare_key_char c = true
  /\ (c =? DQUOTE)%char = false /\ (c =? SQUOTE)%char = false
  /\ (c =? "[")%char = false /\ (c =? "{")%char = false
  /\ (c =? "-")%char = false /\ (c =? ":")%char = false
  /\ (c =? "_")%char = false /\ is_decimal_char c = true.
Proof.
  destruct c as [[] [] [] [] [] [] [] []]; vm_compute; intros Hc;
    first [discriminate Hc | repeat split].
Qed.

Lemma blank_facts (c : ascii) :
  is_blank c = true ->
  simd_utils.is_whitespace_no_nl c = true /\ is_bare_key_char c = false
  /\ (code c =? 0x0D) = false /\ is_forbidden_control c = false.
Proof.
  destruct c as [[] [] [] [] [] [] [] []]; vm_compute; intros Hc;
    first [discriminate Hc | repeat split].
Qed.

(** Bytes that the scan of [parse] lets pass. *)
Lemma control_scan_passes (l : list ascii) :
  forallb (fun c => negb (code c =? 0x0D) && negb (is_forbidden_control c)) l = true ->
  control_scan l = false.
Proof.
  induction l as [|c l IH]; intros Hl; [reflexivity|].
  cbn [forallb] in Hl. apply andb_true_iff in Hl as [Hc Hl].
  apply andb_true_iff in Hc as [Hcr Hctl].
  apply negb_true_iff in Hcr. apply negb_true_iff in Hctl.
  cbn [control_scan]. rewrite Hcr, Hctl. apply IH, Hl.
Qed.

Lemma forallb_impl {A} (P Q : A -> bool) (l : list A) :
  (forall x, P x = true -> Q x = true) -> forallb P l = true -> forallb Q l = true.
Proof.
  intros HPQ. induction l as [|x l IH]; intros Hl; [reflexivity|].
  cbn [forallb] in Hl |- *. apply andb_true_iff in Hl as [Hx Hl].
  rewrite (HPQ x Hx). apply IH, Hl.
Qed.

Lemma forallb_lookup {A} (P : A -> bool) (l : list A) (k : nat) (x : A) :
  forallb P l = true -> l !! k = Some x -> P x = true.
Proof.
  revert k. induction l as [|y l IH]; intros k Hl Hk; [discriminate Hk|].
  cbn [forallb] in Hl. apply andb_true_iff in Hl as [Hy Hl].
  destruct k as [|k]; cbn in Hk.
  - now injection Hk as <-.
  - exact (IH k Hl Hk).
Qed.

Lemma decimal_digits_of_digits (ds : list ascii) :
  forallb isdigit ds = true -> decimal_digits ds = ds.
Proof.
  induction ds as [|c ds IH]; intros Hds; [reflexivity|].
  cbn [forallb] in Hds. apply andb_true_iff in Hds as [Hc Hds].
  unfold decimal_digits. cbn [List.filter].
  destruct (digit_facts c Hc) as (_ & _ & _ & _ & _ & _ & _ & _ & Hu & _).
  rewrite Hu. cbn [negb]. f_equal. apply IH, Hds.
Qed.

Lemma decimal_value_nonneg (ds : list ascii) :
  forallb isdigit ds = true -> 0 <= decimal_value ds.
Proof.
  unfold decimal_value.
  assert (Hgen : forall acc, 0 <= acc ->
            forallb isdigit ds = true ->
            0 <= fold_left (fun v c => v * 10 + (code c - code "0")) ds acc).
  { induction ds as [|c ds IH]; intros acc Hacc Hds; [exact Hacc|].
    cbn [forallb] in Hds. apply andb_true_iff in Hds as [Hc Hds].
    cbn [fold_left]. apply IH; [|exact Hds].
    unfold isdigit in Hc. apply andb_true_iff in Hc as [Hlo _].
    apply Z.leb_le in Hlo. change (code "0") with 48. lia. }
  apply Hgen. lia.
Qed.

Lemma terminator_facts (c : ascii) :
  is_value_terminator c = true ->
  is_number_char c = false /\ bool_decide (is_Some (prefix_base c)) = false
  /\ isdigit c = false /\ (c =? "-")%char = false /\ (c =? ":")%char = false.
Proof.
  destruct c as [[] [] [] [] [] [] [] []]; vm_compute; intros Hc;
    first [discriminate Hc | repeat split].
Qed.

Ltac digits_split H :=
  repeat (apply andb_true_iff in H;
          let Hd := fresh "Hd" in destruct H as [Hd H]).

Ltac char_facts :=
  repeat match goal with
         | Hd : isdigit ?c = true |- _ =>
             lazymatch goal with
             | _ : (c =? "-")%char = false |- _ => fail
             | _ =>
                 let F := fresh in
                 pose proof (digit_facts c Hd) as F;
                 destruct F as (_ & _ & _ & _ & _ & _ & ? & ? & _)
             end
         end.

Ltac use_facts :=
  repeat (runv;
          match goal with
          | Hf : isdigit ?c = _ |- context [isdigit ?c] => rewrite Hf
          | Hf : (?c =? ?x)%char = _ |- context [(?c =? ?x)%char] => rewrite Hf
          | Hf : _ <= to_size_t ?d |- context [?m <=? to_size_t ?d] =>
              replace (m <=? to_size_t d) with true by (symmetry; apply Z.leb_le; lia)
          end);
  runv.

Section OneAssignment.
Context `{FloatOps}.

Variables key b1 b2 ds : list ascii.
Hypothesis key_given : key <> [].
Hypothesis key_bare : forallb is_bare_key_char key = true.
Hypothesis b1_blank : forallb is_blank b1 = true.
Hypothesis b2_blank : forallb is_blank b2 = true.
Hypothesis ds_given : ds <> [].
Hypothesis ds_digits : forallb isdigit ds = true.
Hypothesis ds_plain : leading_zero ds = false.
Hypothesis ds_fits : decimal_value ds <= INT64_MAX.

Lemma bare_key_run (rest pre : list ascii) (fuel : nat) s0 :
  stops is_bare_key_char rest = true ->
  (length key + 1 < fuel)%nat ->
  parse_key fuel (at_ pre (key ++ rest) s0)
  = Ok (string_of_list_ascii key) (at_ (pre ++ key) rest s0).
Proof.
  intros Hrest Hfuel. destruct key as [|c key'] eqn:Ekey; [contradiction|].
  pose proof key_bare as Hall. cbn [forallb] in Hall.
  apply andb_true_iff in Hall as [Hc _].
  destruct (bare_key_char_facts c Hc) as (_ & Hws & Hdq & Hsq & _).
  unfold parse_key. cbn [app].
  rewrite bind_run, (skip_whitespace_no_nl_stays _ _ _ _ Hws).
  run. rewrite Hdq, Hsq. run.
  replace fuel with (length (c :: key') + S (fuel - length key' - 2))%nat
    by (cbn [length] in *; lia).
  change (c :: key' ++ rest) with ((c :: key') ++ rest).
  rewrite (bare_key_loop_run (c :: key') key_bare). cbn [iter].
  destruct rest as [|x rest]; run.
  - reflexivity.
  - cbn [stops] in Hrest. apply negb_true_iff in Hrest. rewrite Hrest. run. reflexivity.
Qed.

Lemma blanks_are_white (b : list ascii) :
  forallb is_blank b = true -> forallb simd_utils.is_whitespace_no_nl b = true.
Proof. apply forallb_impl. intros c Hc. apply (blank_facts c Hc). Qed.

Lemma dotted_key_run (rest pre : list ascii) (fuel : nat) s0 :
  (length key + 1 < fuel)%nat ->
  parse_dotted_key fuel (at_ pre (key ++ b1 ++ "="%char :: rest) s0)
  = Ok [string_of_list_ascii key] (at_ (pre ++ key ++ b1) ("="%char :: rest) s0).
Proof.
  intros Hfuel. unfold parse_dotted_key.
  rewrite bind_run, bare_key_run; [|destruct b1 as [|c b]|exact Hfuel].
  - run. rewrite skip_whitespace_no_nl_run;
      [|apply blanks_are_white, b1_blank|reflexivity].
    run. destruct fuel as [|fuel']; [lia|]. cbn [iter]. run.
    rewrite <- app_assoc. reflexivity.
  - reflexivity.
  - cbn [forallb] in b1_blank. apply andb_true_iff in b1_blank as [Hc _].
    cbn [app stops]. destruct (blank_facts c Hc) as (_ & Hb & _). rewrite Hb. reflexivity.
Qed.

Lemma integer_value_run (rest pre : list ascii) (fuel : nat) s0 :
  ends_value rest = true ->
  (length ds + 1 < fuel)%nat ->
  parse_value fuel (at_ pre (ds ++ rest) s0)
  = Ok (VInteger (decimal_value ds)) (at_ (pre ++ ds) rest s0).
Proof.
  intros Hrest Hfuel. destruct fuel as [|fuel']; [lia|].
  cbn [parse_value]. unfold parse_value_with.
  assert (Hend : ends_number rest = true).
  { destruct rest as [|x rest']; [reflexivity|]. cbn [ends_value] in Hrest.
    cbn [ends_number]. destruct (terminator_facts x Hrest) as (Hn & Hp & _).
    rewrite Hn, Hp. reflexivity. }
  destruct ds as [|d0 ds'] eqn:Eds; [contradiction|].
  pose proof ds_digits as Hall. cbn [forallb] in Hall.
  apply andb_true_iff in Hall as [Hd0 Hds'].
  destruct (digit_facts d0 Hd0) as (Hws & _ & Hdq & Hsq & Hbr & Hcb & Hminus & Hcolon & _ & _).
  cbn [app].
  rewrite bind_run, (skip_whitespace_no_nl_stays _ _ _ _ Hws).
  run. rewrite Hdq, Hsq, Hbr, Hcb, Hd0. run.
  assert (Hnumber : parse_number fuel' d0 (at_ pre (d0 :: ds' ++ rest) s0)
                    = Ok (VInteger (decimal_value (d0 :: ds')))
                        (at_ (pre ++ d0 :: ds') rest s0)).
  { pose proof (decimal_integer_run fuel' [] (d0 :: ds') rest pre s0) as Hrun.
    rewrite (decimal_digits_of_digits _ ds_digits) in Hrun.
    cbn [app hd signed] in Hrun. apply Hrun.
    - left. reflexivity.
    - revert ds_digits. apply forallb_impl. intros c Hc. apply (digit_facts c Hc).
    - discriminate.
    - intros _. exact ds_plain.
    - exact Hend.
    - cbn [length] in *. lia.
    - pose proof (decimal_value_nonneg _ ds_digits). unfold INT64_MIN. lia. }
  assert (Hx : match rest with
               | x :: _ => isdigit x = false /\ (x =? "-")%char = false
                           /\ (x =? ":")%char = false
               | [] => True
               end).
  { destruct rest as [|x rest']; [exact I|]. cbn [ends_value] in Hrest.
    destruct (terminator_facts x Hrest) as (_ & _ & Hdg & Hm & Hcl). auto. }
  unfold parse_datetime_or_number. run. rewrite Hd0. run.
  match goal with
  | |- context [10 <=? to_size_t ?d] =>
      destruct (10 <=? to_size_t d) eqn:Edate;
      [apply Z.leb_le in Edate; pose proof (to_size_t_le d) as Hsize|]
  end.
  - destruct ds' as [|d1 [|d2 [|d3 [|d4 ds5]]]];
      try (destruct rest as [|x rest']; [cbn [length app] in Edate, Hsize; lia|];
           destruct Hx as (Hxd & Hxm & Hxc));
      cbn [forallb] in Hds'; digits_split Hds'; char_facts; cbn [app] in *;
      use_facts; exact Hnumber.
  - run.
    match goal with
    | |- context [8 <=? to_size_t ?d] =>
        destruct (8 <=? to_size_t d) eqn:Etime;
        [apply Z.leb_le in Etime; pose proof (to_size_t_le d) as Hsize|]
    end.
    + destruct ds' as [|d1 [|d2 ds3]];
        try (destruct rest as [|x rest']; [cbn [length app] in Etime, Hsize; lia|];
             destruct Hx as (Hxd & Hxm & Hxc));
        cbn [forallb] in Hds'; digits_split Hds'; char_facts; cbn [app] in *;
        use_facts; exact Hnumber.
    + run. exact Hnumber.
Qed.

Lemma key_value_pair_run (table : loc) (pre : list ascii) (fuel : nat) s0 :
  (length key + length ds + 2 < fuel)%nat ->
  parse_key_value_pair fuel table (at_ pre (key ++ b1 ++ "="%char :: b2 ++ ds) s0)
  = Ok tt
      (at_ (pre ++ key ++ b1 ++ "="%char :: b2 ++ ds) []
         (with_table_set table (string_of_list_ascii key)
            (VInteger (decimal_value ds)) s0)).
Proof.
  intros Hfuel. unfold parse_key_value_pair.
  rewrite bind_run, dotted_key_run by lia. run.
  rewrite skip_whitespace_no_nl_stays by reflexivity. run.
  assert (Hstop : stops simd_utils.is_whitespace_no_nl ds = true).
  { destruct ds as [|d0 ds']; [reflexivity|].
    pose proof ds_digits as Hall. cbn [forallb] in Hall.
    apply andb_true_iff in Hall as [Hd0 _].
    cbn [stops]. destruct (digit_facts d0 Hd0) as (Hws & _). rewrite Hws. reflexivity. }
  rewrite skip_whitespace_no_nl_run; [|apply blanks_are_white, b2_blank|exact Hstop].
  run. replace ds with (ds ++ []) at 1 by apply app_nil_r.
  rewrite integer_value_run by (try reflexivity; lia). run.
  unfold skip_comment. run.
  unfold set_value_at_path. cbn [last removelast set_value_loop]. run.
  rewrite Table_set_with. f_equal. unfold at_, with_table_set, with_tables, with_buffer.
  cbn. f_equal; norm_app; reflexivity.
Qed.

Lemma skip_whitespace_stays (rest pre : list ascii) s0 :
  stops simd_utils.is_whitespace rest = true ->
  skip_whitespace (at_ pre rest s0) = Ok tt (at_ pre rest s0).
Proof.
  intros Hrest.
  pose proof (skip_whitespace_run [] rest pre s0 eq_refl Hrest) as Hrun.
  cbn [app] in Hrun. rewrite app_nil_r in Hrun. exact Hrun.
Qed.

Lemma document_run (table : loc) (fuel : nat) s0 :
  current_table_ s0 = Some table ->
  (length key + length ds + 3 <= fuel)%nat ->
  parse_document fuel (at_ [] (key ++ b1 ++ "="%char :: b2 ++ ds) s0)
  = Ok tt
      (at_ (key ++ b1 ++ "="%char :: b2 ++ ds) []
         (with_table_set table (string_of_list_ascii key)
            (VInteger (decimal_value ds)) s0)).
Proof.
  intros Htable Hfuel.
  pose proof (key_value_pair_run table [] fuel s0) as Hpair.
  destruct key as [|k0 key'] eqn:Ekey; [contradiction|].
  pose proof key_bare as Hall. cbn [forallb] in Hall.
  apply andb_true_iff in Hall as [Hk0 _].
  destruct (bare_key_char_facts k0 Hk0) as (Hws & _ & _ & _ & Hhash & Hbr & _).
  unfold parse_document. cbn [app] in Hpair |- *.
  rewrite bind_run, skip_whitespace_stays by (cbn [stops]; rewrite Hws; reflexivity).
  destruct fuel as [|[|fuel']]; [cbn [length] in Hfuel; lia|cbn [length] in Hfuel; lia|].
  cbn [iter]. run.
  rewrite skip_whitespace_stays by (cbn [stops]; rewrite Hws; reflexivity).
  run. rewrite Hhash, Hbr. run.
  replace (current_table_ (at_ [] (k0 :: key' ++ b1 ++ "="%char :: b2 ++ ds) s0))
    with (Some table) by (symmetry; exact Htable).
  run. rewrite Hpair by (cbn [length] in *; lia). run.
  rewrite skip_whitespace_stays by reflexivity. run.
  reflexivity.
Qed.

End OneAssignment.

Section OneAssignmentParsed.
Context `{FloatOps}.

(** X19.  A document that is one assignment [key = digits], with a bare
    key, spaces or tabs around the equals sign, and a decimal integer
    without leading zero that fits 64 bits, is parsed without error to a
    new root Table with one entry: the key, bound to the Integer that the
    digits denote. *)
Theorem key_value_document (fuel : nat) (key b1 b2 ds : list ascii) (s : Parser) :
  key <> [] -> forallb is_bare_key_char key = true ->
  forallb is_blank b1 = true -> forallb is_blank b2 = true ->
  ds <> [] -> forallb isdigit ds = true -> leading_zero ds = false ->
  decimal_value ds <= INT64_MAX ->
  (length key + length ds + 3 <= fuel)%nat ->
  exists s',
    parse fuel (string_of_list_ascii (key ++ b1 ++ "="%char :: b2 ++ ds)) s
    = Ok (Some (next_ s)) s'
    /\ get_error s' = ""%string
    /\ table_at s' (next_ s)
       = {[ string_of_list_ascii key := VInteger (decimal_value ds) ]}.
Proof.
  intros Hkey Hbare Hb1 Hb2 Hds Hdigits Hplain Hfits Hfuel.
  rewrite parse_run. cbv zeta. rewrite list_ascii_of_string_of_list_ascii.
  rewrite control_scan_passes.
  2:{ rewrite !forallb_app. cbn [forallb]. rewrite !forallb_app.
      repeat (apply andb_true_iff; split); try reflexivity.
      - revert Hbare. apply forallb_impl. intros c Hc.
        destruct (bare_key_char_facts c Hc) as (_ & _ & _ & _ & _ & _ & Hcr & Hctl).
        rewrite Hcr, Hctl. reflexivity.
      - revert Hb1. apply forallb_impl. intros c Hc.
        destruct (blank_facts c Hc) as (_ & _ & Hcr & Hctl).
        rewrite Hcr, Hctl. reflexivity.
      - revert Hb2. apply forallb_impl. intros c Hc.
        destruct (blank_facts c Hc) as (_ & _ & Hcr & Hctl).
        rewrite Hcr, Hctl. reflexivity.
      - revert Hdigits. apply forallb_impl. intros c Hc.
        destruct (digit_facts c Hc) as (_ & Hkc & _).
        destruct (bare_key_char_facts c Hkc) as (_ & _ & _ & _ & _ & _ & Hcr & Hctl).
        rewrite Hcr, Hctl. reflexivity. }
  set (doc := key ++ b1 ++ "="%char :: b2 ++ ds).
  set (s0 := with_paths ∅ (with_reported [] (with_error "" s))).
  set (s1 := with_current_table (Some (next_ s)) (with_root (next_ s) (with_new_table s0))).
  change (with_current_table (Some (next_ s))
            (with_root (next_ s)
               (with_new_table (with_buffer doc 0 (Z.of_nat (length doc)) s0))))
    with (at_ [] doc s1).
  rewrite bind_run. unfold try_parse_document. subst doc.
  rewrite (document_run key b1 b2 ds Hkey Hbare Hb1 Hb2 Hds Hdigits Hplain Hfits
             (next_ s) fuel s1 eq_refl Hfuel).
  cbv beta iota. cbn [negb]. unfold has_error. rewrite bind_run, gets_run.
  cbv beta iota.
  change (error_message_
            (at_ (key ++ b1 ++ "="%char :: b2 ++ ds) []
               (with_table_set (next_ s) (string_of_list_ascii key)
                  (VInteger (decimal_value ds)) s1)))
    with ""%string.
  cbn [String.eqb negb]. rewrite bind_run, gets_run. cbv beta iota. rewrite ret_run.
  eexists. split; [reflexivity|]. split; [reflexivity|].
  change (table_at
            (at_ (key ++ b1 ++ "="%char :: b2 ++ ds) []
               (with_table_set (next_ s) (string_of_list_ascii key)
                  (VInteger (decimal_value ds)) s1)) (next_ s))
    with (table_at
            (with_table_set (next_ s) (string_of_list_ascii key)
               (VInteger (decimal_value ds)) (with_new_table s0)) (next_ s)).
  rewrite table_at_table_set, decide_True by reflexivity.
  rewrite table_at_new_table, decide_True by reflexivity.
  apply insert_empty.
Qed.

End OneAssignmentParsed.

Lemma key_value_document_witness :
  exists s',
    parse 11 "port = 8080" (@TomlParser text_floats) = Ok (Some 1%nat) s'
    /\ get_error s' = ""%string
    /\ table_at s' 1%nat = {[ "port"%string := VInteger 8080 ]}.
Proof.
  apply (@key_value_document text_floats 11 (list_ascii_of_string "port") [" "%char]
           [" "%char] (list_ascii_of_string "8080") TomlParser).
  - discriminate.
  - reflexivity.
  - reflexivity.
  - reflexivity.
  - discriminate.
  - reflexivity.
  - reflexivity.
  - vm_compute. discriminate.
  - cbn. lia.
Defined.

(** ** Arrays of integers *)

Lemma elements_text_length (more : list (list ascii * list ascii)) :
  (length more <= length (elements_text more))%nat.
Proof.
  induction more as [|[ws ds] more IH]; [reflexivity|].
  cbn [elements_text length]. rewrite !length_app. lia.
Qed.

Lemma digit_starts_value (c : ascii) :
  isdigit c = true ->
  simd_utils.is_whitespace c = false /\ (c =? "]")%char = false
  /\ (c =? "#")%char = false /\ (c =? ",")%char = false.
Proof.
  destruct c as [[] [] [] [] [] [] [] []]; vm_compute; intros Hc;
    first [discriminate Hc | repeat split].
Qed.

Section ArrayOfIntegers.
Context `{FloatOps}.

Lemma iter_step {L R} (k : nat) (body : L -> M (L + R)) (l : L) :
  (0 < k)%nat ->
  iter k body l
  = (x <- body l ;;
     match x with
     | inl l' => iter (k - 1) body l'
     | inr r => ret r
     end).
Proof.
  intros Hk. destruct k; [lia|]. cbn [iter]. replace (S k - 1)%nat with k by lia.
  reflexivity.
Qed.

Lemma skip_comment_stays (fuel : nat) (rest pre : list ascii) s0 :
  stops (fun c => (c =? "#")%char) rest = true ->
  skip_comment fuel (at_ pre rest s0) = Ok tt (at_ pre rest s0).
Proof.
  intros Hrest. unfold skip_comment. destruct rest as [|c rest']; run; [reflexivity|].
  cbn [stops] in Hrest. apply negb_true_iff in Hrest. rewrite Hrest. reflexivity.
Qed.

Lemma plain_integer_starts (ds rest : list ascii) :
  plain_integer ds ->
  exists d0 ds', ds = d0 :: ds' /\ isdigit d0 = true
    /\ stops simd_utils.is_whitespace (ds ++ rest) = true
    /\ stops (fun c => (c =? "#")%char) (ds ++ rest) = true.
Proof.
  intros (Hne & Hdigits & _). destruct ds as [|d0 ds']; [contradiction|].
  cbn [forallb] in Hdigits. apply andb_true_iff in Hdigits as [Hd0 _].
  destruct (digit_starts_value d0 Hd0) as (Hws & _ & Hhash & _).
  exists d0, ds'. cbn [app stops]. rewrite Hws, Hhash. auto.
Qed.

Lemma integer_array_run (fuel : nat) (ws ds : list ascii)
    (more : list (list ascii * list ascii)) (rest pre : list ascii) s0 :
  integer_item (ws, ds) -> Forall integer_item more ->
  (length (array_text ((ws, ds) :: more)) + 1 < fuel)%nat ->
  parse_array_with fuel (parse_value fuel)
    (at_ pre (array_text ((ws, ds) :: more) ++ rest) s0)
  = Ok (next_ s0)
      (at_ (pre ++ array_text ((ws, ds) :: more)) rest
         (fold_left (appended (next_ s0)) (ds :: map snd more) (with_new_array s0))).
Proof.
  intros [Hws Hds] Hmore Hfuel. cbn [fst snd] in Hws, Hds.
  unfold array_text in *. cbn [app length] in Hfuel |- *.
  rewrite !length_app in Hfuel. cbn [length] in Hfuel.
  unfold parse_array_with. run.
  destruct (plain_integer_starts ds (elements_text more ++ ["]"%char] ++ rest) Hds)
    as (d0 & ds' & Eds & Hd0 & Hstop & Hnocomment).
  rewrite <- !app_assoc.
  rewrite skip_whitespace_run by assumption. run.
  rewrite skip_comment_stays by assumption. run.
  rewrite make_shared_Array_run. cbv beta iota zeta.
  change (next_ (at_ ((pre ++ ["["%char]) ++ ws)
                   (ds ++ elements_text more ++ ["]"%char] ++ rest) s0))
    with (next_ s0).
  change (with_new_array
            (at_ ((pre ++ ["["%char]) ++ ws)
               (ds ++ elements_text more ++ ["]"%char] ++ rest) s0))
    with (at_ ((pre ++ ["["%char]) ++ ws)
            (ds ++ elements_text more ++ ["]"%char] ++ rest) (with_new_array s0)).
  destruct (digit_starts_value d0 Hd0) as (_ & Hclose & _ & _).
  assert (Hpeek : peek_is "]" (at_ ((pre ++ ["["%char]) ++ ws)
                    (ds ++ elements_text more ++ ["]"%char] ++ rest) (with_new_array s0))
                  = Ok false (at_ ((pre ++ ["["%char]) ++ ws)
                    (ds ++ elements_text more ++ ["]"%char] ++ rest) (with_new_array s0))).
  { rewrite Eds. cbn [app]. rewrite peek_is_cons, Hclose. reflexivity. }
  rewrite bind_run, Hpeek. cbv beta iota.
  match goal with
  | |- context [iter fuel ?r tt] => set (round := r)
  end.
  assert (Hloop : forall (more : list (list ascii * list ascii)) (ds pre : list ascii)
                         (s : Parser) (k : nat),
            plain_integer ds -> Forall integer_item more ->
            (length more + 2 <= k)%nat ->
            (length (ds ++ elements_text more) + 1 < fuel)%nat ->
            iter k round tt (at_ pre (ds ++ elements_text more ++ "]"%char :: rest) s)
            = Ok tt
                (at_ (pre ++ ds ++ elements_text more) ("]"%char :: rest)
                   (fold_left (appended (next_ s0)) (ds :: map snd more) s))).
  { clear - Hfuel. intros more1.
    induction more1 as [|[ws2 ds2] more1 IH]; intros ds1 pre1 s k Hds1 Hmore1 Hk Hlen.
    - cbn [elements_text app map fold_left length] in *. rewrite app_nil_r in *.
      destruct (plain_integer_starts ds1 ("]"%char :: rest) Hds1)
        as (d0 & ds' & Eds & Hd0 & Hstop & Hnocomment).
      destruct Hds1 as (Hne & Hdigits & Hplain & Hfits). subst ds1.
      destruct (digit_starts_value d0 Hd0) as (Hws0 & Hclose & Hhash & Hcomma).
      rewrite iter_step by lia. unfold round at 1.
      cbn [app]. run. rewrite iter_step by lia. run.
      rewrite skip_whitespace_stays by exact Hstop. run.
      rewrite Hclose, Hhash. run.
      change (at_ pre1 (d0 :: ds' ++ "]"%char :: rest) s)
        with (at_ pre1 ((d0 :: ds') ++ "]"%char :: rest) s).
      rewrite (integer_value_run (d0 :: ds') Hne Hdigits Hplain Hfits)
        by (try reflexivity; lia).
      run. rewrite Array_append_with.
      change (with_array_append (next_ s0) (VInteger (decimal_value (d0 :: ds')))
                (at_ (pre1 ++ d0 :: ds') ("]"%char :: rest) s))
        with (at_ (pre1 ++ d0 :: ds') ("]"%char :: rest)
                (appended (next_ s0) s (d0 :: ds'))).
      run. rewrite skip_whitespace_stays by reflexivity. run.
      rewrite skip_comment_stays by reflexivity. run.
      rewrite skip_whitespace_stays by reflexivity. run.
      rewrite iter_step by lia. unfold round at 1. run.
      rewrite iter_step by lia. run.
      rewrite skip_whitespace_stays by reflexivity. run.
      reflexivity.
    - inversion Hmore1 as [|item items [Hws2 Hds2] Hmore2]; subst item items.
      cbn [fst snd] in Hws2, Hds2.
      cbn [elements_text map fold_left length] in *.
      rewrite !length_app in Hlen. cbn [length] in Hlen. rewrite !length_app in Hlen.
      destruct (plain_integer_starts ds1
                  (("," :: ws2 ++ ds2 ++ elements_text more1) ++ "]" :: rest)%char Hds1)
        as (d0 & ds' & Eds & Hd0 & Hstop & Hnocomment).
      destruct (plain_integer_starts ds2 (elements_text more1 ++ "]"%char :: rest) Hds2)
        as (e0 & es' & Ees & He0 & Hstop2 & Hnocomment2).
      destruct Hds1 as (Hne & Hdigits & Hplain & Hfits). subst ds1.
      destruct (digit_starts_value d0 Hd0) as (Hws0 & Hclose & Hhash & Hcomma).
      rewrite iter_step by lia. unfold round at 1.
      cbn [app]. run. rewrite iter_step by lia. run.
      rewrite skip_whitespace_stays by exact Hstop. run.
      rewrite Hclose, Hhash. run.
      match goal with
      | |- context [parse_value fuel (at_ pre1 (d0 :: ds' ++ ?tail) s)] =>
          change (at_ pre1 (d0 :: ds' ++ tail) s)
            with (at_ pre1 ((d0 :: ds') ++ tail) s)
      end.
      rewrite (integer_value_run (d0 :: ds') Hne Hdigits Hplain Hfits)
        by (try reflexivity; cbn [length] in *; lia).
      run. rewrite Array_append_with.
      match goal with
      | |- context [with_array_append ?a ?v (at_ ?P ?R s)] =>
          change (with_array_append a v (at_ P R s))
            with (at_ P R (appended (next_ s0) s (d0 :: ds')))
      end.
      run. rewrite skip_whitespace_stays by reflexivity. run.
      rewrite skip_comment_stays by reflexivity. run.
      rewrite skip_whitespace_stays by reflexivity. run.
      rewrite <- !app_assoc.
      rewrite skip_whitespace_run by assumption. run.
      rewrite skip_comment_stays by assumption. run.
      rewrite IH; [|exact Hds2|exact Hmore2|lia|rewrite length_app; lia].
      f_equal. f_equal. norm_app. reflexivity. }
  clearbody round. pose proof (elements_text_length more) as Hcount.
  rewrite bind_run. cbn [app].
  rewrite Hloop; [|exact Hds|exact Hmore|lia|rewrite length_app; lia].
  run. f_equal. f_equal. norm_app. reflexivity.
Qed.

Lemma array_at_appended (a : loc) (dss : list (list ascii)) :
  forall s,
    array_at (fold_left (appended a) dss s) a
    = array_at s a ++ map (fun ds => VInteger (decimal_value ds)) dss.
Proof.
  induction dss as [|ds dss IH]; intros s; cbn [fold_left map].
  - rewrite app_nil_r. reflexivity.
  - rewrite IH. unfold appended. rewrite array_at_array_append.
    rewrite decide_True by reflexivity. rewrite <- app_assoc. reflexivity.
Qed.

Lemma appended_keeps (a : loc) (dss : list (list ascii)) :
  forall s,
    error_message_ (fold_left (appended a) dss s) = error_message_ s
    /\ tables_ (fold_left (appended a) dss s) = tables_ s.
Proof.
  induction dss as [|ds dss IH]; intros s; cbn [fold_left]; [auto|].
  destruct (IH (appended a s ds)) as [-> ->]. auto.
Qed.

(** X20.  An array of decimal integers, each after any white space and
    the first closing bracket right behind the last one, is read to a new
    Array that holds the Integers in the order in which they are
    written; the cursor ends behind the bracket, and neither the error
    nor any Table changes. *)
Theorem array_of_integers (fuel : nat) (items : list (list ascii * list ascii))
    (rest pre : list ascii) (s0 : Parser) :
  Forall integer_item items ->
  (length (array_text items) + 2 < fuel)%nat ->
  exists s',
    parse_value fuel (at_ pre (array_text items ++ rest) s0)
    = Ok (VArrayPtr (next_ s0)) (at_ (pre ++ array_text items) rest s')
    /\ array_at s' (next_ s0)
       = map (fun item => VInteger (decimal_value (snd item))) items
    /\ get_error s' = get_error s0 /\ tables_ s' = tables_ s0.
Proof.
  intros Hitems Hfuel. destruct fuel as [|fuel']; [lia|].
  cbn [parse_value]. unfold parse_value_with.
  destruct items as [|[ws ds] more].
  - exists (with_new_array s0). split; [|split; [|split; reflexivity]].
    + unfold array_text. cbn [app].
      rewrite bind_run, skip_whitespace_no_nl_stays by reflexivity. run.
      unfold parse_array_with. run.
      rewrite skip_whitespace_stays by reflexivity. run.
      rewrite skip_comment_stays by reflexivity. run.
      rewrite make_shared_Array_run. cbv beta iota zeta.
      change (with_new_array (at_ (pre ++ ["["%char]) ("]"%char :: rest) s0))
        with (at_ (pre ++ ["["%char]) ("]"%char :: rest) (with_new_array s0)).
      run. f_equal. norm_app. reflexivity.
    + rewrite array_at_new_array, decide_True by reflexivity. reflexivity.
  - inversion Hitems as [|item items' Hitem Hmore]; subst item items'.
    exists (fold_left (appended (next_ s0)) (ds :: map snd more) (with_new_array s0)).
    split; [|split].
    + pose proof (integer_array_run fuel' ws ds more rest pre s0 Hitem Hmore) as Hrun.
      unfold array_text in Hrun |- *. cbn [app] in Hrun |- *.
      rewrite bind_run, skip_whitespace_no_nl_stays by reflexivity. run.
      rewrite Hrun by (unfold array_text in Hfuel; cbn [app length] in Hfuel |- *; lia).
      reflexivity.
    + rewrite array_at_appended, array_at_new_array, decide_True by reflexivity.
      cbn [app map snd]. f_equal. rewrite map_map. reflexivity.
    + unfold get_error.
      destruct (appended_keeps (next_ s0) (ds :: map snd more) (with_new_array s0))
        as [-> ->]. split; reflexivity.
Qed.

End ArrayOfIntegers.

Lemma array_of_integers_witness :
  exists s',
    parse_value 20 (at_ [] (list_ascii_of_string "[1, 20,300]") (@TomlParser text_floats))
    = Ok (VArrayPtr 1%nat) (at_ (list_ascii_of_string "[1, 20,300]") [] s')
    /\ array_at s' 1%nat = [VInteger 1; VInteger 20; VInteger 300].
Proof.
  destruct (@array_of_integers text_floats 20
              [([], ["1"%char]); ([" "%char], list_ascii_of_string "20");
               ([], list_ascii_of_string "300")] [] [] TomlParser)
    as (s' & Hrun & Harray & _).
  - repeat constructor; try discriminate; vm_compute; discriminate.
  - cbn. lia.
  - exists s'. split; [exact Hrun|exact Harray].
Defined.

(** ** Inline tables of integers *)

Lemma bare_key_char_in_table (c : ascii) :
  is_bare_key_char c = true ->
  (c =? "}")%char = false /\ (c =? ",")%char = false
  /\ simd_utils.is_whitespace_no_nl c = false.
Proof.
  destruct c as [[] [] [] [] [] [] [] []]; vm_compute; intros Hc;
    first [discriminate Hc | repeat split].
Qed.

Section InlineTables.
Context `{FloatOps}.

Lemma eof_before_key (key rest pre : list ascii) s :
  key <> [] -> eof (at_ pre (key ++ rest) s) = Ok false (at_ pre (key ++ rest) s).
Proof. intros Hkey. destruct key as [|c key]; [contradiction|]. apply eof_cons. Qed.

Lemma peek_is_before_key (x : ascii) (key rest pre : list ascii) s :
  key <> [] -> forallb (fun c => negb (c =? x)%char) key = true ->
  peek_is x (at_ pre (key ++ rest) s) = Ok false (at_ pre (key ++ rest) s).
Proof.
  intros Hkey Hall. destruct key as [|c key]; [contradiction|].
  cbn [forallb] in Hall. apply andb_true_iff in Hall as [Hc _].
  apply negb_true_iff in Hc. cbn [app]. rewrite peek_is_cons, Hc. reflexivity.
Qed.

Lemma key_is_no_brace (key : list ascii) :
  forallb is_bare_key_char key = true ->
  forallb (fun c => negb (c =? "}")%char) key = true.
Proof.
  apply forallb_impl. intros c Hc.
  destruct (bare_key_char_in_table c Hc) as (Hb & _). rewrite Hb. reflexivity.
Qed.

Lemma key_stops_blanks (key rest : list ascii) :
  key <> [] -> forallb is_bare_key_char key = true ->
  stops simd_utils.is_whitespace_no_nl (key ++ rest) = true.
Proof.
  intros Hkey Hall. destruct key as [|c key]; [contradiction|].
  cbn [forallb] in Hall. apply andb_true_iff in Hall as [Hc _].
  destruct (bare_key_char_in_table c Hc) as (_ & _ & Hws).
  cbn [app stops]. rewrite Hws. reflexivity.
Qed.

Lemma digits_stop_blanks (ds rest : list ascii) :
  ds <> [] -> forallb isdigit ds = true ->
  stops simd_utils.is_whitespace_no_nl (ds ++ rest) = true.
Proof.
  intros Hne Hall. destruct ds as [|c ds]; [contradiction|].
  cbn [forallb] in Hall. apply andb_true_iff in Hall as [Hc _].
  destruct (digit_facts c Hc) as (Hws & _).
  cbn [app stops]. rewrite Hws. reflexivity.
Qed.

Lemma set_single_key_run (t : loc) (key : string) (v : TomlValue) (pre rest : list ascii) s :
  set_value_at_path t [key] v (at_ pre rest s)
  = Ok tt (at_ pre rest (with_table_set t key v s)).
Proof.
  unfold set_value_at_path. cbn [last removelast set_value_loop]. run.
  rewrite Table_set_with. reflexivity.
Qed.

Lemma table_at_assigned (t : loc) (items : list Assignment) :
  forall s,
    table_at (fold_left (assigned t) items s) t = fold_left bound items (table_at s t).
Proof.
  induction items as [|e items IH]; intros s; cbn [fold_left]; [reflexivity|].
  rewrite IH. unfold assigned. rewrite table_at_table_set, decide_True by reflexivity.
  reflexivity.
Qed.

Lemma assigned_keeps (t : loc) (items : list Assignment) :
  forall s, error_message_ (fold_left (assigned t) items s) = error_message_ s.
Proof.
  induction items as [|e items IH]; intros s; cbn [fold_left]; [reflexivity|].
  rewrite IH. reflexivity.
Qed.

Lemma inline_table_run (fuel : nat) (e : Assignment) (more : list Assignment)
    (rest pre : list ascii) s0 :
  plain_assignment e -> Forall plain_assignment more ->
  (length (inline_table_text (e :: more)) + 1 < fuel)%nat ->
  parse_inline_table_with fuel (parse_value fuel)
    (at_ pre (inline_table_text (e :: more) ++ rest) s0)
  = Ok (next_ s0)
      (at_ (pre ++ inline_table_text (e :: more)) rest
         (fold_left (assigned (next_ s0)) (e :: more) (with_new_table s0))).
Proof.
  intros (Hlead & Hname & Hbare & Hb1 & Hb2 & Hds) Hmore Hfuel.
  unfold inline_table_text in *. cbn [app length] in Hfuel |- *.
  rewrite !length_app in Hfuel. cbn [length] in Hfuel.
  unfold parse_inline_table_with. run.
  unfold assignment_text at 1. rewrite <- !app_assoc.
  rewrite skip_whitespace_no_nl_run;
    [|apply blanks_are_white, Hlead|apply key_stops_blanks; assumption].
  run. rewrite make_shared_Table_run. cbv beta iota zeta. norm_app.
  match goal with
  | |- context [with_new_table (at_ ?P ?R s0)] =>
      change (next_ (at_ P R s0)) with (next_ s0);
      change (with_new_table (at_ P R s0)) with (at_ P R (with_new_table s0))
  end.
  rewrite bind_run, peek_is_before_key by (try assumption; apply key_is_no_brace, Hbare).
  cbv beta iota.
  match goal with
  | |- context [iter fuel ?r tt] => set (round := r)
  end.
  assert (Hloop : forall (more1 : list Assignment) (e1 : Assignment) (pre1 : list ascii)
                         (s : Parser) (k : nat),
            plain_assignment e1 -> Forall plain_assignment more1 ->
            (length more1 + 1 <= k)%nat ->
            (length (assignment_text e1 ++ assignments_text more1) + 1 < fuel)%nat ->
            iter k round tt
              (at_ pre1
                 (name e1 ++ before_equals e1 ++ "="%char :: after_equals e1
                  ++ digits e1 ++ assignments_text more1 ++ "}"%char :: rest) s)
            = Ok tt
                (at_ (pre1 ++ assignment_text e1 ++ assignments_text more1)
                   ("}"%char :: rest)
                   (fold_left (assigned (next_ s0)) (e1 :: more1) s))).
  { clear. intros more1.
    induction more1 as [|e2 more1 IH]; intros e1 pre1 s k He1 Hmore1 Hk Hlen;
      destruct He1 as (Hlead & Hname & Hbare & Hb1 & Hb2 & Hne & Hdigits & Hplain & Hfits);
      unfold assignment_text in Hlen |- *;
      cbn [assignments_text length fold_left] in *;
      rewrite ?length_app in Hlen; cbn [length] in Hlen; rewrite ?length_app in Hlen.
    - rewrite iter_step by lia. unfold round at 1.
      do 2 rewrite bind_run. rewrite eof_before_key by exact Hname. cbv beta iota.
      rewrite bind_run, dotted_key_run by (try assumption; lia). cbv beta iota.
      rewrite bind_run, skip_whitespace_no_nl_stays by reflexivity. run.
      cbn [app].
      rewrite skip_whitespace_no_nl_run;
        [|apply blanks_are_white, Hb2|apply digits_stop_blanks; assumption].
      run. rewrite (integer_value_run (digits e1) Hne Hdigits Hplain Hfits)
        by (try reflexivity; lia).
      run. rewrite set_single_key_run. run.
      rewrite skip_whitespace_no_nl_stays by reflexivity. run.
      f_equal. unfold assigned. f_equal. norm_app. rewrite ?app_nil_r. reflexivity.
    - inversion Hmore1 as [|item items He2 Hmore2]; subst item items.
      pose proof He2 as (Hlead2 & Hname2 & Hbare2 & _).
      rewrite iter_step by lia. unfold round at 1.
      do 2 rewrite bind_run. rewrite eof_before_key by exact Hname. cbv beta iota.
      rewrite bind_run, dotted_key_run by (try assumption; lia). cbv beta iota.
      rewrite bind_run, skip_whitespace_no_nl_stays by reflexivity. run.
      rewrite skip_whitespace_no_nl_run;
        [|apply blanks_are_white, Hb2|apply digits_stop_blanks; assumption].
      run. cbn [app].
      rewrite (integer_value_run (digits e1) Hne Hdigits Hplain Hfits)
        by (try reflexivity; lia).
      run. rewrite set_single_key_run. run.
      rewrite skip_whitespace_no_nl_stays by reflexivity. run.
      unfold assignment_text at 1. rewrite <- !app_assoc.
      rewrite skip_whitespace_no_nl_run;
        [|apply blanks_are_white, Hlead2|apply key_stops_blanks; assumption].
      run. cbn [app]. rewrite <- !app_assoc.
      rewrite IH; [|exact He2|exact Hmore2|lia|rewrite length_app; lia].
      f_equal. f_equal. unfold assignment_text. norm_app. reflexivity. }
  clearbody round.
  assert (Hcount : (length more <= length (assignments_text more))%nat).
  { clear. induction more as [|e2 more IH]; [reflexivity|].
    cbn [assignments_text length]. rewrite !length_app. lia. }
  rewrite bind_run.
  rewrite Hloop;
    [|exact (conj Hlead (conj Hname (conj Hbare (conj Hb1 (conj Hb2 Hds)))))
     |exact Hmore|lia|rewrite length_app; lia].
  run. f_equal. f_equal. unfold assignment_text. norm_app. reflexivity.
Qed.

(** X21.  An inline table of assignments [key = digits], with bare keys
    and decimal integers, blanks before a key and around an equals sign,
    a comma between two assignments and the closing brace right behind
    the last one (or the empty table), is read to a new Table.  Its
    entries are the assignments made in the order in which they are
    written: a key that is assigned twice keeps the later Integer, and no
    error is recorded for it. *)
Theorem inline_table_of_integers (fuel : nat) (items : list Assignment)
    (rest pre : list ascii) (s0 : Parser) :
  Forall plain_assignment items ->
  (length (inline_table_text items) + 2 < fuel)%nat ->
  exists s',
    parse_value fuel (at_ pre (inline_table_text items ++ rest) s0)
    = Ok (VTablePtr (next_ s0)) (at_ (pre ++ inline_table_text items) rest s')
    /\ table_at s' (next_ s0) = fold_left bound items ∅
    /\ get_error s' = get_error s0.
Proof.
  intros Hitems Hfuel. destruct fuel as [|fuel']; [lia|].
  cbn [parse_value]. unfold parse_value_with.
  destruct items as [|e more].
  - exists (with_new_table s0). split; [|split; [|reflexivity]].
    + unfold inline_table_text. cbn [app].
      rewrite bind_run, skip_whitespace_no_nl_stays by reflexivity. run.
      unfold parse_inline_table_with. run.
      rewrite skip_whitespace_no_nl_stays by reflexivity. run.
      rewrite make_shared_Table_run. cbv beta iota zeta.
      change (with_new_table (at_ (pre ++ ["{"%char]) ("}"%char :: rest) s0))
        with (at_ (pre ++ ["{"%char]) ("}"%char :: rest) (with_new_table s0)).
      run. f_equal. norm_app. reflexivity.
    + rewrite table_at_new_table, decide_True by reflexivity. reflexivity.
  - inversion Hitems as [|item items' He Hmore]; subst item items'.
    exists (fold_left (assigned (next_ s0)) (e :: more) (with_new_table s0)).
    split; [|split].
    + pose proof (inline_table_run fuel' e more rest pre s0 He Hmore) as Hrun.
      unfold inline_table_text in Hrun, Hfuel |- *. cbn [app] in Hrun, Hfuel |- *.
      rewrite bind_run, skip_whitespace_no_nl_stays by reflexivity. run.
      rewrite Hrun by (cbn [length] in Hfuel |- *; lia).
      reflexivity.
    + rewrite table_at_assigned, table_at_new_table, decide_True by reflexivity.
      reflexivity.
    + unfold get_error. rewrite assigned_keeps. reflexivity.
Qed.

End InlineTables.

Lemma inline_table_of_integers_witness :
  exists s',
    parse_value 30
      (at_ [] (list_ascii_of_string "{a = 1, b=2, a = 3}") (@TomlParser text_floats))
    = Ok (VTablePtr 1%nat) (at_ (list_ascii_of_string "{a = 1, b=2, a = 3}") [] s')
    /\ table_at s' 1%nat
       = <["a"%string := VInteger 3]> (<["b"%string := VInteger 2]> ∅)
    /\ get_error s' = ""%string.
Proof.
  destruct (@inline_table_of_integers text_floats 30
              [ {| lead := []; name := ["a"%char]; before_equals := [" "%char];
                   after_equals := [" "%char]; digits := ["1"%char] |};
                {| lead := [" "%char]; name := ["b"%char]; before_equals := [];
                   after_equals := []; digits := ["2"%char] |};
                {| lead := [" "%char]; name := ["a"%char]; before_equals := [" "%char];
                   after_equals := [" "%char]; digits := ["3"%char] |} ]
              [] [] TomlParser)
    as (s' & Hrun & Htable & Herr).
  - repeat constructor; try discriminate; vm_compute; discriminate.
  - cbn. lia.
  - exists s'. split; [exact Hrun|]. split; [|exact Herr].
    change (next_ TomlParser) with 1%nat in Htable.
    rewrite Htable. cbn [fold_left]. unfold bound. cbn [name digits string_of_list_ascii].
    change (decimal_value ["1"%char]) with 1. change (decimal_value ["2"%char]) with 2.
    change (decimal_value ["3"%char]) with 3.
    apply map_eq. intros k.
    destruct (decide (k = "a"%string)) as [->|Ha];
      [rewrite lookup_insert_eq; symmetry; apply lookup_insert_eq|].
    rewrite lookup_insert_ne by congruence.
    destruct (decide (k = "b"%string)) as [->|Hb].
    + rewrite lookup_insert_eq. rewrite lookup_insert_ne by discriminate.
      symmetry. apply lookup_insert_eq.
    + rewrite !lookup_insert_ne by congruence.
      reflexivity.
Defined.

(** ** Booleans *)

Section Booleans.
Context `{FloatOps}.

Lemma record_given (e message : string) :
  message <> ""%string -> record e message <> ""%string.
Proof.
  intros Hm. unfold record. destruct (String.eqb_spec e ""); congruence.
Qed.

(** [expect_char] where the expected byte does not stand. *)
Lemma expect_char_other (c : ascii) (l pre : list ascii) s :
  match l with
  | x :: _ => (x =? c)%char = false
  | [] => True
  end ->
  exists message,
    message <> ""%string
    /\ expect_char c (at_ pre l s) = Ok tt (at_ pre l (errored message s)).
Proof.
  intros Hl. unfold expect_char. destruct l as [|x l'].
  - eexists. split; [|run; reflexivity]. discriminate.
  - eexists. split; [|run; rewrite Hl; run; reflexivity]. discriminate.
Qed.

Lemma expect_then_run (keyword : list ascii) (b : bool) :
  forall (l pre : list ascii) s,
  exists s',
    expect_then keyword b (at_ pre l s) = Ok b s'
    /\ (get_error s' = ""%string
        <-> get_error s = ""%string
            /\ exists rest, l = keyword ++ rest /\ s' = at_ (pre ++ keyword) rest s).
Proof.
  induction keyword as [|c keyword IH]; intros l pre s.
  - exists (at_ pre l s). split; [reflexivity|]. split.
    + intros He. split; [exact He|]. exists l. rewrite app_nil_r. auto.
    + intros [He _]. exact He.
  - cbn [expect_then].
    assert (Hfail : forall message,
              message <> ""%string ->
              expect_char c (at_ pre l s) = Ok tt (at_ pre l (errored message s)) ->
              (forall rest, l <> (c :: keyword) ++ rest) ->
              exists s',
                (expect_char c ;; expect_then keyword b) (at_ pre l s) = Ok b s'
                /\ (get_error s' = ""%string
                    <-> get_error s = ""%string
                        /\ exists rest, l = (c :: keyword) ++ rest
                                        /\ s' = at_ (pre ++ c :: keyword) rest s)).
    { intros message Hm Hrun Hno.
      destruct (IH l pre (errored message s)) as (s' & Hrest & Hiff).
      exists s'. rewrite bind_run, Hrun. split; [exact Hrest|]. split.
      - intros He. apply Hiff in He as [He _]. exfalso.
        revert He. apply record_given, Hm.
      - intros (_ & rest & Hl & _). exfalso. exact (Hno rest Hl). }
    destruct l as [|x l'].
    + destruct (expect_char_other c [] pre s I) as (message & Hm & Hrun).
      apply (Hfail message Hm Hrun). intros rest. discriminate.
    + destruct (Ascii.eqb_spec x c) as [->|Hne].
      * destruct (IH l' (pre ++ [c]) s) as (s' & Hrest & Hiff).
        exists s'. rewrite bind_run, expect_char_cons. split; [exact Hrest|].
        rewrite Hiff. split.
        -- intros (He & rest & -> & ->). split; [exact He|]. exists rest.
           split; [reflexivity|]. f_equal. rewrite <- app_assoc. reflexivity.
        -- intros (He & rest & Hl & ->). split; [exact He|]. exists rest.
           cbn [app] in Hl. injection Hl as ->.
           split; [reflexivity|]. f_equal. rewrite <- app_assoc. reflexivity.
      * assert (Hx : (x =? c)%char = false) by (apply Ascii.eqb_neq, Hne).
        destruct (expect_char_other c (x :: l') pre s Hx) as (message & Hm & Hrun).
        apply (Hfail message Hm Hrun). intros rest Hl. cbn [app] in Hl.
        injection Hl as -> _. contradiction.
Qed.

(** X22.  [parse_boolean] returns [true] when the byte at the cursor is
    [t] and [false] otherwise; from a parser without error it records
    none exactly when the bytes at the cursor are [true], or [false], in
    which case it returns that Boolean with the cursor behind the
    keyword and nothing else changed. *)
Theorem boolean_is_exact (l pre : list ascii) (s0 : Parser) :
  get_error s0 = ""%string ->
  exists b s',
    parse_boolean (at_ pre l s0) = Ok b s'
    /\ (b = true <-> exists l', l = "t"%char :: l')
    /\ (get_error s' = ""%string
        <-> exists rest,
              l = list_ascii_of_string (if b then "true" else "false") ++ rest
              /\ s' = at_ (pre ++ list_ascii_of_string (if b then "true" else "false"))
                        rest s0).
Proof.
  intros He0. unfold parse_boolean.
  assert (Hpeek : exists t, peek_is "t" (at_ pre l s0) = Ok t (at_ pre l s0)
                            /\ (t = true <-> exists l', l = "t"%char :: l')).
  { destruct l as [|x l'].
    - exists false. rewrite peek_is_nil. split; [reflexivity|]. split; [discriminate|].
      intros [? ?]. discriminate.
    - exists (x =? "t")%char. rewrite peek_is_cons. split; [reflexivity|]. split.
      + intros Hx. apply Ascii.eqb_eq in Hx as ->. eauto.
      + intros [? [= -> _]]. reflexivity. }
  destruct Hpeek as (t & Hpeek & Ht). rewrite bind_run, Hpeek. cbv beta iota.
  destruct t.
  - change (expect_char "t";; expect_char "r";; expect_char "u";; expect_char "e";;
            ret true)
      with (expect_then (list_ascii_of_string "true") true).
    destruct (expect_then_run (list_ascii_of_string "true") true l pre s0)
      as (s' & Hrun & Hiff).
    exists true, s'. split; [exact Hrun|]. split; [split; [intros _; apply Ht; reflexivity|reflexivity]|].
    rewrite Hiff. split; [intros [_ Hrest]; exact Hrest|intros Hrest; auto].
  - change (expect_char "f";; expect_char "a";; expect_char "l";; expect_char "s";;
            expect_char "e";; ret false)
      with (expect_then (list_ascii_of_string "false") false).
    destruct (expect_then_run (list_ascii_of_string "false") false l pre s0)
      as (s' & Hrun & Hiff).
    exists false, s'. split; [exact Hrun|]. split.
    + split; [discriminate|]. intros Hl. apply Ht in Hl. discriminate.
    + rewrite Hiff. split; [intros [_ Hrest]; exact Hrest|intros Hrest; auto].
Qed.

End Booleans.

Lemma boolean_is_exact_witness :
  exists b s',
    parse_boolean (at_ [] (list_ascii_of_string "true ") (@TomlParser text_floats))
    = Ok b s'
    /\ (b = true <-> exists l', list_ascii_of_string "true " = "t"%char :: l')
    /\ (get_error s' = ""%string
        <-> exists rest,
              list_ascii_of_string "true "
              = list_ascii_of_string (if b then "true" else "false") ++ rest
              /\ s' = at_ ([] ++ list_ascii_of_string (if b then "true" else "false"))
                        rest TomlParser).
Proof.
  apply (@boolean_is_exact text_floats (list_ascii_of_string "true ") [] TomlParser).
  reflexivity.
Defined.
